(** * Grid-based fast Gauss transform KDE (mlpack/kde/fgt_kde.h)

    A shallow embedding of [class FGTKde] and the properties of its
    grid indexing, point assignment, series-expansion routines,
    truncation-order search and normalisation.

    Conventions of the embedding.
    - [index_t] is fastlib's signed index type (declared outside this
      header); its values are embedded in [Z], and its largest value
      [index_max] is a parameter.  Sums, products and casts that the
      code computes once are taken at their exact value, which the
      results about them presuppose to be representable; the counter of
      the truncation-order search, which its loop can drive up to
      [index_max], is checked: incrementing [index_max] overflows, which
      has no defined result.  [/] and [%] on [index_t] truncate, as in
      C++, and a zero divisor has no defined result.
    - [std::vector<T>] is a [list T]: its length is [size()].  [reserve]
      changes the capacity only, so a vector that was merely reserved has
      size 0.  [operator[]] outside [0, size()) has no defined result.
    - [arma::vec] is a list of doubles, [arma::mat] a list of columns
      together with its row count.  An element or column outside the
      bounds has no defined result ([operator[]] does not check, and
      [operator()] and [col] raise).  [m.col(j)] yields a column value;
      [arma::vec v = m.col(j)] therefore makes [v] a fresh object.
    - [double] and its operations are a parameter (class [Arith]); the
      results hold for every interpretation of them.
    - A call has one of three outcomes: it returns, it has no defined
      result, or it is still looping when the iteration budget of the
      embedding is used up. *)

From Stdlib Require Import ZArith List Lia Bool Reals Lra.
From stdpp Require Import base list.
Import ListNotations.
Local Open Scope Z_scope.

(** ** Outcomes *)

Inductive outcome (A : Type) : Type :=
| Ok (a : A)
| Undefined
| Spins.

Arguments Ok {A} a.
Arguments Undefined {A}.
Arguments Spins {A}.

Definition bind {A B : Type} (m : outcome A) (k : A -> outcome B) : outcome B :=
  match m with
  | Ok a => k a
  | Undefined => Undefined
  | Spins => Spins
  end.

Notation "'let*' x ':=' m 'in' k" := (bind m (fun x => k))
  (at level 10, x binder, m at level 100, k at level 200,
   format "'[' 'let*'  x  :=  m  'in' '//' k ']'").

(** ** Vectors *)

Definition size {A : Type} (v : list A) : Z := Z.of_nat (length v).

(** [v[i]] as an rvalue. *)
Definition at_ {A : Type} (v : list A) (i : Z) : outcome A :=
  if i <? 0 then Undefined
  else match v !! Z.to_nat i with
       | Some x => Ok x
       | None => Undefined
       end.

(** [v[i] = x]. *)
Definition put {A : Type} (v : list A) (i : Z) (x : A) : outcome (list A) :=
  if (0 <=? i) && (i <? size v) then Ok (<[Z.to_nat i := x]> v) else Undefined.

(** [std::vector::reserve] on a freshly constructed vector. *)
Definition reserve {A : Type} (capacity : Z) : list A := [].

(** [a / b] and [a % b] on [index_t]. *)
Definition idiv (a b : Z) : outcome Z :=
  if b =? 0 then Undefined else Ok (Z.quot a b).

Definition imod (a b : Z) : outcome Z :=
  if b =? 0 then Undefined else Ok (Z.rem a b).

(** ** Loops *)

(** [n] iterations of [body], the counter starting at [i] and stepping
    by one. *)
Fixpoint for_count {S : Type} (n : nat) (i : Z)
    (body : Z -> S -> outcome S) (s : S) : outcome S :=
  match n with
  | O => Ok s
  | S n' => let* s' := body i s in for_count n' (i + 1) body s'
  end.

(** [for (i = lo; i < hi; i++) body]. *)
Definition for_range {S : Type} (lo hi : Z)
    (body : Z -> S -> outcome S) (s : S) : outcome S :=
  for_count (Z.to_nat (hi - lo)) lo body s.

(** [n] iterations, the counter starting at [i] and stepping down. *)
Fixpoint for_count_down {S : Type} (n : nat) (i : Z)
    (body : Z -> S -> outcome S) (s : S) : outcome S :=
  match n with
  | O => Ok s
  | S n' => let* s' := body i s in for_count_down n' (i - 1) body s'
  end.

(** [for (i = hi - 1; i >= 0; i--) body]. *)
Definition for_down {S : Type} (hi : Z)
    (body : Z -> S -> outcome S) (s : S) : outcome S :=
  for_count_down (Z.to_nat hi) (hi - 1) body s.

(** [while (cond) body], with a budget of [fuel] iterations. *)
Fixpoint while_ {S : Type} (fuel : nat) (cond : S -> bool)
    (body : S -> outcome S) (s : S) : outcome S :=
  if cond s then
    match fuel with
    | O => Spins
    | S fuel' => let* s' := body s in while_ fuel' cond body s'
    end
  else Ok s.

(** [v.push_back(x)]. *)
Definition push_back {A : Type} (v : list A) (x : A) : list A := v ++ [x].

(** [(index_t) pow(a, b)] on [index_t] arguments: the power, truncated
    towards zero at a negative exponent.  [pow(0, b)] is infinite at a
    negative [b]; the cast of a double is taken to yield some index in
    every case, here [0]. *)
Definition ipow (a b : Z) : Z :=
  if b <? 0 then
    if a =? 1 then 1
    else if a =? -1 then (if Z.even b then 1 else -1)
    else 0
  else a ^ b.

(** ** Box ids and grid coordinates *)

Module Grid.

(** [MultiDimIndexInSingleArray_]: the id of the box with the given
    per-axis coordinates, [n[i]] boxes lying along axis [i]. *)
Definition MultiDimIndexInSingleArray_ (coords n : list Z) : outcome Z :=
  for_range 0 (size coords) (fun i sum =>
    let* prod := for_range 0 i (fun j prod =>
                   let* nj := at_ n j in
                   Ok (prod * nj)) 1 in
    let* ci := at_ coords i in
    Ok (sum + ci * prod)) 0.

(** [SingleDimIndexInMultiArray_]: the per-axis coordinates of box
    [index], written into [coords]; [index] is passed by value. *)
Definition SingleDimIndexInMultiArray_ (n : list Z) (index : Z)
    (coords : list Z) : outcome (list Z) :=
  let* '(_, coords) :=
    for_range 0 (size coords) (fun i '(index, coords) =>
      let* ni := at_ n i in
      let* this_coord := imod index ni in
      let* index := idiv index ni in
      let* coords := put coords i this_coord in
      Ok (index, coords)) (index, coords) in
  Ok coords.

(** [IsOngrid_].  [old_coords] and [new_coords] are references and the
    caller may pass the same vector for both, so the two are reached
    through [get_old], [get_new] and [set_new] in the caller's object
    state [s].  The flag is [1] when every coordinate plus [delta] is on
    the grid; once it is [0] the function has returned, and the
    remaining iterations do nothing. *)
Definition IsOngrid_ {S : Type} (get_old get_new : S -> list Z)
    (set_new : list Z -> S -> S) (delta : Z) (nsides : list Z)
    (s : S) : outcome (Z * S) :=
  let dim := size (get_old s) in
  for_range 0 dim (fun d '(ongrid, s) =>
    if ongrid =? 0 then Ok (ongrid, s)
    else
      let* od := at_ (get_old s) d in
      let new_val := od + delta in
      if new_val <? 0 then Ok (0, s)
      else
        let* nd := at_ nsides d in
        if new_val >=? nd then Ok (0, s)
        else
          let* nc := put (get_new s) d new_val in
          Ok (ongrid, set_new nc s)) (1, s).

(** The locals of [MakeNeighbors_] that its main loop writes. *)
Record neighbors_frame : Type := {
  nf_delta : list Z;
  nf_new_coords : list Z;
  nf_ret : list Z
}.

(** [MakeNeighbors_]: the boxes appended to [ret] as the neighbors of
    [ibox] within [kdis] boxes.  [coords], [dummy_n], [all_ones],
    [delta] and [new_coords] are reserved, not resized. *)
Definition MakeNeighbors_ (ibox : Z) (nsides : list Z) (kdis : Z)
    (ret : list Z) : outcome (list Z) :=
  let coords : list Z := reserve (size nsides) in
  let* coords := SingleDimIndexInMultiArray_ nsides ibox coords in
  let dummy_n : list Z := reserve (size coords) in
  let all_ones : list Z := reserve (size coords) in
  let* '(dummy_n, all_ones) :=
    for_range 0 (size coords) (fun i '(dummy_n, all_ones) =>
      let* dummy_n := put dummy_n i (2 * kdis + 1) in
      let* all_ones := put all_ones i kdis in
      Ok (dummy_n, all_ones)) (dummy_n, all_ones) in
  let num_neighbors := 2 * kdis + 1 in
  let num_neighbors := ipow num_neighbors (size coords) in
  let delta : list Z := reserve (size coords) in
  let new_coords : list Z := reserve (size coords) in
  let* f :=
    for_range 0 num_neighbors (fun i f =>
      let* delta := SingleDimIndexInMultiArray_ dummy_n i (nf_delta f) in
      let* new_coords :=
        for_range 0 (size coords) (fun j new_coords =>
          let* cj := at_ coords j in
          let* dj := at_ delta j in
          put new_coords j (cj + dj)) (nf_new_coords f) in
      let* '(ongrid, new_coords) :=
        IsOngrid_ (fun v => v) (fun v => v) (fun v _ => v) (- kdis) nsides
                  new_coords in
      let* ret :=
        (if ongrid =? 0 then Ok (nf_ret f)
         else
           let* id := MultiDimIndexInSingleArray_ new_coords nsides in
           Ok (push_back (nf_ret f) id)) in
      Ok {| nf_delta := delta; nf_new_coords := new_coords; nf_ret := ret |})
    {| nf_delta := delta; nf_new_coords := new_coords; nf_ret := ret |} in
  Ok (nf_ret f).

End Grid.

(** ** Doubles *)

(** [double] with the operations the header uses.  [of_index] is the
    conversion from [index_t] (and the integral literals), [to_index]
    the cast [(index_t) x], taken to yield some index for every double,
    [pow x n] is [pow(x, n)] for an [index_t] [n], [indeterminate] what
    storage holds before it is first written. *)
Class Arith (double : Type) : Type := {
  of_index : Z -> double;
  to_index : double -> Z;
  index_max : Z;
  half : double;
  DBL_MAX : double;
  indeterminate : double;
  add : double -> double -> double;
  sub : double -> double -> double;
  mul : double -> double -> double;
  div : double -> double -> double;
  neg : double -> double;
  lt : double -> double -> bool;
  ne : double -> double -> bool;
  sqrt : double -> double;
  exp : double -> double;
  log : double -> double;
  floor : double -> double;
  pow : double -> Z -> double
}.

Declare Scope dbl_scope.
Delimit Scope dbl_scope with dbl.
Infix "+" := add : dbl_scope.
Infix "-" := sub : dbl_scope.
Infix "*" := mul : dbl_scope.
Infix "/" := div : dbl_scope.
Notation "- x" := (neg x) : dbl_scope.
Infix "<?" := lt : dbl_scope.
Notation "x >? y" := (lt y x) : dbl_scope.
Notation "x !=? y" := (ne x y) (at level 70) : dbl_scope.

(** ** Matrices *)

Section Matrices.
Context {double : Type} `{Arith double}.

Definition vec : Type := list double.

(** [arma::mat]: column-major, [n_rows] kept for the matrix without
    columns. *)
Record mat : Type := {
  n_rows : Z;
  columns : list vec
}.

Definition n_cols (m : mat) : Z := size (columns m).

(** [arma::vec v(n)] and [v.set_size(n)]: storage that was not written. *)
Definition vec_new (n : Z) : vec := repeat indeterminate (Z.to_nat n).

(** [v.fill(x)], [v.zeros()]. *)
Definition vec_fill (v : vec) (x : double) : vec := repeat x (length v).
Definition vec_zeros (v : vec) : vec := vec_fill v (of_index 0).

(** [arma::mat m(rows, cols)]. *)
Definition mat_new (rows cols : Z) : mat :=
  {| n_rows := rows; columns := repeat (vec_new rows) (Z.to_nat cols) |}.

(** [m.zeros()]. *)
Definition mat_zeros (m : mat) : mat :=
  {| n_rows := n_rows m; columns := map vec_zeros (columns m) |}.

(** [m(i, j)] as an rvalue. *)
Definition mat_at (m : mat) (i j : Z) : outcome double :=
  let* c := at_ (columns m) j in
  at_ c i.

(** [m(i, j) = x]. *)
Definition mat_put (m : mat) (i j : Z) (x : double) : outcome mat :=
  let* c := at_ (columns m) j in
  let* c := put c i x in
  let* cs := put (columns m) j c in
  Ok {| n_rows := n_rows m; columns := cs |}.

(** [m.col(j)] and [m.unsafe_col(j)] read as a value. *)
Definition col (m : mat) (j : Z) : outcome vec := at_ (columns m) j.

(** [a - b] on [arma::vec]. *)
Definition vec_sub (a b : vec) : outcome vec :=
  if size a =? size b then Ok (zip_with sub a b) else Undefined.

End Matrices.

Arguments vec double : clear implicits.
Arguments mat double : clear implicits.

(** ** Collaborators declared outside the header *)

(** [MultSeriesExpansionAux]: the multi-index table and the inverse
    multi-index factorials, unsigned and signed. *)
Record MultSeriesExpansionAux (double : Type) : Type := {
  multiindex_mapping : list (list Z);
  inv_multiindex_factorials : vec double;
  neg_inv_multiindex_factorials : vec double
}.

Arguments multiindex_mapping {double} _.
Arguments inv_multiindex_factorials {double} _.
Arguments neg_inv_multiindex_factorials {double} _.

(** [msea_.get_multiindex(j)]. *)
Definition get_multiindex {double : Type} (msea : MultSeriesExpansionAux double)
    (j : Z) : outcome (list Z) :=
  at_ (multiindex_mapping msea) j.

(** [GaussianKernel], [MultSeriesExpansionAux::Init] and
    [la::DistanceSqEuclidean] are declared in other files of fastlib;
    they are taken as parameters. *)
Class Collaborators (double : Type) : Type := {
  GaussianKernel : Type;
  kernel_Init : double -> GaussianKernel -> GaussianKernel;
  bandwidth_sq : GaussianKernel -> double;
  msea_Init : Z -> Z -> MultSeriesExpansionAux double ->
              MultSeriesExpansionAux double;
  DistanceSqEuclidean : vec double -> vec double -> double
}.

(** [GaussianKernel::CalcNormConstant], the normalisation constant of
    the kernel for a dimension, likewise. *)
Class NormConstant (double : Type) `{Collaborators double} : Type := {
  CalcNormConstant : GaussianKernel -> Z -> double
}.

(** [do body while (cond)], with a budget of [fuel] further iterations
    after the first. *)
Definition do_while {S : Type} (fuel : nat) (body : S -> outcome S)
    (cond : S -> bool) (s : S) : outcome S :=
  let* s := body s in
  while_ fuel cond body s.

(** Loops of the series-expansion routines. *)

(** [for ( ; i < limit; i += step) body].  With [step >= 1] the loop
    ends within [limit - i] iterations, which is the budget. *)
Definition for_step {S : Type} (limit step : Z)
    (body : Z -> S -> outcome S) (i : Z) (s : S) : outcome (Z * S) :=
  while_ (Z.to_nat (limit - i)) (fun '(i, _) => i <? limit)
    (fun '(i, s) =>
       let* s := body i s in
       Ok (i + step, s)) (i, s).

(** [for (i = 0; i < totalnumcoeffs; ) block], where [block] advances
    [i] itself.  As long as every block advances [i] by at least one the
    loop ends within [totalnumcoeffs] iterations, which is the budget. *)
Definition for_blocks {S : Type} (totalnumcoeffs : Z)
    (block : Z -> S -> outcome (Z * S)) (s : S) : outcome S :=
  let* '(_, s) :=
    while_ (Z.to_nat totalnumcoeffs) (fun '(i, _) => i <? totalnumcoeffs)
      (fun '(i, s) => block i s) (0, s) in
  Ok s.

(** [for (boundary = b0, step = s0, d = d0; step >= 1;
         step /= p_alpha, boundary /= p_alpha, d++) body].
    The callers run it under [p_alpha > 1] with [s0 < totalnumcoeffs],
    where [step] shrinks at every iteration and the loop ends within
    [totalnumcoeffs] iterations, which is the budget. *)
Definition for_strides {S : Type} (totalnumcoeffs p_alpha b0 s0 d0 : Z)
    (body : Z -> Z -> Z -> S -> outcome S) (s : S) : outcome S :=
  let* '(_, _, _, s) :=
    while_ (Z.to_nat totalnumcoeffs)
      (fun '(boundary, step, d, s) => 1 <=? step)
      (fun '(boundary, step, d, s) =>
         let* s := body boundary step d s in
         let* step := idiv step p_alpha in
         let* boundary := idiv boundary p_alpha in
         Ok (boundary, step, d + 1, s)) (b0, s0, d0, s) in
  Ok s.

(** ** The class [FGTKde] *)

Section FGT.
Context {double : Type} `{Arith double} `{Collaborators double}
        `{!NormConstant double}.
Local Open Scope dbl_scope.

Record FGTKde : Type := {
  qset_ : mat double;
  rset_ : mat double;
  kernel_ : GaussianKernel;
  densities_ : vec double;
  tau_ : double;
  msea_ : MultSeriesExpansionAux double
}.

(** *** Grid planning *)

(** What [FastGaussTransformPreprocess_] writes through its pointer and
    reference parameters. *)
Record grid_plan : Type := {
  gp_interaction_radius : double;
  gp_nsides : list Z;
  gp_sidelengths : vec double;
  gp_mincoords : vec double;
  gp_nboxes : Z;
  gp_nterms : Z
}.

(** The variables the truncation-order loop carries from one iteration
    to the next. *)
Record order_search : Type := {
  os_ip : Z;
  os_factorialvalue : double;
  os_r_raised_to_p_alpha : double;
  os_ret2 : double
}.

(** The body of the [do ... while (ret2 > tau_)] loop. *)
Definition order_step (two_r ret : double) (dim : Z) (s : order_search)
    : order_search :=
  let ip := (os_ip s + 1)%Z in
  let factorialvalue := os_factorialvalue s * of_index ip in
  let r_raised_to_p_alpha := os_r_raised_to_p_alpha s * two_r in
  let first_factor := of_index 1 - r_raised_to_p_alpha in
  let first_factor := first_factor * first_factor in
  let second_factor :=
    r_raised_to_p_alpha * (of_index 2 - r_raised_to_p_alpha)
    / sqrt factorialvalue in
  let ret2 :=
    ret * (pow (first_factor + second_factor) dim
           - pow first_factor dim) in
  {| os_ip := ip; os_factorialvalue := factorialvalue;
     os_r_raised_to_p_alpha := r_raised_to_p_alpha; os_ret2 := ret2 |}.

(** The truncation-order search of [FastGaussTransformPreprocess_]
    (from [index_t ip = 0] to [*nterms = ip]).  [ip++] at the largest
    [index_t] is a signed overflow: it has no defined result. *)
Definition truncation_order (fuel : nat) (boxside : double) (dim : Z)
    (tau : double) : outcome Z :=
  let ip := 0%Z in
  let two_r := of_index 2 * boxside in
  let one_minus_two_r := of_index 1 - two_r in
  let ret :=
    of_index 1 / pow (one_minus_two_r * one_minus_two_r) dim in
  let factorialvalue := of_index 1 in
  let r_raised_to_p_alpha := of_index 1 in
  let* s :=
    do_while fuel
      (fun s =>
         if (os_ip s <? index_max)%Z
         then Ok (order_step two_r ret dim s)
         else Undefined)
      (fun s => os_ret2 s >? tau)
      {| os_ip := ip; os_factorialvalue := factorialvalue;
         os_r_raised_to_p_alpha := r_raised_to_p_alpha;
         os_ret2 := indeterminate |} in
  Ok (os_ip s).

(** [FastGaussTransformPreprocess_].  [nsides], [sidelengths] and
    [mincoords] are the caller's vectors; [fuel] bounds the iterations
    of the truncation-order search. *)
Definition FastGaussTransformPreprocess_ (this : FGTKde) (fuel : nat)
    (nsides : list Z) (sidelengths mincoords : vec double)
    : outcome grid_plan :=
  let bandwidth := sqrt (bandwidth_sq (kernel_ this)) in
  let interaction_radius :=
    sqrt (- of_index 2 * bandwidth_sq (kernel_ this) * log (tau_ this)) in
  let num_rows := n_cols (rset_ this) in
  let dim := n_rows (rset_ this) in
  let maxcoords := vec_fill (vec_new dim) (- DBL_MAX) in
  let boxside := - of_index 1 in
  let nboxes := 1%Z in
  let* mincoords :=
    for_range 0 dim (fun di mincoords => put mincoords di DBL_MAX)
      mincoords in
  let* '(mincoords, maxcoords) :=
    for_range 0 num_rows (fun n =>
      for_range 0 dim (fun di '(mincoords, maxcoords) =>
        let* lo := at_ mincoords di in
        let* x := mat_at (rset_ this) di n in
        let* mincoords :=
          (if lo >? x then put mincoords di x else Ok mincoords) in
        let* hi := at_ maxcoords di in
        let* maxcoords :=
          (if hi <? x then put maxcoords di x else Ok maxcoords) in
        Ok (mincoords, maxcoords))) (mincoords, maxcoords) in
  let* '(nsides, nboxes, boxside, sidelengths) :=
    for_range 0 dim (fun di '(nsides, nboxes, boxside, sidelengths) =>
      let* hi := at_ maxcoords di in
      let* lo := at_ mincoords di in
      let* nsides :=
        put nsides di (to_index ((hi - lo) / bandwidth + of_index 1)) in
      let* nside := at_ nsides di in
      let nboxes := (nboxes * nside)%Z in
      let tmp := (hi - lo) / (of_index (nside * 2) * bandwidth) in
      let boxside := if tmp >? boxside then tmp else boxside in
      let* sidelengths := put sidelengths di ((hi - lo) / of_index nside) in
      Ok (nsides, nboxes, boxside, sidelengths))
      (nsides, nboxes, boxside, sidelengths) in
  let* nterms := truncation_order fuel boxside dim (tau_ this) in
  Ok {| gp_interaction_radius := interaction_radius; gp_nsides := nsides;
        gp_sidelengths := sidelengths; gp_mincoords := mincoords;
        gp_nboxes := nboxes; gp_nterms := nterms |}.

(** *** Point assignment *)

(** What [Assign_] leaves in its reference parameters. *)
Record assignment : Type := {
  as_center : mat double;
  as_queries : list (list Z);
  as_references : list (list Z)
}.

(** The body of both assignment loops of [Assign_]: the box of column
    [r] of [pts], most significant axis first. *)
Definition boxnum_of (pts : mat double) (dim : Z) (nsides : list Z)
    (sidelengths mincoords : vec double) (r : Z) : outcome Z :=
  for_down dim (fun di boxnum =>
    let* nside := at_ nsides di in
    let* h := at_ sidelengths di in
    let* x := mat_at pts di r in
    let* lo := at_ mincoords di in
    let binnum := to_index (floor ((x - lo) / h)) in
    let binnum := Z.max 0 (Z.min binnum (nside - 1)) in
    Ok (boxnum * nside + binnum)%Z) 0%Z.

(** [Assign_].  The last loop writes each centroid to [box_center], a
    vector initialised from [center.col(r)]. *)
Definition Assign_ (this : FGTKde) (nallbx : Z) (nsides : list Z)
    (sidelengths mincoords : vec double) (center : mat double)
    (queries_assigned references_assigned : list (list Z))
    : outcome assignment :=
  let num_query_rows := n_cols (qset_ this) in
  let num_ref_rows := n_cols (rset_ this) in
  let dim := n_rows (qset_ this) in
  let* references_assigned :=
    for_range 0 num_ref_rows (fun r references_assigned =>
      let* boxnum :=
        boxnum_of (rset_ this) dim nsides sidelengths mincoords r in
      let* box := at_ references_assigned boxnum in
      put references_assigned boxnum (push_back box r))
      references_assigned in
  let* queries_assigned :=
    for_range 0 num_query_rows (fun r queries_assigned =>
      let* boxnum :=
        boxnum_of (qset_ this) dim nsides sidelengths mincoords r in
      let* box := at_ queries_assigned boxnum in
      put queries_assigned boxnum (push_back box r))
      queries_assigned in
  let* center :=
    for_range 0 nallbx (fun r center =>
      let sf := nallbx in
      let ind := r in
      let* box_center := col center r in
      let* _ :=
        for_down dim (fun di '(sf, ind, box_center) =>
          let* nside := at_ nsides di in
          let* h := at_ sidelengths di in
          let* sf := idiv sf nside in
          let* rem := imod ind sf in
          let* ind := idiv ind sf in
          let* lo := at_ mincoords di in
          let* box_center :=
            put box_center di (lo + (of_index ind + half) * h) in
          let ind := rem in
          Ok (sf, ind, box_center)) (sf, ind, box_center) in
      Ok center) center in
  Ok {| as_center := center; as_queries := queries_assigned;
        as_references := references_assigned |}.

(** *** Series expansions *)

(** The Hermite functions of one axis, as [TranslateMultipoleToLocal_],
    [DirectLocalAccumulation_] and [EvaluateMultipoleExpansion_] each
    compute them: row [d] of [hermite_map] from the coordinate
    difference [x], up to column [limit]. *)
Definition hermite_row (p_alpha limit : Z) (x bandwidth : double) (d : Z)
    (hermite_map : mat double) : outcome (mat double) :=
  let coord_div_band := x / bandwidth in
  let d2 := of_index 2 * coord_div_band in
  let facj := exp (- coord_div_band * coord_div_band) in
  let* hermite_map := mat_put hermite_map d 0 facj in
  if (p_alpha >? 1)%Z then
    let* hermite_map := mat_put hermite_map d 1 (d2 * facj) in
    for_range 1 limit (fun k hermite_map =>
      let k2 := (k * 2)%Z in
      let* hk := mat_at hermite_map d k in
      let* hk1 := mat_at hermite_map d (k - 1) in
      mat_put hermite_map d (k + 1) (d2 * hk - of_index k2 * hk1))
      hermite_map
  else Ok hermite_map.

(** The sweep over the axes that [ComputeMultipoleCoeffs_] and
    [EvaluateLocalExpansion_] each run (the [for (boundary = ...)]
    loop): entry [i] of [tmp] becomes the product of the powers of the
    coordinates [x] that the multi-index of [i] asks for. *)
Definition power_sweep (totalnumcoeffs p_alpha : Z) (x tmp : vec double)
    : outcome (vec double) :=
  let* step0 := idiv totalnumcoeffs p_alpha in
  for_strides totalnumcoeffs p_alpha totalnumcoeffs step0 0
    (fun boundary step j =>
       for_blocks totalnumcoeffs (fun i tmp =>
         let limit := (i + boundary)%Z in
         let i := (i + step)%Z in
         for_step limit step (fun i tmp =>
           let* t := at_ tmp (i - step) in
           let* xj := at_ x j in
           put tmp i (t * xj)) i tmp)) tmp.

(** The sweep over the axes that [DirectLocalAccumulation_] and
    [EvaluateMultipoleExpansion_] each run (the [for (boundary = ...)]
    loop): entry [i] of [arrtmp] becomes the product of the Hermite
    functions that the multi-index of [i] asks for. *)
Definition hermite_sweep (totalnumcoeffs p_alpha : Z)
    (hermite_map : mat double) (arrtmp : vec double)
    : outcome (vec double) :=
  let* step0 := idiv totalnumcoeffs p_alpha in
  for_strides totalnumcoeffs p_alpha totalnumcoeffs step0 0
    (fun boundary step d =>
       for_blocks totalnumcoeffs (fun i arrtmp =>
         let limit := (i + boundary)%Z in
         let first := i in
         let i := (i + step)%Z in
         let* '(i, (_, arrtmp)) :=
           for_step limit step (fun i '(j, arrtmp) =>
             let* a := at_ arrtmp first in
             let* h := mat_at hermite_map d j in
             let* arrtmp := put arrtmp i (a * h) in
             Ok (j + 1, arrtmp)%Z) i (1%Z, arrtmp) in
         let* a := at_ arrtmp first in
         let* h := mat_at hermite_map d 0 in
         let* arrtmp := put arrtmp first (a * h) in
         Ok (i, arrtmp))) arrtmp.

(** The [else] branch of the same two functions, taken at
    [p_alpha <= 1]. *)
Definition hermite_order0 (dim : Z) (hermite_map : mat double)
    (arrtmp : vec double) : outcome (vec double) :=
  for_range 0 dim (fun d arrtmp =>
    let* a := at_ arrtmp 0 in
    let* h := mat_at hermite_map d 0 in
    put arrtmp 0 (a * h)) arrtmp.

(** *** Far-field moments *)

(** The matrix [ComputeMultipoleCoeffs_] receives by reference and the
    objects it declares. *)
Record multipole_frame : Type := {
  mf_mcoeffs : mat double;
  mf_A_k : vec double;
  mf_tmp : vec double;
  mf_x_r : vec double
}.

Definition mf_set_A_k (f : multipole_frame) (v : vec double) :=
  {| mf_mcoeffs := mf_mcoeffs f; mf_A_k := v; mf_tmp := mf_tmp f;
     mf_x_r := mf_x_r f |}.
Definition mf_set_tmp (f : multipole_frame) (v : vec double) :=
  {| mf_mcoeffs := mf_mcoeffs f; mf_A_k := mf_A_k f; mf_tmp := v;
     mf_x_r := mf_x_r f |}.
Definition mf_set_x_r (f : multipole_frame) (v : vec double) :=
  {| mf_mcoeffs := mf_mcoeffs f; mf_A_k := mf_A_k f; mf_tmp := mf_tmp f;
     mf_x_r := v |}.

(** [ComputeMultipoleCoeffs_].  [A_k] is an [arma::vec] initialised from
    [mcoeffs.col(ref_box_num)].  The result is the frame at the return;
    at the early return [tmp] and [x_r] are not yet declared. *)
Definition ComputeMultipoleCoeffs_ (this : FGTKde) (mcoeffs : mat double)
    (dim p_alpha totalnumcoeffs ref_box_num : Z) (bwsqd_two : double)
    (rows : list Z) (x_R : vec double) : outcome multipole_frame :=
  let* A_k := col mcoeffs ref_box_num in
  let bw_times_sqrt_two := sqrt bwsqd_two in
  let* A_k0 := at_ A_k 0 in
  if A_k0 !=? of_index 0 then
    Ok {| mf_mcoeffs := mcoeffs; mf_A_k := A_k; mf_tmp := [];
          mf_x_r := [] |}
  else
    let C_k := inv_multiindex_factorials (msea_ this) in
    let tmp := vec_new totalnumcoeffs in
    let x_r := vec_new dim in
    let num_rows := size rows in
    let f := {| mf_mcoeffs := mcoeffs; mf_A_k := A_k; mf_tmp := tmp;
                mf_x_r := x_r |} in
    let* A_k := put (mf_A_k f) 0 (of_index num_rows) in
    let f := mf_set_A_k f A_k in
    let* f :=
      for_range 1 totalnumcoeffs (fun i f =>
        let* A_k := put (mf_A_k f) i (of_index 0) in
        Ok (mf_set_A_k f A_k)) f in
    let* f :=
      (if (p_alpha >? 1)%Z then
         for_range 0 num_rows (fun r f =>
           let* row_num := at_ rows r in
           let* f :=
             for_range 0 dim (fun i f =>
               let* x := mat_at (rset_ this) i row_num in
               let* c := at_ x_R i in
               let* x_r := put (mf_x_r f) i ((x - c) / bw_times_sqrt_two) in
               Ok (mf_set_x_r f x_r)) f in
           let* tmp := put (mf_tmp f) 0 (of_index 1) in
           let f := mf_set_tmp f tmp in
           let* tmp :=
             power_sweep totalnumcoeffs p_alpha (mf_x_r f) (mf_tmp f) in
           let f := mf_set_tmp f tmp in
           for_range 1 totalnumcoeffs (fun i f =>
             let* a := at_ (mf_A_k f) i in
             let* t := at_ (mf_tmp f) i in
             let* A_k := put (mf_A_k f) i (a + t) in
             Ok (mf_set_A_k f A_k)) f) f
       else Ok f) in
    for_range 1 totalnumcoeffs (fun r f =>
      let* a := at_ (mf_A_k f) r in
      let* c := at_ C_k r in
      let* A_k := put (mf_A_k f) r (a * c) in
      Ok (mf_set_A_k f A_k)) f.

(** *** Direct accumulation into local moments *)

(** The matrix [DirectLocalAccumulation_] receives by reference and the
    objects it declares. *)
Record direct_frame : Type := {
  df_locexps : mat double;
  df_arr : vec double;
  df_arrtmp : vec double;
  df_hermite_map : mat double;
  df_x_r_minus_x_Q : vec double
}.

Definition df_set_arr (f : direct_frame) (v : vec double) :=
  {| df_locexps := df_locexps f; df_arr := v; df_arrtmp := df_arrtmp f;
     df_hermite_map := df_hermite_map f;
     df_x_r_minus_x_Q := df_x_r_minus_x_Q f |}.
Definition df_set_arrtmp (f : direct_frame) (v : vec double) :=
  {| df_locexps := df_locexps f; df_arr := df_arr f; df_arrtmp := v;
     df_hermite_map := df_hermite_map f;
     df_x_r_minus_x_Q := df_x_r_minus_x_Q f |}.
Definition df_set_hermite_map (f : direct_frame) (m : mat double) :=
  {| df_locexps := df_locexps f; df_arr := df_arr f;
     df_arrtmp := df_arrtmp f; df_hermite_map := m;
     df_x_r_minus_x_Q := df_x_r_minus_x_Q f |}.
Definition df_set_x_r_minus_x_Q (f : direct_frame) (v : vec double) :=
  {| df_locexps := df_locexps f; df_arr := df_arr f;
     df_arrtmp := df_arrtmp f; df_hermite_map := df_hermite_map f;
     df_x_r_minus_x_Q := v |}.

(** [DirectLocalAccumulation_].  [arr] is an [arma::vec] initialised
    from [locexps.col(query_box_num)].  The result is the frame at the
    return. *)
Definition DirectLocalAccumulation_ (this : FGTKde) (rows : list Z)
    (query_box_num : Z) (locexps : mat double) (delta : double)
    (dest_hrcentroid : vec double) (p_alpha totalnumcoeffs : Z)
    : outcome direct_frame :=
  let num_rows := size rows in
  let dim := n_rows (rset_ this) in
  let limit2 := (p_alpha - 1)%Z in
  let hermite_map := mat_new dim p_alpha in
  let arrtmp := vec_new totalnumcoeffs in
  let x_r_minus_x_Q := vec_new dim in
  let bandwidth := sqrt delta in
  let neg_inv_multiindex_factorials :=
    neg_inv_multiindex_factorials (msea_ this) in
  let* arr := col locexps query_box_num in
  for_range 0 num_rows (fun r f =>
    let* row_num := at_ rows r in
    let* f :=
      for_range 0 dim (fun d f =>
        let* c := at_ dest_hrcentroid d in
        let* x := mat_at (rset_ this) d row_num in
        let* v := put (df_x_r_minus_x_Q f) d (c - x) in
        Ok (df_set_x_r_minus_x_Q f v)) f in
    let* f :=
      for_range 0 dim (fun d f =>
        let* x := at_ (df_x_r_minus_x_Q f) d in
        let* hermite_map :=
          hermite_row p_alpha limit2 x bandwidth d (df_hermite_map f) in
        Ok (df_set_hermite_map f hermite_map)) f in
    let* arrtmp := put (df_arrtmp f) 0 (of_index 1) in
    let f := df_set_arrtmp f arrtmp in
    let* arrtmp :=
      (if (p_alpha >? 1)%Z then
         hermite_sweep totalnumcoeffs p_alpha (df_hermite_map f)
           (df_arrtmp f)
       else hermite_order0 dim (df_hermite_map f) (df_arrtmp f)) in
    let f := df_set_arrtmp f arrtmp in
    for_range 0 totalnumcoeffs (fun j f =>
      let* a := at_ (df_arr f) j in
      let* c := at_ neg_inv_multiindex_factorials j in
      let* t := at_ (df_arrtmp f) j in
      let* arr := put (df_arr f) j (a + c * t) in
      Ok (df_set_arr f arr)) f)
    {| df_locexps := locexps; df_arr := arr; df_arrtmp := arrtmp;
       df_hermite_map := hermite_map; df_x_r_minus_x_Q := x_r_minus_x_Q |}.

(** *** Translation of far-field moments into local moments *)

(** The matrices [TranslateMultipoleToLocal_] receives by reference and
    the objects it declares. *)
Record translate_frame : Type := {
  tf_mcoeffsb : mat double;
  tf_lcoeffsb : mat double;
  tf_lcoeffs : vec double;
  tf_mcoeffs : vec double;
  tf_hermite_map : mat double;
  tf_arrtmp : mat double
}.

Definition tf_set_lcoeffs (f : translate_frame) (v : vec double) :=
  {| tf_mcoeffsb := tf_mcoeffsb f; tf_lcoeffsb := tf_lcoeffsb f;
     tf_lcoeffs := v; tf_mcoeffs := tf_mcoeffs f;
     tf_hermite_map := tf_hermite_map f; tf_arrtmp := tf_arrtmp f |}.
Definition tf_set_hermite_map (f : translate_frame) (m : mat double) :=
  {| tf_mcoeffsb := tf_mcoeffsb f; tf_lcoeffsb := tf_lcoeffsb f;
     tf_lcoeffs := tf_lcoeffs f; tf_mcoeffs := tf_mcoeffs f;
     tf_hermite_map := m; tf_arrtmp := tf_arrtmp f |}.
Definition tf_set_arrtmp (f : translate_frame) (m : mat double) :=
  {| tf_mcoeffsb := tf_mcoeffsb f; tf_lcoeffsb := tf_lcoeffsb f;
     tf_lcoeffs := tf_lcoeffs f; tf_mcoeffs := tf_mcoeffs f;
     tf_hermite_map := tf_hermite_map f; tf_arrtmp := m |}.

(** [arrtmp(d, j) += x]. *)
Definition arrtmp_add (f : translate_frame) (d j : Z) (x : double)
    : outcome translate_frame :=
  let* a := mat_at (tf_arrtmp f) d j in
  let* arrtmp := mat_put (tf_arrtmp f) d j (a + x) in
  Ok (tf_set_arrtmp f arrtmp).

(** [TranslateMultipoleToLocal_].  [lcoeffs] and [mcoeffs] are
    [arma::vec]s initialised from [lcoeffsb.col(query_box_num)] and
    [mcoeffsb.col(ref_box_num)].  The result is the frame at the
    return. *)
Definition TranslateMultipoleToLocal_ (this : FGTKde)
    (ref_box_num query_box_num : Z) (mcoeffsb lcoeffsb : mat double)
    (p_alpha totalnumcoeffs : Z) (bwsqd_2 : double)
    (hrcentroid dest_hrcentroid : vec double) : outcome translate_frame :=
  let bandwidth := sqrt bwsqd_2 in
  let dim := n_rows (qset_ this) in
  let* lcoeffs := col lcoeffsb query_box_num in
  let* mcoeffs := col mcoeffsb ref_box_num in
  let* dest_minus_parent := vec_sub dest_hrcentroid hrcentroid in
  let limit := (2 * p_alpha - 2)%Z in
  let hermite_map := mat_new dim (limit + 1) in
  let arrtmp := mat_new dim totalnumcoeffs in
  let C_k_neg := neg_inv_multiindex_factorials (msea_ this) in
  let f := {| tf_mcoeffsb := mcoeffsb; tf_lcoeffsb := lcoeffsb;
              tf_lcoeffs := lcoeffs; tf_mcoeffs := mcoeffs;
              tf_hermite_map := hermite_map; tf_arrtmp := arrtmp |} in
  let* f :=
    for_range 0 dim (fun j f =>
      let* x := at_ dest_minus_parent j in
      let* hermite_map :=
        hermite_row p_alpha limit x bandwidth j (tf_hermite_map f) in
      let f := tf_set_hermite_map f hermite_map in
      for_range 0 totalnumcoeffs (fun l f =>
        let* arrtmp := mat_put (tf_arrtmp f) j l (of_index 0) in
        Ok (tf_set_arrtmp f arrtmp)) f) f in
  let* step := idiv totalnumcoeffs p_alpha in
  let d := 0%Z in
  let* f :=
    for_range 0 totalnumcoeffs (fun j f =>
      let* mapping := get_multiindex (msea_ this) j in
      let* l := imod j step in
      let* '(_, f) :=
        for_range 0 p_alpha (fun k '(l, f) =>
          let* m := at_ (tf_mcoeffs f) l in
          let* md := at_ mapping d in
          let* h := mat_at (tf_hermite_map f) d (md + k) in
          let* f := arrtmp_add f d j (m * h) in
          Ok (l + step, f)%Z) (l, f) in
      Ok f) f in
  let* f :=
    (if (p_alpha >? 1)%Z then
       let* boundary := idiv totalnumcoeffs p_alpha in
       let* step := idiv step p_alpha in
       for_strides totalnumcoeffs p_alpha boundary step 1
         (fun boundary step d f =>
            let boundary2 := 0%Z in
            let* '(_, f) :=
              for_range 0 totalnumcoeffs (fun j '(boundary2, f) =>
                let* mapping := get_multiindex (msea_ this) j in
                let* r := imod j boundary in
                let boundary2 :=
                  if (r =? 0)%Z then (boundary2 + boundary)%Z
                  else boundary2 in
                let* f :=
                  for_range 0 p_alpha (fun k f =>
                    let* jump := imod (j + step * k) boundary2 in
                    let jump :=
                      if (jump <? boundary2 - boundary)%Z
                      then (jump + (boundary2 - boundary))%Z else jump in
                    let* mapping2 := get_multiindex (msea_ this) jump in
                    let* a := mat_at (tf_arrtmp f) (d - 1) jump in
                    let* m2 := at_ mapping2 d in
                    let* m1 := at_ mapping d in
                    let* h := mat_at (tf_hermite_map f) d (m2 + m1) in
                    arrtmp_add f d j (a * h)) f in
                Ok (boundary2, f)) (boundary2, f) in
            Ok f) f
     else Ok f) in
  let d := (dim - 1)%Z in
  for_range 0 totalnumcoeffs (fun j f =>
    let* l := at_ (tf_lcoeffs f) j in
    let* c := at_ C_k_neg j in
    let* a := mat_at (tf_arrtmp f) d j in
    let* lcoeffs := put (tf_lcoeffs f) j (l + c * a) in
    Ok (tf_set_lcoeffs f lcoeffs)) f.

(** *** Evaluation of the expansions *)

Definition set_densities (this : FGTKde) (v : vec double) : FGTKde :=
  {| qset_ := qset_ this; rset_ := rset_ this; kernel_ := kernel_ this;
     densities_ := v; tau_ := tau_ this; msea_ := msea_ this |}.

(** [densities_[q] += x]. *)
Definition densities_add (this : FGTKde) (q : Z) (x : double)
    : outcome FGTKde :=
  let* a := at_ (densities_ this) q in
  let* v := put (densities_ this) q (a + x) in
  Ok (set_densities this v).

(** What [EvaluateMultipoleExpansion_] writes: the object and its own
    vectors and matrix. *)
Record evaluation_frame : Type := {
  ef_this : FGTKde;
  ef_x_q_minus_x_R : vec double;
  ef_hermite_map : mat double;
  ef_arrtmp : vec double
}.

(** [EvaluateMultipoleExpansion_]; the result is the object after the
    call. *)
Definition EvaluateMultipoleExpansion_ (this : FGTKde) (rows : list Z)
    (p_alpha totalnumcoeffs : Z) (mcoeffsb : mat double) (ref_box_num : Z)
    (bwsqd_times_2 : double) (ref_hrcentroid : vec double)
    : outcome FGTKde :=
  let bandwidth := sqrt bwsqd_times_2 in
  let num_query_rows := size rows in
  let dim := n_rows (qset_ this) in
  let x_q_minus_x_R := vec_new dim in
  let hermite_map := mat_new dim p_alpha in
  let arrtmp := vec_new totalnumcoeffs in
  let limit2 := (p_alpha - 1)%Z in
  let* mcoeffs := col mcoeffsb ref_box_num in
  let* f :=
    for_range 0 num_query_rows (fun r f =>
      let multipolesum := of_index 0 in
      let* row_num := at_ rows r in
      let* x_q_minus_x_R :=
        for_range 0 dim (fun d v =>
          let* q := mat_at (qset_ (ef_this f)) d row_num in
          let* c := at_ ref_hrcentroid d in
          put v d (q - c)) (ef_x_q_minus_x_R f) in
      let* hermite_map :=
        for_range 0 dim (fun d hermite_map =>
          let* x := at_ x_q_minus_x_R d in
          hermite_row p_alpha limit2 x bandwidth d hermite_map)
          (ef_hermite_map f) in
      let* arrtmp := put (ef_arrtmp f) 0 (of_index 1) in
      let* arrtmp :=
        (if (p_alpha >? 1)%Z then
           hermite_sweep totalnumcoeffs p_alpha hermite_map arrtmp
         else hermite_order0 dim hermite_map arrtmp) in
      let* multipolesum :=
        for_range 0 totalnumcoeffs (fun j multipolesum =>
          let* m := at_ mcoeffs j in
          let* t := at_ arrtmp j in
          Ok (multipolesum + m * t)) multipolesum in
      let* this := densities_add (ef_this f) row_num multipolesum in
      Ok {| ef_this := this; ef_x_q_minus_x_R := x_q_minus_x_R;
            ef_hermite_map := hermite_map; ef_arrtmp := arrtmp |})
      {| ef_this := this; ef_x_q_minus_x_R := x_q_minus_x_R;
         ef_hermite_map := hermite_map; ef_arrtmp := arrtmp |} in
  Ok (ef_this f).

(** [EvaluateLocalExpansion_]. *)
Definition EvaluateLocalExpansion_ (this : FGTKde) (row_q : Z)
    (x_Q : vec double) (h : double) (query_box_num : Z)
    (lcoeffsb : mat double) (totalnumcoeffs p_alpha : Z)
    : outcome double :=
  let dim := n_rows (qset_ this) in
  let x_Q_to_x_q := vec_new dim in
  let multipolesum := of_index 0 in
  let* x_Q_to_x_q :=
    for_range 0 dim (fun i v =>
      let* x_Q_val := at_ x_Q i in
      let* x_q_val := mat_at (qset_ this) i row_q in
      put v i ((x_q_val - x_Q_val) / h)) x_Q_to_x_q in
  let* lcoeffs := col lcoeffsb query_box_num in
  let tmp := vec_new totalnumcoeffs in
  let* tmp := put tmp 0 (of_index 1) in
  let* tmp :=
    (if (totalnumcoeffs >? 1)%Z then
       power_sweep totalnumcoeffs p_alpha x_Q_to_x_q tmp
     else Ok tmp) in
  for_range 0 totalnumcoeffs (fun i multipolesum =>
    let* l := at_ lcoeffs i in
    let* t := at_ tmp i in
    Ok (multipolesum + l * t)) multipolesum.

(** [EvaluateLocalExpansionForAllQueries_]; the result is the object
    after the call. *)
Definition EvaluateLocalExpansionForAllQueries_ (this : FGTKde)
    (delta : double) (nterms nallbx : Z) (nsides : list Z)
    (locexp : mat double) (nlmax : Z) (queries_assigned : list (list Z))
    (center : mat double) (totalnumcoeffs : Z) : outcome FGTKde :=
  for_range 0 nallbx (fun i this =>
    let* query_rows := at_ queries_assigned i in
    let ninbox := size query_rows in
    if (ninbox <=? nlmax)%Z then Ok this
    else
      for_range 0 ninbox (fun j this =>
        let* row_q := at_ query_rows j in
        let* x_Q := col center i in
        let* result :=
          EvaluateLocalExpansion_ this row_q x_Q (sqrt delta) i locexp
            totalnumcoeffs nterms in
        densities_add this row_q result) this) this.

(** *** The main pass *)

(** The object and the reference parameters of [FinalizeSum_]. *)
Record sum_state : Type := {
  ss_this : FGTKde;
  ss_locexp : mat double;
  ss_center : mat double;
  ss_queries_assigned : list (list Z);
  ss_references_assigned : list (list Z);
  ss_mcoeffs : mat double
}.

Definition ss_set_this (s : sum_state) (this : FGTKde) :=
  {| ss_this := this; ss_locexp := ss_locexp s; ss_center := ss_center s;
     ss_queries_assigned := ss_queries_assigned s;
     ss_references_assigned := ss_references_assigned s;
     ss_mcoeffs := ss_mcoeffs s |}.
Definition ss_set_locexp (s : sum_state) (m : mat double) :=
  {| ss_this := ss_this s; ss_locexp := m; ss_center := ss_center s;
     ss_queries_assigned := ss_queries_assigned s;
     ss_references_assigned := ss_references_assigned s;
     ss_mcoeffs := ss_mcoeffs s |}.
Definition ss_set_mcoeffs (s : sum_state) (m : mat double) :=
  {| ss_this := ss_this s; ss_locexp := ss_locexp s;
     ss_center := ss_center s;
     ss_queries_assigned := ss_queries_assigned s;
     ss_references_assigned := ss_references_assigned s;
     ss_mcoeffs := m |}.

(** The direct interaction of [FinalizeSum_]: every query of
    [query_rows] against every reference of [reference_rows]. *)
Definition direct_interaction (this : FGTKde) (delta : double)
    (query_rows reference_rows : list Z) : outcome FGTKde :=
  for_range 0 (size query_rows) (fun k this =>
    let* query_row := at_ query_rows k in
    let* query := col (qset_ this) query_row in
    for_range 0 (size reference_rows) (fun l this =>
      let* reference_row := at_ reference_rows l in
      let* reference := col (rset_ this) reference_row in
      let dsqd := DistanceSqEuclidean query reference in
      let pot := exp (- dsqd / delta) in
      densities_add this query_row pot) this) this.

(** [FinalizeSum_].  A callee that takes a matrix by reference hands it
    back in its frame, and the pass goes on with that matrix. *)
Definition FinalizeSum_ (this : FGTKde) (delta : double)
    (nterms nallbx : Z) (nsides : list Z)
    (sidelengths mincoords : vec double) (locexp : mat double)
    (nfmax nlmax kdis : Z) (center : mat double)
    (queries_assigned references_assigned : list (list Z))
    (mcoeffs : mat double) : outcome sum_state :=
  let dim := n_rows (qset_ this) in
  let totalnumcoeffs := ipow nterms dim in
  let* a :=
    Assign_ this nallbx nsides sidelengths mincoords center
      queries_assigned references_assigned in
  let s := {| ss_this := this; ss_locexp := locexp;
              ss_center := as_center a;
              ss_queries_assigned := as_queries a;
              ss_references_assigned := as_references a;
              ss_mcoeffs := mcoeffs |} in
  let* s :=
    for_range 0 nallbx (fun i s =>
      let* reference_rows := at_ (ss_references_assigned s) i in
      let ninbox := size reference_rows in
      if (ninbox <=? 0)%Z then Ok s
      else if (ninbox <=? nfmax)%Z then
        let nbors : list Z := [] in
        let* nbors := Grid.MakeNeighbors_ i nsides kdis nbors in
        let nnbors := size nbors in
        for_range 0 nnbors (fun j s =>
          let* query_box_num := at_ nbors j in
          let* query_rows := at_ (ss_queries_assigned s) query_box_num in
          let ninnbr := size query_rows in
          if (ninnbr <=? nlmax)%Z then
            let* this :=
              direct_interaction (ss_this s) delta query_rows
                reference_rows in
            Ok (ss_set_this s this)
          else
            let* qboxcol := col (ss_center s) query_box_num in
            let* f :=
              DirectLocalAccumulation_ (ss_this s) reference_rows
                query_box_num (ss_locexp s) delta qboxcol nterms
                totalnumcoeffs in
            Ok (ss_set_locexp s (df_locexps f))) s
      else
        let* tmpcol := col (ss_center s) i in
        let* f :=
          ComputeMultipoleCoeffs_ (ss_this s) (ss_mcoeffs s) dim nterms
            totalnumcoeffs i delta reference_rows tmpcol in
        let s := ss_set_mcoeffs s (mf_mcoeffs f) in
        let nbors : list Z := [] in
        let* nbors := Grid.MakeNeighbors_ i nsides kdis nbors in
        let nnbors := size nbors in
        for_range 0 nnbors (fun j s =>
          let* query_box_num := at_ nbors j in
          let* query_rows := at_ (ss_queries_assigned s) query_box_num in
          let ninnbr := size query_rows in
          if (ninnbr <=? nlmax)%Z then
            let* tmpcol := col (ss_center s) i in
            let* this :=
              EvaluateMultipoleExpansion_ (ss_this s) query_rows nterms
                totalnumcoeffs (ss_mcoeffs s) i delta tmpcol in
            Ok (ss_set_this s this)
          else
            let* tmpcol1 := col (ss_center s) i in
            let* tmpcol2 := col (ss_center s) query_box_num in
            let* f :=
              TranslateMultipoleToLocal_ (ss_this s) i query_box_num
                (ss_mcoeffs s) (ss_locexp s) nterms totalnumcoeffs delta
                tmpcol1 tmpcol2 in
            Ok (ss_set_locexp (ss_set_mcoeffs s (tf_mcoeffsb f))
                  (tf_lcoeffsb f))) s) s in
  let* this :=
    EvaluateLocalExpansionForAllQueries_ (ss_this s) delta nterms nallbx
      nsides (ss_locexp s) nlmax (ss_queries_assigned s) (ss_center s)
      totalnumcoeffs in
  Ok (ss_set_this s this).

(** [GaussTransform_]. *)
Definition GaussTransform_ (this : FGTKde) (delta : double)
    (nterms nallbx : Z) (nsides : list Z)
    (sidelengths mincoords : vec double) (locexp center : mat double)
    (queries_assigned references_assigned : list (list Z))
    (mcoeffs : mat double) : outcome sum_state :=
  let dim := n_rows (qset_ this) in
  let kdis :=
    to_index (sqrt (log (tau_ this) * - of_index 2) + of_index 1) in
  let nfmax := (ipow nterms (dim - 1) + 2)%Z in
  let nlmax := nfmax in
  FinalizeSum_ this delta nterms nallbx nsides sidelengths mincoords
    locexp nfmax nlmax kdis center queries_assigned references_assigned
    mcoeffs.

(** *** Normalisation, initialisation and the driver *)

(** [NormalizeDensities_]; the result is the object after the call. *)
Definition NormalizeDensities_ (this : FGTKde) : outcome FGTKde :=
  let norm_const :=
    CalcNormConstant (kernel_ this) (n_rows (qset_ this))
    * of_index (n_cols (rset_ this)) in
  for_range 0 (n_cols (qset_ this)) (fun q this =>
    let* a := at_ (densities_ this) q in
    let* v := put (densities_ this) q (a / norm_const) in
    Ok (set_densities this v)) this.

(** [Init].  [bandwidth] and [absolute_error] are the values of the
    parameters [kde/bandwidth] and [kde/absolute_error]. *)
Definition Init (this : FGTKde) (qset rset : mat double)
    (bandwidth absolute_error : double) : outcome FGTKde :=
  let kernel := kernel_Init bandwidth (kernel_ this) in
  let qset_ := qset in
  let densities := vec_new (n_cols qset_) in
  let rset_ := rset in
  let tau := absolute_error in
  Ok {| qset_ := qset_; rset_ := rset_; kernel_ := kernel;
        densities_ := densities; tau_ := tau; msea_ := msea_ this |}.

(** [Compute]; the result is the object after the call.  [fuel] bounds
    the iterations of the truncation-order search. *)
Definition Compute (this : FGTKde) (fuel : nat) : outcome FGTKde :=
  let dim := n_rows (rset_ this) in
  let nsides : list Z := reserve (n_rows (rset_ this)) in
  let sidelengths := vec_new (n_rows (rset_ this)) in
  let mincoords := vec_new (n_rows (rset_ this)) in
  let this := set_densities this (vec_zeros (densities_ this)) in
  let* plan :=
    FastGaussTransformPreprocess_ this fuel nsides sidelengths mincoords in
  let nboxes := gp_nboxes plan in
  let nterms := gp_nterms plan in
  let this :=
    {| qset_ := qset_ this; rset_ := rset_ this; kernel_ := kernel_ this;
       densities_ := densities_ this; tau_ := tau_ this;
       msea_ := msea_Init (nterms - 1) (n_rows (qset_ this)) (msea_ this) |} in
  let center := mat_new dim nboxes in
  let locexp := mat_zeros (mat_new (ipow nterms dim) nboxes) in
  let queries_assigned : list (list Z) := reserve nboxes in
  let references_assigned : list (list Z) := reserve nboxes in
  let mcoeffs := mat_zeros (mat_new (ipow nterms dim) nboxes) in
  let delta := of_index 2 * bandwidth_sq (kernel_ this) in
  let* s :=
    GaussTransform_ this delta nterms nboxes (gp_nsides plan)
      (gp_sidelengths plan) (gp_mincoords plan) locexp center
      queries_assigned references_assigned mcoeffs in
  NormalizeDensities_ (ss_this s).

(** *** The error bound of the truncation-order search *)

(** The loop variables of the truncation-order search after [n]
    iterations of its body. *)
Definition search_after (boxside : double) (dim : Z) (n : nat)
    : order_search :=
  let two_r := of_index 2 * boxside in
  let one_minus_two_r := of_index 1 - two_r in
  let ret :=
    of_index 1 / pow (one_minus_two_r * one_minus_two_r) dim in
  Nat.iter n (order_step two_r ret dim)
    {| os_ip := 0; os_factorialvalue := of_index 1;
       os_r_raised_to_p_alpha := of_index 1; os_ret2 := indeterminate |}.

(** The closed-form error bound [ret2] that the search computes at
    order [n]. *)
Definition bound_at (boxside : double) (dim : Z) (n : nat) : double :=
  os_ret2 (search_after boxside dim n).

End FGT.

(** ** Reference definitions for the grid indexing *)

(** The number of boxes of a grid with [n[i]] boxes along axis [i]. *)
Definition product (n : list Z) : Z := fold_right Z.mul 1 n.

(** The mixed-radix value of the digits [c] in the radices [n], the
    first digit being the least significant one. *)
Fixpoint mixed_radix (c n : list Z) : Z :=
  match c, n with
  | x :: c', m :: n' => x + m * mixed_radix c' n'
  | _, _ => 0
  end.

(** The mixed-radix digits of [index] in the radices [n]. *)
Fixpoint digits (n : list Z) (index : Z) : list Z :=
  match n with
  | [] => []
  | m :: n' => Z.rem index m :: digits n' (Z.quot index m)
  end.

(** A per-axis coordinate tuple that lies on the grid. *)
Definition on_grid (c n : list Z) : Prop :=
  Forall2 (fun x m => 0 <= x < m) c n.

(** Boxes [a] and [b] lie within [kdis] boxes of each other along every
    axis. *)
Definition chebyshev_within (kdis : Z) (n : list Z) (a b : Z) : Prop :=
  Forall2 (fun x y => Z.abs (x - y) <= kdis) (digits n a) (digits n b).

(** The column indices [0, ..., n - 1]. *)
Definition indices (n : Z) : list Z := map Z.of_nat (seq 0 (Z.to_nat n)).

(** Every column of the matrix has [n_rows] entries. *)
Definition mat_wf {double : Type} (m : mat double) : Prop :=
  Forall (fun c => size c = n_rows m) (columns m).

(** ** Specifications of outcomes *)

(** The computation does not spin, and the value it returns, when it
    returns one, satisfies [P]. *)
Definition ensures {A : Type} (P : A -> Prop) (m : outcome A) : Prop :=
  match m with
  | Ok a => P a
  | Undefined => True
  | Spins => False
  end.

(** ** Exact real arithmetic *)

(** The interpretation of [double] as the real numbers: no rounding, no
    infinities, no NaN.  It is used to evaluate the routines on concrete
    inputs. *)
Module RealModel.

Definition R_lt (x y : R) : bool := if Rlt_dec x y then true else false.

Definition R_ne (x y : R) : bool := if Req_dec_T x y then false else true.

(** [(index_t) x] truncates towards zero.  This is the cast where the
    truncated value is representable in [index_t]; beyond that the cast
    has no defined result, and nothing is stated about it. *)
Definition R_to_index (x : R) : Z :=
  if Rle_dec 0 x then Int_part x else - Int_part (- x).

#[export] Instance real_arith : Arith R := {|
  of_index := IZR;
  to_index := R_to_index;
  index_max := 2 ^ 31 - 1;
  half := (/ 2)%R;
  DBL_MAX := IZR (2 ^ 1024 - 2 ^ 971);
  indeterminate := 0%R;
  add := Rplus;
  sub := Rminus;
  mul := Rmult;
  div := Rdiv;
  neg := Ropp;
  lt := R_lt;
  ne := R_ne;
  sqrt := R_sqrt.sqrt;
  exp := Rtrigo_def.exp;
  log := Rpower.ln;
  floor := fun x => IZR (Int_part x);
  pow := powerRZ
|}.

(** Modelled from the spec: [GaussianKernel] is declared in another file
    of fastlib; the kernel is the isotropic Gaussian with bandwidth [h],
    it derives [bandwidth_sq = h^2] and a normalisation constant that
    depends on the dimension. *)
Record gaussian_kernel : Type := { kernel_bandwidth_sq : R }.

Definition gaussian_Init (bandwidth : R) (k : gaussian_kernel)
    : gaussian_kernel :=
  {| kernel_bandwidth_sq := (bandwidth * bandwidth)%R |}.

Definition gaussian_CalcNormConstant (k : gaussian_kernel) (dim : Z) : R :=
  powerRZ (R_sqrt.sqrt (2 * PI * kernel_bandwidth_sq k)) dim.

(** The factorial of a multi-index and the sum of its entries. *)
Definition multiindex_factorial (alpha : list Z) : Z :=
  fold_right (fun a acc => Z.of_nat (fact (Z.to_nat a)) * acc) 1 alpha.

Definition multiindex_sum (alpha : list Z) : Z := fold_right Z.add 0 alpha.

(** Modelled from the spec: [MultSeriesExpansionAux::Init] is declared
    in another file of fastlib; the table lists the multi-indices of
    per-axis degree at most [max_order] in the mixed-radix layout of the
    expansion routines, the first axis being the most significant one,
    with the inverse factorials, unsigned and signed, in the same
    order. *)
Definition series_Init (max_order dim : Z) (msea : MultSeriesExpansionAux R)
    : MultSeriesExpansionAux R :=
  let p := max_order + 1 in
  let radices := repeat p (Z.to_nat dim) in
  let table := map (fun j => rev (digits radices j)) (indices (p ^ dim)) in
  {| multiindex_mapping := table;
     inv_multiindex_factorials :=
       map (fun alpha => (/ IZR (multiindex_factorial alpha))%R) table;
     neg_inv_multiindex_factorials :=
       map (fun alpha => (powerRZ (-1) (multiindex_sum alpha)
                          / IZR (multiindex_factorial alpha))%R) table |}.

(** Modelled from the spec: [la::DistanceSqEuclidean] is declared in
    another file of fastlib; it is the squared Euclidean distance. *)
Definition distance_sq (a b : vec R) : R :=
  fold_right Rplus 0%R (zip_with (fun x y => ((x - y) * (x - y))%R) a b).

#[export] Instance real_collaborators : Collaborators R := {|
  GaussianKernel := gaussian_kernel;
  kernel_Init := gaussian_Init;
  bandwidth_sq := kernel_bandwidth_sq;
  msea_Init := series_Init;
  DistanceSqEuclidean := distance_sq
|}.

#[export] Instance real_norm_constant : NormConstant R := {|
  CalcNormConstant := gaussian_CalcNormConstant
|}.

(** The brute-force density estimate of query column [q]:
    [(1 / (Nr * normConst)) * sum_r exp(-|q - r|^2 / (2 * bandwidth^2))]. *)
Definition brute_force (this : FGTKde) (q : vec R) : R :=
  (1 / (IZR (n_cols (rset_ this))
        * CalcNormConstant (kernel_ this) (n_rows (qset_ this)))
   * fold_right Rplus 0
       (map (fun r => Rtrigo_def.exp
                        (- distance_sq q r
                         / (2 * bandwidth_sq (kernel_ this))))
            (columns (rset_ this))))%R.

(** *** Example objects *)

(** An object before [Init]: nothing loaded. *)
Definition fresh : FGTKde :=
  {| qset_ := {| n_rows := 0; columns := [] |};
     rset_ := {| n_rows := 0; columns := [] |};
     kernel_ := {| kernel_bandwidth_sq := 0%R |};
     densities_ := [];
     tau_ := 0%R;
     msea_ := {| multiindex_mapping := [];
                 inv_multiindex_factorials := [];
                 neg_inv_multiindex_factorials := [] |} |}.

(** The table of [msea_] for truncation order 1 in one dimension, as
    [msea_.Init(nterms - 1, dim)] leaves it. *)
Definition order0_table : MultSeriesExpansionAux R :=
  series_Init 0 1 (msea_ fresh).

(** One-dimensional data with bandwidth 1/4 and tolerance 1/2: the
    references 0 and 1/64, and four queries at 0. *)
Definition four_queries : FGTKde :=
  {| qset_ := {| n_rows := 1; columns := [[0%R]; [0%R]; [0%R]; [0%R]] |};
     rset_ := {| n_rows := 1; columns := [[0%R]; [(/ 64)%R]] |};
     kernel_ := {| kernel_bandwidth_sq := (/ 16)%R |};
     densities_ := [0%R; 0%R; 0%R; 0%R];
     tau_ := (/ 2)%R;
     msea_ := order0_table |}.

(** The same with four references, two at 0 and two at 1/64, and one
    query at 0. *)
Definition four_references : FGTKde :=
  {| qset_ := {| n_rows := 1; columns := [[0%R]] |};
     rset_ := {| n_rows := 1;
                 columns := [[0%R]; [(/ 64)%R]; [0%R]; [(/ 64)%R]] |};
     kernel_ := {| kernel_bandwidth_sq := (/ 16)%R |};
     densities_ := [0%R];
     tau_ := (/ 2)%R;
     msea_ := order0_table |}.

(** The same with the two references of [four_queries] and one query
    at 0. *)
Definition one_query : FGTKde :=
  {| qset_ := {| n_rows := 1; columns := [[0%R]] |};
     rset_ := {| n_rows := 1; columns := [[0%R]; [(/ 64)%R]] |};
     kernel_ := {| kernel_bandwidth_sq := (/ 16)%R |};
     densities_ := [0%R];
     tau_ := (/ 2)%R;
     msea_ := order0_table |}.

(** A zeroed coefficient matrix for one box and one coefficient. *)
Definition zero_1x1 : mat R := {| n_rows := 1; columns := [[0%R]] |}.

(** The matrix of box centers for one box in one dimension, holding
    [c]. *)
Definition center_1x1 (c : R) : mat R := {| n_rows := 1; columns := [[c]] |}.

End RealModel.

(** ** Reference definitions for the point assignment *)

Section AssignReference.
Context {double : Type} `{Arith double}.
Local Open Scope dbl_scope.

(** The bin of the point with coordinates [c] along every axis, clamped
    to the grid. *)
Definition clamped_bins (nsides : list Z) (sidelengths mincoords c : vec double)
    : list Z :=
  map (fun '(nside, (h, (x, lo))) =>
         Z.max 0%Z (Z.min (to_index (floor ((x - lo) / h))) (nside - 1)%Z))
      (zip nsides (zip sidelengths (zip c mincoords))).

(** Column [r] of [pts] is assigned to box [b]. *)
Definition in_box (pts : mat double) (dim : Z) (nsides : list Z)
    (sidelengths mincoords : vec double) (b r : Z) : bool :=
  match boxnum_of pts dim nsides sidelengths mincoords r with
  | Ok b' => (b' =? b)%Z
  | _ => false
  end.

(** The columns of [pts] that are assigned to box [b], in increasing
    order. *)
Definition box_members (pts : mat double) (dim : Z) (nsides : list Z)
    (sidelengths mincoords : vec double) (b : Z) : list Z :=
  List.filter (in_box pts dim nsides sidelengths mincoords b)
    (indices (n_cols pts)).

End AssignReference.

(** ** Further reference definitions *)

(** The computation returns, and the value it returns satisfies [P]. *)
Definition returns {A : Type} (P : A -> Prop) (m : outcome A) : Prop :=
  match m with
  | Ok a => P a
  | Undefined => False
  | Spins => False
  end.

(** [for (k = 0; k < l.size(); k++) g(l[k])], as a recursion over the
    elements of [l]. *)
Fixpoint for_each {A S : Type} (g : A -> S -> outcome S) (l : list A)
    (s : S) : outcome S :=
  match l with
  | [] => Ok s
  | x :: l' => let* s' := g x s in for_each g l' s'
  end.

Section PassReference.
Context {double : Type} `{Arith double} `{Collaborators double}.
Local Open Scope dbl_scope.

(** The objects differ at most in the values of their densities. *)
Definition same_but_densities (this this' : FGTKde) : Prop :=
  qset_ this' = qset_ this /\ rset_ this' = rset_ this /\
  kernel_ this' = kernel_ this /\ tau_ this' = tau_ this /\
  msea_ this' = msea_ this /\
  size (densities_ this') = size (densities_ this).

(** The sum of the Gaussian terms [exp(-|query - reference|^2 / delta)]
    over [references], added one after the other to [acc]. *)
Definition kernel_sum (delta : double) (query : vec double)
    (references : list (vec double)) (acc : double) : double :=
  fold_left (fun acc reference =>
               acc + exp (- DistanceSqEuclidean query reference / delta))
    references acc.

End PassReference.

(** Entry [d] of the bounds [mn] and [mx] encloses coordinate [d] of
    column [n] of [pts], in exact real arithmetic. *)
Definition encloses (pts : mat R) (mn mx : vec R) (d n : nat) : Prop :=
  forall (c : vec R) (x lo hi : R),
    columns pts !! n = Some c -> c !! d = Some x ->
    mn !! d = Some lo -> mx !! d = Some hi -> (lo <= x <= hi)%R.

(** Entry [d] of the bound [v] is still its initial value [init], or it
    is coordinate [d] of a column of [pts]. *)
Definition attained (pts : mat R) (v : vec R) (init : R) (d : nat) : Prop :=
  forall b : R, v !! d = Some b ->
    b = init \/
    exists (n : nat) (c : vec R), columns pts !! n = Some c /\ c !! d = Some b.

(** ** Reference definitions for the series expansions *)

Section SeriesReference.
Context {double : Type} `{Arith double}.
Local Open Scope dbl_scope.

(** [v, v * x, (v * x) * x, ...]: [p] entries. *)
Definition powers_of (p : nat) (x v : double) : list double :=
  map (fun k => Nat.iter k (fun t => t * x) v) (seq 0 p).

(** Every entry of [tbl] followed by its products with the first
    [p - 1] powers of [x]. *)
Definition extend_axis (p : nat) (x : double) (tbl : list double)
    : list double :=
  concat (map (powers_of p x) tbl).

(** The products of powers [t * xs[0]^a0 * xs[1]^a1 * ...] with every
    exponent below [p], in lexicographic order of [(a0, a1, ...)], each
    product taken from left to right. *)
Definition monomial_table (p : nat) (xs : list double) (t : double)
    : list double :=
  fold_left (fun tbl x => extend_axis p x tbl) xs [t].

End SeriesReference.

Section TableReference.
Context {double : Type} `{Arith double}.
Local Open Scope dbl_scope.

(** The table that one sweep over the axes builds from [t]: every axis
    replaces each entry [v] by the [p] entries [g 0 v, ..., g (p-1) v],
    [g] being the generator of the axis. *)
Definition axis_table (p : nat) (gens : list (nat -> double -> double))
    (t : double) : list double :=
  fold_left (fun tbl g =>
               concat (map (fun v => map (fun k => g k v) (seq 0 p)) tbl))
    gens [t].

(** The Hermite recurrence of the expansion routines, from
    [h(0) = facj] and [h(1) = d2 * facj] by
    [h(k+1) = d2 * h(k) - 2k * h(k-1)]: the pair [(h(n), h(n+1))]. *)
Fixpoint hermite_pair (d2 facj : double) (n : nat) : double * double :=
  match n with
  | O => (facj, d2 * facj)
  | S n' =>
      let '(a, b) := hermite_pair d2 facj n' in
      (b, d2 * b - of_index (Z.of_nat (S n') * 2) * a)
  end.

(** The [n]-th Hermite function at [c]: [h(0) = exp(-c^2)],
    [h(1) = 2c * exp(-c^2)], and on by the recurrence. *)
Definition hermite_fn (c : double) (n : nat) : double :=
  fst (hermite_pair (of_index 2 * c) (exp (- c * c)) n).

(** The table of the products of Hermite functions at the scaled
    offsets [cs]: every offset replaces each entry [v] by the [p]
    entries [v * h_0(c), ..., v * h_(p-1)(c)], so that the entry at an
    index is [t] times the Hermite functions whose orders are the digits
    of the index in base [p], the first offset having the most
    significant digit. *)
Definition hermite_table (p : nat) (cs : list double) (t : double)
    : list double :=
  fold_left (fun tbl c =>
               concat (map (fun v =>
                              map (fun k => v * hermite_fn c k) (seq 0 p))
                         tbl))
    cs [t].

(** The value of a Hermite expansion about [centroid] at [query]: the
    sum, from index 0 upwards, of the coefficients times the products
    of the Hermite functions at the offsets [query - centroid] scaled by
    the bandwidth. *)
Definition multipole_value (p : nat) (bandwidth : double)
    (mcoeffs centroid query : vec double) : double :=
  fold_left (fun acc '(m, t) => acc + m * t)
    (zip mcoeffs
       (hermite_table p
          (map (fun x => x / bandwidth) (zip_with sub query centroid))
          (of_index 1)))
    (of_index 0).

(** The sums of the monomials of the scaled offsets of [references]
    from the center [x_R], entry by entry over [n] entries, each
    reference added after the ones before it, from zero. *)
Definition moment_sums (p : nat) (bandwidth : double) (x_R : vec double)
    (references : list (vec double)) (n : nat) : list double :=
  fold_left (fun acc reference =>
               zip_with add acc
                 (monomial_table p
                    (zip_with (fun x c => (x - c) / bandwidth) reference x_R)
                    (of_index 1)))
    references (repeat (of_index 0) n).

(** The value of a local expansion about [x_Q] at [query]: the sum,
    from index 0 upwards, of the local moments times the monomials of
    the offset [query - x_Q] scaled by [h]. *)
Definition local_value (p : nat) (h : double)
    (lcoeffs x_Q query : vec double) : double :=
  fold_left (fun acc '(l, t) => acc + l * t)
    (zip lcoeffs
       (monomial_table p (zip_with (fun a b => (a - b) / h) query x_Q)
          (of_index 1)))
    (of_index 0).

(** The local moments after the direct accumulation of [references]
    into [arr]: every reference adds, entry by entry, [factors] times
    the products of the Hermite functions at the offsets
    [x_Q - reference] scaled by the bandwidth. *)
Definition local_sums (p : nat) (bandwidth : double)
    (factors x_Q : vec double) (references : list (vec double))
    (arr : vec double) : list double :=
  fold_left (fun acc reference =>
               zip_with add acc
                 (zip_with mul factors
                    (hermite_table p
                       (map (fun x => x / bandwidth)
                          (zip_with sub x_Q reference))
                       (of_index 1))))
    references arr.

(** The matrix has [c] columns of [r] entries each. *)
Definition mat_shape (m : mat double) (r c : nat) : Prop :=
  length (columns m) = c /\ Forall (fun col => length col = r) (columns m).

End TableReference.

(** *** Example objects for truncation order 2 *)

Module RealOrder2.
Import RealModel.

(** The four references of [four_references] with the table of [msea_]
    for truncation order 2 in one dimension. *)
Definition four_references_order2 : FGTKde :=
  {| qset_ := qset_ four_references;
     rset_ := rset_ four_references;
     kernel_ := kernel_ four_references;
     densities_ := densities_ four_references;
     tau_ := tau_ four_references;
     msea_ := series_Init 1 1 (msea_ fresh) |}.

(** A zeroed coefficient matrix for one box and two coefficients. *)
Definition zero_2x1 : mat R := {| n_rows := 2; columns := [[0%R; 0%R]] |}.

End RealOrder2.

(** * Properties *)

(** ** Outcomes, vectors and loops *)

Lemma bind_Ok_inv {A B : Type} (m : outcome A) (k : A -> outcome B) (b : B) :
  bind m k = Ok b -> exists a, m = Ok a /\ k a = Ok b.
Proof. destruct m; simpl; intros E; try discriminate. eauto. Qed.

Lemma size_nonneg {A : Type} (v : list A) : 0 <= size v.
Proof. unfold size. lia. Qed.

Lemma at_Ok {A : Type} (v : list A) (i : Z) (x : A) :
  at_ v i = Ok x <-> 0 <= i /\ v !! Z.to_nat i = Some x.
Proof.
  unfold at_. destruct (Z.ltb_spec i 0).
  - split; [discriminate | lia].
  - destruct (v !! Z.to_nat i) eqn:E; split; intros G;
      try discriminate; try (destruct G; discriminate).
    + injection G as ->. auto.
    + destruct G as [_ G]. injection G as ->. reflexivity.
Qed.

Lemma at_nat {A : Type} (v : list A) (i : nat) (x : A) :
  v !! i = Some x -> at_ v (Z.of_nat i) = Ok x.
Proof. intros E. apply at_Ok. rewrite Nat2Z.id. split; [lia | exact E]. Qed.

Lemma put_nat {A : Type} (v : list A) (i : nat) (x : A) :
  (i < length v)%nat -> put v (Z.of_nat i) x = Ok (<[i := x]> v).
Proof.
  intros L. unfold put, size.
  destruct (Z.leb_spec 0 (Z.of_nat i)); [| lia].
  destruct (Z.ltb_spec (Z.of_nat i) (Z.of_nat (length v))); [| lia].
  simpl. rewrite Nat2Z.id. reflexivity.
Qed.

Lemma put_in_range {A : Type} (v : list A) (i : Z) (x : A) :
  0 <= i < size v -> put v i x = Ok (<[Z.to_nat i := x]> v).
Proof.
  intros Hi. unfold put.
  destruct (Z.leb_spec 0 i); [| lia].
  destruct (Z.ltb_spec i (size v)); [| lia]. reflexivity.
Qed.

Lemma put_Ok {A : Type} (v v' : list A) (i : Z) (x : A) :
  put v i x = Ok v' ->
  0 <= i < size v /\ v' = <[Z.to_nat i := x]> v.
Proof.
  unfold put. destruct (Z.leb_spec 0 i); simpl; [| discriminate].
  destruct (Z.ltb_spec i (size v)); [| discriminate].
  intros E. injection E as <-. split; [lia | reflexivity].
Qed.

Lemma for_count_snoc {S : Type} (n : nat) (i : Z)
    (body : Z -> S -> outcome S) (s : S) :
  for_count (Datatypes.S n) i body s =
  bind (for_count n i body s) (body (i + Z.of_nat n)).
Proof.
  revert i s. induction n as [| n IH]; intros i s.
  - simpl. rewrite Z.add_0_r. destruct (body i s); reflexivity.
  - change (for_count (Datatypes.S (Datatypes.S n)) i body s)
      with (bind (body i s) (for_count (Datatypes.S n) (i + 1) body)).
    change (for_count (Datatypes.S n) i body s)
      with (bind (body i s) (for_count n (i + 1) body)).
    destruct (body i s) as [s1 | |]; cbn [bind]; try reflexivity.
    rewrite IH. f_equal. f_equal. lia.
Qed.

Lemma for_range_nat {S : Type} (n : nat) (body : Z -> S -> outcome S) (s : S) :
  for_range 0 (Z.of_nat n) body s = for_count n 0 body s.
Proof. unfold for_range. rewrite Z.sub_0_r, Nat2Z.id. reflexivity. Qed.

(** An invariant of the body is an invariant of the loop. *)
Lemma for_count_invariant {S : Type} (P : S -> Prop)
    (body : Z -> S -> outcome S) :
  (forall i s s', P s -> body i s = Ok s' -> P s') ->
  forall n i s s', P s -> for_count n i body s = Ok s' -> P s'.
Proof.
  intros Hb. induction n as [| n IH]; intros i s s' Hs E; simpl in E.
  - injection E as <-. exact Hs.
  - apply bind_Ok_inv in E as (s1 & E1 & E2). eauto.
Qed.

Lemma for_range_invariant {S : Type} (P : S -> Prop)
    (body : Z -> S -> outcome S) (lo hi : Z) (s s' : S) :
  (forall i s s', P s -> body i s = Ok s' -> P s') ->
  P s -> for_range lo hi body s = Ok s' -> P s'.
Proof. intros Hb Hs E. eapply for_count_invariant; eauto. Qed.

Lemma for_count_down_invariant {S : Type} (P : S -> Prop)
    (body : Z -> S -> outcome S) :
  (forall i s s', P s -> body i s = Ok s' -> P s') ->
  forall n i s s', P s -> for_count_down n i body s = Ok s' -> P s'.
Proof.
  intros Hb. induction n as [| n IH]; intros i s s' Hs E; simpl in E.
  - injection E as <-. exact Hs.
  - apply bind_Ok_inv in E as (s1 & E1 & E2). eauto.
Qed.

Lemma while_invariant {S : Type} (P : S -> Prop) (cond : S -> bool)
    (body : S -> outcome S) :
  (forall s s', P s -> cond s = true -> body s = Ok s' -> P s') ->
  forall fuel s s', P s -> while_ fuel cond body s = Ok s' ->
                    P s' /\ cond s' = false.
Proof.
  intros Hb. induction fuel as [| fuel IH]; intros s s' Hs E; simpl in E;
    destruct (cond s) eqn:C; try discriminate.
  - injection E as <-. auto.
  - apply bind_Ok_inv in E as (s1 & E1 & E2). eauto.
  - injection E as <-. auto.
Qed.

(** ** Box ids *)

Module GridFacts.
Import Grid.

Lemma product_app (a b : list Z) : product (a ++ b) = product a * product b.
Proof. induction a as [| x a IH]; simpl; [lia |]. rewrite IH. lia. Qed.

Lemma product_pos (n : list Z) : Forall (fun m => 1 <= m) n -> 1 <= product n.
Proof. induction 1; simpl; nia. Qed.

Lemma weight_loop (n : list Z) (k : nat) :
  (k <= length n)%nat ->
  for_count k 0 (fun j prod => let* nj := at_ n j in Ok (prod * nj)) 1
  = Ok (product (take k n)).
Proof.
  induction k as [| k IH]; intros L.
  - reflexivity.
  - rewrite for_count_snoc, IH by lia. cbn [bind]. rewrite Z.add_0_l.
    destruct (lookup_lt_is_Some_2 n k) as [x E]; [lia |].
    rewrite (at_nat _ _ _ E). cbn [bind].
    rewrite (take_S_r _ _ _ E), product_app. simpl. f_equal. lia.
Qed.

Lemma mixed_radix_snoc (c n : list Z) (x : Z) :
  (length c < length n)%nat ->
  mixed_radix (c ++ [x]) n = mixed_radix c n + x * product (take (length c) n).
Proof.
  revert n. induction c as [| y c IH]; intros [| m n] L; simpl in *; try lia.
  rewrite IH by lia. lia.
Qed.

(** The encoding loop computes the mixed-radix value. *)
Lemma MultiDimIndexInSingleArray_value (coords n : list Z) :
  (length coords <= length n)%nat ->
  MultiDimIndexInSingleArray_ coords n = Ok (mixed_radix coords n).
Proof.
  intros L. unfold MultiDimIndexInSingleArray_, size. rewrite for_range_nat.
  assert (G : forall k, (k <= length coords)%nat ->
    for_count k 0 (fun i sum =>
      let* prod := for_range 0 i (fun j prod =>
                     let* nj := at_ n j in Ok (prod * nj)) 1 in
      let* ci := at_ coords i in Ok (sum + ci * prod)) 0
    = Ok (mixed_radix (take k coords) n)).
  { induction k as [| k IH]; intros Lk.
    - reflexivity.
    - rewrite for_count_snoc, IH by lia. cbn [bind]. rewrite Z.add_0_l.
      rewrite for_range_nat, weight_loop by lia. cbn [bind].
      destruct (lookup_lt_is_Some_2 coords k) as [x E]; [lia |].
      rewrite (at_nat _ _ _ E). cbn [bind].
      rewrite (take_S_r _ _ _ E), mixed_radix_snoc
        by (rewrite length_take; lia).
      rewrite length_take. replace (k `min` length coords)%nat with k by lia.
      reflexivity. }
  rewrite G by lia. rewrite firstn_all. reflexivity.
Qed.

(** The decoding loop computes the mixed-radix digits. *)
Lemma SingleDimIndexInMultiArray_loop (n' : list Z) :
  forall (npre pre cs : list Z) (index : Z),
    Forall (fun m => m <> 0) n' ->
    length npre = length pre -> length cs = length n' ->
    exists index',
      for_count (length n') (Z.of_nat (length pre))
        (fun i '(index, coords) =>
           let* ni := at_ (npre ++ n') i in
           let* this_coord := imod index ni in
           let* index := idiv index ni in
           let* coords := put coords i this_coord in
           Ok (index, coords)) (index, pre ++ cs)
      = Ok (index', pre ++ digits n' index).
Proof.
  induction n' as [| m n' IH]; intros npre pre cs index Hn Lp Lc.
  - destruct cs; [| discriminate]. simpl. eauto.
  - destruct cs as [| c cs]; [discriminate |].
    inversion Hn as [| ? ? Hm Hn']; subst.
    simpl for_count.
    rewrite (at_nat (npre ++ m :: n') (length pre) m)
      by (rewrite <- Lp; apply list_lookup_middle; reflexivity).
    simpl. unfold imod, idiv. destruct (Z.eqb_spec m 0); [contradiction |].
    simpl. rewrite put_nat by (rewrite length_app; simpl; lia).
    simpl. rewrite (insert_app_r_alt pre (c :: cs)) by lia.
    rewrite Nat.sub_diag. simpl.
    destruct (IH (npre ++ [m]) (pre ++ [Z.rem index m]) cs (Z.quot index m))
      as [index' E]; auto.
    { rewrite !length_app. simpl. lia. }
    exists index'. rewrite <- !app_assoc in E. simpl in E.
    rewrite length_app in E. simpl in E.
    replace (Z.of_nat (length pre) + 1) with (Z.of_nat (length pre + 1)) by lia.
    exact E.
Qed.

Lemma SingleDimIndexInMultiArray_value (n coords : list Z) (index : Z) :
  Forall (fun m => m <> 0) n -> length coords = length n ->
  SingleDimIndexInMultiArray_ n index coords = Ok (digits n index).
Proof.
  intros Hn L. unfold SingleDimIndexInMultiArray_, size.
  rewrite for_range_nat, L.
  destruct (SingleDimIndexInMultiArray_loop n [] [] coords index Hn eq_refl L)
    as [index' E].
  change (Z.of_nat (length [])) with 0 in E. simpl app in E.
  rewrite E. reflexivity.
Qed.

Lemma digits_length (n : list Z) (index : Z) :
  length (digits n index) = length n.
Proof. revert index. induction n; simpl; auto. Qed.

Lemma digits_on_grid (n : list Z) (index : Z) :
  Forall (fun m => 1 <= m) n -> 0 <= index ->
  on_grid (digits n index) n.
Proof.
  intros Hn. revert index. induction Hn as [| m n Hm Hn IH]; intros index Hi.
  - constructor.
  - simpl. constructor.
    + pose proof (Z.rem_bound_pos index m). lia.
    + apply IH. apply Z.quot_pos; lia.
Qed.

Lemma mixed_radix_digits (n : list Z) (index : Z) :
  Forall (fun m => 1 <= m) n -> 0 <= index < product n ->
  mixed_radix (digits n index) n = index.
Proof.
  intros Hn. revert index. induction Hn as [| m n Hm Hn IH]; intros index Hi.
  - simpl in *. lia.
  - simpl in *. rewrite IH.
    + pose proof (Z.quot_rem' index m). lia.
    + split; [apply Z.quot_pos; lia |].
      apply Z.quot_lt_upper_bound; lia.
Qed.

Lemma mixed_radix_bound (c n : list Z) :
  on_grid c n -> 0 <= mixed_radix c n < product n.
Proof. induction 1 as [| x m c n Hx Hc IH]; simpl; [lia | nia]. Qed.

Lemma digits_mixed_radix (c n : list Z) :
  on_grid c n -> digits n (mixed_radix c n) = c.
Proof.
  induction 1 as [| x m c n Hx Hc IH]; simpl; [reflexivity |].
  pose proof (mixed_radix_bound c n Hc) as B.
  assert (Q : Z.quot (x + m * mixed_radix c n) m = mixed_radix c n).
  { rewrite Z.quot_div_nonneg by nia.
    rewrite Z.mul_comm, Z.div_add by lia.
    rewrite Z.div_small by lia. lia. }
  assert (R : Z.rem (x + m * mixed_radix c n) m = x).
  { rewrite Z.rem_mod_nonneg by nia.
    rewrite Z.mul_comm, Z.mod_add by lia.
    apply Z.mod_small. lia. }
  rewrite Q, R, IH. reflexivity.
Qed.

Lemma on_grid_length (c n : list Z) : on_grid c n -> length c = length n.
Proof. apply Forall2_length. Qed.

Lemma Forall_pos_nonzero (n : list Z) :
  Forall (fun m => 1 <= m) n -> Forall (fun m => m <> 0) n.
Proof. induction 1; constructor; auto; lia. Qed.

(** C9. For a grid with at least one box along every axis and a
    coordinate vector with one entry per axis: decoding a box id of
    [0, nboxes) with [SingleDimIndexInMultiArray_] gives coordinates on
    the grid that [MultiDimIndexInSingleArray_] encodes back to the same
    id; and encoding any coordinates on the grid gives an id of
    [0, nboxes) that decodes back to them.  The two functions are
    inverse bijections between box ids and coordinate tuples. *)
Theorem box_id_bijection (n coords : list Z) :
  Forall (fun m => 1 <= m) n ->
  length coords = length n ->
  (forall id, 0 <= id < product n ->
     exists c, SingleDimIndexInMultiArray_ n id coords = Ok c /\
               on_grid c n /\
               MultiDimIndexInSingleArray_ c n = Ok id) /\
  (forall c, on_grid c n ->
     exists id, MultiDimIndexInSingleArray_ c n = Ok id /\
                0 <= id < product n /\
                SingleDimIndexInMultiArray_ n id coords = Ok c).
Proof.
  intros Hn L. split.
  - intros id Hid. exists (digits n id).
    rewrite SingleDimIndexInMultiArray_value
      by auto using Forall_pos_nonzero.
    split; [reflexivity |]. split; [apply digits_on_grid; [auto | lia] |].
    rewrite MultiDimIndexInSingleArray_value by (rewrite digits_length; lia).
    rewrite mixed_radix_digits; auto.
  - intros c Hc. exists (mixed_radix c n).
    rewrite MultiDimIndexInSingleArray_value
      by (rewrite (on_grid_length _ _ Hc); lia).
    split; [reflexivity |]. split; [apply mixed_radix_bound; exact Hc |].
    rewrite SingleDimIndexInMultiArray_value
      by auto using Forall_pos_nonzero.
    rewrite digits_mixed_radix; auto.
Qed.

Lemma box_id_bijection_witness :
  (forall id, 0 <= id < product [3; 2] ->
     exists c, SingleDimIndexInMultiArray_ [3; 2] id [0; 0] = Ok c /\
               on_grid c [3; 2] /\
               MultiDimIndexInSingleArray_ c [3; 2] = Ok id) /\
  (forall c, on_grid c [3; 2] ->
     exists id, MultiDimIndexInSingleArray_ c [3; 2] = Ok id /\
                0 <= id < product [3; 2] /\
                SingleDimIndexInMultiArray_ [3; 2] id [0; 0] = Ok c).
Proof.
  apply (box_id_bijection [3; 2] [0; 0]).
  - repeat constructor; lia.
  - reflexivity.
Defined.

(** [MakeNeighbors_] returns box 0 alone, for every box, grid and range:
    its coordinate vectors have size 0, so that no loop over
    [coords.size()] runs and [num_neighbors] is [pow(2 * kdis + 1, 0)]. *)
Lemma MakeNeighbors_always_box0 (ibox : Z) (nsides : list Z) (kdis : Z)
    (ret : list Z) :
  MakeNeighbors_ ibox nsides kdis ret = Ok (ret ++ [0]).
Proof. reflexivity. Qed.

(** C7. On the one-axis grid of three boxes, the neighbors of box 1
    within range 1 are computed as the list [0]: box 2, a box of the
    grid whose coordinate differs from that of box 1 by one, is not
    returned (neither is box 1 itself). *)
Theorem MakeNeighbors_misses_neighbor :
  MakeNeighbors_ 1 [3] 1 [] = Ok [0] /\
  (0 <= 2 < product [3]) /\
  chebyshev_within 1 [3] 1 2 /\
  ~ In 2 [0].
Proof.
  split; [reflexivity |]. split; [simpl; lia |]. split.
  - unfold chebyshev_within. cbv [digits]. constructor; [| constructor].
    vm_compute. discriminate.
  - simpl. lia.
Qed.

End GridFacts.

(** ** Point assignment *)

Section AssignFacts.
Context {double : Type} {AR : Arith double} {CO : Collaborators double}.
Import GridFacts.

Lemma mat_at_wf (m : mat double) (i j : Z) :
  mat_wf m -> 0 <= i < n_rows m -> 0 <= j < n_cols m ->
  exists x, mat_at m i j = Ok x.
Proof.
  intros W Hi Hj. unfold mat_at, n_cols, size in *.
  destruct (lookup_lt_is_Some_2 (columns m) (Z.to_nat j)) as [c Ec]; [lia |].
  assert (Lc : size c = n_rows m).
  { eapply Forall_lookup_1 in W; eauto. }
  unfold size in Lc.
  destruct (lookup_lt_is_Some_2 c (Z.to_nat i)) as [x Ex]; [lia |].
  exists x.
  replace (at_ (columns m) j) with (Ok c)
    by (symmetry; apply at_Ok; split; [lia | exact Ec]).
  simpl. apply at_Ok. split; [lia | exact Ex].
Qed.

Lemma at_in_range {A : Type} (v : list A) (i : Z) :
  0 <= i < size v -> exists x, at_ v i = Ok x.
Proof.
  intros Hi. unfold size in Hi.
  destruct (lookup_lt_is_Some_2 v (Z.to_nat i)) as [x E]; [lia |].
  exists x. apply at_Ok. split; [lia | exact E].
Qed.

Lemma product_drop (n : list Z) (k : nat) (m : Z) :
  n !! k = Some m -> product (drop k n) = m * product (drop (S k) n).
Proof. intros E. rewrite (drop_S _ _ _ E). reflexivity. Qed.

(** Every column gets a box of the grid, whatever its coordinates. *)
Lemma boxnum_of_in_range (pts : mat double) (dim : Z) (nsides : list Z)
    (sidelengths mincoords : vec double) (r : Z) :
  mat_wf pts -> n_rows pts = dim -> 0 <= r < n_cols pts ->
  size nsides = dim -> size sidelengths = dim -> size mincoords = dim ->
  Forall (fun m => 1 <= m) nsides ->
  exists b, boxnum_of pts dim nsides sidelengths mincoords r = Ok b /\
            0 <= b < product nsides.
Proof.
  intros W Hd Hr Hn Hs Hm Hp. unfold boxnum_of, for_down.
  assert (G : forall k b, (k <= length nsides)%nat ->
     0 <= b < product (drop k nsides) ->
     exists b',
       for_count_down k (Z.of_nat k - 1) (fun di boxnum =>
         let* nside := at_ nsides di in
         let* h := at_ sidelengths di in
         let* x := mat_at pts di r in
         let* lo := at_ mincoords di in
         let binnum := to_index (floor ((x - lo) / h)%dbl) in
         let binnum := Z.max 0 (Z.min binnum (nside - 1)) in
         Ok (boxnum * nside + binnum)) b = Ok b' /\
       0 <= b' < product nsides).
  { induction k as [| k IH]; intros b Lk Hb.
    - exists b. split; [reflexivity | exact Hb].
    - simpl for_count_down.
      replace (Z.of_nat (S k) - 1) with (Z.of_nat k) by lia.
      destruct (lookup_lt_is_Some_2 nsides k) as [nside En]; [lia |].
      rewrite (at_nat _ _ _ En). cbn [bind].
      unfold size in *.
      destruct (at_in_range sidelengths (Z.of_nat k)) as [h ->];
        [unfold size; lia |].
      destruct (mat_at_wf pts (Z.of_nat k) r W) as [x ->]; [lia | lia |].
      destruct (at_in_range mincoords (Z.of_nat k)) as [lo ->];
        [unfold size; lia |].
      cbn [bind].
      assert (1 <= nside) by (eapply Forall_lookup_1 in Hp; eauto).
      apply IH; [lia |]. rewrite (product_drop _ _ _ En). nia. }
  destruct (G (length nsides) 0) as (b & E & B); [lia | |].
  { rewrite drop_all. simpl. lia. }
  exists b. unfold size in Hn. rewrite <- Hn, Nat2Z.id. split; [| exact B].
  rewrite <- E. reflexivity.
Qed.

Lemma concat_insert_push (boxes : list (list Z)) (b : nat) (l : list Z) (r : Z) :
  boxes !! b = Some l ->
  concat (<[b := push_back l r]> boxes) ≡ₚ concat boxes ++ [r].
Proof.
  revert b. induction boxes as [| l0 boxes IH]; intros [| b] E;
    simpl in *; try discriminate.
  - injection E as ->. unfold push_back. rewrite <- !app_assoc.
    apply Permutation_app_head. apply Permutation_app_comm.
  - rewrite (IH _ E). rewrite app_assoc. reflexivity.
Qed.

Lemma concat_repeat_nil {A : Type} (n : nat) :
  concat (repeat (@nil A) n) = [].
Proof. induction n as [| n IH]; simpl; auto. Qed.

Lemma indices_S (k : nat) :
  indices (Z.of_nat (S k)) = indices (Z.of_nat k) ++ [Z.of_nat k].
Proof.
  unfold indices. rewrite !Nat2Z.id, seq_S, map_app. reflexivity.
Qed.

(** One assignment loop of [Assign_]: the boxes receive the column
    indices, each one once. *)
Lemma assign_loop (pts : mat double) (dim : Z) (nsides : list Z)
    (sidelengths mincoords : vec double) (boxes : list (list Z)) :
  mat_wf pts -> n_rows pts = dim ->
  size nsides = dim -> size sidelengths = dim -> size mincoords = dim ->
  Forall (fun m => 1 <= m) nsides ->
  size boxes = product nsides ->
  exists boxes',
    for_range 0 (n_cols pts) (fun r boxes =>
      let* boxnum := boxnum_of pts dim nsides sidelengths mincoords r in
      let* box := at_ boxes boxnum in
      put boxes boxnum (push_back box r)) boxes = Ok boxes' /\
    length boxes' = length boxes /\
    concat boxes' ≡ₚ concat boxes ++ indices (n_cols pts).
Proof.
  intros W Hd Hn Hs Hm Hp Hb.
  unfold n_cols at 1, size at 1. rewrite for_range_nat.
  assert (G : forall k, (k <= length (columns pts))%nat ->
    exists boxes',
      for_count k 0 (fun r boxes =>
        let* boxnum := boxnum_of pts dim nsides sidelengths mincoords r in
        let* box := at_ boxes boxnum in
        put boxes boxnum (push_back box r)) boxes = Ok boxes' /\
      length boxes' = length boxes /\
      concat boxes' ≡ₚ concat boxes ++ indices (Z.of_nat k)).
  { induction k as [| k IH]; intros Lk.
    - exists boxes. split; [reflexivity |]. split; [reflexivity |].
      unfold indices. simpl. rewrite app_nil_r. reflexivity.
    - destruct IH as (bx & E & L & P); [lia |].
      rewrite for_count_snoc, E. cbn [bind]. rewrite Z.add_0_l.
      destruct (boxnum_of_in_range pts dim nsides sidelengths mincoords
                  (Z.of_nat k)) as (b & -> & Hb'); auto.
      { unfold n_cols, size. lia. }
      cbn [bind].
      assert (Hbx : 0 <= b < size bx) by (unfold size in *; lia).
      destruct (at_in_range bx b Hbx) as [l El]. rewrite El. cbn [bind].
      apply at_Ok in El as [_ El].
      rewrite put_in_range by exact Hbx.
      eexists. split; [reflexivity |]. split.
      + rewrite length_insert. exact L.
      + rewrite (concat_insert_push _ _ _ _ El), P, indices_S.
        rewrite app_assoc. reflexivity. }
  destruct (G (length (columns pts))) as (bx & E & L & P); [lia |].
  exists bx. split; [exact E |]. split; [exact L |].
  unfold n_cols, size. exact P.
Qed.

Lemma product_take (n : list Z) (k : nat) (m : Z) :
  n !! k = Some m -> product (take (S k) n) = product (take k n) * m.
Proof.
  intros E. rewrite (take_S_r _ _ _ E), product_app. simpl. lia.
Qed.

(** The axis loop of the centroid computation returns. *)
Lemma centroid_axes (nallbx : Z) (nsides : list Z)
    (sidelengths mincoords : vec double) (dim : Z) (ind : Z)
    (bc : vec double) :
  size nsides = dim -> size sidelengths = dim -> size mincoords = dim ->
  Forall (fun m => 1 <= m) nsides ->
  nallbx = product nsides -> size bc = dim ->
  exists s,
    for_down dim (fun di '(sf, ind, box_center) =>
      let* nside := at_ nsides di in
      let* h := at_ sidelengths di in
      let* sf := idiv sf nside in
      let* rem := imod ind sf in
      let* ind := idiv ind sf in
      let* lo := at_ mincoords di in
      let* box_center :=
        put box_center di (lo + (of_index ind + half) * h)%dbl in
      let ind := rem in
      Ok (sf, ind, box_center)) (nallbx, ind, bc) = Ok s.
Proof.
  intros Hn Hs Hm Hp Hb Lbc. unfold for_down.
  assert (D : forall j sf ind bc, (j <= length nsides)%nat ->
    sf = product (take j nsides) -> size bc = dim ->
    exists s,
      for_count_down j (Z.of_nat j - 1) (fun di '(sf, ind, box_center) =>
        let* nside := at_ nsides di in
        let* h := at_ sidelengths di in
        let* sf := idiv sf nside in
        let* rem := imod ind sf in
        let* ind := idiv ind sf in
        let* lo := at_ mincoords di in
        let* box_center :=
          put box_center di (lo + (of_index ind + half) * h)%dbl in
        let ind := rem in
        Ok (sf, ind, box_center)) (sf, ind, bc) = Ok s).
  { clear - Hn Hs Hm Hp.
    induction j as [| j IHj]; intros sf ind bc Lj Hsf Lbc.
    - eexists. reflexivity.
    - simpl for_count_down.
      replace (Z.of_nat (S j) - 1) with (Z.of_nat j) by lia.
      destruct (lookup_lt_is_Some_2 nsides j) as [nside En]; [lia |].
      rewrite (at_nat _ _ _ En). cbn [bind].
      unfold size in *.
      destruct (at_in_range sidelengths (Z.of_nat j)) as [h ->];
        [unfold size; lia |].
      cbn [bind].
      assert (1 <= nside) by (eapply Forall_lookup_1 in Hp; eauto).
      rewrite (product_take _ _ _ En) in Hsf.
      assert (1 <= product (take j nsides)).
      { apply product_pos. apply Forall_take. exact Hp. }
      assert (Q : Z.quot sf nside = product (take j nsides)).
      { subst sf. rewrite Z.quot_mul by lia. reflexivity. }
      unfold idiv at 1. destruct (Z.eqb_spec nside 0); [lia |].
      cbn [bind]. rewrite Q.
      unfold imod, idiv.
      destruct (Z.eqb_spec (product (take j nsides)) 0); [lia |].
      cbn [bind].
      destruct (at_in_range mincoords (Z.of_nat j)) as [lo ->];
        [unfold size; lia |].
      cbn [bind]. rewrite put_in_range by (unfold size; lia). cbn [bind].
      apply IHj; [lia | reflexivity |].
      rewrite length_insert. exact Lbc. }
  destruct (D (length nsides) nallbx ind bc) as [s Es];
    [lia | | exact Lbc |].
  { rewrite firstn_all. exact Hb. }
  exists s. rewrite <- Es. unfold size in Hn. rewrite <- Hn, Nat2Z.id.
  reflexivity.
Qed.

(** The centroid loop of [Assign_] returns and leaves [center] as it
    was. *)
Lemma centroid_loop (nallbx : Z) (nsides : list Z)
    (sidelengths mincoords : vec double) (center : mat double) (dim : Z) :
  size nsides = dim -> size sidelengths = dim -> size mincoords = dim ->
  Forall (fun m => 1 <= m) nsides ->
  nallbx = product nsides ->
  mat_wf center -> n_rows center = dim -> n_cols center = nallbx ->
  for_range 0 nallbx (fun r center =>
    let sf := nallbx in
    let ind := r in
    let* box_center := col center r in
    let* _ :=
      for_down dim (fun di '(sf, ind, box_center) =>
        let* nside := at_ nsides di in
        let* h := at_ sidelengths di in
        let* sf := idiv sf nside in
        let* rem := imod ind sf in
        let* ind := idiv ind sf in
        let* lo := at_ mincoords di in
        let* box_center :=
          put box_center di (lo + (of_index ind + half) * h)%dbl in
        let ind := rem in
        Ok (sf, ind, box_center)) (sf, ind, box_center) in
    Ok center) center = Ok center.
Proof.
  intros Hn Hs Hm Hp Hb W Hr Hc. unfold for_range.
  assert (G : forall k i, 0 <= i -> i + Z.of_nat k <= nallbx ->
    for_count k i (fun r center0 =>
      let sf := nallbx in
      let ind := r in
      let* box_center := col center0 r in
      let* _ :=
        for_down dim (fun di '(sf, ind, box_center) =>
          let* nside := at_ nsides di in
          let* h := at_ sidelengths di in
          let* sf := idiv sf nside in
          let* rem := imod ind sf in
          let* ind := idiv ind sf in
          let* lo := at_ mincoords di in
          let* box_center :=
            put box_center di (lo + (of_index ind + half) * h)%dbl in
          let ind := rem in
          Ok (sf, ind, box_center)) (sf, ind, box_center) in
      Ok center0) center = Ok center).
  { induction k as [| k IH]; intros i Hi Hk; [reflexivity |].
    simpl for_count. unfold col.
    destruct (at_in_range (columns center) i) as [bc Ebc];
      [unfold n_cols in Hc; lia |].
    rewrite Ebc. cbn [bind].
    assert (Lbc : size bc = dim).
    { apply at_Ok in Ebc as [_ Ebc]. eapply Forall_lookup_1 in W; eauto.
      simpl in W. lia. }
    match goal with
    | |- context [bind (for_down ?n ?f ?s0) _] =>
        assert (Es : exists s, for_down n f s0 = Ok s)
    end.
    { apply centroid_axes; auto. }
    destruct Es as [s Es]. rewrite Es. cbn [bind].
    apply IH; lia. }
  pose proof (product_pos _ Hp). apply G; lia.
Qed.

End AssignFacts.

Section AssignTheorem.
Context {double : Type} {AR : Arith double} {CO : Collaborators double}.

(** C8. For query and reference sets of the same dimension, a grid
    with at least one box along every axis and vectors of box lists
    holding one empty list per box, [Assign_] returns, and the reference
    lists of all boxes together hold the indices 0 .. Nr-1, each exactly
    once, and the query lists the indices 0 .. Nq-1, each exactly once.
    Nothing is assumed about the coordinates: the bin of a point along
    an axis is clamped to [0, nsides - 1], so that a point on a grid
    boundary, or outside the grid, still gets exactly one box. *)
Theorem Assign_partitions (this : FGTKde) (nallbx : Z) (nsides : list Z)
    (sidelengths mincoords : vec double) (center : mat double)
    (queries_assigned references_assigned : list (list Z)) :
  let dim := n_rows (qset_ this) in
  mat_wf (qset_ this) -> mat_wf (rset_ this) ->
  n_rows (rset_ this) = dim ->
  size nsides = dim -> size sidelengths = dim -> size mincoords = dim ->
  Forall (fun m => 1 <= m) nsides ->
  nallbx = product nsides ->
  mat_wf center -> n_rows center = dim -> n_cols center = nallbx ->
  queries_assigned = repeat [] (Z.to_nat nallbx) ->
  references_assigned = repeat [] (Z.to_nat nallbx) ->
  exists a,
    Assign_ this nallbx nsides sidelengths mincoords center
      queries_assigned references_assigned = Ok a /\
    size (as_references a) = nallbx /\
    size (as_queries a) = nallbx /\
    concat (as_references a) ≡ₚ indices (n_cols (rset_ this)) /\
    concat (as_queries a) ≡ₚ indices (n_cols (qset_ this)).
Proof.
  intros dim Wq Wr Hr Hn Hs Hm Hp Hb Wc Hcr Hcc Eq Er.
  pose proof (GridFacts.product_pos _ Hp) as Hpos.
  assert (Lq : size queries_assigned = product nsides).
  { subst queries_assigned. unfold size. rewrite repeat_length. lia. }
  assert (Lr : size references_assigned = product nsides).
  { subst references_assigned. unfold size. rewrite repeat_length. lia. }
  assert (Cq : concat queries_assigned = []).
  { subst queries_assigned. apply concat_repeat_nil. }
  assert (Cr : concat references_assigned = []).
  { subst references_assigned. apply concat_repeat_nil. }
  destruct (assign_loop (rset_ this) dim nsides sidelengths mincoords
              references_assigned) as (refs & E1 & L1 & P1); auto.
  destruct (assign_loop (qset_ this) dim nsides sidelengths mincoords
              queries_assigned) as (qrys & E2 & L2 & P2); auto.
  unfold Assign_. fold dim. rewrite E1. cbn [bind]. rewrite E2. cbn [bind].
  rewrite (centroid_loop nallbx nsides sidelengths mincoords center dim)
    by auto.
  cbn [bind]. eexists. split; [reflexivity |]. simpl.
  unfold size in *. rewrite L1, L2, P1, P2, Cq, Cr. simpl.
  repeat split; try lia; reflexivity.
Qed.

End AssignTheorem.

(** ** Reasoning about outcomes *)

Section Ensures.

Lemma ensures_Ok {A : Type} (P : A -> Prop) (a : A) : P a -> ensures P (Ok a).
Proof. exact (fun p => p). Qed.

Lemma ensures_bind {A B : Type} (Q : B -> Prop) (m : outcome A)
    (k : A -> outcome B) :
  ensures (fun a => ensures Q (k a)) m -> ensures Q (bind m k).
Proof. destruct m; simpl; auto. Qed.

Lemma ensures_weaken {A : Type} (P Q : A -> Prop) (m : outcome A) :
  (forall a, P a -> Q a) -> ensures P m -> ensures Q m.
Proof. destruct m; simpl; auto. Qed.

Lemma ensures_and {A : Type} (P Q : A -> Prop) (m : outcome A) :
  ensures P m -> ensures Q m -> ensures (fun a => P a /\ Q a) m.
Proof. destruct m; simpl; auto. Qed.

Lemma ensures_eq {A : Type} (P : A -> Prop) (m : outcome A) :
  ensures (fun _ => True) m -> (forall a, m = Ok a -> P a) -> ensures P m.
Proof. destruct m; simpl; auto. Qed.

Lemma ensures_at {A : Type} (v : list A) (i : Z) :
  ensures (fun _ => True) (at_ v i).
Proof.
  unfold at_. destruct (i <? 0); simpl; auto.
  destruct (v !! Z.to_nat i); simpl; auto.
Qed.

Lemma ensures_put {A : Type} (v : list A) (i : Z) (x : A) :
  ensures (fun _ => True) (put v i x).
Proof. unfold put. destruct ((0 <=? i) && (i <? size v)); simpl; auto. Qed.

Lemma ensures_idiv (a b : Z) :
  ensures (fun q => b <> 0 /\ q = Z.quot a b) (idiv a b).
Proof. unfold idiv. destruct (Z.eqb_spec b 0); simpl; auto. Qed.

Lemma ensures_imod (a b : Z) : ensures (fun _ => True) (imod a b).
Proof. unfold imod. destruct (b =? 0); simpl; auto. Qed.

Lemma ensures_for_count {S : Type} (P : S -> Prop)
    (body : Z -> S -> outcome S) :
  (forall i s, P s -> ensures P (body i s)) ->
  forall n i s, P s -> ensures P (for_count n i body s).
Proof.
  intros Hb. induction n as [| n IH]; intros i s Hs; simpl; [exact Hs |].
  apply ensures_bind. eapply ensures_weaken; [| apply Hb; exact Hs].
  intros s' Hs'. apply IH. exact Hs'.
Qed.

Lemma ensures_for_range {S : Type} (P : S -> Prop)
    (body : Z -> S -> outcome S) (lo hi : Z) (s : S) :
  (forall i s, P s -> ensures P (body i s)) ->
  P s -> ensures P (for_range lo hi body s).
Proof. intros Hb Hs. apply ensures_for_count; auto. Qed.

(** A loop whose body keeps [I] and decreases the measure [mu], the
    budget being at least the measure, ends with [I] and its condition
    false. *)
Lemma ensures_while {S : Type} (I : S -> Prop) (mu : S -> Z)
    (cond : S -> bool) (body : S -> outcome S) :
  (forall s, I s -> cond s = true ->
     0 < mu s /\ ensures (fun s' => I s' /\ mu s' < mu s) (body s)) ->
  forall fuel s, I s -> mu s <= Z.of_nat fuel ->
    ensures (fun s' => I s' /\ cond s' = false) (while_ fuel cond body s).
Proof.
  intros Hb. induction fuel as [| fuel IH]; intros s Hs Hm; simpl;
    destruct (cond s) eqn:C; simpl; auto.
  - destruct (Hb s Hs C) as [Hpos _]. lia.
  - destruct (Hb s Hs C) as [Hpos Hbody].
    apply ensures_bind. eapply ensures_weaken; [| exact Hbody].
    intros s' [Hs' Hlt]. apply IH; [exact Hs' | lia].
Qed.

(** [for ( ; i < limit; i += step)] with [step >= 1]. *)
Lemma ensures_for_step {S : Type} (P : S -> Prop) (limit step : Z)
    (body : Z -> S -> outcome S) (i : Z) (s : S) :
  1 <= step ->
  (forall i s, P s -> ensures P (body i s)) ->
  P s ->
  ensures (fun '(i', s') => i <= i' /\ P s') (for_step limit step body i s).
Proof.
  intros Hstep Hb Hs. unfold for_step.
  eapply ensures_weaken;
    [| apply (ensures_while (fun '(i', s') => i <= i' /\ P s')
                (fun '(i', _) => limit - i'))].
  - intros [i' s'] [H _]. exact H.
  - intros [i' s'] [Hi Hs'] C. apply Z.ltb_lt in C. split; [lia |].
    apply ensures_bind. eapply ensures_weaken; [| apply Hb; exact Hs'].
    intros s'' Hs''. simpl. repeat split; try lia; exact Hs''.
  - split; [lia | exact Hs].
  - lia.
Qed.

(** [for (i = 0; i < totalnumcoeffs; )] with blocks that advance [i]. *)
Lemma ensures_for_blocks {S : Type} (P : S -> Prop) (totalnumcoeffs : Z)
    (block : Z -> S -> outcome (Z * S)) (s : S) :
  (forall i s, P s -> ensures (fun '(i', s') => i < i' /\ P s') (block i s)) ->
  P s -> ensures P (for_blocks totalnumcoeffs block s).
Proof.
  intros Hb Hs. unfold for_blocks. apply ensures_bind.
  eapply ensures_weaken;
    [| apply (ensures_while (fun '(_, s') => P s')
                (fun '(i', _) => totalnumcoeffs - i'))].
  - intros [i' s'] [H _]. exact H.
  - intros [i' s'] Hs' C. apply Z.ltb_lt in C. split; [lia |].
    eapply ensures_weaken; [| apply Hb; exact Hs'].
    intros [i'' s''] [Hi Hs'']. split; [exact Hs'' | lia].
  - exact Hs.
  - lia.
Qed.

(** The loop over the strides with [p_alpha > 1]. *)
Lemma ensures_for_strides {S : Type} (P : S -> Prop)
    (totalnumcoeffs p_alpha b0 s0 d0 : Z)
    (body : Z -> Z -> Z -> S -> outcome S) (s : S) :
  1 < p_alpha ->
  s0 < 1 \/ s0 <= totalnumcoeffs ->
  (forall boundary step d s, 1 <= step -> P s ->
     ensures P (body boundary step d s)) ->
  P s -> ensures P (for_strides totalnumcoeffs p_alpha b0 s0 d0 body s).
Proof.
  intros Hp H0 Hb Hs. unfold for_strides. apply ensures_bind.
  eapply ensures_weaken;
    [| apply (ensures_while (fun '(_, _, _, s') => P s')
                (fun '(_, step, _, _) => step))].
  - intros [[[b st] d] s'] [H _]. exact H.
  - intros [[[b st] d] s'] Hs' C. apply Z.leb_le in C. split; [lia |].
    apply ensures_bind. eapply ensures_weaken; [| apply Hb; auto].
    intros s'' Hs''. apply ensures_bind.
    eapply ensures_weaken; [| apply ensures_idiv].
    intros q [_ ->]. apply ensures_bind.
    eapply ensures_weaken; [| apply ensures_idiv].
    intros q' _. simpl. split; [exact Hs'' |].
    apply Z.quot_lt; lia.
  - exact Hs.
  - destruct H0; lia.
Qed.

End Ensures.

(** ** The series-expansion routines *)

Section OutcomeFacts.
Context {double : Type} {AR : Arith double}.

Lemma ensures_then {A B : Type} (Q : B -> Prop) (m : outcome A)
    (k : A -> outcome B) :
  ensures (fun _ => True) m -> (forall a, ensures Q (k a)) ->
  ensures Q (bind m k).
Proof. destruct m; simpl; auto. Qed.

Lemma ensures_mat_at (m : mat double) (i j : Z) :
  ensures (fun _ => True) (mat_at m i j).
Proof.
  unfold mat_at. apply ensures_then; [apply ensures_at |].
  intros c. apply ensures_at.
Qed.

Lemma ensures_mat_put (m : mat double) (i j : Z) (x : double) :
  ensures (fun _ => True) (mat_put m i j x).
Proof.
  unfold mat_put. apply ensures_then; [apply ensures_at |]. intros c.
  apply ensures_then; [apply ensures_put |]. intros c'.
  apply ensures_then; [apply ensures_put |]. intros cs. exact I.
Qed.

Lemma ensures_col (m : mat double) (j : Z) :
  ensures (fun _ => True) (col m j).
Proof. apply ensures_at. Qed.

Lemma ensures_vec_sub (a b : vec double) :
  ensures (fun _ => True) (vec_sub a b).
Proof. unfold vec_sub. destruct (size a =? size b); exact I. Qed.

Lemma ensures_get_multiindex (msea : MultSeriesExpansionAux double) (j : Z) :
  ensures (fun _ => True) (get_multiindex msea j).
Proof. apply ensures_at. Qed.

Lemma ensures_idiv_true (a b : Z) : ensures (fun _ => True) (idiv a b).
Proof. eapply ensures_weaken; [| apply ensures_idiv]. auto. Qed.

Lemma ensures_for_range_true {S : Type} (body : Z -> S -> outcome S)
    (lo hi : Z) (s : S) :
  (forall i s, ensures (fun _ => True) (body i s)) ->
  ensures (fun _ => True) (for_range lo hi body s).
Proof. intros Hb. apply ensures_for_range; auto. Qed.

End OutcomeFacts.

(** A primitive operation does not spin. *)
Ltac ens_prim :=
  first
    [ apply ensures_at | apply ensures_put | apply ensures_imod
    | apply ensures_idiv_true | apply ensures_mat_at | apply ensures_mat_put
    | apply ensures_col | apply ensures_vec_sub
    | apply ensures_get_multiindex ].

(** Proves that a computation made of primitive operations and counted
    loops does not spin. *)
Ltac ens_true :=
  repeat first
    [ exact I
    | ens_prim
    | apply ensures_for_range_true; intros ? ?
    | apply ensures_then; [| intros ?]
    | match goal with
      | |- ensures _ (if ?c then _ else _) => destruct c
      | |- ensures _ (match ?p with pair _ _ => _ end) => destruct p
      | |- ensures _ (Ok _) => exact I
      end ].

(** Proves that a loop over frames keeps the property [P]. *)
Ltac ens_loop P :=
  apply ensures_bind;
  eapply ensures_weaken; [| apply (ensures_for_range P) ].

Section SweepFacts.
Context {double : Type} {AR : Arith double}.

Lemma ensures_hermite_row (p_alpha limit : Z) (x bandwidth : double) (d : Z)
    (hermite_map : mat double) :
  ensures (fun _ => True) (hermite_row p_alpha limit x bandwidth d hermite_map).
Proof. unfold hermite_row. ens_true. Qed.

Lemma ensures_hermite_order0 (dim : Z) (hermite_map : mat double)
    (arrtmp : vec double) :
  ensures (fun _ => True) (hermite_order0 dim hermite_map arrtmp).
Proof. unfold hermite_order0. ens_true. Qed.

Lemma step0_bound (totalnumcoeffs p_alpha : Z) :
  1 < p_alpha ->
  Z.quot totalnumcoeffs p_alpha < 1 \/
  Z.quot totalnumcoeffs p_alpha <= totalnumcoeffs.
Proof.
  intros Hp. destruct (Z.le_gt_cases 1 totalnumcoeffs).
  - right. pose proof (Z.quot_lt totalnumcoeffs p_alpha). lia.
  - left. assert (Z.quot totalnumcoeffs p_alpha <= 0); [| lia].
    destruct (Z.eq_dec totalnumcoeffs 0) as [-> | Hne].
    + rewrite Z.quot_0_l; lia.
    + rewrite <- (Z.opp_involutive totalnumcoeffs), Z.quot_opp_l by lia.
      pose proof (Z.quot_pos (- totalnumcoeffs) p_alpha). lia.
Qed.

(** With [p_alpha > 1] the sweeps over the axes end. *)
Lemma ensures_power_sweep (totalnumcoeffs p_alpha : Z) (x tmp : vec double) :
  1 < p_alpha ->
  ensures (fun _ => True) (power_sweep totalnumcoeffs p_alpha x tmp).
Proof.
  intros Hp. unfold power_sweep. apply ensures_bind.
  eapply ensures_weaken; [| apply ensures_idiv]. intros q [_ ->].
  apply ensures_for_strides; auto using step0_bound.
  intros boundary step j tmp' Hstep _.
  apply ensures_for_blocks; [| exact I]. intros i tmp'' _.
  eapply ensures_weaken;
    [| apply (ensures_for_step (fun _ => True)); [exact Hstep | | exact I]].
  - intros [i' t'] [Hi _]. split; [lia | exact I].
  - intros i0 t0 _. ens_true.
Qed.

Lemma ensures_hermite_sweep (totalnumcoeffs p_alpha : Z)
    (hermite_map : mat double) (arrtmp : vec double) :
  1 < p_alpha ->
  ensures (fun _ => True)
    (hermite_sweep totalnumcoeffs p_alpha hermite_map arrtmp).
Proof.
  intros Hp. unfold hermite_sweep. apply ensures_bind.
  eapply ensures_weaken; [| apply ensures_idiv]. intros q [_ ->].
  apply ensures_for_strides; auto using step0_bound.
  intros boundary step d arrtmp' Hstep _.
  apply ensures_for_blocks; [| exact I]. intros i arrtmp'' _.
  apply ensures_bind.
  eapply ensures_weaken;
    [| apply (ensures_for_step (fun _ => True)); [exact Hstep | | exact I]].
  - intros [i' [j' t']] [Hi _].
    apply ensures_then; [ens_true |]. intros a.
    apply ensures_then; [ens_true |]. intros h.
    apply ensures_then; [ens_true |]. intros t''.
    simpl. split; [lia | exact I].
  - intros i0 [j0 t0] _. ens_true.
Qed.

End SweepFacts.

(** Steps through the bindings of values that cannot spin. *)
Ltac ens_values :=
  repeat (apply ensures_then;
          [ solve [ ens_prim
                  | apply ensures_hermite_row
                  | apply ensures_hermite_order0
                  | apply ensures_power_sweep; assumption
                  | apply ensures_hermite_sweep; assumption ]
          | intros ? ]).

Section ExpansionFacts.
Context {double : Type} {AR : Arith double} {CO : Collaborators double}.

Lemma ComputeMultipoleCoeffs_frame (this : FGTKde) (mcoeffs : mat double)
    (dim p_alpha totalnumcoeffs ref_box_num : Z) (bwsqd_two : double)
    (rows : list Z) (x_R : vec double) :
  ensures (fun f => mf_mcoeffs f = mcoeffs)
    (ComputeMultipoleCoeffs_ this mcoeffs dim p_alpha totalnumcoeffs
       ref_box_num bwsqd_two rows x_R).
Proof.
  unfold ComputeMultipoleCoeffs_. ens_values.
  destruct (a0 !=? of_index 0)%dbl; [reflexivity |].
  ens_values.
  set (P := fun f : multipole_frame => mf_mcoeffs f = mcoeffs).
  ens_loop P; [| intros i f Hf; ens_values; exact Hf | reflexivity].
  intros f Hf.
  apply ensures_bind.
  apply (ensures_weaken P).
  { intros f' Hf'.
    apply (ensures_for_range P); [| exact Hf'].
    intros i f'' Hf''. ens_values. exact Hf''. }
  rewrite Z.gtb_ltb. destruct (Z.ltb_spec 1 p_alpha) as [Hp | Hp];
    [| exact Hf].
  apply (ensures_for_range P); [| exact Hf].
  intros r f1 Hf1. ens_values.
  ens_loop P; [| intros i f2 Hf2; ens_values; exact Hf2 | exact Hf1].
  intros f2 Hf2. ens_values.
  apply (ensures_for_range P); [| exact Hf2].
  intros i f3 Hf3. ens_values. exact Hf3.
Qed.

Lemma DirectLocalAccumulation_frame (this : FGTKde) (rows : list Z)
    (query_box_num : Z) (locexps : mat double) (delta : double)
    (dest_hrcentroid : vec double) (p_alpha totalnumcoeffs : Z) :
  ensures (fun f => df_locexps f = locexps)
    (DirectLocalAccumulation_ this rows query_box_num locexps delta
       dest_hrcentroid p_alpha totalnumcoeffs).
Proof.
  unfold DirectLocalAccumulation_. ens_values.
  set (P := fun f : direct_frame => df_locexps f = locexps).
  apply (ensures_for_range P); [| reflexivity].
  intros r f Hf. ens_values.
  ens_loop P; [| intros d f1 Hf1; ens_values; exact Hf1 | exact Hf].
  intros f1 Hf1.
  ens_loop P; [| intros d f2 Hf2; ens_values; exact Hf2 | exact Hf1].
  intros f2 Hf2. ens_values.
  apply ensures_then.
  { rewrite Z.gtb_ltb. destruct (Z.ltb_spec 1 p_alpha) as [Hp | Hp].
    - apply ensures_hermite_sweep. exact Hp.
    - apply ensures_hermite_order0. }
  intros arrtmp.
  apply (ensures_for_range P); [| exact Hf2].
  intros j f3 Hf3. ens_values. exact Hf3.
Qed.

Lemma arrtmp_add_frame (P : translate_frame -> Prop) (f : translate_frame)
    (d j : Z) (x : double) :
  (forall m, P (tf_set_arrtmp f m)) -> ensures P (arrtmp_add f d j x).
Proof. intros H. unfold arrtmp_add. ens_values. apply H. Qed.

Lemma TranslateMultipoleToLocal_frame (this : FGTKde)
    (ref_box_num query_box_num : Z) (mcoeffsb lcoeffsb : mat double)
    (p_alpha totalnumcoeffs : Z) (bwsqd_2 : double)
    (hrcentroid dest_hrcentroid : vec double) :
  ensures (fun f => tf_mcoeffsb f = mcoeffsb /\ tf_lcoeffsb f = lcoeffsb)
    (TranslateMultipoleToLocal_ this ref_box_num query_box_num mcoeffsb
       lcoeffsb p_alpha totalnumcoeffs bwsqd_2 hrcentroid dest_hrcentroid).
Proof.
  unfold TranslateMultipoleToLocal_. ens_values.
  set (P := fun f : translate_frame =>
              tf_mcoeffsb f = mcoeffsb /\ tf_lcoeffsb f = lcoeffsb).
  ens_loop P; [| | split; reflexivity].
  2:{ intros j f Hf. ens_values.
      apply (ensures_for_range P); [| exact Hf].
      intros l f1 Hf1. ens_values. exact Hf1. }
  intros f Hf. apply ensures_bind.
  eapply ensures_weaken; [| apply ensures_idiv]. intros step [Hp0 ->].
  ens_loop P; [| | exact Hf].
  2:{ intros j f1 Hf1. ens_values. apply ensures_bind.
      apply (ensures_weaken (fun '(_, f') => P f')).
      { intros [l f'] Hf'. exact Hf'. }
      apply (ensures_for_range (fun '(_, f') => P f')); [| exact Hf1].
      intros k [l f2] Hf2. ens_values. apply ensures_bind.
      eapply ensures_weaken; [| apply (arrtmp_add_frame P)].
      - intros f3 Hf3. exact Hf3.
      - intros m. exact Hf2. }
  intros f1 Hf1. apply ensures_bind. apply (ensures_weaken P).
  { intros f2 Hf2. apply (ensures_for_range P); [| exact Hf2].
    intros j f3 Hf3. ens_values. exact Hf3. }
  rewrite Z.gtb_ltb. destruct (Z.ltb_spec 1 p_alpha) as [Hp | Hp];
    [| exact Hf1].
  apply ensures_bind. eapply ensures_weaken; [| apply ensures_idiv].
  intros boundary [_ ->]. apply ensures_bind.
  eapply ensures_weaken; [| apply ensures_idiv]. intros step [_ ->].
  apply ensures_for_strides; [exact Hp | | | exact Hf1].
  { destruct (step0_bound totalnumcoeffs p_alpha Hp) as [H | H].
    - left. assert (Z.quot (Z.quot totalnumcoeffs p_alpha) p_alpha <= 0);
        [| lia].
      destruct (Z.le_gt_cases 0 (Z.quot totalnumcoeffs p_alpha)) as [G | G].
      + replace (Z.quot totalnumcoeffs p_alpha) with 0 by lia.
        rewrite Z.quot_0_l; lia.
      + rewrite <- (Z.opp_involutive (Z.quot totalnumcoeffs p_alpha)),
          Z.quot_opp_l by lia.
        pose proof (Z.quot_pos (- Z.quot totalnumcoeffs p_alpha) p_alpha).
        lia.
    - destruct (Z.le_gt_cases 1 (Z.quot totalnumcoeffs p_alpha)) as [G | G].
      + right.
        pose proof (Z.quot_lt (Z.quot totalnumcoeffs p_alpha) p_alpha). lia.
      + left.
        assert (Z.quot (Z.quot totalnumcoeffs p_alpha) p_alpha <= 0);
          [| lia].
        destruct (Z.le_gt_cases 0 (Z.quot totalnumcoeffs p_alpha))
          as [G' | G'].
        * replace (Z.quot totalnumcoeffs p_alpha) with 0 by lia.
          rewrite Z.quot_0_l; lia.
        * rewrite <- (Z.opp_involutive (Z.quot totalnumcoeffs p_alpha)),
            Z.quot_opp_l by lia.
          pose proof (Z.quot_pos (- Z.quot totalnumcoeffs p_alpha) p_alpha).
          lia. }
  intros boundary step d f2 Hstep Hf2. apply ensures_bind.
  apply (ensures_weaken (fun '(_, f') => P f')).
  { intros [b f'] Hf'. exact Hf'. }
  apply (ensures_for_range (fun '(_, f') => P f')); [| exact Hf2].
  intros j [b2 f3] Hf3. ens_values. apply ensures_bind.
  apply (ensures_weaken P); [intros f4 Hf4; exact Hf4 |].
  apply (ensures_for_range P); [| exact Hf3].
  intros k f4 Hf4. ens_values. exact Hf4.
Qed.

(** C4. None of the three routines changes the coefficient matrix it
    receives by reference: [ComputeMultipoleCoeffs_] leaves [mcoeffs],
    [TranslateMultipoleToLocal_] leaves [mcoeffsb] and [lcoeffsb], and
    [DirectLocalAccumulation_] leaves [locexps] as they were passed.
    This holds for every call: none spins, and whenever one returns the
    matrix in its frame is the matrix of the call. *)
Theorem coefficient_matrices_unchanged (this : FGTKde) :
  (forall mcoeffs dim p_alpha totalnumcoeffs ref_box_num bwsqd_two rows x_R,
     ensures (fun f => mf_mcoeffs f = mcoeffs)
       (ComputeMultipoleCoeffs_ this mcoeffs dim p_alpha totalnumcoeffs
          ref_box_num bwsqd_two rows x_R)) /\
  (forall ref_box_num query_box_num mcoeffsb lcoeffsb p_alpha
          totalnumcoeffs bwsqd_2 hrcentroid dest_hrcentroid,
     ensures (fun f => tf_mcoeffsb f = mcoeffsb /\ tf_lcoeffsb f = lcoeffsb)
       (TranslateMultipoleToLocal_ this ref_box_num query_box_num mcoeffsb
          lcoeffsb p_alpha totalnumcoeffs bwsqd_2 hrcentroid
          dest_hrcentroid)) /\
  (forall rows query_box_num locexps delta dest_hrcentroid p_alpha
          totalnumcoeffs,
     ensures (fun f => df_locexps f = locexps)
       (DirectLocalAccumulation_ this rows query_box_num locexps delta
          dest_hrcentroid p_alpha totalnumcoeffs)).
Proof.
  split; [| split]; intros.
  - apply ComputeMultipoleCoeffs_frame.
  - apply TranslateMultipoleToLocal_frame.
  - apply DirectLocalAccumulation_frame.
Qed.

End ExpansionFacts.

(** ** The truncation-order search *)

Section SearchFacts.
Context {double : Type} {AR : Arith double} {CO : Collaborators double}.

(** A loop whose body is a pure step behind a guard returns at the
    first state that fails its condition, when the guard holds up to
    there and the budget reaches it. *)
Lemma while_first_false {S : Type} (cond guard : S -> bool) (step : S -> S) :
  forall (n fuel : nat) (s : S),
    (forall k, (k < n)%nat ->
       cond (Nat.iter k step s) = true /\
       guard (Nat.iter k step s) = true) ->
    cond (Nat.iter n step s) = false ->
    (n <= fuel)%nat ->
    while_ fuel cond (fun s => if guard s then Ok (step s) else Undefined) s
    = Ok (Nat.iter n step s).
Proof.
  induction n as [| n IH]; intros fuel s Hlt Hn Hf.
  - simpl in Hn. destruct fuel; simpl; rewrite Hn; reflexivity.
  - destruct fuel as [| fuel]; [lia |].
    destruct (Hlt 0%nat ltac:(lia)) as [H0 G0]. simpl in H0, G0.
    cbn [while_]. rewrite H0, G0. cbn [bind].
    rewrite Nat.iter_succ_r. apply IH.
    + intros k Hk. rewrite <- Nat.iter_succ_r. apply Hlt. lia.
    + rewrite <- Nat.iter_succ_r. exact Hn.
    + lia.
Qed.

(** Such a loop is still running when the budget is used up, when its
    condition and its guard hold at every state within the budget. *)
Lemma while_always_true {S : Type} (cond guard : S -> bool) (step : S -> S) :
  forall (fuel : nat) (s : S),
    (forall k, (k <= fuel)%nat -> cond (Nat.iter k step s) = true) ->
    (forall k, (k < fuel)%nat -> guard (Nat.iter k step s) = true) ->
    while_ fuel cond (fun s => if guard s then Ok (step s) else Undefined) s
    = Spins.
Proof.
  induction fuel as [| fuel IH]; intros s H G.
  - pose proof (H 0%nat ltac:(lia)) as H0. simpl in H0.
    simpl. rewrite H0. reflexivity.
  - pose proof (H 0%nat ltac:(lia)) as H0. simpl in H0.
    pose proof (G 0%nat ltac:(lia)) as G0. simpl in G0.
    cbn [while_]. rewrite H0, G0. cbn [bind]. apply IH.
    + intros k Hk. rewrite <- Nat.iter_succ_r. apply H. lia.
    + intros k Hk. rewrite <- Nat.iter_succ_r. apply G. lia.
Qed.

(** Such a loop has no defined result when it reaches, with budget
    left, a state at which the condition holds and the guard fails. *)
Lemma while_guard_fails {S : Type} (cond guard : S -> bool) (step : S -> S) :
  forall (n fuel : nat) (s : S),
    (forall k, (k <= n)%nat -> cond (Nat.iter k step s) = true) ->
    (forall k, (k < n)%nat -> guard (Nat.iter k step s) = true) ->
    guard (Nat.iter n step s) = false ->
    (n < fuel)%nat ->
    while_ fuel cond (fun s => if guard s then Ok (step s) else Undefined) s
    = Undefined.
Proof.
  induction n as [| n IH]; intros fuel s H G Gn Hf;
    (destruct fuel as [| fuel]; [lia |]);
    pose proof (H 0%nat ltac:(lia)) as H0; simpl in H0;
    cbn [while_]; rewrite H0.
  - simpl in Gn. rewrite Gn. reflexivity.
  - pose proof (G 0%nat ltac:(lia)) as G0. simpl in G0.
    rewrite G0. cbn [bind]. apply IH.
    + intros k Hk. rewrite <- Nat.iter_succ_r. apply H. lia.
    + intros k Hk. rewrite <- Nat.iter_succ_r. apply G. lia.
    + rewrite <- Nat.iter_succ_r. exact Gn.
    + lia.
Qed.

Lemma search_after_ip (boxside : double) (dim : Z) (n : nat) :
  os_ip (search_after boxside dim n) = Z.of_nat n.
Proof.
  unfold search_after. induction n as [| n IH]; [reflexivity |].
  rewrite Nat.iter_succ. unfold order_step at 1. cbn [os_ip].
  rewrite IH. lia.
Qed.

Lemma truncation_order_unfold (fuel : nat) (boxside : double) (dim : Z)
    (tau : double) :
  truncation_order fuel boxside dim tau =
  (if 0 <? index_max
   then bind (while_ fuel (fun s => lt tau (os_ret2 s))
                (fun s =>
                   if os_ip s <? index_max
                   then Ok (order_step
                              (mul (of_index 2) boxside)
                              (div (of_index 1)
                                 (pow (mul (sub (of_index 1)
                                               (mul (of_index 2) boxside))
                                          (sub (of_index 1)
                                               (mul (of_index 2) boxside)))
                                      dim))
                              dim s)
                   else Undefined)
                (search_after boxside dim 1))
             (fun s => Ok (os_ip s))
   else Undefined).
Proof.
  unfold truncation_order, do_while. cbn [os_ip].
  destruct (0 <? index_max); reflexivity.
Qed.

Lemma search_after_shift (boxside : double) (dim : Z) (n : nat) :
  Nat.iter n
    (order_step (mul (of_index 2) boxside)
       (div (of_index 1)
          (pow (mul (sub (of_index 1) (mul (of_index 2) boxside))
                    (sub (of_index 1) (mul (of_index 2) boxside))) dim))
       dim)
    (search_after boxside dim 1)
  = search_after boxside dim (S n).
Proof. unfold search_after. symmetry. apply Nat.iter_succ_r. Qed.

(** The search returns the first order at which the bound is not above
    [tau], when the counter and the budget reach it. *)
Lemma truncation_order_returns (fuel : nat) (boxside : double) (dim : Z)
    (tau : double) (p : nat) :
  (1 <= p <= S fuel)%nat -> Z.of_nat p <= index_max ->
  (forall k, (1 <= k < p)%nat -> lt tau (bound_at boxside dim k) = true) ->
  lt tau (bound_at boxside dim p) = false ->
  truncation_order fuel boxside dim tau = Ok (Z.of_nat p).
Proof.
  intros Hp Hm Hlt Hle. rewrite truncation_order_unfold.
  destruct (Z.ltb_spec 0 index_max); [| lia].
  destruct p as [| p]; [lia |].
  rewrite (while_first_false _ (fun s => os_ip s <? index_max) _ p).
  - cbn [bind]. rewrite search_after_shift, search_after_ip. reflexivity.
  - intros k Hk. rewrite search_after_shift. split.
    + apply (Hlt (S k)). lia.
    + rewrite search_after_ip. apply Z.ltb_lt. lia.
  - rewrite search_after_shift. exact Hle.
  - lia.
Qed.

(** While the bound stays above [tau] the search keeps going. *)
Lemma truncation_order_spins (fuel : nat) (boxside : double) (dim : Z)
    (tau : double) :
  (forall k, (1 <= k <= S fuel)%nat ->
     lt tau (bound_at boxside dim k) = true) ->
  Z.of_nat (S fuel) <= index_max ->
  truncation_order fuel boxside dim tau = Spins.
Proof.
  intros H Hm. rewrite truncation_order_unfold.
  destruct (Z.ltb_spec 0 index_max); [| lia].
  rewrite (while_always_true _ (fun s => os_ip s <? index_max));
    [reflexivity | |].
  - intros k Hk. rewrite search_after_shift. apply (H (S k)). lia.
  - intros k Hk. rewrite search_after_shift, search_after_ip.
    apply Z.ltb_lt. lia.
Qed.

(** When the bound is above [tau] at every order that [index_t] can
    hold, the counter overflows. *)
Lemma truncation_order_overflows (fuel : nat) (boxside : double) (dim : Z)
    (tau : double) :
  (forall k, (1 <= k)%nat -> Z.of_nat k <= index_max ->
     lt tau (bound_at boxside dim k) = true) ->
  (Z.to_nat index_max <= fuel)%nat ->
  truncation_order fuel boxside dim tau = Undefined.
Proof.
  intros H Hf. rewrite truncation_order_unfold.
  destruct (Z.ltb_spec 0 index_max) as [Hpos | Hneg]; [| reflexivity].
  rewrite (while_guard_fails _ (fun s => os_ip s <? index_max) _
             (Z.to_nat index_max - 1)); [reflexivity | | | | lia].
  - intros k Hk. rewrite search_after_shift. apply (H (S k)); lia.
  - intros k Hk. rewrite search_after_shift, search_after_ip.
    apply Z.ltb_lt. lia.
  - rewrite search_after_shift, search_after_ip. apply Z.ltb_ge. lia.
Qed.


End SearchFacts.

(** ** Initialisation, normalisation and the driver *)

Section DriverFacts.
Context {double : Type} {AR : Arith double} {CO : Collaborators double}.

Lemma size_vec_new (n : Z) : 0 <= n -> size (vec_new n : vec double) = n.
Proof. intros Hn. unfold size, vec_new. rewrite repeat_length. lia. Qed.

(** C6 (amended). [Init] validates nothing.  For every bandwidth and
    tolerance, and every query and reference set, of whatever sizes, it
    returns normally: the two sets and the tolerance are stored as
    given, the kernel is initialised with the bandwidth as given, and
    the density vector gets one entry per query column, so that it is
    empty for a query set without columns. *)
Theorem Init_accepts_every_input (this : FGTKde) (qset rset : mat double)
    (bandwidth absolute_error : double) :
  exists this',
    Init this qset rset bandwidth absolute_error = Ok this' /\
    qset_ this' = qset /\
    rset_ this' = rset /\
    kernel_ this' = kernel_Init bandwidth (kernel_ this) /\
    tau_ this' = absolute_error /\
    size (densities_ this') = n_cols qset.
Proof.
  eexists. split; [reflexivity |]. simpl. repeat split.
  apply size_vec_new. apply size_nonneg.
Qed.

Context {NC : NormConstant double}.

(** The normalisation loop, entry by entry. *)
Lemma NormalizeDensities_loop (this : FGTKde) (c : double) (k : nat) :
  (k <= length (densities_ this))%nat ->
  for_count k 0 (fun q this =>
    let* a := at_ (densities_ this) q in
    let* v := put (densities_ this) q (div a c) in
    Ok (set_densities this v)) this
  = Ok (set_densities this
          (map (fun x => div x c) (take k (densities_ this))
           ++ drop k (densities_ this))).
Proof.
  induction k as [| k IH]; intros Hk.
  - simpl. rewrite drop_0. destruct this; reflexivity.
  - rewrite for_count_snoc, IH by lia. cbn [bind]. rewrite Z.add_0_l.
    destruct (lookup_lt_is_Some_2 (densities_ this) k) as [x Ex]; [lia |].
    cbn [densities_ set_densities].
    assert (Lk : length (map (fun x => div x c) (take k (densities_ this)))
                 = k).
    { rewrite length_map, length_take. lia. }
    rewrite (at_nat _ _ x).
    2:{ rewrite lookup_app_r by lia. rewrite Lk, Nat.sub_diag.
        rewrite lookup_drop, Nat.add_0_r. exact Ex. }
    cbn [bind]. rewrite put_nat.
    2:{ rewrite length_app, Lk, length_drop. lia. }
    cbn [bind]. f_equal. unfold set_densities. cbn. f_equal.
    rewrite insert_app_r_alt by lia. rewrite Lk, Nat.sub_diag.
    rewrite (drop_S _ _ _ Ex). cbn.
    rewrite (take_S_r _ _ _ Ex), map_app. cbn.
    rewrite <- app_assoc. reflexivity.
Qed.

Lemma NormalizeDensities_value (this : FGTKde) :
  size (densities_ this) = n_cols (qset_ this) ->
  NormalizeDensities_ this =
  Ok (set_densities this
        (map (fun x =>
                div x (mul (CalcNormConstant (kernel_ this)
                              (n_rows (qset_ this)))
                           (of_index (n_cols (rset_ this)))))
             (densities_ this))).
Proof.
  intros Hs. unfold NormalizeDensities_. rewrite <- Hs. unfold size.
  rewrite for_range_nat, NormalizeDensities_loop by lia.
  rewrite firstn_all, drop_all, app_nil_r. reflexivity.
Qed.

End DriverFacts.

(** ** The driver on vectors that were only reserved *)

Section ComputeFacts.
Context {double : Type} {AR : Arith double} {CO : Collaborators double}.

Lemma bind_Undefined {A B : Type} (P : A -> Prop) (m : outcome A)
    (k : A -> outcome B) :
  ensures P m -> (forall a, P a -> k a = Undefined) ->
  bind m k = Undefined.
Proof. destruct m; simpl; intros H Hk; auto. contradiction. Qed.

Lemma ensures_put_size {A : Type} (v : list A) (i : Z) (x : A) :
  ensures (fun v' => size v' = size v) (put v i x).
Proof.
  unfold put. destruct ((0 <=? i) && (i <? size v)); simpl; auto.
  unfold size. rewrite length_insert. reflexivity.
Qed.

(** [FastGaussTransformPreprocess_] has no defined result when [nsides]
    has size 0 and the reference set has at least one row: its third
    loop writes [nsides[0]]. *)
Lemma FastGaussTransformPreprocess_unsized (this : FGTKde) (fuel : nat)
    (sidelengths mincoords : vec double) :
  1 <= n_rows (rset_ this) ->
  size mincoords = n_rows (rset_ this) ->
  FastGaussTransformPreprocess_ this fuel [] sidelengths mincoords
  = Undefined.
Proof.
  intros Hd Hm. unfold FastGaussTransformPreprocess_.
  set (dim := n_rows (rset_ this)) in *.
  apply (bind_Undefined (fun mn => size mn = dim)).
  { apply ensures_for_range; [| exact Hm]. intros i mn Hmn.
    eapply ensures_weaken; [| apply ensures_put_size]. intros ? Hsz; cbv beta in Hsz; lia. }
  intros mn Hmn.
  assert (Hmx : size (vec_fill (vec_new dim) (neg DBL_MAX)) = dim).
  { unfold vec_fill, vec_new, size. rewrite !repeat_length. lia. }
  apply (bind_Undefined (fun '(mn', mx') => size mn' = dim /\ size mx' = dim)).
  { apply ensures_for_range; [| split; assumption].
    intros n [mn1 mx1] H1.
    apply (ensures_for_range
             (fun '(mn', mx') => size mn' = dim /\ size mx' = dim));
      [| exact H1].
    intros di [mn2 mx2] [H2 H3]. ens_values.
    apply ensures_bind.
    apply (ensures_weaken (fun mn' => size mn' = dim)).
    2:{ destruct (lt a0 a); [| exact H2].
        eapply ensures_weaken; [| apply ensures_put_size].
        intros ? Hsz; cbv beta in Hsz; lia. }
    intros mn3 H4. ens_values. apply ensures_bind.
    apply (ensures_weaken (fun mx' => size mx' = dim)).
    2:{ destruct (lt a1 a0); [| exact H3].
        eapply ensures_weaken; [| apply ensures_put_size].
        intros ? Hsz; cbv beta in Hsz; lia. }
    intros mx3 H5. split; assumption. }
  intros [mn1 mx1] [H1 H2]. unfold for_range.
  destruct (Z.to_nat (dim - 0)) as [| n] eqn:En; [lia |].
  cbn [for_count].
  destruct (at_in_range mx1 0) as [hi ->]; [lia |].
  destruct (at_in_range mn1 0) as [lo ->]; [lia |].
  reflexivity.
Qed.

Context {NC : NormConstant double}.

(** [Compute] has no defined result on any object whose reference set
    has at least one row: [nsides] is reserved, not resized, and
    [FastGaussTransformPreprocess_] writes [nsides[0]]. *)
Lemma Compute_unsized (this : FGTKde) (fuel : nat) :
  1 <= n_rows (rset_ this) -> Compute this fuel = Undefined.
Proof.
  intros Hd. unfold Compute, reserve.
  rewrite FastGaussTransformPreprocess_unsized; [reflexivity | exact Hd |].
  apply size_vec_new. cbn. lia.
Qed.

End ComputeFacts.

(** ** Evaluation in exact real arithmetic *)

Module RealFacts.
Import RealModel.

Lemma R_ne_same (x : R) : R_ne x x = false.
Proof. unfold R_ne. destruct (Req_dec_T x x); [reflexivity | contradiction]. Qed.

Lemma R_lt_true (x y : R) : (x < y)%R -> R_lt x y = true.
Proof. intros H. unfold R_lt. destruct (Rlt_dec x y); [reflexivity | contradiction]. Qed.

Lemma R_lt_false (x y : R) : (y <= x)%R -> R_lt x y = false.
Proof. intros H. unfold R_lt. destruct (Rlt_dec x y); [lra | reflexivity]. Qed.

(** Evaluates the embedding, leaving the real numbers alone. *)
Ltac real_eval :=
  cbv -[Rplus Rmult Rminus Rdiv Ropp Rinv IZR R_ne R_lt R_to_index
        R_sqrt.sqrt Rtrigo_def.exp Rpower.ln powerRZ Int_part PI Rabs].

(** C3. The far-field moments of a box are not cached.  For the box of
    the four references of [four_references], with truncation order 1
    and a zeroed moment matrix, [ComputeMultipoleCoeffs_] computes the
    moments ([A_k] ends as the number of points, 4) and returns with the
    matrix still holding the zero column, which is what a query box
    reads afterwards; a second call for the same box on the matrix of
    the first does not return early: it computes the same moments
    again. *)
Theorem ComputeMultipoleCoeffs_not_cached :
  exists f,
    ComputeMultipoleCoeffs_ four_references zero_1x1 1 1 1 0 (/ 8)%R
      [0; 1; 2; 3] [0%R] = Ok f /\
    mf_A_k f = [4%R] /\
    mf_mcoeffs f = zero_1x1 /\
    col (mf_mcoeffs f) 0 = Ok [0%R] /\
    ComputeMultipoleCoeffs_ four_references (mf_mcoeffs f) 1 1 1 0 (/ 8)%R
      [0; 1; 2; 3] [0%R] = Ok f.
Proof.
  assert (E : ComputeMultipoleCoeffs_ four_references zero_1x1 1 1 1 0
                (/ 8)%R [0; 1; 2; 3] [0%R]
              = Ok {| mf_mcoeffs := zero_1x1; mf_A_k := [4%R];
                      mf_tmp := [0%R]; mf_x_r := [0%R] |}).
  { real_eval. rewrite R_ne_same. reflexivity. }
  eexists. split; [exact E |]. cbn [mf_A_k mf_mcoeffs].
  repeat split; try reflexivity. exact E.
Qed.

Lemma exp_at_zero (x s : R) :
  Rtrigo_def.exp (- ((x - x) / s) * ((x - x) / s)) = 1%R.
Proof.
  replace (- ((x - x) / s) * ((x - x) / s))%R with 0%R
    by (unfold Rdiv; ring).
  apply exp_0.
Qed.

(** C2. The sum that [DirectLocalAccumulation_] accumulates does not
    reach the matrix of local moments.  For the box of the two
    references of [four_queries] (at 0 and 1/64), the destination
    centroid 0, truncation order 1 and a zeroed matrix, the routine
    returns with its vector [arr] holding the sum of the two Hermite
    terms, 1 for the reference at the centroid plus a positive term,
    and with column 0 of [locexps] still zero.  Likewise
    [TranslateMultipoleToLocal_], translating the far-field moment 4 of
    box 0 to the same centroid: [lcoeffs] ends as 4 and column 0 of
    [lcoeffsb] is still zero. *)
Theorem local_accumulation_is_discarded :
  (exists f v,
     DirectLocalAccumulation_ four_queries [0; 1] 0 zero_1x1 (/ 8)%R
       [0%R] 1 1 = Ok f /\
     df_arr f = [v] /\ (1 < v)%R /\
     col (df_locexps f) 0 = Ok [0%R]) /\
  (exists g,
     TranslateMultipoleToLocal_ four_references 0 0
       {| n_rows := 1; columns := [[4%R]] |} zero_1x1 1 1 (/ 8)%R
       [0%R] [0%R] = Ok g /\
     tf_lcoeffs g = [4%R] /\
     col (tf_lcoeffsb g) 0 = Ok [0%R]).
Proof.
  split.
  - eexists. eexists. split; [real_eval; reflexivity |].
    cbn [df_arr df_locexps]. split; [reflexivity |]. split.
    + rewrite exp_at_zero. change (powerRZ (-1) 0) with 1%R.
      pose proof (exp_pos (- ((0 - / 64) / R_sqrt.sqrt (/ 8))
                           * ((0 - / 64) / R_sqrt.sqrt (/ 8)))).
      lra.
    + reflexivity.
  - eexists. split; [real_eval; reflexivity |].
    cbn [tf_lcoeffs tf_lcoeffsb]. split; [| reflexivity].
    rewrite exp_at_zero. change (powerRZ (-1) 0) with 1%R. f_equal. lra.
Qed.

(** C6, as stated, fails: [Init] accepts a bandwidth of -1, a tolerance
    of 2, a two-dimensional query set and a one-dimensional reference
    set without columns. *)
Lemma Init_accepts_invalid_configuration :
  exists this',
    Init fresh {| n_rows := 2; columns := [[0%R; 0%R]] |}
      {| n_rows := 1; columns := [] |} (-1)%R 2%R = Ok this' /\
    (-1 <= 0)%R /\ (1 <= 2)%R /\
    n_rows (qset_ this') <> n_rows (rset_ this') /\
    n_cols (rset_ this') = 0.
Proof.
  eexists. split; [reflexivity |]. cbn.
  split; [lra |]. split; [lra |]. split; [lia | reflexivity].
Qed.

Lemma bound_at_ratio_one : bound_at 1%R 1 1 = 0%R.
Proof.
  unfold bound_at, search_after. cbn -[powerRZ IZR].
  change (powerRZ ?x 1) with (x * 1)%R.
  rewrite !Rmult_1_r, sqrt_1. field.
Qed.


Lemma bound_at_example : bound_at (/ 32)%R 1 1 = (31 / 225)%R.
Proof.
  unfold bound_at, search_after. cbn -[powerRZ IZR].
  change (powerRZ ?x 1) with (x * 1)%R.
  rewrite !Rmult_1_r, sqrt_1. field.
Qed.


Lemma Assign_partitions_witness :
  exists a,
    Assign_ four_queries 1 [1] [(/ 64)%R] [0%R] zero_1x1 [[]] [[]] = Ok a /\
    size (as_references a) = 1 /\
    size (as_queries a) = 1 /\
    concat (as_references a) ≡ₚ indices (n_cols (rset_ four_queries)) /\
    concat (as_queries a) ≡ₚ indices (n_cols (qset_ four_queries)).
Proof.
  apply (Assign_partitions four_queries 1 [1] [(/ 64)%R] [0%R] zero_1x1
           [[]] [[]]);
    try reflexivity;
    try (repeat constructor; fail).
  repeat constructor. lia.
Defined.

(** *** The passes of [Compute] on [four_queries] *)

Lemma sqrt_16 : R_sqrt.sqrt (/ 16) = (/ 4)%R.
Proof.
  replace (/ 16)%R with (/ 4 * / 4)%R by lra. apply sqrt_square. lra.
Qed.

Lemma to_index_17_16 : R_to_index ((/ 64 - 0) / / 4 + 1) = 1.
Proof.
  unfold R_to_index.
  destruct (Rle_dec 0 ((/ 64 - 0) / / 4 + 1)) as [_ | N];
    [| exfalso; apply N; lra].
  symmetry. apply Int_part_spec. simpl. lra.
Qed.

(** Decides the next comparison of two reals. *)
Ltac decide_lt :=
  match goal with
  | |- context [R_lt ?a ?b] =>
      first [ rewrite (R_lt_true a b) by lra
            | rewrite (R_lt_false a b) by lra ]
  end.

(** The grid and the truncation order of [four_queries], computed into
    vectors with one entry per dimension: one box of side 1/64 and
    truncation order 1. *)
Lemma FastGaussTransformPreprocess_example :
  FastGaussTransformPreprocess_ four_queries 0 [0] [0%R] [0%R]
  = Ok {| gp_interaction_radius :=
            R_sqrt.sqrt (- (2) * / 16 * Rpower.ln (/ 2));
          gp_nsides := [1];
          gp_sidelengths := [(/ 64)%R];
          gp_mincoords := [0%R];
          gp_nboxes := 1;
          gp_nterms := 1 |}.
Proof.
  real_eval. rewrite sqrt_16.
  repeat decide_lt. real_eval.
  rewrite to_index_17_16. real_eval.
  repeat decide_lt. real_eval.
  match goal with
  | |- context [R_lt ?a ?b] =>
      replace b with (31 / 225)%R
        by (change (powerRZ ?x 1) with (x * 1)%R;
            rewrite !Rmult_1_r, sqrt_1; field)
  end.
  decide_lt. do 2 f_equal. f_equal. lra.
Qed.

Lemma boxnum_of_one_box (pts : mat R) (h lo x : R) (r : Z) :
  mat_at pts 0 r = Ok x -> boxnum_of pts 1 [1] [h] [lo] r = Ok 0.
Proof.
  intros E. unfold boxnum_of, for_down. simpl for_count_down.
  change (at_ [1] (1 - 1)) with (Ok (A:=Z) 1).
  change (at_ [h] (1 - 1)) with (Ok h).
  change (at_ [lo] (1 - 1)) with (Ok lo).
  cbn [bind]. change (1 - 1) with 0. rewrite E. cbn [bind]. f_equal. lia.
Qed.

(** Both references and all four queries go to the one box; the
    reference at 1/64, on the upper boundary of the grid, is clamped
    into it. *)
Lemma Assign_example (c : R) :
  Assign_ four_queries 1 [1] [(/ 64)%R] [0%R] (center_1x1 c) [[]] [[]]
  = Ok {| as_center := center_1x1 c; as_queries := [[0; 1; 2; 3]];
          as_references := [[0; 1]] |}.
Proof.
  unfold Assign_.
  cbv -[boxnum_of Rplus Rmult Rminus Rdiv Ropp Rinv IZR R_ne R_lt R_to_index
        R_sqrt.sqrt Rtrigo_def.exp Rpower.ln powerRZ Int_part PI Rabs].
  repeat (erewrite boxnum_of_one_box by reflexivity).
  real_eval. reflexivity.
Qed.

Lemma norm_constant_example :
  (0 < CalcNormConstant (kernel_ four_queries) (n_rows (qset_ four_queries))
   <= 1)%R.
Proof.
  cbn. change (Pos.to_nat 1) with 1%nat. rewrite pow_1.
  pose proof PI_RGT_0. pose proof PI_4.
  split.
  - apply sqrt_lt_R0. lra.
  - rewrite <- sqrt_1. apply sqrt_le_1_alt. lra.
Qed.

(** The brute-force estimate at the queries of [four_queries] is above
    the tolerance 1/2. *)
Lemma brute_force_example : (/ 2 < brute_force four_queries [0%R])%R.
Proof.
  unfold brute_force.
  pose proof norm_constant_example as Hc.
  set (c := CalcNormConstant (kernel_ four_queries)
              (n_rows (qset_ four_queries))) in *.
  destruct Hc as [Hc0 Hc1]. clearbody c.
  cbn -[Rtrigo_def.exp IZR].
  replace (- ((0 - 0) * (0 - 0) + 0) / (2 * / 16))%R with 0%R
    by (unfold Rdiv; ring).
  rewrite exp_0.
  pose proof (exp_pos (- ((0 - / 64) * (0 - / 64) + 0) / (2 * / 16)))
    as He.
  set (e := Rtrigo_def.exp _) in *. clearbody e.
  assert (H2 : (/ 2 <= 1 / (2 * c))%R).
  { unfold Rdiv. rewrite Rmult_1_l.
    apply Rinv_le_contravar; lra. }
  assert (0 < 1 / (2 * c))%R by lra.
  change (IZR (n_cols _)) with 2%R.
  set (k := (1 / (2 * c))%R) in *. clearbody k. nra.
Qed.

(** C1. On [four_queries] (one dimension, bandwidth 1/4, tolerance
    1/2, references 0 and 1/64, four queries at 0) the estimates miss
    the tolerance.  [Compute] itself has no defined result: it indexes
    vectors that it only reserved.  Run on vectors and matrices of the
    sizes that [Compute] asks for, its passes return, whatever value
    [c] the matrix of box centers holds (no pass writes it): the grid
    is one box with truncation order 1, the box holds two references
    and four queries, more than [nlmax = 3], so that the references go
    through [DirectLocalAccumulation_] into the local moments, which
    stay zero; every density is 0 after [NormalizeDensities_], whereas
    the brute-force estimate is above 1/2. *)
Theorem Compute_misses_tolerance :
  (forall fuel, Compute four_queries fuel = Undefined) /\
  forall c : R, exists plan s this',
    FastGaussTransformPreprocess_ four_queries 0 [0] [0%R] [0%R] = Ok plan /\
    GaussTransform_ four_queries (2 * / 16)%R (gp_nterms plan)
      (gp_nboxes plan) (gp_nsides plan) (gp_sidelengths plan)
      (gp_mincoords plan) zero_1x1 (center_1x1 c) [[]] [[]] zero_1x1
    = Ok s /\
    NormalizeDensities_ (ss_this s) = Ok this' /\
    densities_ this' = [0%R; 0%R; 0%R; 0%R] /\
    (tau_ four_queries < Rabs (0 - brute_force four_queries [0%R]))%R.
Proof.
  split.
  { intros fuel. apply Compute_unsized. simpl. lia. }
  intros c. eexists. eexists. eexists.
  split; [apply FastGaussTransformPreprocess_example |].
  cbn [gp_nterms gp_nboxes gp_nsides gp_sidelengths gp_mincoords].
  split.
  { unfold GaussTransform_, FinalizeSum_.
    rewrite Assign_example. cbn [bind]. real_eval. reflexivity. }
  split; [real_eval; reflexivity |].
  split.
  { cbn [densities_]. repeat f_equal; unfold Rdiv; ring. }
  pose proof brute_force_example.
  rewrite Rabs_left1 by lra. cbn [tau_ four_queries]. lra.
Qed.

End RealFacts.

(** * Further properties *)

(** ** Loops, once more *)

Lemma for_count_app {S : Type} (a b : nat) (i : Z)
    (body : Z -> S -> outcome S) (s : S) :
  for_count (a + b) i body s =
  bind (for_count a i body s) (for_count b (i + Z.of_nat a) body).
Proof.
  revert i s. induction a as [| a IH]; intros i s.
  - simpl. rewrite Z.add_0_r. reflexivity.
  - change (for_count (Datatypes.S a + b) i body s)
      with (bind (body i s) (for_count (a + b) (i + 1) body)).
    change (for_count (Datatypes.S a) i body s)
      with (bind (body i s) (for_count a (i + 1) body)).
    destruct (body i s) as [s1 | |]; cbn [bind]; try reflexivity.
    rewrite IH.
    replace (i + 1 + Z.of_nat a) with (i + Z.of_nat (Datatypes.S a)) by lia.
    reflexivity.
Qed.

Lemma for_count_fixed {S : Type} (n : nat) (i : Z)
    (body : Z -> S -> outcome S) (s : S) :
  (forall j, body j s = Ok s) -> for_count n i body s = Ok s.
Proof.
  intros Hb. revert i. induction n as [| n IH]; intros i; simpl.
  - reflexivity.
  - rewrite Hb. cbn [bind]. apply IH.
Qed.

(** ** Box ids outside the grid, grids with an empty axis *)

Module GridMore.
Import Grid GridFacts.

Lemma product_nonzero (n : list Z) :
  Forall (fun m => m <> 0) n -> product n <> 0.
Proof. induction 1; simpl; nia. Qed.

Lemma mixed_radix_digits_rem (n : list Z) (index : Z) :
  Forall (fun m => m <> 0) n ->
  mixed_radix (digits n index) n = Z.rem index (product n).
Proof.
  intros Hn. revert index. induction Hn as [| m n Hm Hn IH]; intros index.
  - simpl. rewrite Z.rem_1_r. reflexivity.
  - simpl. rewrite IH.
    rewrite Z.mod_mul_r by auto using product_nonzero. reflexivity.
Qed.

(** Decoding any box id, also one outside [0, nboxes) or a negative
    one, and encoding the coordinates again gives the remainder of the
    id by the number of boxes (the truncating remainder of C++). *)
Theorem decode_encode_remainder (n coords : list Z) (id : Z) :
  Forall (fun m => m <> 0) n -> length coords = length n ->
  exists c, SingleDimIndexInMultiArray_ n id coords = Ok c /\
            MultiDimIndexInSingleArray_ c n = Ok (Z.rem id (product n)).
Proof.
  intros Hn L. exists (digits n id).
  rewrite SingleDimIndexInMultiArray_value by assumption.
  split; [reflexivity |].
  rewrite MultiDimIndexInSingleArray_value by (rewrite digits_length; lia).
  rewrite mixed_radix_digits_rem by assumption. reflexivity.
Qed.

Lemma decode_encode_remainder_witness :
  exists c, SingleDimIndexInMultiArray_ [3; 2] (-7) [0; 0] = Ok c /\
            MultiDimIndexInSingleArray_ c [3; 2]
            = Ok (Z.rem (-7) (product [3; 2])).
Proof.
  apply (decode_encode_remainder [3; 2] [0; 0] (-7)).
  - repeat constructor; lia.
  - reflexivity.
Defined.

(** The decoding loop on a radix vector that is longer than the
    coordinate vector. *)
Lemma decode_loop_returns (n' : list Z) :
  forall (npre suf pre cs : list Z) (index : Z),
    Forall (fun m => m <> 0) n' ->
    length npre = length pre -> length cs = length n' ->
    exists index',
      for_count (length cs) (Z.of_nat (length pre))
        (fun i '(index, coords) =>
           let* ni := at_ (npre ++ n' ++ suf) i in
           let* this_coord := imod index ni in
           let* index := idiv index ni in
           let* coords := put coords i this_coord in
           Ok (index, coords)) (index, pre ++ cs)
      = Ok (index', pre ++ digits n' index).
Proof.
  induction n' as [| m n' IH]; intros npre suf pre cs index Hn Lp Lc.
  - destruct cs; [| discriminate]. simpl. eauto.
  - destruct cs as [| c cs]; [discriminate |].
    inversion Hn as [| ? ? Hm Hn']; subst.
    cbn [for_count length].
    change ((m :: n') ++ suf) with (m :: n' ++ suf).
    rewrite (at_nat (npre ++ m :: n' ++ suf) (length pre) m)
      by (rewrite <- Lp; apply list_lookup_middle; reflexivity).
    simpl. unfold imod, idiv. destruct (Z.eqb_spec m 0); [contradiction |].
    simpl. rewrite put_nat by (rewrite length_app; simpl; lia).
    simpl. rewrite (insert_app_r_alt pre (c :: cs)) by lia.
    rewrite Nat.sub_diag. simpl.
    destruct (IH (npre ++ [m]) suf (pre ++ [Z.rem index m]) cs
                (Z.quot index m)) as [index' E]; auto.
    { rewrite !length_app. simpl. lia. }
    exists index'. rewrite <- !app_assoc in E. simpl in E.
    rewrite length_app in E. simpl in E.
    replace (Z.of_nat (length pre) + 1) with (Z.of_nat (length pre + 1)) by lia.
    exact E.
Qed.

(** The decoding loop on a radix vector that is too short or holds a
    zero among the radices it reads. *)
Lemma decode_loop_undefined (cs : list Z) :
  forall (n' npre pre : list Z) (index : Z),
    length npre = length pre ->
    ~ ((length cs <= length n')%nat /\
       Forall (fun m => m <> 0) (take (length cs) n')) ->
    for_count (length cs) (Z.of_nat (length pre))
      (fun i '(index, coords) =>
         let* ni := at_ (npre ++ n') i in
         let* this_coord := imod index ni in
         let* index := idiv index ni in
         let* coords := put coords i this_coord in
         Ok (index, coords)) (index, pre ++ cs)
    = Undefined.
Proof.
  induction cs as [| c cs IH]; intros n' npre pre index Lp N.
  - exfalso. apply N. simpl. split; [lia | constructor].
  - simpl for_count. destruct n' as [| m n'].
    + rewrite app_nil_r. unfold at_ at 1.
      destruct (Z.ltb_spec (Z.of_nat (length pre)) 0); [reflexivity |].
      rewrite Nat2Z.id, <- Lp, lookup_ge_None_2 by lia. reflexivity.
    + rewrite (at_nat (npre ++ m :: n') (length pre) m)
        by (rewrite <- Lp; apply list_lookup_middle; reflexivity).
      cbn [bind]. unfold imod, idiv.
      destruct (Z.eqb_spec m 0) as [-> | Hm]; [reflexivity |].
      cbn [bind]. rewrite put_nat by (rewrite length_app; simpl; lia).
      cbn [bind]. rewrite (insert_app_r_alt pre (c :: cs)) by lia.
      rewrite Nat.sub_diag. simpl.
      specialize (IH n' (npre ++ [m]) (pre ++ [Z.rem index m])
                    (Z.quot index m)).
      rewrite <- !app_assoc in IH. simpl in IH.
      rewrite !length_app in IH. simpl in IH.
      replace (Z.of_nat (length pre) + 1)
        with (Z.of_nat (length pre + 1)) by lia.
      apply IH.
      * lia.
      * intros [L F]. apply N. simpl. split; [lia |].
        constructor; assumption.
Qed.

(** [SingleDimIndexInMultiArray_] reads as many radices as [coords] has
    entries.  It returns exactly when [n] has that many entries and
    none of them is zero, and then [coords] holds the mixed-radix
    digits of the id in these radices, whatever it held before; a
    missing radix or a zero one (a division by zero) leaves it without
    a defined result. *)
Theorem SingleDimIndexInMultiArray_defined (n coords : list Z) (index : Z) :
  let k := length coords in
  ((k <= length n)%nat /\ Forall (fun m => m <> 0) (take k n) ->
   SingleDimIndexInMultiArray_ n index coords
   = Ok (digits (take k n) index)) /\
  (~ ((k <= length n)%nat /\ Forall (fun m => m <> 0) (take k n)) ->
   SingleDimIndexInMultiArray_ n index coords = Undefined).
Proof.
  intros k. subst k. unfold SingleDimIndexInMultiArray_, size.
  rewrite for_range_nat. split.
  - intros [L F].
    destruct (decode_loop_returns (take (length coords) n) []
                (drop (length coords) n) [] coords index)
      as [index' E]; auto.
    { rewrite length_take. lia. }
    cbn [app length] in E. rewrite take_drop in E.
    change (Z.of_nat 0) with 0 in E. rewrite E. reflexivity.
  - intros N.
    pose proof (decode_loop_undefined coords n [] [] index eq_refl N) as E.
    cbn [app length] in E. change (Z.of_nat 0) with 0 in E.
    rewrite E. reflexivity.
Qed.

Lemma SingleDimIndexInMultiArray_defined_witness :
  SingleDimIndexInMultiArray_ [3; 2; 0] 5 [9; 9] = Ok [2; 1] /\
  SingleDimIndexInMultiArray_ [3; 0] 5 [9; 9] = Undefined.
Proof.
  split.
  - apply (proj1 (SingleDimIndexInMultiArray_defined [3; 2; 0] [9; 9] 5)).
    split; [simpl; lia | repeat constructor; lia].
  - apply (proj2 (SingleDimIndexInMultiArray_defined [3; 0] [9; 9] 5)).
    intros [_ F]. simpl in F. inversion F as [| ? ? _ F']. subst.
    inversion F' as [| ? ? H0 _]. apply H0. reflexivity.
Defined.

(** *** [IsOngrid_] *)

(** The loop of [IsOngrid_] over a leading run of [k] axes on which the
    shifted coordinate is on the grid: the flag stays 1 and the first
    [k] entries of [new_coords] hold the shifted coordinates.
    [get_old] says where the old coordinates are read: in a vector of
    their own, or in [new_coords] itself. *)
Lemma IsOngrid_accepts (get_old : list Z -> list Z)
    (old new nsides : list Z) (delta : Z) (k : nat) :
  (forall j, (j < length old)%nat ->
     get_old (map (fun x => x + delta) (take j old) ++ drop j new) !! j
     = old !! j) ->
  (length old <= length new)%nat ->
  (length old <= length nsides)%nat ->
  (k <= length old)%nat ->
  (forall d x m, (d < k)%nat -> old !! d = Some x -> nsides !! d = Some m ->
     0 <= x + delta < m) ->
  for_count k 0 (fun d '(ongrid, s) =>
    if ongrid =? 0 then Ok (ongrid, s)
    else
      let* od := at_ (get_old s) d in
      if od + delta <? 0 then Ok (0, s)
      else
        let* nd := at_ nsides d in
        if od + delta >=? nd then Ok (0, s)
        else
          let* nc := put s d (od + delta) in
          Ok (ongrid, nc)) (1, new)
  = Ok (1, map (fun x => x + delta) (take k old) ++ drop k new).
Proof.
  intros Hget Ln Ls Lk Hon. induction k as [| k IH].
  - reflexivity.
  - rewrite for_count_snoc, IH;
      [| lia | intros d x m Hd; apply Hon; lia].
    cbn [bind]. rewrite Z.add_0_l. change (1 =? 0) with false. cbv iota.
    destruct (lookup_lt_is_Some_2 old k) as [x Ex]; [lia |].
    destruct (lookup_lt_is_Some_2 nsides k) as [m Em]; [lia |].
    rewrite (at_nat _ k x) by (rewrite Hget by lia; exact Ex).
    cbn [bind]. pose proof (Hon k x m ltac:(lia) Ex Em) as B.
    destruct (Z.ltb_spec (x + delta) 0); [lia |].
    rewrite (at_nat _ _ _ Em). cbn [bind].
    unfold Z.geb. destruct (Z.compare_spec (x + delta) m); try lia.
    assert (Lt : length (map (fun x => x + delta) (take k old)) = k)
      by (rewrite length_map, length_take; lia).
    rewrite put_nat by (rewrite length_app, length_drop; lia).
    cbn [bind]. f_equal. f_equal.
    rewrite insert_app_r_alt by lia. rewrite Lt, Nat.sub_diag.
    destruct (lookup_lt_is_Some_2 new k) as [y Ey]; [lia |].
    rewrite (drop_S _ _ _ Ey). cbn [insert list_insert].
    rewrite (take_S_r _ _ _ Ex), map_app, <- app_assoc. reflexivity.
Qed.

(** [IsOngrid_], whichever vector the old coordinates are read from.
    [k] is the first axis on which the shifted coordinate leaves the
    grid, or the dimension when there is none. *)
Lemma IsOngrid_first_off (get_old : list Z -> list Z)
    (old new nsides : list Z) (delta : Z) (k : nat) :
  length (get_old new) = length old ->
  (forall j, (j < length old)%nat ->
     get_old (map (fun x => x + delta) (take j old) ++ drop j new) !! j
     = old !! j) ->
  (length old <= length new)%nat ->
  (length old <= length nsides)%nat ->
  (k <= length old)%nat ->
  (forall d x m, (d < k)%nat -> old !! d = Some x -> nsides !! d = Some m ->
     0 <= x + delta < m) ->
  (forall x m, old !! k = Some x -> nsides !! k = Some m ->
     ~ (0 <= x + delta < m)) ->
  IsOngrid_ get_old (fun v => v) (fun v _ => v) delta nsides new
  = Ok (if (k =? length old)%nat then 1 else 0,
        map (fun x => x + delta) (take k old) ++ drop k new).
Proof.
  intros L0 Hget Ln Ls Lk Hon Hoff. unfold IsOngrid_, size, for_range.
  rewrite L0, Z.sub_0_r, Nat2Z.id.
  replace (length old) with (k + (length old - k))%nat at 1 by lia.
  rewrite for_count_app.
  rewrite (IsOngrid_accepts get_old old new nsides delta k) by assumption.
  cbn [bind]. rewrite Z.add_0_l.
  destruct (Nat.eqb_spec k (length old)) as [-> | Nk].
  - rewrite Nat.sub_diag. reflexivity.
  - destruct (length old - k)%nat as [| r] eqn:Er; [lia |].
    cbn [for_count]. change (1 =? 0) with false. cbv iota.
    destruct (lookup_lt_is_Some_2 old k) as [x Ex]; [lia |].
    destruct (lookup_lt_is_Some_2 nsides k) as [m Em]; [lia |].
    rewrite (at_nat _ k x) by (rewrite Hget by lia; exact Ex).
    cbn [bind]. pose proof (Hoff x m Ex Em) as B.
    assert (R : forall s : list Z,
      for_count r (Z.of_nat k + 1) (fun d '(ongrid, s) =>
        if ongrid =? 0 then Ok (ongrid, s)
        else
          let* od := at_ (get_old s) d in
          if od + delta <? 0 then Ok (0, s)
          else
            let* nd := at_ nsides d in
            if od + delta >=? nd then Ok (0, s)
            else
              let* nc := put s d (od + delta) in
              Ok (ongrid, nc)) (0, s) = Ok (0, s)).
    { intros s. apply for_count_fixed. intros j. reflexivity. }
    destruct (Z.ltb_spec (x + delta) 0); [cbn [bind]; apply R |].
    rewrite (at_nat _ _ _ Em). cbn [bind].
    unfold Z.geb. destruct (Z.compare_spec (x + delta) m); try lia;
      cbn [bind]; apply R.
Qed.

(** [IsOngrid_] called with two vectors.  Let [k] be the first axis on
    which [old_coords[k] + delta] is outside [0, nsides[k]), or the
    dimension when every axis is on the grid.  The call returns 1 in
    the second case and 0 in the first, and in both it has written the
    shifted coordinates of the axes before [k] into [new_coords]: a
    rejected call leaves [new_coords] partly overwritten. *)
Theorem IsOngrid_two_vectors (old_coords new_coords nsides : list Z)
    (delta : Z) (k : nat) :
  (length old_coords <= length new_coords)%nat ->
  (length old_coords <= length nsides)%nat ->
  (k <= length old_coords)%nat ->
  (forall d x m, (d < k)%nat ->
     old_coords !! d = Some x -> nsides !! d = Some m ->
     0 <= x + delta < m) ->
  (forall x m, old_coords !! k = Some x -> nsides !! k = Some m ->
     ~ (0 <= x + delta < m)) ->
  IsOngrid_ (fun _ => old_coords) (fun v => v) (fun v _ => v) delta nsides
    new_coords
  = Ok (if (k =? length old_coords)%nat then 1 else 0,
        map (fun x => x + delta) (take k old_coords) ++ drop k new_coords).
Proof.
  intros Ln Ls Lk Hon Hoff.
  apply (IsOngrid_first_off (fun _ => old_coords)); auto.
Qed.

Lemma IsOngrid_two_vectors_witness :
  IsOngrid_ (fun _ => [1; 2; 0]) (fun v => v) (fun v _ => v) 1 [3; 3; 3]
    [7; 8; 9]
  = Ok (0, [2; 8; 9]).
Proof.
  apply (IsOngrid_two_vectors [1; 2; 0] [7; 8; 9] [3; 3; 3] 1 1);
    try (simpl; lia).
  - intros [| d] x m Hd Ex Em; [| lia].
    injection Ex as <-. injection Em as <-. lia.
  - intros x m Ex Em. injection Ex as <-. injection Em as <-. lia.
Defined.

(** [IsOngrid_] called in place, the way [MakeNeighbors_] calls it
    ([new_coords] passed for both vectors): with [k] as above, the
    first [k] coordinates end up shifted by [delta] and the others are
    as they were, so that after a rejected call the vector is neither
    the old nor the shifted one. *)
Theorem IsOngrid_in_place (coords nsides : list Z) (delta : Z) (k : nat) :
  (length coords <= length nsides)%nat ->
  (k <= length coords)%nat ->
  (forall d x m, (d < k)%nat ->
     coords !! d = Some x -> nsides !! d = Some m ->
     0 <= x + delta < m) ->
  (forall x m, coords !! k = Some x -> nsides !! k = Some m ->
     ~ (0 <= x + delta < m)) ->
  IsOngrid_ (fun v => v) (fun v => v) (fun v _ => v) delta nsides coords
  = Ok (if (k =? length coords)%nat then 1 else 0,
        map (fun x => x + delta) (take k coords) ++ drop k coords).
Proof.
  intros Ls Lk Hon Hoff.
  apply (IsOngrid_first_off (fun v => v)); auto.
  intros j Hj.
  assert (Lt : length (map (fun x => x + delta) (take j coords)) = j)
    by (rewrite length_map, length_take; lia).
  rewrite lookup_app_r by lia. rewrite Lt, Nat.sub_diag, lookup_drop.
  rewrite Nat.add_0_r. reflexivity.
Qed.

Lemma IsOngrid_in_place_witness :
  IsOngrid_ (fun v => v) (fun v => v) (fun v _ => v) (-1) [3; 3; 3]
    [1; 0; 2]
  = Ok (0, [0; 0; 2]).
Proof.
  apply (IsOngrid_in_place [1; 0; 2] [3; 3; 3] (-1) 1);
    try (simpl; lia).
  - intros [| d] x m Hd Ex Em; [| lia].
    injection Ex as <-. injection Em as <-. lia.
  - intros x m Ex Em. injection Ex as <-. injection Em as <-. lia.
Defined.

(** *** [MakeNeighbors_] *)

(** [MakeNeighbors_] appends box 0, and nothing else, to [ret],
    whatever the box, the grid and the range: its coordinate vectors
    are reserved and have size 0, so that none of the loops over
    [coords.size()] runs, [num_neighbors] is [pow(2 * kdis + 1, 0) = 1],
    and the one offset combination encodes to 0.  The boxes already in
    [ret] are kept. *)
Theorem MakeNeighbors_appends_box0 (ibox : Z) (nsides : list Z) (kdis : Z)
    (ret : list Z) :
  MakeNeighbors_ ibox nsides kdis ret = Ok (ret ++ [0]).
Proof.
  unfold MakeNeighbors_, reserve.
  (* [coords] has size 0: the decoding writes nothing *)
  change (SingleDimIndexInMultiArray_ nsides ibox []) with (Ok (@nil Z)).
  cbn [bind]. change (size (@nil Z)) with 0.
  (* no entry of [dummy_n] and [all_ones] is written *)
  change (for_range 0 0 ?f ?s) with (Ok s). cbn [bind].
  (* one offset combination: [pow(2 * kdis + 1, 0) = 1] *)
  change (ipow (2 * kdis + 1) 0) with 1.
  reflexivity.
Qed.

End GridMore.

(** ** The point assignment, box by box *)

Section AssignMore.
Context {double : Type} {AR : Arith double} {CO : Collaborators double}.
Import GridFacts.

Lemma ensures_for_count_down {S : Type} (P : S -> Prop)
    (body : Z -> S -> outcome S) :
  (forall i s, P s -> ensures P (body i s)) ->
  forall n i s, P s -> ensures P (for_count_down n i body s).
Proof.
  intros Hb. induction n as [| n IH]; intros i s Hs; simpl; [exact Hs |].
  apply ensures_bind. eapply ensures_weaken; [| apply Hb; exact Hs].
  intros s' Hs'. apply IH. exact Hs'.
Qed.

Lemma ensures_for_down {S : Type} (P : S -> Prop)
    (body : Z -> S -> outcome S) (hi : Z) (s : S) :
  (forall i s, P s -> ensures P (body i s)) ->
  P s -> ensures P (for_down hi body s).
Proof. intros Hb Hs. apply ensures_for_count_down; auto. Qed.

Lemma ensures_boxnum_of (pts : mat double) (dim : Z) (nsides : list Z)
    (sidelengths mincoords : vec double) (r : Z) :
  ensures (fun _ => True)
    (boxnum_of pts dim nsides sidelengths mincoords r).
Proof.
  unfold boxnum_of. apply ensures_for_down; [| exact I].
  intros i s _. ens_true.
Qed.

(** The loops of [Assign_] keep the matrix of box centers. *)
Lemma Assign_center_frame (this : FGTKde) (nallbx : Z)
    (nsides : list Z) (sidelengths mincoords : vec double)
    (center : mat double)
    (queries_assigned references_assigned : list (list Z)) :
  ensures (fun a => as_center a = center)
    (Assign_ this nallbx nsides sidelengths mincoords center
       queries_assigned references_assigned).
Proof.
  unfold Assign_.
  apply ensures_then.
  { apply ensures_for_range_true. intros r boxes.
    apply ensures_then; [apply ensures_boxnum_of |]. intros b. ens_true. }
  intros refs.
  apply ensures_then.
  { apply ensures_for_range_true. intros r boxes.
    apply ensures_then; [apply ensures_boxnum_of |]. intros b. ens_true. }
  intros qrys.
  apply ensures_bind.
  eapply ensures_weaken;
    [| apply (ensures_for_range (fun c => c = center)); [| reflexivity]].
  - intros c ->. reflexivity.
  - intros r c ->.
    apply ensures_then; [ens_prim |]. intros bc.
    apply ensures_then; [| intros s; reflexivity].
    apply ensures_for_down; [| exact I].
    intros di [[sf ind] b] _. ens_true.
Qed.

(** [Assign_] never writes the matrix of box centers: each centroid is
    computed into [box_center], a vector copied from the column, and
    dropped.  For every call, [center] is after the call what it was
    before. *)
Theorem Assign_leaves_centers (this : FGTKde) (nallbx : Z)
    (nsides : list Z) (sidelengths mincoords : vec double)
    (center : mat double)
    (queries_assigned references_assigned : list (list Z)) :
  ensures (fun a => as_center a = center)
    (Assign_ this nallbx nsides sidelengths mincoords center
       queries_assigned references_assigned).
Proof.
  eapply ensures_weaken; [| apply Assign_center_frame].
  intros a Ha. exact Ha.
Qed.

Lemma mat_at_col (pts : mat double) (di r : Z) (c : vec double) :
  col pts r = Ok c -> mat_at pts di r = at_ c di.
Proof. unfold col, mat_at. intros ->. reflexivity. Qed.

Lemma clamped_bins_lookup (nsides : list Z)
    (sidelengths mincoords c : vec double) (k : nat) (nside : Z)
    (h x lo : double) :
  nsides !! k = Some nside -> sidelengths !! k = Some h ->
  c !! k = Some x -> mincoords !! k = Some lo ->
  clamped_bins nsides sidelengths mincoords c !! k
  = Some (Z.max 0 (Z.min (to_index (floor (div (sub x lo) h))) (nside - 1))).
Proof.
  unfold clamped_bins. revert nsides sidelengths mincoords c.
  induction k as [| k IH];
    intros [| n0 nsides] [| h0 sidelengths] [| l0 mincoords] [| x0 c]
           En Eh Ex El; try discriminate; simpl in *.
  - injection En as ->. injection Eh as ->. injection Ex as ->.
    injection El as ->. reflexivity.
  - apply IH; assumption.
Qed.

Lemma clamped_bins_length (nsides : list Z)
    (sidelengths mincoords c : vec double) :
  length sidelengths = length nsides -> length c = length nsides ->
  length mincoords = length nsides ->
  length (clamped_bins nsides sidelengths mincoords c) = length nsides.
Proof.
  unfold clamped_bins. intros L1 L2 L3.
  rewrite length_map, !length_zip. lia.
Qed.

(** The box number that the assignment loops compute for a point is
    the id that [MultiDimIndexInSingleArray_] gives to the point's
    per-axis bins, each bin being [floor((x - mincoords) / sidelength)]
    clamped to [0, nsides - 1]: the two encodings of the header agree,
    axis 0 being the least significant one.  On a grid with at least
    one box along every axis these bins lie on the grid. *)
Theorem boxnum_of_encodes_bins (pts : mat double) (dim : Z)
    (nsides : list Z) (sidelengths mincoords c : vec double) (r : Z) :
  col pts r = Ok c ->
  size c = dim -> size nsides = dim ->
  size sidelengths = dim -> size mincoords = dim ->
  let bins := clamped_bins nsides sidelengths mincoords c in
  boxnum_of pts dim nsides sidelengths mincoords r
  = Ok (mixed_radix bins nsides) /\
  Grid.MultiDimIndexInSingleArray_ bins nsides
  = Ok (mixed_radix bins nsides) /\
  (Forall (fun m => 1 <= m) nsides -> on_grid bins nsides).
Proof.
  intros Ec Lc Ln Ls Lm bins. unfold size in *.
  assert (Lb : length bins = length nsides)
    by (apply clamped_bins_length; lia).
  split; [| split].
  - unfold boxnum_of, for_down.
    assert (G : forall k b, (k <= length nsides)%nat ->
      for_count_down k (Z.of_nat k - 1) (fun di boxnum =>
        let* nside := at_ nsides di in
        let* h := at_ sidelengths di in
        let* x := mat_at pts di r in
        let* lo := at_ mincoords di in
        let binnum := to_index (floor ((x - lo) / h)%dbl) in
        let binnum := Z.max 0 (Z.min binnum (nside - 1)) in
        Ok (boxnum * nside + binnum)) b
      = Ok (mixed_radix (take k bins) nsides
            + b * product (take k nsides))).
    { induction k as [| k IH]; intros b Lk.
      - simpl. f_equal. lia.
      - simpl for_count_down.
        replace (Z.of_nat (S k) - 1) with (Z.of_nat k) by lia.
        destruct (lookup_lt_is_Some_2 nsides k) as [nside En]; [lia |].
        destruct (lookup_lt_is_Some_2 sidelengths k) as [h Eh]; [lia |].
        destruct (lookup_lt_is_Some_2 c k) as [x Ex]; [lia |].
        destruct (lookup_lt_is_Some_2 mincoords k) as [lo El]; [lia |].
        rewrite (at_nat _ _ _ En), (at_nat _ _ _ Eh). cbn [bind].
        rewrite (mat_at_col _ _ _ _ Ec), (at_nat _ _ _ Ex),
          (at_nat _ _ _ El).
        cbn [bind]. rewrite IH by lia. f_equal.
        pose proof (clamped_bins_lookup _ _ _ _ _ _ _ _ _ En Eh Ex El)
          as Eb.
        fold bins in Eb.
        rewrite (take_S_r _ _ _ Eb), mixed_radix_snoc
          by (rewrite length_take; lia).
        rewrite length_take.
        replace (k `min` length bins)%nat with k by lia.
        rewrite (product_take _ _ _ En). lia. }
    rewrite <- Ln, Nat2Z.id, G by lia.
    f_equal. rewrite <- Lb at 1. rewrite firstn_all.
    lia.
  - apply MultiDimIndexInSingleArray_value. lia.
  - intros Hp. apply Forall2_same_length_lookup_2; [exact Lb |].
    intros i b m Eb Em.
    destruct (lookup_lt_is_Some_2 sidelengths i) as [h Eh];
      [apply lookup_lt_Some in Em; lia |].
    destruct (lookup_lt_is_Some_2 c i) as [x Ex];
      [apply lookup_lt_Some in Em; lia |].
    destruct (lookup_lt_is_Some_2 mincoords i) as [lo El];
      [apply lookup_lt_Some in Em; lia |].
    unfold bins in Eb.
    rewrite (clamped_bins_lookup _ _ _ _ _ _ _ _ _ Em Eh Ex El) in Eb.
    injection Eb as <-.
    assert (1 <= m) by (eapply Forall_lookup_1 in Hp; eauto).
    lia.
Qed.

Lemma filter_snoc {A : Type} (f : A -> bool) (l : list A) (x : A) :
  List.filter f (l ++ [x]) = List.filter f l ++ (if f x then [x] else []).
Proof. rewrite List.filter_app. reflexivity. Qed.

Lemma lookup_repeat {A : Type} (x : A) (n i : nat) :
  (i < n)%nat -> repeat x n !! i = Some x.
Proof.
  revert i. induction n as [| n IH]; intros [| i] Hi; simpl; try lia.
  - reflexivity.
  - apply IH. lia.
Qed.

Lemma in_box_Ok (pts : mat double) (dim : Z) (nsides : list Z)
    (sidelengths mincoords : vec double) (b r b' : Z) :
  boxnum_of pts dim nsides sidelengths mincoords r = Ok b' ->
  in_box pts dim nsides sidelengths mincoords b r = (b' =? b).
Proof. unfold in_box. intros ->. reflexivity. Qed.

(** One assignment loop of [Assign_], box by box. *)
Lemma assign_loop_members (pts : mat double) (dim : Z) (nsides : list Z)
    (sidelengths mincoords : vec double) (n : nat) :
  mat_wf pts -> n_rows pts = dim ->
  size nsides = dim -> size sidelengths = dim -> size mincoords = dim ->
  Forall (fun m => 1 <= m) nsides ->
  Z.of_nat n = product nsides ->
  exists boxes',
    for_range 0 (n_cols pts) (fun r boxes =>
      let* boxnum := boxnum_of pts dim nsides sidelengths mincoords r in
      let* box := at_ boxes boxnum in
      put boxes boxnum (push_back box r)) (repeat [] n) = Ok boxes' /\
    length boxes' = n /\
    forall b, (b < n)%nat ->
      boxes' !! b
      = Some (box_members pts dim nsides sidelengths mincoords (Z.of_nat b)).
Proof.
  intros W Hd Hn Hs Hm Hp Hb.
  unfold box_members, n_cols, size. rewrite for_range_nat.
  assert (G : forall k, (k <= length (columns pts))%nat ->
    exists boxes',
      for_count k 0 (fun r boxes =>
        let* boxnum := boxnum_of pts dim nsides sidelengths mincoords r in
        let* box := at_ boxes boxnum in
        put boxes boxnum (push_back box r)) (repeat [] n) = Ok boxes' /\
      length boxes' = n /\
      forall b, (b < n)%nat ->
        boxes' !! b
        = Some (List.filter
                  (in_box pts dim nsides sidelengths mincoords (Z.of_nat b))
                  (indices (Z.of_nat k)))).
  { induction k as [| k IH]; intros Lk.
    - exists (repeat [] n). split; [reflexivity |].
      split; [apply repeat_length |].
      intros b Hlt. rewrite lookup_repeat by exact Hlt. reflexivity.
    - destruct IH as (bx & E & L & M); [lia |].
      rewrite for_count_snoc, E. cbn [bind]. rewrite Z.add_0_l.
      destruct (boxnum_of_in_range pts dim nsides sidelengths mincoords
                  (Z.of_nat k)) as (bk & Ebk & Hbk); auto.
      { unfold n_cols, size. lia. }
      rewrite Ebk. cbn [bind].
      assert (Hbx : 0 <= bk < size bx) by (unfold size; lia).
      pose proof (M (Z.to_nat bk) ltac:(lia)) as Ml.
      rewrite (proj2 (at_Ok bx bk _) (conj (proj1 Hbx) Ml)). cbn [bind].
      rewrite put_in_range by exact Hbx.
      eexists. split; [reflexivity |]. split.
      + rewrite length_insert. exact L.
      + intros b Hlt. rewrite indices_S, filter_snoc.
        rewrite (in_box_Ok _ _ _ _ _ _ _ _ Ebk).
        destruct (Z.eqb_spec bk (Z.of_nat b)) as [-> | Ne].
        * rewrite Nat2Z.id, list_lookup_insert_eq by lia.
          reflexivity.
        * rewrite list_lookup_insert_ne by lia.
          rewrite app_nil_r. apply M. exact Hlt. }
  destruct (G (length (columns pts))) as (bx & E & L & M); [lia |].
  exists bx. split; [exact E |]. split; [exact L |]. exact M.
Qed.

(** For query and reference sets of the same dimension, a grid with at
    least one box along every axis and vectors of box lists holding one
    empty list per box, [Assign_] returns with the list of every box
    holding exactly the points whose box number it is, in increasing
    order of their index, for the references and for the queries. *)
Theorem Assign_box_lists (this : FGTKde) (nallbx : Z) (nsides : list Z)
    (sidelengths mincoords : vec double) (center : mat double)
    (queries_assigned references_assigned : list (list Z)) :
  let dim := n_rows (qset_ this) in
  mat_wf (qset_ this) -> mat_wf (rset_ this) ->
  n_rows (rset_ this) = dim ->
  size nsides = dim -> size sidelengths = dim -> size mincoords = dim ->
  Forall (fun m => 1 <= m) nsides ->
  nallbx = product nsides ->
  mat_wf center -> n_rows center = dim -> n_cols center = nallbx ->
  queries_assigned = repeat [] (Z.to_nat nallbx) ->
  references_assigned = repeat [] (Z.to_nat nallbx) ->
  exists a,
    Assign_ this nallbx nsides sidelengths mincoords center
      queries_assigned references_assigned = Ok a /\
    forall b, 0 <= b < nallbx ->
      at_ (as_references a) b
      = Ok (box_members (rset_ this) dim nsides sidelengths mincoords b) /\
      at_ (as_queries a) b
      = Ok (box_members (qset_ this) dim nsides sidelengths mincoords b).
Proof.
  intros dim Wq Wr Hr Hn Hs Hm Hp Hb Wc Hcr Hcc Eq Er.
  pose proof (product_pos _ Hp) as Hpos.
  assert (Hnat : Z.of_nat (Z.to_nat nallbx) = product nsides) by lia.
  destruct (assign_loop_members (rset_ this) dim nsides sidelengths
              mincoords (Z.to_nat nallbx)) as (refs & E1 & L1 & M1); auto.
  destruct (assign_loop_members (qset_ this) dim nsides sidelengths
              mincoords (Z.to_nat nallbx)) as (qrys & E2 & L2 & M2); auto.
  unfold Assign_. fold dim. subst queries_assigned references_assigned.
  rewrite E1. cbn [bind]. rewrite E2. cbn [bind].
  rewrite (centroid_loop nallbx nsides sidelengths mincoords center dim)
    by auto.
  cbn [bind]. eexists. split; [reflexivity |]. simpl.
  intros b Hbr. split; apply at_Ok; (split; [lia |]).
  - rewrite M1 by lia. rewrite Z2Nat.id by lia. reflexivity.
  - rewrite M2 by lia. rewrite Z2Nat.id by lia. reflexivity.
Qed.

End AssignMore.

(** ** Computations that return *)

Section Returns.

Lemma returns_inv {A : Type} (P : A -> Prop) (m : outcome A) :
  returns P m -> exists a, m = Ok a /\ P a.
Proof. destruct m; simpl; intros H; try contradiction. eauto. Qed.

Lemma returns_intro {A : Type} (P : A -> Prop) (m : outcome A) (a : A) :
  m = Ok a -> P a -> returns P m.
Proof. intros -> H. exact H. Qed.

Lemma returns_bind {A B : Type} (Q : B -> Prop) (m : outcome A)
    (k : A -> outcome B) :
  returns (fun a => returns Q (k a)) m -> returns Q (bind m k).
Proof. destruct m; simpl; auto. Qed.

Lemma returns_weaken {A : Type} (P Q : A -> Prop) (m : outcome A) :
  (forall a, P a -> Q a) -> returns P m -> returns Q m.
Proof. destruct m; simpl; auto. Qed.

Lemma returns_ensures {A : Type} (P : A -> Prop) (m : outcome A) :
  returns P m -> ensures P m.
Proof. destruct m; simpl; auto. Qed.

Lemma returns_at {A : Type} (v : list A) (i : Z) :
  0 <= i < size v ->
  returns (fun x => v !! Z.to_nat i = Some x) (at_ v i).
Proof.
  intros Hi. unfold size in Hi.
  destruct (lookup_lt_is_Some_2 v (Z.to_nat i)) as [x E]; [lia |].
  apply (returns_intro _ _ x); [| exact E].
  apply at_Ok. split; [lia | exact E].
Qed.

Lemma returns_put {A : Type} (v : list A) (i : Z) (x : A) :
  0 <= i < size v ->
  returns (fun v' => v' = <[Z.to_nat i := x]> v) (put v i x).
Proof. intros Hi. rewrite put_in_range by exact Hi. reflexivity. Qed.

(** A counted loop whose body returns and takes the invariant from one
    index to the next. *)
Lemma returns_for_count {S : Type} (P : Z -> S -> Prop)
    (body : Z -> S -> outcome S) :
  forall n i s,
    (forall j s, i <= j < i + Z.of_nat n -> P j s ->
       returns (P (j + 1)) (body j s)) ->
    P i s -> returns (P (i + Z.of_nat n)) (for_count n i body s).
Proof.
  induction n as [| n IH]; intros i s Hb Hs.
  - simpl. rewrite Z.add_0_r. exact Hs.
  - cbn [for_count]. apply returns_bind.
    eapply returns_weaken; [| apply Hb; [lia | exact Hs]].
    intros s' Hs'.
    replace (i + Z.of_nat (Datatypes.S n)) with (i + 1 + Z.of_nat n) by lia.
    apply IH; [| exact Hs'].
    intros j s0 Hj. apply Hb. lia.
Qed.

Lemma returns_for_range {S : Type} (P : Z -> S -> Prop)
    (body : Z -> S -> outcome S) (lo hi : Z) (s : S) :
  lo <= hi ->
  (forall j s, lo <= j < hi -> P j s -> returns (P (j + 1)) (body j s)) ->
  P lo s -> returns (P hi) (for_range lo hi body s).
Proof.
  intros Hle Hb Hs. unfold for_range.
  pose proof (returns_for_count P body (Z.to_nat (hi - lo)) lo s) as G.
  replace (lo + Z.of_nat (Z.to_nat (hi - lo))) with hi in G by lia.
  apply G; [| exact Hs].
  intros j s0 Hj. apply Hb. lia.
Qed.

End Returns.

(** ** Grid planning *)

Section PlanFacts.
Context {double : Type} {AR : Arith double} {CO : Collaborators double}.
Import GridFacts.

Lemma returns_mat_at (m : mat double) (i j : Z) :
  mat_wf m -> 0 <= i < n_rows m -> 0 <= j < n_cols m ->
  returns (fun _ => True) (mat_at m i j).
Proof.
  intros W Hi Hj. destruct (mat_at_wf m i j W Hi Hj) as [x ->]. exact I.
Qed.

Lemma size_insert {A : Type} (v : list A) (i : nat) (x : A) :
  size (<[i := x]> v) = size v.
Proof. unfold size. rewrite length_insert. reflexivity. Qed.


End PlanFacts.

(** ** The passes over the boxes *)

Lemma for_count_each {A S : Type} (g : A -> S -> outcome S) (l2 : list A) :
  forall (l1 : list A) (s : S),
    for_count (length l2) (Z.of_nat (length l1))
      (fun k s => let* x := at_ (l1 ++ l2) k in g x s) s
    = for_each g l2 s.
Proof.
  induction l2 as [| x l2 IH]; intros l1 s; [reflexivity |].
  cbn [length for_count for_each].
  rewrite (at_nat (l1 ++ x :: l2) (length l1) x)
    by (apply list_lookup_middle; reflexivity).
  cbn [bind]. destruct (g x s) as [s' | |]; cbn [bind]; try reflexivity.
  specialize (IH (l1 ++ [x]) s'). rewrite <- app_assoc in IH.
  rewrite length_app in IH. cbn [length app] in IH.
  replace (Z.of_nat (length l1) + 1) with (Z.of_nat (length l1 + 1)) by lia.
  exact IH.
Qed.

(** A loop over the positions of a vector is a loop over its
    elements. *)
Lemma for_range_each {A S : Type} (g : A -> S -> outcome S) (l : list A)
    (s : S) :
  for_range 0 (size l) (fun k s => let* x := at_ l k in g x s) s
  = for_each g l s.
Proof.
  unfold size. rewrite for_range_nat. apply (for_count_each g l []).
Qed.

(** Steps through one binding of a primitive operation. *)
Ltac ens_step := apply ensures_then; [solve [ens_prim] | intros ?].

Section PassFacts.
Context {double : Type} {AR : Arith double} {CO : Collaborators double}.

Lemma same_but_densities_refl (this : FGTKde) : same_but_densities this this.
Proof. unfold same_but_densities. auto 10. Qed.

Lemma same_but_densities_trans (a b c : FGTKde) :
  same_but_densities a b -> same_but_densities b c ->
  same_but_densities a c.
Proof.
  unfold same_but_densities.
  intros (A1 & A2 & A3 & A4 & A5 & A6) (B1 & B2 & B3 & B4 & B5 & B6).
  repeat split; congruence.
Qed.

Lemma set_densities_same (this : FGTKde) (v : vec double) :
  size v = size (densities_ this) ->
  same_but_densities this (set_densities this v).
Proof. intros L. unfold same_but_densities. simpl. auto 10. Qed.

Lemma set_densities_id (this : FGTKde) :
  set_densities this (densities_ this) = this.
Proof. destruct this. reflexivity. Qed.

Lemma densities_add_value (this : FGTKde) (q : nat) (d x : double) :
  densities_ this !! q = Some d ->
  densities_add this (Z.of_nat q) x
  = Ok (set_densities this (<[q := add d x]> (densities_ this))).
Proof.
  intros E. unfold densities_add. rewrite (at_nat _ _ _ E). cbn [bind].
  rewrite put_nat by (eapply lookup_lt_Some; eauto). reflexivity.
Qed.

Lemma ensures_densities_add (this0 this : FGTKde) (q : Z) (x : double) :
  same_but_densities this0 this ->
  ensures (same_but_densities this0) (densities_add this q x).
Proof.
  intros H0. unfold densities_add.
  apply ensures_then; [ens_prim |]. intros a.
  apply ensures_bind.
  eapply ensures_weaken; [| apply ensures_put_size].
  intros v Lv. simpl.
  apply (same_but_densities_trans _ this); [exact H0 |].
  apply set_densities_same. exact Lv.
Qed.

(** *** The direct interaction *)

(** The loop over the references of one query of the direct
    interaction. *)
Lemma direct_references (delta : double) (query : vec double) (q : nat)
    (reference_rows : list Z) (references : list (vec double)) :
  forall (this : FGTKde) (d : double),
    Forall2 (fun r c => col (rset_ this) r = Ok c) reference_rows
      references ->
    densities_ this !! q = Some d ->
    for_each (fun reference_row this =>
      let* reference := col (rset_ this) reference_row in
      densities_add this (Z.of_nat q)
        (exp (div (neg (DistanceSqEuclidean query reference)) delta)))
      reference_rows this
    = Ok (set_densities this
            (<[q := kernel_sum delta query references d]>
               (densities_ this))).
Proof.
  revert references.
  induction reference_rows as [| r rows IH];
    intros references this d F E; inversion F as [| ? c ? refs Hc F']; subst.
  - cbn [for_each kernel_sum fold_left].
    rewrite list_insert_id by exact E. rewrite set_densities_id.
    reflexivity.
  - cbn [for_each]. rewrite Hc. cbn [bind].
    rewrite (densities_add_value _ _ _ _ E). cbn [bind].
    rewrite (IH refs _
               (add d (exp (div (neg (DistanceSqEuclidean query c)) delta)))).
    + cbn [set_densities densities_ qset_ rset_ kernel_ tau_ msea_].
      rewrite list_insert_insert_eq. reflexivity.
    + exact F'.
    + cbn [set_densities densities_].
      apply list_lookup_insert_eq. eapply lookup_lt_Some; eauto.
Qed.

(** The loop over the queries of the direct interaction, on the object
    [this] with the densities [dens]. *)
Lemma direct_queries (this : FGTKde) (delta : double)
    (reference_rows : list Z) (references : list (vec double)) :
  Forall2 (fun r c => col (rset_ this) r = Ok c) reference_rows references ->
  forall (query_rows : list Z) (dens : vec double),
    List.NoDup query_rows ->
    Forall (fun q => 0 <= q < n_cols (qset_ this) /\ q < size dens)
      query_rows ->
    exists dens',
      for_each (fun query_row this =>
        let* query := col (qset_ this) query_row in
        for_each (fun reference_row this =>
          let* reference := col (rset_ this) reference_row in
          densities_add this query_row
            (exp (div (neg (DistanceSqEuclidean query reference)) delta)))
          reference_rows this) query_rows (set_densities this dens)
      = Ok (set_densities this dens') /\
      length dens' = length dens /\
      (forall q query d, In q query_rows ->
         col (qset_ this) q = Ok query ->
         dens !! Z.to_nat q = Some d ->
         dens' !! Z.to_nat q
         = Some (kernel_sum delta query references d)) /\
      (forall i, (forall q, In q query_rows -> Z.to_nat q <> i) ->
         dens' !! i = dens !! i).
Proof.
  intros F. induction query_rows as [| q rows IH]; intros dens N Hq.
  - exists dens. split; [reflexivity |]. split; [reflexivity |].
    split; [intros q query d [] | reflexivity].
  - inversion N as [| ? ? Nq N']; subst.
    inversion Hq as [| ? ? [Hq1 Hq2] Hq']; subst.
    cbn [for_each set_densities qset_].
    destruct (at_in_range (columns (qset_ this)) q) as [query Eq];
      [exact Hq1 |].
    unfold col at 1. rewrite Eq. cbn [bind].
    unfold size in Hq2.
    destruct (lookup_lt_is_Some_2 dens (Z.to_nat q)) as [d Ed]; [lia |].
    pose proof (direct_references delta query (Z.to_nat q) reference_rows
                  references (set_densities this dens) d F Ed) as E1.
    rewrite Z2Nat.id in E1 by lia.
    fold (set_densities this dens). rewrite E1. cbn [bind].
    cbn [set_densities densities_ qset_ rset_ kernel_ tau_ msea_].
    fold (set_densities this
            (<[Z.to_nat q := kernel_sum delta query references d]> dens)).
    destruct (IH (<[Z.to_nat q := kernel_sum delta query references d]> dens)
                N') as (dens' & E2 & L2 & V2 & U2).
    { eapply Forall_impl; [exact Hq' |]. intros q' [H1 H2].
      rewrite size_insert. auto. }
    exists dens'. split; [exact E2 |].
    split; [rewrite L2; apply length_insert |]. split.
    + intros q' query' d' [<- | Hin] Ec Ed'.
      * rewrite U2.
        -- unfold col in Ec. rewrite Eq in Ec. injection Ec as <-.
           pose proof (eq_trans (eq_sym Ed) Ed') as Edd.
           injection Edd as <-.
           apply list_lookup_insert_eq. lia.
        -- intros q'' Hin'' Heq. apply Nq.
           pose proof (proj1 (List.Forall_forall _ _) Hq' _ Hin'') as [H1 _].
           assert (q'' = q) by lia. subst. exact Hin''.
      * apply (V2 q' query' d' Hin Ec).
        rewrite list_lookup_insert_ne; [exact Ed' |].
        intros Heq. apply Nq.
        pose proof (proj1 (List.Forall_forall _ _) Hq' _ Hin) as [H1 _].
        assert (q' = q) by lia. subst. exact Hin.
    + intros i Hi. rewrite U2 by (intros q' Hin; apply Hi; right; exact Hin).
      apply list_lookup_insert_ne. apply Hi. left. reflexivity.
Qed.

Lemma direct_interaction_adds (this : FGTKde) (delta : double)
    (query_rows reference_rows : list Z) (references : list (vec double)) :
  List.NoDup query_rows ->
  Forall (fun q => 0 <= q < n_cols (qset_ this) /\
                   q < size (densities_ this)) query_rows ->
  Forall2 (fun r c => col (rset_ this) r = Ok c) reference_rows references ->
  exists this',
    direct_interaction this delta query_rows reference_rows = Ok this' /\
    same_but_densities this this' /\
    (forall q query d, In q query_rows ->
       col (qset_ this) q = Ok query ->
       at_ (densities_ this) q = Ok d ->
       at_ (densities_ this') q
       = Ok (kernel_sum delta query references d)) /\
    (forall q, ~ In q query_rows ->
       at_ (densities_ this') q = at_ (densities_ this) q).
Proof.
  intros N Hq F. unfold direct_interaction.
  rewrite (for_range_each
             (fun query_row this0 =>
                let* query := col (qset_ this0) query_row in
                for_range 0 (size reference_rows) (fun l this1 =>
                  let* reference_row := at_ reference_rows l in
                  let* reference := col (rset_ this1) reference_row in
                  densities_add this1 query_row
                    (exp (div (neg (DistanceSqEuclidean query reference))
                            delta))) this0)).
  destruct (direct_queries this delta reference_rows references F
              query_rows (densities_ this) N Hq)
    as (dens' & E & L & V & U).
  rewrite set_densities_id in E.
  assert (E' : for_each (fun query_row this0 =>
                let* query := col (qset_ this0) query_row in
                for_range 0 (size reference_rows) (fun l this1 =>
                  let* reference_row := at_ reference_rows l in
                  let* reference := col (rset_ this1) reference_row in
                  densities_add this1 query_row
                    (exp (div (neg (DistanceSqEuclidean query reference))
                            delta))) this0) query_rows this
               = Ok (set_densities this dens')).
  { rewrite <- E. clear. revert this.
    induction query_rows as [| q rows IH]; intros this; [reflexivity |].
    cbn [for_each].
    destruct (col (qset_ this) q) as [query | |]; cbn [bind];
      try reflexivity.
    rewrite (for_range_each
               (fun reference_row this1 =>
                  let* reference := col (rset_ this1) reference_row in
                  densities_add this1 q
                    (exp (div (neg (DistanceSqEuclidean query reference))
                            delta)))).
    match goal with
    | |- bind ?m _ = bind ?m _ => destruct m as [this2 | |]
    end; cbn [bind]; try reflexivity.
    apply IH. }
  rewrite E'. exists (set_densities this dens').
  split; [reflexivity |]. split.
  { apply set_densities_same. unfold size. rewrite L. reflexivity. }
  cbn [set_densities densities_]. split.
  - intros q query d Hin Ec Ed. apply at_Ok in Ed as [H0 Ed].
    apply at_Ok. split; [exact H0 |]. apply (V q query d Hin Ec Ed).
  - intros q Hin. unfold at_. destruct (q <? 0) eqn:Hneg; [reflexivity |].
    rewrite U; [reflexivity |].
    intros q' Hin' Heq. apply Hin.
    pose proof (proj1 (List.Forall_forall _ _) Hq _ Hin') as [H1 _].
    apply Z.ltb_ge in Hneg. assert (q' = q) by lia. subst. exact Hin'.
Qed.

(** The direct interaction of [FinalizeSum_] (the loop that ends in
    [densities_[query_row] += pot]).  For query rows without
    repetition that are columns of the query set with a density, and
    reference rows that are columns of the reference set, it returns;
    the density of every listed query has grown by the Gaussian terms
    [exp(-|q - r|^2 / delta)] of the listed references, added one after
    the other in the order of the list; nothing else of the object has
    changed. *)
Theorem direct_interaction_sums (this : FGTKde) (delta : double)
    (query_rows reference_rows : list Z) (references : list (vec double)) :
  List.NoDup query_rows ->
  Forall (fun q => 0 <= q < n_cols (qset_ this) /\
                   q < size (densities_ this)) query_rows ->
  Forall2 (fun r c => col (rset_ this) r = Ok c) reference_rows references ->
  exists this',
    direct_interaction this delta query_rows reference_rows = Ok this' /\
    same_but_densities this this' /\
    (forall q query d, In q query_rows ->
       col (qset_ this) q = Ok query ->
       at_ (densities_ this) q = Ok d ->
       at_ (densities_ this') q
       = Ok (kernel_sum delta query references d)) /\
    (forall q, ~ In q query_rows ->
       at_ (densities_ this') q = at_ (densities_ this) q).
Proof.
  intros. eapply direct_interaction_adds; eassumption.
Qed.

(** *** What the passes leave alone *)

Lemma direct_interaction_frame (this0 this : FGTKde) (delta : double)
    (query_rows reference_rows : list Z) :
  same_but_densities this0 this ->
  ensures (same_but_densities this0)
    (direct_interaction this delta query_rows reference_rows).
Proof.
  intros H0. unfold direct_interaction.
  apply (ensures_for_range (same_but_densities this0)); [| exact H0].
  intros k this1 H1. do 2 ens_step.
  apply (ensures_for_range (same_but_densities this0)); [| exact H1].
  intros l this2 H2. do 2 ens_step.
  apply ensures_densities_add. exact H2.
Qed.

Lemma EvaluateMultipoleExpansion_frame (this0 this : FGTKde)
    (rows : list Z) (p_alpha totalnumcoeffs : Z) (mcoeffsb : mat double)
    (ref_box_num : Z) (bwsqd_times_2 : double)
    (ref_hrcentroid : vec double) :
  same_but_densities this0 this ->
  ensures (same_but_densities this0)
    (EvaluateMultipoleExpansion_ this rows p_alpha totalnumcoeffs mcoeffsb
       ref_box_num bwsqd_times_2 ref_hrcentroid).
Proof.
  intros H0. unfold EvaluateMultipoleExpansion_. ens_values.
  set (P := fun f : evaluation_frame => same_but_densities this0 (ef_this f)).
  apply ensures_bind. apply (ensures_weaken P); [intros f Hf; exact Hf |].
  apply (ensures_for_range P); [| exact H0].
  intros r f Hf. ens_values.
  apply ensures_then; [ens_true |]. intros x_q_minus_x_R.
  apply ensures_then.
  { apply ensures_for_range_true. intros d hm. ens_step.
    apply ensures_hermite_row. }
  intros hermite_map. ens_step.
  apply ensures_then.
  { rewrite Z.gtb_ltb. destruct (Z.ltb_spec 1 p_alpha) as [Hp | Hp].
    - apply ensures_hermite_sweep. exact Hp.
    - apply ensures_hermite_order0. }
  intros arrtmp.
  apply ensures_then; [ens_true |]. intros multipolesum.
  apply ensures_bind.
  eapply ensures_weaken; [| apply ensures_densities_add; exact Hf].
  intros this1 H1. exact H1.
Qed.

Lemma while_done {S : Type} (fuel : nat) (cond : S -> bool)
    (body : S -> outcome S) (s : S) :
  cond s = false -> while_ fuel cond body s = Ok s.
Proof. intros C. destruct fuel; simpl; rewrite C; reflexivity. Qed.

(** The sweep over the powers ends whenever the order is not 1 and
    there is more than one coefficient. *)
Lemma ensures_power_sweep_guarded (totalnumcoeffs p_alpha : Z)
    (x tmp : vec double) :
  1 < totalnumcoeffs -> p_alpha <> 1 ->
  ensures (fun _ => True) (power_sweep totalnumcoeffs p_alpha x tmp).
Proof.
  intros Ht Hp. destruct (Z.lt_trichotomy p_alpha 0) as [Hn | [-> | Hpos]].
  - unfold power_sweep, idiv. destruct (Z.eqb_spec p_alpha 0); [lia |].
    cbn [bind]. unfold for_strides.
    rewrite while_done; [exact I |].
    apply Z.leb_gt.
    assert (Z.quot totalnumcoeffs p_alpha <= 0); [| lia].
    rewrite <- (Z.opp_involutive p_alpha), Z.quot_opp_r by lia.
    pose proof (Z.quot_pos totalnumcoeffs (- p_alpha)). lia.
  - exact I.
  - apply ensures_power_sweep. lia.
Qed.

Lemma EvaluateLocalExpansion_ends (this : FGTKde) (row_q : Z)
    (x_Q : vec double) (h : double) (query_box_num : Z)
    (lcoeffsb : mat double) (totalnumcoeffs p_alpha : Z) :
  (1 < totalnumcoeffs -> p_alpha <> 1) ->
  ensures (fun _ => True)
    (EvaluateLocalExpansion_ this row_q x_Q h query_box_num lcoeffsb
       totalnumcoeffs p_alpha).
Proof.
  intros Hp. unfold EvaluateLocalExpansion_.
  apply ensures_then; [ens_true |]. intros x_Q_to_x_q. ens_values.
  apply ensures_then.
  { rewrite Z.gtb_ltb. destruct (Z.ltb_spec 1 totalnumcoeffs) as [Ht | Ht].
    - apply ensures_power_sweep_guarded; auto.
    - exact I. }
  intros tmp. ens_true.
Qed.

Lemma EvaluateLocalExpansionForAllQueries_frame (this0 this : FGTKde)
    (delta : double) (nterms nallbx : Z) (nsides : list Z)
    (locexp : mat double) (nlmax : Z) (queries_assigned : list (list Z))
    (center : mat double) (totalnumcoeffs : Z) :
  (1 < totalnumcoeffs -> nterms <> 1) ->
  same_but_densities this0 this ->
  ensures (same_but_densities this0)
    (EvaluateLocalExpansionForAllQueries_ this delta nterms nallbx nsides
       locexp nlmax queries_assigned center totalnumcoeffs).
Proof.
  intros Hp H0. unfold EvaluateLocalExpansionForAllQueries_.
  apply (ensures_for_range (same_but_densities this0)); [| exact H0].
  intros i this1 H1. ens_values.
  destruct (size a <=? nlmax); [exact H1 |].
  apply (ensures_for_range (same_but_densities this0)); [| exact H1].
  intros j this2 H2. do 2 ens_step.
  apply ensures_then; [apply EvaluateLocalExpansion_ends; exact Hp |].
  intros result. apply ensures_densities_add. exact H2.
Qed.

Lemma ipow_1_l (b : Z) : ipow 1 b = 1.
Proof.
  unfold ipow. destruct (Z.ltb_spec b 0); [reflexivity |].
  apply Z.pow_1_l. lia.
Qed.

(** The main pass keeps the three matrices and, of the object, all but
    the values of the densities. *)
Lemma FinalizeSum_invariant (this : FGTKde) (delta : double)
    (nterms nallbx : Z) (nsides : list Z)
    (sidelengths mincoords : vec double) (locexp : mat double)
    (nfmax nlmax kdis : Z) (center : mat double)
    (queries_assigned references_assigned : list (list Z))
    (mcoeffs : mat double) :
  ensures (fun s => ss_locexp s = locexp /\ ss_mcoeffs s = mcoeffs /\
                    ss_center s = center /\
                    same_but_densities this (ss_this s))
    (FinalizeSum_ this delta nterms nallbx nsides sidelengths mincoords
       locexp nfmax nlmax kdis center queries_assigned references_assigned
       mcoeffs).
Proof.
  unfold FinalizeSum_.
  set (P := fun s : sum_state =>
              ss_locexp s = locexp /\ ss_mcoeffs s = mcoeffs /\
              ss_center s = center /\ same_but_densities this (ss_this s)).
  apply ensures_bind.
  eapply ensures_weaken; [| apply Assign_center_frame].
  intros a Ha. cbv beta.
  apply ensures_bind. apply (ensures_weaken P).
  { intros s (H1 & H2 & H3 & H4). apply ensures_bind.
    eapply ensures_weaken;
      [| apply (EvaluateLocalExpansionForAllQueries_frame this);
         [| exact H4]].
    - intros this' H'. unfold P. cbn. auto.
    - intros Ht Hn. rewrite Hn, ipow_1_l in Ht. lia. }
  apply (ensures_for_range P).
  2:{ unfold P. cbn. repeat split; assumption. }
  intros i s Hs. ens_step.
  destruct (size a0 <=? 0); [exact Hs |].
  destruct (size a0 <=? nfmax).
  - rewrite GridFacts.MakeNeighbors_always_box0. cbn [bind].
    apply (ensures_for_range P); [| exact Hs].
    intros j s1 (H1 & H2 & H3 & H4). do 2 ens_step.
    destruct (size a2 <=? nlmax).
    + apply ensures_bind.
      eapply ensures_weaken; [| apply direct_interaction_frame; exact H4].
      intros this' H'. unfold P. cbn. auto.
    + ens_step. apply ensures_bind.
      eapply ensures_weaken; [| apply DirectLocalAccumulation_frame].
      intros f Hf. unfold P. cbn. rewrite Hf. auto.
  - ens_step. apply ensures_bind.
    eapply ensures_weaken; [| apply ComputeMultipoleCoeffs_frame].
    intros f Hf. cbv beta.
    rewrite GridFacts.MakeNeighbors_always_box0. cbn [bind].
    destruct Hs as (H1 & H2 & H3 & H4).
    apply (ensures_for_range P); [| unfold P; cbn; rewrite Hf; auto].
    intros j s1 (G1 & G2 & G3 & G4). do 2 ens_step.
    destruct (size a3 <=? nlmax).
    + ens_step. apply ensures_bind.
      eapply ensures_weaken;
        [| apply EvaluateMultipoleExpansion_frame; exact G4].
      intros this' H'. unfold P. cbn. auto.
    + do 2 ens_step. apply ensures_bind.
      eapply ensures_weaken; [| apply TranslateMultipoleToLocal_frame].
      intros f' [Hm Hl]. unfold P. cbn. rewrite Hm, Hl. auto.
Qed.

(** [FinalizeSum_] never changes the coefficient matrices or the box
    centers: for every call, none of its passes spins, and whenever it
    returns, [locexp], [mcoeffs] and [center] are what they were at the
    call.  Every routine that was to fill them works on a copy of a
    column, so that the far-field and local moments stay as [Compute]
    zeroed them and the centers stay as they were allocated. *)
Theorem FinalizeSum_keeps_matrices (this : FGTKde) (delta : double)
    (nterms nallbx : Z) (nsides : list Z)
    (sidelengths mincoords : vec double) (locexp : mat double)
    (nfmax nlmax kdis : Z) (center : mat double)
    (queries_assigned references_assigned : list (list Z))
    (mcoeffs : mat double) :
  ensures (fun s => ss_locexp s = locexp /\ ss_mcoeffs s = mcoeffs /\
                    ss_center s = center)
    (FinalizeSum_ this delta nterms nallbx nsides sidelengths mincoords
       locexp nfmax nlmax kdis center queries_assigned references_assigned
       mcoeffs).
Proof.
  eapply ensures_weaken; [| apply FinalizeSum_invariant].
  intros s (H1 & H2 & H3 & _). auto.
Qed.

(** [GaussTransform_], and with it [FinalizeSum_], changes nothing of
    the object but the values of the densities: the two data sets, the
    kernel, the tolerance, the table of the series expansion and the
    number of densities are after the call what they were before. *)
Theorem GaussTransform_changes_densities_only (this : FGTKde)
    (delta : double) (nterms nallbx : Z) (nsides : list Z)
    (sidelengths mincoords : vec double) (locexp center : mat double)
    (queries_assigned references_assigned : list (list Z))
    (mcoeffs : mat double) :
  ensures (fun s => same_but_densities this (ss_this s))
    (GaussTransform_ this delta nterms nallbx nsides sidelengths mincoords
       locexp center queries_assigned references_assigned mcoeffs).
Proof.
  unfold GaussTransform_.
  eapply ensures_weaken; [| apply FinalizeSum_invariant].
  intros s (_ & _ & _ & H). exact H.
Qed.

End PassFacts.

(** ** The driver *)

Section DriverMore.
Context {double : Type} {AR : Arith double} {CO : Collaborators double}.

(** Without rows in the reference set the grid is one box and [nsides]
    is not written. *)
Lemma FastGaussTransformPreprocess_no_rows (this : FGTKde) (fuel : nat)
    (nsides : list Z) (sidelengths mincoords : vec double)
    (plan : grid_plan) :
  n_rows (rset_ this) <= 0 ->
  FastGaussTransformPreprocess_ this fuel nsides sidelengths mincoords
  = Ok plan ->
  gp_nboxes plan = 1 /\ gp_nsides plan = nsides.
Proof.
  intros Hd. unfold FastGaussTransformPreprocess_, for_range.
  replace (Z.to_nat (n_rows (rset_ this) - 0)) with 0%nat by lia.
  cbn [for_count bind].
  rewrite for_count_fixed by (intros j; reflexivity). cbn [bind].
  intros E. apply bind_Ok_inv in E as (nterms & _ & E).
  injection E as <-. split; reflexivity.
Qed.

(** Box lists of size 0 stay of size 0: an assignment loop that has a
    point to assign does not return. *)
Lemma assign_loop_reserved (pts : mat double) (dim : Z) (nsides : list Z)
    (sidelengths mincoords : vec double) (n : Z) (boxes : list (list Z)) :
  for_range 0 n (fun r boxes =>
    let* boxnum := boxnum_of pts dim nsides sidelengths mincoords r in
    let* box := at_ boxes boxnum in
    put boxes boxnum (push_back box r)) [] = Ok boxes ->
  boxes = [].
Proof.
  apply (for_range_invariant (fun b => b = [])); [| reflexivity].
  intros i s s' -> E.
  apply bind_Ok_inv in E as (b & _ & E).
  apply bind_Ok_inv in E as (box & E & _).
  apply at_Ok in E as [_ E]. rewrite lookup_nil in E. discriminate.
Qed.

Context {NC : NormConstant double}.

Lemma Compute_not_Ok (this : FGTKde) (fuel : nat) (this' : FGTKde) :
  Compute this fuel <> Ok this'.
Proof.
  destruct (Z.le_gt_cases 1 (n_rows (rset_ this))) as [Hd | Hd].
  { rewrite Compute_unsized by exact Hd. discriminate. }
  intros E. unfold Compute, reserve in E.
  apply bind_Ok_inv in E as (plan & Ep & E).
  apply FastGaussTransformPreprocess_no_rows in Ep as [Hb Hn];
    [| cbn; lia].
  apply bind_Ok_inv in E as (s & E & _).
  unfold GaussTransform_, FinalizeSum_ in E.
  apply bind_Ok_inv in E as (a & Ea & E).
  assert (Hr : as_references a = []).
  { unfold Assign_ in Ea.
    apply bind_Ok_inv in Ea as (refs & E1 & Ea).
    apply assign_loop_reserved in E1. subst refs.
    apply bind_Ok_inv in Ea as (qrys & _ & Ea).
    apply bind_Ok_inv in Ea as (c & _ & Ea).
    injection Ea as <-. reflexivity. }
  apply bind_Ok_inv in E as (s1 & E & _).
  rewrite Hb in E. unfold for_range in E.
  change (Z.to_nat (1 - 0)) with 1%nat in E. cbn [for_count] in E.
  apply bind_Ok_inv in E as (s2 & E & _).
  apply bind_Ok_inv in E as (rows & E & _).
  cbn [ss_references_assigned] in E. rewrite Hr in E.
  discriminate.
Qed.

(** [Compute] returns for no object and no budget: either it indexes a
    vector outside its size or, before that, the truncation-order
    search is still running when the budget is used up.  Its vectors
    [nsides], [queries_assigned] and [references_assigned] are
    reserved, not resized: with a reference set of at least one row the
    grid planning writes [nsides[0]]; otherwise the grid is one box,
    and the main pass reads [references_assigned[0]] (when the
    assignment before it has not already indexed one of the two empty
    vectors). *)
Theorem Compute_never_returns (this : FGTKde) (fuel : nat) :
  Compute this fuel = Undefined \/ Compute this fuel = Spins.
Proof.
  pose proof (Compute_not_Ok this fuel) as N.
  destruct (Compute this fuel) as [this' | |]; auto.
  exfalso. apply (N this'). reflexivity.
Qed.

End DriverMore.

(** ** The further properties on concrete data *)

Module RealMore.
Import RealModel RealFacts.

Lemma boxnum_of_encodes_bins_witness :
  let bins := clamped_bins [1] [(/ 64)%R] [0%R] [(/ 64)%R] in
  boxnum_of (rset_ four_queries) 1 [1] [(/ 64)%R] [0%R] 1
  = Ok (mixed_radix bins [1]) /\
  Grid.MultiDimIndexInSingleArray_ bins [1] = Ok (mixed_radix bins [1]) /\
  (Forall (fun m => 1 <= m) [1] -> on_grid bins [1]).
Proof.
  apply (boxnum_of_encodes_bins (rset_ four_queries) 1 [1] [(/ 64)%R]
           [0%R] [(/ 64)%R] 1); reflexivity.
Defined.

Lemma Assign_box_lists_witness :
  exists a,
    Assign_ four_queries 1 [1] [(/ 64)%R] [0%R] zero_1x1 [[]] [[]] = Ok a /\
    forall b, 0 <= b < 1 ->
      at_ (as_references a) b
      = Ok (box_members (rset_ four_queries) 1 [1] [(/ 64)%R] [0%R] b) /\
      at_ (as_queries a) b
      = Ok (box_members (qset_ four_queries) 1 [1] [(/ 64)%R] [0%R] b).
Proof.
  apply (Assign_box_lists four_queries 1 [1] [(/ 64)%R] [0%R] zero_1x1
           [[]] [[]]);
    try reflexivity;
    try (repeat constructor; fail).
  repeat constructor. lia.
Defined.


Lemma direct_interaction_sums_witness :
  exists this',
    direct_interaction four_queries (/ 8)%R [0; 1; 2; 3] [0; 1] = Ok this' /\
    same_but_densities four_queries this' /\
    (forall q query d, In q [0; 1; 2; 3] ->
       col (qset_ four_queries) q = Ok query ->
       at_ (densities_ four_queries) q = Ok d ->
       at_ (densities_ this') q
       = Ok (kernel_sum (/ 8)%R query [[0%R]; [(/ 64)%R]] d)) /\
    (forall q, ~ In q [0; 1; 2; 3] ->
       at_ (densities_ this') q = at_ (densities_ four_queries) q).
Proof.
  apply (direct_interaction_sums four_queries (/ 8)%R [0; 1; 2; 3] [0; 1]
           [[0%R]; [(/ 64)%R]]).
  - repeat constructor; simpl; intuition discriminate.
  - repeat constructor; cbn; lia.
  - repeat constructor.
Defined.

(** *** The grid and the reference points *)

Lemma R_to_index_ge_1 (t : R) : (1 <= t)%R -> 1 <= R_to_index t.
Proof.
  intros Ht. unfold R_to_index.
  destruct (Rle_dec 0 t) as [_ | N]; [| exfalso; apply N; lra].
  destruct (base_Int_part t) as [_ B].
  assert (0 < IZR (Int_part t))%R by lra.
  apply lt_IZR in H. lia.
Qed.

Lemma encloses_step (pts : mat R) (mn mx : vec R) (di : nat)
    (lo hi x : R) (d n' : nat) :
  mn !! di = Some lo -> mx !! di = Some hi ->
  encloses pts mn mx d n' ->
  encloses pts
    (if R_lt x lo then <[di := x]> mn else mn)
    (if R_lt hi x then <[di := x]> mx else mx) d n'.
Proof.
  intros Elo Ehi Henc c x' lo' hi' Ec Ex' Elo' Ehi'.
  destruct (Nat.eq_dec d di) as [-> | Ne].
  - assert (Hlo' : (lo' <= lo)%R).
    { unfold R_lt in Elo'. destruct (Rlt_dec x lo).
      - rewrite list_lookup_insert_eq in Elo'
          by (eapply lookup_lt_Some; eauto).
        injection Elo' as <-. lra.
      - rewrite Elo in Elo'. injection Elo' as <-. lra. }
    assert (Hhi' : (hi <= hi')%R).
    { unfold R_lt in Ehi'. destruct (Rlt_dec hi x).
      - rewrite list_lookup_insert_eq in Ehi'
          by (eapply lookup_lt_Some; eauto).
        injection Ehi' as <-. lra.
      - rewrite Ehi in Ehi'. injection Ehi' as <-. lra. }
    pose proof (Henc c x' lo hi Ec Ex' Elo Ehi). lra.
  - apply (Henc c x' lo' hi' Ec Ex').
    + destruct (R_lt x lo); [| exact Elo'].
      rewrite list_lookup_insert_ne in Elo' by auto. exact Elo'.
    + destruct (R_lt hi x); [| exact Ehi'].
      rewrite list_lookup_insert_ne in Ehi' by auto. exact Ehi'.
Qed.

Lemma encloses_new (pts : mat R) (mn mx : vec R) (di n : nat)
    (lo hi x : R) :
  mn !! di = Some lo -> mx !! di = Some hi ->
  (forall c, columns pts !! n = Some c -> c !! di = Some x) ->
  encloses pts
    (if R_lt x lo then <[di := x]> mn else mn)
    (if R_lt hi x then <[di := x]> mx else mx) di n.
Proof.
  intros Elo Ehi Hx c x' lo' hi' Ec Ex' Elo' Ehi'.
  rewrite (Hx c Ec) in Ex'. injection Ex' as <-.
  split.
  - unfold R_lt in Elo'. destruct (Rlt_dec x lo).
    + rewrite list_lookup_insert_eq in Elo'
        by (eapply lookup_lt_Some; eauto).
      injection Elo' as <-. lra.
    + rewrite Elo in Elo'. injection Elo' as <-. lra.
  - unfold R_lt in Ehi'. destruct (Rlt_dec hi x).
    + rewrite list_lookup_insert_eq in Ehi'
        by (eapply lookup_lt_Some; eauto).
      injection Ehi' as <-. lra.
    + rewrite Ehi in Ehi'. injection Ehi' as <-. lra.
Qed.

Lemma R_to_index_twice_le (t : R) (M : Z) :
  (0 <= t)%R -> (t * 2 < IZR (M + 1))%R -> R_to_index t * 2 <= M.
Proof.
  intros H0 Ht. unfold R_to_index.
  destruct (Rle_dec 0 t) as [_ | N]; [| exfalso; apply N; lra].
  destruct (base_Int_part t) as [B _].
  assert (IZR (Int_part t * 2) < IZR (M + 1))%R
    by (rewrite mult_IZR; lra).
  apply lt_IZR in H. lia.
Qed.

Lemma attained_step (pts : mat R) (v : vec R) (init : R) (di d n : nat)
    (c : vec R) (x : R) (cond : bool) :
  columns pts !! n = Some c -> c !! di = Some x ->
  attained pts v init d ->
  attained pts (if cond then <[di := x]> v else v) init d.
Proof.
  intros Ec Ex Ha. destruct cond; [| exact Ha].
  intros b Eb. destruct (Nat.eq_dec d di) as [-> | Ne].
  - pose proof (lookup_lt_Some _ _ _ Eb) as Hlt.
    rewrite length_insert in Hlt.
    rewrite list_lookup_insert_eq in Eb by exact Hlt.
    injection Eb as <-. right. exists n, c. auto.
  - rewrite list_lookup_insert_ne in Eb by auto. apply Ha. exact Eb.
Qed.


Lemma four_queries_references (d n : Z) (x : R) :
  mat_at (rset_ four_queries) d n = Ok x -> (x = 0 \/ x = / 64)%R.
Proof.
  intros E. unfold mat_at in E.
  apply bind_Ok_inv in E as (c & Ec & Ex).
  apply at_Ok in Ec as [_ Ec]. apply at_Ok in Ex as [_ Ex].
  cbn [four_queries rset_ columns] in Ec.
  destruct (Z.to_nat n) as [| [| k]]; cbn in Ec; try discriminate;
    injection Ec as <-;
    (destruct (Z.to_nat d) as [| k']; cbn in Ex; [| discriminate]);
    injection Ex as <-; auto.
Qed.


End RealMore.

(** ** The sweeps of the series expansions *)

Lemma returns_while {S : Type} (I : S -> Prop) (mu : S -> Z)
    (cond : S -> bool) (body : S -> outcome S) :
  (forall s, I s -> cond s = true ->
     0 < mu s /\ returns (fun s' => I s' /\ mu s' < mu s) (body s)) ->
  forall fuel s, I s -> mu s <= Z.of_nat fuel ->
    returns (fun s' => I s' /\ cond s' = false) (while_ fuel cond body s).
Proof.
  intros Hb. induction fuel as [| fuel IH]; intros s Hs Hm; simpl;
    destruct (cond s) eqn:C; simpl; auto.
  - destruct (Hb s Hs C) as [Hpos _]. lia.
  - destruct (Hb s Hs C) as [Hpos Hbody].
    apply returns_bind. eapply returns_weaken; [| exact Hbody].
    intros s' [Hs' Hlt]. apply IH; [exact Hs' | lia].
Qed.

Section SweepValues.
Context {double : Type} {AR : Arith double}.

(** One block of one pass of the sweep over the powers: the entries at
    [base + k * st] become the products of [tmp[base]] with the powers
    of [xj]. *)
Lemma power_block (x : vec double) (j : Z) (xj : double)
    (st p q base : nat) (tmp0 : vec double) (v : double) :
  q = (p * st)%nat ->
  at_ x j = Ok xj -> (1 <= st)%nat -> (1 <= p)%nat ->
  (base + q <= length tmp0)%nat ->
  tmp0 !! base = Some v ->
  returns (fun '(i', tmp') =>
             i' = Z.of_nat (base + q) /\
             length tmp' = length tmp0 /\
             (forall k, (k < p)%nat ->
                tmp' !! (base + k * st)%nat
                = Some (Nat.iter k (fun t => mul t xj) v)) /\
             (forall idx,
                (forall k, (1 <= k < p)%nat -> idx <> (base + k * st)%nat) ->
                tmp' !! idx = tmp0 !! idx))
    (for_step (Z.of_nat (base + q)) (Z.of_nat st)
       (fun i tmp =>
          let* t := at_ tmp (i - Z.of_nat st) in
          let* xj := at_ x j in
          put tmp i (mul t xj))
       (Z.of_nat (base + st)) tmp0).
Proof.
  intros -> Ex Hst Hp Hlen Ev. unfold for_step.
  set (I := fun '(i, tmp) =>
    exists k, (1 <= k <= p)%nat /\ i = Z.of_nat (base + k * st) /\
      length tmp = length tmp0 /\
      (forall k', (k' < k)%nat ->
         tmp !! (base + k' * st)%nat
         = Some (Nat.iter k' (fun t => mul t xj) v)) /\
      (forall idx,
         (forall k', (1 <= k' < p)%nat -> idx <> (base + k' * st)%nat) ->
         tmp !! idx = tmp0 !! idx) : Prop).
  eapply returns_weaken;
    [| apply (returns_while I
                (fun '(i, _) => Z.of_nat (base + p * st) - i))].
  - intros [i tmp] [(k & Hk & -> & L & V & U) C].
    apply Z.ltb_ge in C.
    assert (k = p) by nia. subst k. auto.
  - intros [i tmp] (k & Hk & -> & L & V & U) C. apply Z.ltb_lt in C.
    assert (Hkp : (k < p)%nat) by nia.
    split; [lia |].
    replace (Z.of_nat (base + k * st) - Z.of_nat st)
      with (Z.of_nat (base + (k - 1) * st)) by nia.
    rewrite (at_nat _ _ _ (V (k - 1)%nat ltac:(lia))). cbn [bind].
    rewrite Ex. cbn [bind].
    rewrite put_nat by nia. cbn [bind returns].
    split; [| nia].
    exists (Datatypes.S k). split; [lia |].
    split; [f_equal; lia |].
    split; [rewrite length_insert; exact L |]. split.
    + intros k' Hk'. destruct (Nat.eq_dec k' k) as [-> | Ne].
      * rewrite list_lookup_insert_eq by nia.
        destruct k as [| k]; [lia |].
        replace (Datatypes.S k - 1)%nat with k by lia. reflexivity.
      * rewrite list_lookup_insert_ne by nia. apply V. lia.
    + intros idx Hidx.
      rewrite list_lookup_insert_ne by (apply not_eq_sym, Hidx; lia).
      apply U. exact Hidx.
  - exists 1%nat. split; [lia |]. split; [f_equal; lia |].
    split; [reflexivity |]. split.
    + intros k' Hk'. assert (k' = 0)%nat by lia. subst k'.
      rewrite Nat.add_0_r. exact Ev.
    + reflexivity.
  - lia.
Qed.

(** One pass of a sweep, over all its blocks: [block] fills the block
    that starts at [base] with [g 0 v, ..., g (p - 1) v], [v] being the
    entry at [base], and leaves the other blocks alone. *)
Lemma sweep_pass (block : Z -> vec double -> outcome (Z * vec double))
    (g : nat -> double -> double) (st p q P : nat) (tmp0 : vec double)
    (tbl : nat -> double) :
  q = (p * st)%nat -> (1 <= st)%nat -> (1 <= p)%nat ->
  length tmp0 = (P * q)%nat ->
  (forall m, (m < P)%nat -> tmp0 !! (m * q)%nat = Some (tbl m)) ->
  (forall base tmp v,
     (base + q <= length tmp)%nat -> tmp !! base = Some v ->
     returns (fun '(i', tmp') =>
                i' = Z.of_nat (base + q) /\
                length tmp' = length tmp /\
                (forall k, (k < p)%nat ->
                   tmp' !! (base + k * st)%nat = Some (g k v)) /\
                (forall idx,
                   (forall k, (k < p)%nat -> idx <> (base + k * st)%nat) ->
                   tmp' !! idx = tmp !! idx))
       (block (Z.of_nat base) tmp)) ->
  returns (fun tmp' =>
             length tmp' = length tmp0 /\
             forall m k, (m < P)%nat -> (k < p)%nat ->
               tmp' !! (m * q + k * st)%nat = Some (g k (tbl m)))
    (for_blocks (Z.of_nat (P * q)) block tmp0).
Proof.
  intros Hqeq Hst Hp Hlen Hstart Hblock. unfold for_blocks.
  assert (Hq : (1 <= q)%nat) by nia.
  assert (Hks : forall k, (k < p)%nat -> (k * st + st <= q)%nat)
    by (intros; nia).
  set (I := fun '(i, tmp) =>
    exists m, (m <= P)%nat /\ i = Z.of_nat (m * q) /\
      length tmp = length tmp0 /\
      (forall m' k, (m' < m)%nat -> (k < p)%nat ->
         tmp !! (m' * q + k * st)%nat = Some (g k (tbl m'))) /\
      (forall m', (m <= m' < P)%nat ->
         tmp !! (m' * q)%nat = Some (tbl m')) : Prop).
  apply returns_bind.
  eapply returns_weaken;
    [| apply (returns_while I
                (fun '(i, _) => Z.of_nat (P * q) - i))].
  - intros [i tmp] [(m & Hm & -> & L & V & U) C].
    apply Z.ltb_ge in C. cbn [returns].
    assert (m = P) by nia. subst m. split; [exact L |].
    intros m' k Hm' Hk. apply V; assumption.
  - intros [i tmp] (m & Hm & -> & L & V & U) C. apply Z.ltb_lt in C.
    assert (HmP : (m < P)%nat) by nia.
    split; [lia |].
    eapply returns_weaken;
      [| apply (Hblock (m * q)%nat tmp (tbl m)); [nia | apply U; lia]].
    intros [i' tmp'] (-> & L' & V' & U'). split; [| nia].
    exists (Datatypes.S m). split; [lia |]. split; [f_equal; nia |].
    split; [congruence |]. split.
    + intros m' k Hm' Hk. destruct (Nat.eq_dec m' m) as [-> | Ne].
      * apply V'. exact Hk.
      * rewrite U'.
        -- apply V; [lia | exact Hk].
        -- intros k' Hk'. pose proof (Hks k Hk). pose proof (Hks k' Hk').
           nia.
    + intros m' Hm'. rewrite U'.
      * apply U. lia.
      * intros k' Hk'. pose proof (Hks k' Hk'). nia.
  - exists 0%nat. split; [lia |]. split; [reflexivity |].
    split; [reflexivity |]. split.
    + intros m' k Hm'. lia.
    + intros m' Hm'. apply Hstart. lia.
  - lia.
Qed.

(** *** The table of monomials *)

Lemma powers_of_length (p : nat) (x v : double) :
  length (powers_of p x v) = p.
Proof. unfold powers_of. rewrite length_map, length_seq. reflexivity. Qed.

Lemma powers_of_lookup (p : nat) (x v : double) (k : nat) :
  (k < p)%nat ->
  powers_of p x v !! k = Some (Nat.iter k (fun t => mul t x) v).
Proof.
  intros Hk. unfold powers_of.
  change (map ?f ?l) with (f <$> l).
  rewrite list_lookup_fmap, lookup_seq_lt by exact Hk. reflexivity.
Qed.

Lemma extend_axis_length (p : nat) (x : double) (tbl : list double) :
  length (extend_axis p x tbl) = (length tbl * p)%nat.
Proof.
  unfold extend_axis. induction tbl as [| v tbl IH]; [reflexivity |].
  cbn [map concat length]. rewrite length_app, powers_of_length, IH. lia.
Qed.

Lemma extend_axis_lookup (p : nat) (x : double) (tbl : list double)
    (m k : nat) (v : double) :
  tbl !! m = Some v -> (k < p)%nat ->
  extend_axis p x tbl !! (m * p + k)%nat
  = Some (Nat.iter k (fun t => mul t x) v).
Proof.
  unfold extend_axis. revert m.
  induction tbl as [| v0 tbl IH]; intros [| m] E Hk; try discriminate;
    cbn [map concat].
  - injection E as ->. rewrite lookup_app_l
      by (rewrite powers_of_length; lia).
    apply powers_of_lookup. exact Hk.
  - rewrite lookup_app_r by (rewrite powers_of_length; lia).
    rewrite powers_of_length.
    replace (Datatypes.S m * p + k - p)%nat with (m * p + k)%nat by lia.
    apply IH; assumption.
Qed.

Lemma monomial_table_snoc (p : nat) (xs : list double) (x t : double) :
  monomial_table p (xs ++ [x]) t
  = extend_axis p x (monomial_table p xs t).
Proof. unfold monomial_table. rewrite fold_left_app. reflexivity. Qed.

Lemma monomial_table_length (p : nat) (xs : list double) (t : double) :
  length (monomial_table p xs t) = (p ^ length xs)%nat.
Proof.
  induction xs as [| x xs IH] using rev_ind; [reflexivity |].
  rewrite monomial_table_snoc, extend_axis_length, IH, length_app.
  cbn [length]. rewrite Nat.add_1_r. cbn [Nat.pow]. lia.
Qed.

Lemma quot_of_nat (a p : nat) :
  Z.quot (Z.of_nat a) (Z.of_nat p) = Z.of_nat (a / p).
Proof.
  rewrite Nat2Z.inj_div.
  destruct (Nat.eq_dec p 0%nat) as [-> | Hp].
  - simpl. destruct (Z.of_nat a); reflexivity.
  - apply Z.quot_div_nonneg; lia.
Qed.

(** *** The table of a sweep *)

Lemma axis_step_length (p : nat) (g : nat -> double -> double)
    (tbl : list double) :
  length (concat (map (fun v => map (fun k => g k v) (seq 0 p)) tbl))
  = (length tbl * p)%nat.
Proof.
  induction tbl as [| v tbl IH]; [reflexivity |].
  cbn [map concat length].
  rewrite length_app, length_map, length_seq, IH. lia.
Qed.

Lemma axis_step_lookup (p : nat) (g : nat -> double -> double)
    (tbl : list double) (m k : nat) (v : double) :
  tbl !! m = Some v -> (k < p)%nat ->
  concat (map (fun v => map (fun k => g k v) (seq 0 p)) tbl)
    !! (m * p + k)%nat
  = Some (g k v).
Proof.
  revert m.
  induction tbl as [| v0 tbl IH]; intros [| m] E Hk; try discriminate;
    cbn [map concat].
  - injection E as ->.
    rewrite lookup_app_l by (rewrite length_map, length_seq; lia).
    change (map ?f ?l) with (f <$> l).
    rewrite list_lookup_fmap, lookup_seq_lt by exact Hk. reflexivity.
  - rewrite lookup_app_r by (rewrite length_map, length_seq; lia).
    rewrite length_map, length_seq.
    replace (Datatypes.S m * p + k - p)%nat with (m * p + k)%nat by lia.
    apply IH; assumption.
Qed.

Lemma axis_table_snoc (p : nat) (gens : list (nat -> double -> double))
    (g : nat -> double -> double) (t : double) :
  axis_table p (gens ++ [g]) t
  = concat (map (fun v => map (fun k => g k v) (seq 0 p))
              (axis_table p gens t)).
Proof. unfold axis_table. rewrite fold_left_app. reflexivity. Qed.

Lemma axis_table_length (p : nat) (gens : list (nat -> double -> double))
    (t : double) :
  length (axis_table p gens t) = (p ^ length gens)%nat.
Proof.
  induction gens as [| g gens IH] using rev_ind; [reflexivity |].
  rewrite axis_table_snoc, axis_step_length, IH, length_app.
  cbn [length]. rewrite Nat.add_1_r. cbn [Nat.pow]. lia.
Qed.

(** The loop over the strides: when the block of every axis fills its
    entries with the values of the generator of the axis, the sweep
    returns the table of the generators. *)
Lemma sweep_strides
    (blockf : Z -> Z -> Z -> Z -> vec double -> outcome (Z * vec double))
    (gens : list (nat -> double -> double)) (p_alpha : Z)
    (tmp : vec double) (t0 : double) :
  1 < p_alpha ->
  length tmp = (Z.to_nat p_alpha ^ length gens)%nat ->
  tmp !! 0%nat = Some t0 ->
  (forall jn g st q base tmp' v,
     gens !! jn = Some g ->
     q = (Z.to_nat p_alpha * st)%nat -> (1 <= st)%nat ->
     (base + q <= length tmp')%nat -> tmp' !! base = Some v ->
     returns (fun '(i', tmp'') =>
                i' = Z.of_nat (base + q) /\
                length tmp'' = length tmp' /\
                (forall k, (k < Z.to_nat p_alpha)%nat ->
                   tmp'' !! (base + k * st)%nat = Some (g k v)) /\
                (forall idx,
                   (forall k, (k < Z.to_nat p_alpha)%nat ->
                      idx <> (base + k * st)%nat) ->
                   tmp'' !! idx = tmp' !! idx))
       (blockf (Z.of_nat q) (Z.of_nat st) (Z.of_nat jn) (Z.of_nat base)
          tmp')) ->
  for_strides (p_alpha ^ Z.of_nat (length gens)) p_alpha
    (p_alpha ^ Z.of_nat (length gens))
    (Z.quot (p_alpha ^ Z.of_nat (length gens)) p_alpha) 0
    (fun boundary step d =>
       for_blocks (p_alpha ^ Z.of_nat (length gens))
         (blockf boundary step d)) tmp
  = Ok (axis_table (Z.to_nat p_alpha) gens t0).
Proof.
  intros Hp Hlen E0 Hblock.
  set (p := Z.to_nat p_alpha) in *. set (D := length gens) in *.
  assert (Ep : p_alpha = Z.of_nat p) by lia.
  assert (Hp2 : (2 <= p)%nat) by lia.
  assert (ET : p_alpha ^ Z.of_nat D = Z.of_nat (p ^ D)).
  { rewrite Ep, Nat2Z.inj_pow. reflexivity. }
  rewrite ET in *. clear ET.
  enough (G : returns (fun tmp' => tmp' = axis_table p gens t0)
                (for_strides (Z.of_nat (p ^ D)) p_alpha (Z.of_nat (p ^ D))
                   (Z.quot (Z.of_nat (p ^ D)) p_alpha) 0
                   (fun boundary step d =>
                      for_blocks (Z.of_nat (p ^ D)) (blockf boundary step d))
                   tmp)).
  { apply returns_inv in G as (tmp' & -> & ->). reflexivity. }
  unfold for_strides. apply returns_bind.
  set (I := fun '(boundary, step, d, tmp') =>
    exists jn, (jn <= D)%nat /\ d = Z.of_nat jn /\
      boundary = Z.of_nat (p ^ (D - jn)) /\
      step = Z.of_nat (p ^ (D - jn) / p) /\
      length tmp' = (p ^ D)%nat /\
      (forall m, (m < p ^ jn)%nat ->
         tmp' !! (m * p ^ (D - jn))%nat
         = axis_table p (take jn gens) t0 !! m) : Prop).
  eapply returns_weaken;
    [| apply (returns_while I (fun '(_, step, _, _) => step))].
  - (* at the end *)
    intros [[[b st] d] tmp'] [(jn & Hjn & -> & -> & -> & L & V) C].
    apply Z.leb_gt in C. cbn [returns].
    assert (jn = D).
    { destruct (Nat.eq_dec jn D) as [-> | Ne]; [reflexivity |].
      exfalso.
      replace (D - jn)%nat with (Datatypes.S (D - jn - 1)) in C by lia.
      cbn [Nat.pow] in C.
      rewrite Nat.mul_comm, Nat.div_mul in C by lia.
      assert (1 <= p ^ (D - jn - 1))%nat; [| lia].
      apply Nat.neq_0_lt_0, Nat.pow_nonzero. lia. }
    subst jn. rewrite Nat.sub_diag in V. cbn [Nat.pow] in V.
    unfold D in V. rewrite firstn_all in V.
    apply list_eq. intros i.
    destruct (Nat.lt_ge_cases i (p ^ length gens)) as [Hi | Hi].
    + rewrite <- V by exact Hi. rewrite Nat.mul_1_r. reflexivity.
    + rewrite !lookup_ge_None_2; [reflexivity | |].
      * rewrite axis_table_length. exact Hi.
      * fold D in Hi. lia.
  - (* one pass *)
    intros [[[b st] d] tmp'] (jn & Hjn & -> & -> & -> & L & V) C.
    apply Z.leb_le in C.
    assert (HjD : (jn < D)%nat).
    { destruct (Nat.eq_dec jn D) as [-> | Ne]; [| lia].
      rewrite Nat.sub_diag in C. cbn [Nat.pow] in C.
      rewrite Nat.div_small in C by lia. lia. }
    remember (D - jn - 1)%nat as e eqn:He.
    assert (HD : D = (jn + Datatypes.S e)%nat) by lia.
    replace (D - jn)%nat with (Datatypes.S e) in * by lia.
    cbn [Nat.pow] in *.
    rewrite (Nat.mul_comm p (p ^ e)), Nat.div_mul in * by lia.
    assert (Hst : (1 <= p ^ e)%nat)
      by (apply Nat.neq_0_lt_0, Nat.pow_nonzero; lia).
    split; [lia |].
    destruct (lookup_lt_is_Some_2 gens jn) as [g Eg]; [fold D; lia |].
    assert (HT : (p ^ D = p ^ jn * (p ^ e * p))%nat).
    { rewrite HD, Nat.pow_add_r. cbn [Nat.pow]. lia. }
    assert (Ltbl : length (axis_table p (take jn gens) t0) = (p ^ jn)%nat).
    { rewrite axis_table_length, length_take. fold D.
      replace (jn `min` D)%nat with jn by lia. reflexivity. }
    apply returns_bind.
    eapply returns_weaken;
      [| rewrite HT;
         apply (sweep_pass _ g (p ^ e) p (p ^ e * p) (p ^ jn) tmp'
                  (fun m => default t0
                              (axis_table p (take jn gens) t0 !! m)));
         [lia | exact Hst | lia | lia | |]].
    2:{ intros m Hm. rewrite V by exact Hm.
        destruct (lookup_lt_is_Some_2 (axis_table p (take jn gens) t0) m)
          as [v Ev]; [lia |].
        rewrite Ev. reflexivity. }
    2:{ intros base tmp1 v Hb Ev.
        apply (Hblock jn g (p ^ e)%nat (p ^ e * p)%nat base tmp1 v);
          auto; lia. }
    intros tmp'' [L' V']. unfold idiv.
    destruct (Z.eqb_spec p_alpha 0); [lia |]. cbn [bind returns].
    pose proof (quot_of_nat (p ^ e) p) as Q1. rewrite <- Ep in Q1.
    pose proof (quot_of_nat (p ^ e * p) p) as Q2. rewrite <- Ep in Q2.
    rewrite Nat.div_mul in Q2 by lia. rewrite Q1, Q2.
    split.
    2:{ apply inj_lt. apply Nat.div_lt; lia. }
    exists (Datatypes.S jn). split; [lia |]. split; [lia |].
    replace (D - Datatypes.S jn)%nat with e by lia.
    split; [reflexivity |]. split; [reflexivity |]. split; [lia |].
    intros m' Hm'.
    rewrite (take_S_r _ _ _ Eg), axis_table_snoc.
    assert (Hdm : (m' = m' / p * p + m' mod p)%nat)
      by (pose proof (Nat.div_mod_eq m' p); lia).
    assert (Hmod : (m' mod p < p)%nat) by (apply Nat.mod_upper_bound; lia).
    assert (Hdiv : (m' / p < p ^ jn)%nat).
    { apply Nat.Div0.div_lt_upper_bound. cbn [Nat.pow] in Hm'. lia. }
    destruct (lookup_lt_is_Some_2 (axis_table p (take jn gens) t0)
                (m' / p)) as [v Ev]; [lia |].
    rewrite Hdm at 2.
    rewrite (axis_step_lookup p g _ _ _ v Ev Hmod).
    replace (m' * p ^ e)%nat
      with (m' / p * (p ^ e * p) + m' mod p * p ^ e)%nat by nia.
    rewrite (V' _ _ Hdiv Hmod), Ev. reflexivity.
  - (* at the start *)
    exists 0%nat. split; [lia |]. split; [reflexivity |].
    rewrite Nat.sub_0_r. split; [reflexivity |].
    pose proof (quot_of_nat (p ^ D) p) as Q0. rewrite <- Ep in Q0.
    split; [exact Q0 |].
    split; [exact Hlen |].
    intros m Hm. cbn [Nat.pow] in Hm.
    assert (m = 0)%nat by lia. subst m. exact E0.
  - (* the budget *)
    pose proof (quot_of_nat (p ^ D) p) as Q0. rewrite <- Ep in Q0.
    rewrite Q0, Nat2Z.id. apply inj_le.
    apply Nat.Div0.div_le_upper_bound.
    assert (1 <= p ^ D)%nat
      by (apply Nat.neq_0_lt_0, Nat.pow_nonzero; lia).
    nia.
Qed.

Lemma fold_left_map {A B C : Type} (f : A -> B -> A) (h : C -> B)
    (l : list C) (a : A) :
  fold_left f (map h l) a = fold_left (fun a x => f a (h x)) l a.
Proof. revert a. induction l as [| x l IH]; intros a; simpl; auto. Qed.

Lemma monomial_table_axis (p : nat) (xs : list double) (t : double) :
  monomial_table p xs t
  = axis_table p (map (fun x k v => Nat.iter k (fun t => mul t x) v) xs) t.
Proof. unfold axis_table. rewrite fold_left_map. reflexivity. Qed.

(** The sweep over the powers fills [tmp] with the table of monomials:
    called with order [p_alpha > 1], the coordinates [x] and a vector
    [tmp] of [p_alpha ^ dim] entries whose first entry is [t0], where
    [dim] is the number of coordinates, it returns with [tmp[i]]
    holding [t0] times the powers of the coordinates whose exponents
    are the digits of [i] in base [p_alpha], the first coordinate
    having the most significant digit. *)
Lemma power_sweep_table (p_alpha : Z) (x tmp : vec double) (t0 : double) :
  1 < p_alpha ->
  size tmp = p_alpha ^ size x ->
  tmp !! 0%nat = Some t0 ->
  power_sweep (p_alpha ^ size x) p_alpha x tmp
  = Ok (monomial_table (Z.to_nat p_alpha) x t0).
Proof.
  intros Hp Hlen E0. rewrite monomial_table_axis.
  unfold power_sweep, idiv.
  destruct (Z.eqb_spec p_alpha 0); [lia |]. cbn [bind].
  unfold size in *.
  set (gens := map (fun x k v => Nat.iter k (fun t => mul t x) v) x).
  assert (Lg : length gens = length x) by apply length_map.
  rewrite <- Lg in *.
  apply (sweep_strides
           (fun boundary step j i tmp =>
              for_step (i + boundary) step
                (fun i tmp =>
                   let* t := at_ tmp (i - step) in
                   let* xj := at_ x j in
                   put tmp i (mul t xj)) (i + step) tmp)
           gens p_alpha tmp t0 Hp); [| exact E0 |].
  - apply Nat2Z.inj. rewrite Hlen, Nat2Z.inj_pow. f_equal. lia.
  - intros jn g st q base tmp' v Eg Hq Hst Hb Ev.
    unfold gens in Eg. change (map ?f ?l) with (f <$> l) in Eg.
    apply list_lookup_fmap_Some in Eg as (xj & -> & Exj).
    replace (Z.of_nat base + Z.of_nat q) with (Z.of_nat (base + q)) by lia.
    replace (Z.of_nat base + Z.of_nat st) with (Z.of_nat (base + st))
      by lia.
    eapply returns_weaken;
      [| apply (power_block x (Z.of_nat jn) xj st (Z.to_nat p_alpha) q base
                  tmp' v); auto; [apply at_nat; exact Exj | lia]].
    intros [i' tmp''] (Hi & L & V & U).
    split; [exact Hi |]. split; [exact L |]. split; [exact V |].
    intros idx Hidx. apply U. intros k Hk. apply Hidx. lia.
Qed.

Lemma monomial_table_first (p : nat) (xs : list double) (t : double) :
  (1 <= p)%nat -> monomial_table p xs t !! 0%nat = Some t.
Proof.
  intros Hp. induction xs as [| x xs IH] using rev_ind; [reflexivity |].
  rewrite monomial_table_snoc.
  apply (extend_axis_lookup p x _ 0 0 t IH). lia.
Qed.

Lemma monomial_table_single (p : nat) (xs : list double) (t : double) :
  (1 <= p)%nat -> (p ^ length xs = 1)%nat -> monomial_table p xs t = [t].
Proof.
  intros Hp H1. pose proof (monomial_table_first p xs t Hp) as E.
  pose proof (monomial_table_length p xs t) as L. rewrite H1 in L.
  destruct (monomial_table p xs t) as [| v [| w l]]; try discriminate.
  injection E as ->. reflexivity.
Qed.

(** The loop that sums the products of two vectors. *)
Lemma dot_loop (a b : vec double) (acc : double) (k : nat) :
  (k <= length a)%nat -> (k <= length b)%nat ->
  for_count k 0 (fun i acc =>
    let* l := at_ a i in
    let* t := at_ b i in
    Ok (add acc (mul l t))) acc
  = Ok (fold_left (fun acc '(l, t) => add acc (mul l t))
          (zip (take k a) (take k b)) acc).
Proof.
  induction k as [| k IH]; intros La Lb; [reflexivity |].
  rewrite for_count_snoc, IH by lia. cbn [bind]. rewrite Z.add_0_l.
  destruct (lookup_lt_is_Some_2 a k) as [l El]; [lia |].
  destruct (lookup_lt_is_Some_2 b k) as [t Et]; [lia |].
  rewrite (at_nat _ _ _ El), (at_nat _ _ _ Et). cbn [bind].
  rewrite (take_S_r _ _ _ El), (take_S_r _ _ _ Et).
  rewrite zip_with_app by (rewrite !length_take; lia).
  rewrite fold_left_app. reflexivity.
Qed.

End SweepValues.

Section LocalExpansionValue.
Context {double : Type} {AR : Arith double} {CO : Collaborators double}.

(** The loop of [EvaluateLocalExpansion_] that scales the offset of the
    query point from the box center. *)
Lemma offset_loop (qset : mat double) (row_q : Z) (q x_Q : vec double)
    (h : double) (v0 : vec double) (k : nat) :
  col qset row_q = Ok q ->
  (k <= length q)%nat -> (k <= length x_Q)%nat -> (k <= length v0)%nat ->
  for_count k 0 (fun i v =>
    let* x_Q_val := at_ x_Q i in
    let* x_q_val := mat_at qset i row_q in
    put v i (div (sub x_q_val x_Q_val) h)) v0
  = Ok (zip_with (fun a b => div (sub a b) h) (take k q) (take k x_Q)
        ++ drop k v0).
Proof.
  intros Ec. induction k as [| k IH]; intros Lq Lx Lv.
  - rewrite drop_0. reflexivity.
  - rewrite for_count_snoc, IH by lia. cbn [bind]. rewrite Z.add_0_l.
    destruct (lookup_lt_is_Some_2 q k) as [a Ea]; [lia |].
    destruct (lookup_lt_is_Some_2 x_Q k) as [b Eb]; [lia |].
    destruct (lookup_lt_is_Some_2 v0 k) as [c Ev]; [lia |].
    rewrite (at_nat _ _ _ Eb). cbn [bind].
    rewrite (mat_at_col _ _ _ _ Ec), (at_nat _ _ _ Ea). cbn [bind].
    assert (Lz : length (zip_with (fun a b => div (sub a b) h)
                           (take k q) (take k x_Q)) = k)
      by (rewrite length_zip_with, !length_take; lia).
    rewrite put_nat by (rewrite length_app, length_drop; lia).
    f_equal. rewrite insert_app_r_alt by lia.
    rewrite Lz, Nat.sub_diag, (drop_S _ _ _ Ev). cbn [insert list_insert].
    rewrite (take_S_r _ _ _ Ea), (take_S_r _ _ _ Eb).
    rewrite zip_with_app by (rewrite !length_take; lia).
    rewrite <- app_assoc. reflexivity.
Qed.

(** The steps of [EvaluateLocalExpansion_]: the offsets, the table of
    monomials and the sum. *)
Lemma EvaluateLocalExpansion_sum (this : FGTKde) (row_q : Z)
    (x_Q : vec double) (h : double) (query_box_num : Z)
    (lcoeffsb : mat double) (totalnumcoeffs p_alpha : Z)
    (q lcoeffs : vec double) :
  let dim := n_rows (qset_ this) in
  1 <= p_alpha -> 0 <= dim -> totalnumcoeffs = p_alpha ^ dim ->
  col (qset_ this) row_q = Ok q -> size q = dim -> size x_Q = dim ->
  col lcoeffsb query_box_num = Ok lcoeffs ->
  size lcoeffs = totalnumcoeffs ->
  EvaluateLocalExpansion_ this row_q x_Q h query_box_num lcoeffsb
    totalnumcoeffs p_alpha
  = Ok (local_value (Z.to_nat p_alpha) h lcoeffs x_Q q).
Proof.
  intros dim Hp Hd HT Ec Lq Lx El Ll. unfold local_value.
  unfold EvaluateLocalExpansion_. fold dim.
  unfold size in Lq, Lx, Ll.
  set (offs := zip_with (fun a b => div (sub a b) h) q x_Q).
  assert (Lo : length offs = Z.to_nat dim)
    by (unfold offs; rewrite length_zip_with; lia).
  (* the offsets *)
  unfold for_range at 1. rewrite Z.sub_0_r.
  rewrite (offset_loop (qset_ this) row_q q x_Q h _ _ Ec)
    by (try lia; unfold vec_new; rewrite repeat_length; lia).
  cbn [bind].
  rewrite drop_ge by (unfold vec_new; rewrite repeat_length; lia).
  rewrite app_nil_r, !take_ge by lia. fold offs.
  rewrite El. cbn [bind].
  (* the seed *)
  assert (HT1 : 1 <= totalnumcoeffs)
    by (pose proof (Z.pow_pos_nonneg p_alpha dim); lia).
  rewrite put_in_range
    by (unfold vec_new, size; rewrite repeat_length; lia).
  cbn [bind]. change (Z.to_nat 0) with 0%nat.
  set (tmp1 := <[0%nat := of_index 1]> (vec_new totalnumcoeffs)).
  assert (L1 : length tmp1 = Z.to_nat totalnumcoeffs)
    by (unfold tmp1, vec_new; rewrite length_insert, repeat_length;
        reflexivity).
  assert (E1 : tmp1 !! 0%nat = Some (of_index 1)).
  { unfold tmp1. apply list_lookup_insert_eq.
    unfold vec_new. rewrite repeat_length. lia. }
  assert (Hsz : size offs = dim) by (unfold size; lia).
  (* the sweep *)
  assert (Es : (if totalnumcoeffs >? 1
                then power_sweep totalnumcoeffs p_alpha offs tmp1
                else Ok tmp1)
               = Ok (monomial_table (Z.to_nat p_alpha) offs (of_index 1))).
  { rewrite Z.gtb_ltb.
    destruct (Z.ltb_spec 1 totalnumcoeffs) as [Ht | Ht].
    - assert (1 < p_alpha).
      { destruct (Z.eq_dec p_alpha 1) as [-> | Ne]; [| lia].
        rewrite Z.pow_1_l in HT by lia. lia. }
      rewrite HT, <- Hsz.
      apply power_sweep_table; [assumption | | exact E1].
      unfold size at 1. rewrite L1, Hsz, <- HT. lia.
    - assert (totalnumcoeffs = 1) by lia.
      rewrite monomial_table_single; [| lia |].
      + f_equal. unfold tmp1, vec_new. rewrite H. reflexivity.
      + apply Nat2Z.inj. rewrite Nat2Z.inj_pow, Lo, !Z2Nat.id by lia.
        rewrite <- HT. exact H. }
  match goal with
  | |- bind ?m _ = _ =>
      replace m
        with (Ok (monomial_table (Z.to_nat p_alpha) offs (of_index 1)))
        by (symmetry; exact Es)
  end.
  cbn [bind].
  (* the sum *)
  unfold for_range. rewrite Z.sub_0_r.
  assert (Lt : length (monomial_table (Z.to_nat p_alpha) offs (of_index 1))
               = Z.to_nat totalnumcoeffs).
  { rewrite monomial_table_length, Lo. apply Nat2Z.inj.
    rewrite Nat2Z.inj_pow, !Z2Nat.id by lia. symmetry. exact HT. }
  rewrite dot_loop by lia. rewrite !take_ge by lia. reflexivity.
Qed.

(** [EvaluateLocalExpansion_] evaluates the polynomial whose
    coefficients are the local moments of the box.  For an order
    [p_alpha >= 1] and [totalnumcoeffs = p_alpha ^ dim], a query column
    and a box center of [dim] coordinates and a column of
    [totalnumcoeffs] moments, it returns the sum, taken from index 0
    upwards, of the moments times the monomials of the scaled offset
    [(x_q - x_Q) / h], the monomials being in lexicographic order of
    their exponents with the first coordinate first. *)
Theorem EvaluateLocalExpansion_value (this : FGTKde) (row_q : Z)
    (x_Q : vec double) (h : double) (query_box_num : Z)
    (lcoeffsb : mat double) (totalnumcoeffs p_alpha : Z)
    (q lcoeffs : vec double) :
  let dim := n_rows (qset_ this) in
  1 <= p_alpha -> 0 <= dim -> totalnumcoeffs = p_alpha ^ dim ->
  col (qset_ this) row_q = Ok q -> size q = dim -> size x_Q = dim ->
  col lcoeffsb query_box_num = Ok lcoeffs ->
  size lcoeffs = totalnumcoeffs ->
  EvaluateLocalExpansion_ this row_q x_Q h query_box_num lcoeffsb
    totalnumcoeffs p_alpha
  = Ok (fold_left (fun acc '(l, t) => add acc (mul l t))
          (zip lcoeffs
             (monomial_table (Z.to_nat p_alpha)
                (zip_with (fun a b => div (sub a b) h) q x_Q)
                (of_index 1)))
          (of_index 0)).
Proof.
  intros dim Hp Hd HT Ec Lq Lx El Ll.
  rewrite (EvaluateLocalExpansion_sum this row_q x_Q h query_box_num
             lcoeffsb totalnumcoeffs p_alpha q lcoeffs Hp Hd HT Ec Lq Lx El
             Ll).
  reflexivity.
Qed.

End LocalExpansionValue.

Module RealSweep.
Import RealModel RealFacts.

Lemma EvaluateLocalExpansion_value_witness :
  EvaluateLocalExpansion_ four_queries 0 [0%R] (/ 4)%R 0
    {| n_rows := 2; columns := [[3%R; 5%R]] |} 2 2
  = Ok (fold_left (fun acc '(l, t) => add acc (mul l t))
          (zip [3%R; 5%R]
             (monomial_table (Z.to_nat 2)
                (zip_with (fun a b => div (sub a b) (/ 4)%R) [0%R] [0%R])
                (of_index 1)))
          (of_index 0)).
Proof.
  apply (EvaluateLocalExpansion_value four_queries 0 [0%R] (/ 4)%R 0
           {| n_rows := 2; columns := [[3%R; 5%R]] |} 2 2 [0%R]
           [3%R; 5%R]);
    try reflexivity; try lia.
  vm_compute. discriminate.
Defined.

End RealSweep.

(** ** The Hermite expansions *)

Section HermiteValues.
Context {double : Type} {AR : Arith double}.

(** *** Entries of a matrix *)

Lemma at_insert_ne {A : Type} (v : list A) (i i' : nat) (x : A) :
  i' <> i -> at_ (<[i := x]> v) (Z.of_nat i') = at_ v (Z.of_nat i').
Proof.
  intros Ne. unfold at_. rewrite Nat2Z.id.
  rewrite list_lookup_insert_ne by (apply not_eq_sym; exact Ne).
  reflexivity.
Qed.

Lemma mat_at_nat (m : mat double) (i j : nat) (c : vec double)
    (x : double) :
  columns m !! j = Some c -> c !! i = Some x ->
  mat_at m (Z.of_nat i) (Z.of_nat j) = Ok x.
Proof.
  intros Ec Ex. unfold mat_at. rewrite (at_nat _ _ _ Ec). cbn [bind].
  apply at_nat, Ex.
Qed.

(** Writing one entry of a matrix sets that entry and no other. *)
Lemma mat_put_entry (m : mat double) (i j r c : nat) (x : double) :
  mat_shape m r c -> (i < r)%nat -> (j < c)%nat ->
  returns (fun m' =>
             mat_shape m' r c /\
             mat_at m' (Z.of_nat i) (Z.of_nat j) = Ok x /\
             (forall i' j' : nat, i' <> i \/ j' <> j ->
                mat_at m' (Z.of_nat i') (Z.of_nat j')
                = mat_at m (Z.of_nat i') (Z.of_nat j')))
    (mat_put m (Z.of_nat i) (Z.of_nat j) x).
Proof.
  intros [Lc Fc] Hi Hj. unfold mat_put.
  destruct (lookup_lt_is_Some_2 (columns m) j) as [cj Ec]; [lia |].
  pose proof (Forall_lookup_1 _ _ _ _ Fc Ec) as Lcj. cbv beta in Lcj.
  rewrite (at_nat _ _ _ Ec). cbn [bind].
  rewrite put_nat by lia. cbn [bind].
  rewrite put_nat by lia. cbn [bind returns].
  split; [split |]; cbn [columns].
  - rewrite length_insert. exact Lc.
  - apply Forall_insert; [exact Fc | rewrite length_insert; exact Lcj].
  - split.
    + apply (mat_at_nat _ _ _ (<[i := x]> cj)); cbn [columns];
        apply list_lookup_insert_eq; lia.
    + intros i' j' Hne. unfold mat_at. cbn [columns].
      destruct (Nat.eq_dec j' j) as [-> | Nj].
      * rewrite (at_nat _ _ (<[i := x]> cj))
          by (apply list_lookup_insert_eq; lia).
        rewrite (at_nat _ _ _ Ec). cbn [bind].
        apply at_insert_ne. destruct Hne as [Ne | Ne]; [exact Ne |].
        contradiction.
      * rewrite at_insert_ne by exact Nj. reflexivity.
Qed.

(** *** The Hermite functions of one axis *)

Lemma hermite_pair_snd (d2 facj : double) (n : nat) :
  snd (hermite_pair d2 facj n) = fst (hermite_pair d2 facj (Datatypes.S n)).
Proof.
  cbn [hermite_pair]. destruct (hermite_pair d2 facj n). reflexivity.
Qed.

Lemma hermite_fn_step (c : double) (n : nat) :
  hermite_fn c (Datatypes.S (Datatypes.S n))
  = sub (mul (mul (of_index 2) c) (hermite_fn c (Datatypes.S n)))
      (mul (of_index (Z.of_nat (Datatypes.S n) * 2)) (hermite_fn c n)).
Proof.
  unfold hermite_fn.
  rewrite <- (hermite_pair_snd _ _ (Datatypes.S n)).
  rewrite <- (hermite_pair_snd _ _ n).
  cbn [hermite_pair].
  destruct (hermite_pair (mul (of_index 2) c) (exp (mul (neg c) c)) n).
  reflexivity.
Qed.

(** The loop that [TranslateMultipoleToLocal_],
    [DirectLocalAccumulation_] and [EvaluateMultipoleExpansion_] each
    run over one axis: on a matrix of [p_alpha] columns, run up to
    column [p_alpha - 1], it fills row [d] with the Hermite functions of
    orders [0, ..., p_alpha - 1] at [x / bandwidth] and leaves the other
    rows alone. *)
Lemma hermite_row_fills (p_alpha : Z) (x bandwidth : double) (d r : nat)
    (hm : mat double) :
  1 <= p_alpha -> mat_shape hm r (Z.to_nat p_alpha) -> (d < r)%nat ->
  returns (fun hm' =>
             mat_shape hm' r (Z.to_nat p_alpha) /\
             (forall k, (k < Z.to_nat p_alpha)%nat ->
                mat_at hm' (Z.of_nat d) (Z.of_nat k)
                = Ok (hermite_fn (div x bandwidth) k)) /\
             (forall d' k : nat, d' <> d ->
                mat_at hm' (Z.of_nat d') (Z.of_nat k)
                = mat_at hm (Z.of_nat d') (Z.of_nat k)))
    (hermite_row p_alpha (p_alpha - 1) x bandwidth (Z.of_nat d) hm).
Proof.
  intros Hp Hs Hd. unfold hermite_row.
  set (c := div x bandwidth).
  apply returns_bind.
  eapply returns_weaken;
    [| apply (mat_put_entry hm d 0 r (Z.to_nat p_alpha) _ Hs Hd); lia].
  intros hm1 (S1 & E1 & U1). cbv beta.
  destruct (Z.gtb_spec p_alpha 1) as [Hp1 | Hp1].
  - apply returns_bind.
    eapply returns_weaken;
      [| apply (mat_put_entry hm1 d 1 r (Z.to_nat p_alpha) _ S1 Hd); lia].
    intros hm2 (S2 & E2 & U2). cbv beta.
    eapply returns_weaken;
      [| apply (returns_for_range
                  (fun k hm' =>
                     mat_shape hm' r (Z.to_nat p_alpha) /\
                     (forall k' : nat, Z.of_nat k' <= k ->
                        mat_at hm' (Z.of_nat d) (Z.of_nat k')
                        = Ok (hermite_fn c k')) /\
                     (forall d' k' : nat, d' <> d ->
                        mat_at hm' (Z.of_nat d') (Z.of_nat k')
                        = mat_at hm (Z.of_nat d') (Z.of_nat k'))));
         [lia | |]].
    + intros hm' (S' & V & U). split; [exact S' |]. split; [| exact U].
      intros k Hk. apply V. lia.
    + intros j hm' Hj (S' & V & U).
      set (jn := Z.to_nat j).
      replace j with (Z.of_nat jn) by (unfold jn; lia).
      assert (Hjn : (1 <= jn)%nat /\ (jn + 1 < Z.to_nat p_alpha)%nat)
        by (unfold jn; lia).
      rewrite (V jn) by lia. cbn [bind].
      replace (Z.of_nat jn - 1) with (Z.of_nat (jn - 1)) by lia.
      rewrite (V (jn - 1)%nat) by lia. cbn [bind].
      replace (Z.of_nat jn + 1) with (Z.of_nat (Datatypes.S jn)) by lia.
      eapply returns_weaken;
        [| apply (mat_put_entry hm' d (Datatypes.S jn) r
                    (Z.to_nat p_alpha) _ S' Hd); lia].
      intros hm'' (S'' & E'' & U''). split; [exact S'' |]. split.
      * intros k' Hk'. destruct (Nat.eq_dec k' (Datatypes.S jn)) as [-> | Nk].
        -- rewrite E''. f_equal.
           destruct jn as [| n]; [lia |].
           replace (Datatypes.S n - 1)%nat with n by lia.
           symmetry. apply hermite_fn_step.
        -- rewrite U'' by (right; exact Nk). apply V. lia.
      * intros d' k' Nd. rewrite U'' by (left; exact Nd). apply U, Nd.
    + split; [exact S2 |]. split.
      * intros k' Hk'. destruct k' as [| [| k']]; [| | lia].
        -- rewrite (U2 d 0%nat) by (right; discriminate). exact E1.
        -- exact E2.
      * intros d' k' Nd. rewrite U2 by (left; exact Nd).
        apply U1. left. exact Nd.
  - cbn [returns]. split; [exact S1 |]. split.
    + intros k Hk. assert (k = 0%nat) by lia. subst k. exact E1.
    + intros d' k Nd. apply U1. left. exact Nd.
Qed.

(** The loop over the axes that fills the matrix of the Hermite
    functions: row [d] gets the functions at [xs[d] / bandwidth]. *)
Lemma hermite_rows_fill (p_alpha : Z) (xs : vec double)
    (bandwidth : double) (hm : mat double) :
  1 <= p_alpha -> mat_shape hm (length xs) (Z.to_nat p_alpha) ->
  returns (fun hm' =>
             mat_shape hm' (length xs) (Z.to_nat p_alpha) /\
             (forall d x k, xs !! d = Some x ->
                (k < Z.to_nat p_alpha)%nat ->
                mat_at hm' (Z.of_nat d) (Z.of_nat k)
                = Ok (hermite_fn (div x bandwidth) k)))
    (for_range 0 (size xs) (fun d hm =>
       let* x := at_ xs d in
       hermite_row p_alpha (p_alpha - 1) x bandwidth d hm) hm).
Proof.
  intros Hp Hs.
  eapply returns_weaken;
    [| apply (returns_for_range
                (fun n hm' =>
                   mat_shape hm' (length xs) (Z.to_nat p_alpha) /\
                   (forall d x k, Z.of_nat d < n -> xs !! d = Some x ->
                      (k < Z.to_nat p_alpha)%nat ->
                      mat_at hm' (Z.of_nat d) (Z.of_nat k)
                      = Ok (hermite_fn (div x bandwidth) k))));
       [unfold size; lia | |]].
  - intros hm' (S' & V). split; [exact S' |].
    intros d x k Ex Hk. apply (V d x k); [| exact Ex | exact Hk].
    apply lookup_lt_Some in Ex. unfold size. lia.
  - intros j hm' Hj (S' & V). unfold size in Hj.
    set (jn := Z.to_nat j).
    replace j with (Z.of_nat jn) by (unfold jn; lia).
    destruct (lookup_lt_is_Some_2 xs jn) as [x Ex]; [unfold jn; lia |].
    rewrite (at_nat _ _ _ Ex). cbn [bind].
    eapply returns_weaken;
      [| apply (hermite_row_fills p_alpha x bandwidth jn (length xs) hm'
                  Hp S'); unfold jn; lia].
    intros hm'' (S'' & V'' & U''). split; [exact S'' |].
    intros d x' k Hd Ex' Hk.
    destruct (Nat.eq_dec d jn) as [-> | Nd].
    + pose proof (eq_trans (eq_sym Ex) Ex') as Exx. injection Exx as <-.
      apply V'', Hk.
    + rewrite U'' by exact Nd. apply (V d x' k); [lia | exact Ex' | exact Hk].
  - split; [exact Hs |]. intros d x k Hd. lia.
Qed.

(** *** The sweep over the Hermite functions *)

(** One block of one pass of the sweep: the entries at [base + k * st]
    become the products of [tmp[base]] with the entries of row [d] of
    the matrix. *)
Lemma hermite_block (hm : mat double) (d : Z) (row : nat -> double)
    (st p q base : nat) (tmp0 : vec double) (v : double) :
  q = (p * st)%nat ->
  (forall k, (k < p)%nat -> mat_at hm d (Z.of_nat k) = Ok (row k)) ->
  (1 <= st)%nat -> (1 <= p)%nat ->
  (base + q <= length tmp0)%nat ->
  tmp0 !! base = Some v ->
  returns (fun '(i', tmp') =>
             i' = Z.of_nat (base + q) /\
             length tmp' = length tmp0 /\
             (forall k, (k < p)%nat ->
                tmp' !! (base + k * st)%nat = Some (mul v (row k))) /\
             (forall idx,
                (forall k, (k < p)%nat -> idx <> (base + k * st)%nat) ->
                tmp' !! idx = tmp0 !! idx))
    (let* '(i, (_, arrtmp)) :=
       for_step (Z.of_nat (base + q)) (Z.of_nat st)
         (fun i '(j, arrtmp) =>
            let* a := at_ arrtmp (Z.of_nat base) in
            let* h := mat_at hm d j in
            let* arrtmp := put arrtmp i (mul a h) in
            Ok (j + 1, arrtmp)) (Z.of_nat (base + st)) (1, tmp0) in
     let* a := at_ arrtmp (Z.of_nat base) in
     let* h := mat_at hm d 0 in
     let* arrtmp := put arrtmp (Z.of_nat base) (mul a h) in
     Ok (i, arrtmp)).
Proof.
  intros -> Hrow Hst Hp Hlen Ev. apply returns_bind. unfold for_step.
  set (I := fun '(i, (j, tmp)) =>
    exists k, (1 <= k <= p)%nat /\ i = Z.of_nat (base + k * st) /\
      j = Z.of_nat k /\ length tmp = length tmp0 /\
      (forall k', (1 <= k' < k)%nat ->
         tmp !! (base + k' * st)%nat = Some (mul v (row k'))) /\
      tmp !! base = Some v /\
      (forall idx,
         (forall k', (1 <= k' < p)%nat -> idx <> (base + k' * st)%nat) ->
         tmp !! idx = tmp0 !! idx) : Prop).
  eapply returns_weaken;
    [| apply (returns_while I
                (fun '(i, _) => Z.of_nat (base + p * st) - i))].
  - intros [i [j tmp]] [(k & Hk & -> & -> & L & V & B & U) C].
    apply Z.ltb_ge in C.
    assert (k = p) by nia. subst k.
    cbv beta iota. rewrite (at_nat _ _ _ B). cbn [bind].
    pose proof (Hrow 0%nat ltac:(lia)) as H0.
    change (Z.of_nat 0) with 0 in H0. rewrite H0. cbn [bind].
    rewrite put_nat by lia. cbn [bind returns].
    split; [reflexivity |]. split; [rewrite length_insert; exact L |].
    split.
    + intros k Hk'. destruct k as [| k].
      * rewrite Nat.add_0_r. apply list_lookup_insert_eq. lia.
      * rewrite list_lookup_insert_ne by nia. apply V. lia.
    + intros idx Hidx.
      rewrite list_lookup_insert_ne.
      * apply U. intros k' Hk'. apply Hidx. lia.
      * intros <-. apply (Hidx 0%nat); lia.
  - intros [i [j tmp]] (k & Hk & -> & -> & L & V & B & U) C.
    apply Z.ltb_lt in C.
    assert (Hkp : (k < p)%nat) by nia.
    split; [lia |].
    rewrite (at_nat _ _ _ B). cbn [bind].
    rewrite (Hrow k Hkp). cbn [bind].
    rewrite put_nat by nia. cbn [bind returns].
    split; [| nia].
    exists (Datatypes.S k). split; [lia |].
    split; [f_equal; lia |]. split; [lia |].
    split; [rewrite length_insert; exact L |]. split; [| split].
    + intros k' Hk'. destruct (Nat.eq_dec k' k) as [-> | Ne].
      * apply list_lookup_insert_eq. nia.
      * rewrite list_lookup_insert_ne by nia. apply V. lia.
    + rewrite list_lookup_insert_ne by nia. exact B.
    + intros idx Hidx.
      rewrite list_lookup_insert_ne by (apply not_eq_sym, Hidx; lia).
      apply U. exact Hidx.
  - exists 1%nat. split; [lia |]. split; [f_equal; lia |].
    split; [reflexivity |]. split; [reflexivity |].
    split; [intros k' Hk'; lia |]. split; [exact Ev | reflexivity].
  - lia.
Qed.

Lemma hermite_table_axis (p : nat) (cs : list double) (t : double) :
  hermite_table p cs t
  = axis_table p (map (fun c k v => mul v (hermite_fn c k)) cs) t.
Proof. unfold axis_table. rewrite fold_left_map. reflexivity. Qed.

(** The sweep over the Hermite functions fills [arrtmp] with the table
    of their products: called with order [p_alpha > 1], a matrix whose
    row [d] holds the Hermite functions at [cs[d]], and a vector of
    [p_alpha ^ dim] entries whose first entry is [t0], it returns with
    [arrtmp[i]] holding [t0] times the Hermite functions whose orders
    are the digits of [i] in base [p_alpha]. *)
Lemma hermite_sweep_table (p_alpha : Z) (hm : mat double)
    (cs arrtmp : vec double) (t0 : double) :
  1 < p_alpha ->
  (forall d c k, cs !! d = Some c -> (k < Z.to_nat p_alpha)%nat ->
     mat_at hm (Z.of_nat d) (Z.of_nat k) = Ok (hermite_fn c k)) ->
  size arrtmp = p_alpha ^ size cs ->
  arrtmp !! 0%nat = Some t0 ->
  hermite_sweep (p_alpha ^ size cs) p_alpha hm arrtmp
  = Ok (hermite_table (Z.to_nat p_alpha) cs t0).
Proof.
  intros Hp Hhm Hlen E0. rewrite hermite_table_axis.
  unfold hermite_sweep, idiv.
  destruct (Z.eqb_spec p_alpha 0); [lia |]. cbn [bind].
  unfold size in *.
  set (gens := map (fun c k v => mul v (hermite_fn c k)) cs).
  assert (Lg : length gens = length cs) by apply length_map.
  rewrite <- Lg in *.
  apply (sweep_strides
           (fun boundary step d i arrtmp =>
              let* '(i', (_, arrtmp)) :=
                for_step (i + boundary) step
                  (fun i1 '(j, arrtmp) =>
                     let* a := at_ arrtmp i in
                     let* h := mat_at hm d j in
                     let* arrtmp := put arrtmp i1 (mul a h) in
                     Ok (j + 1, arrtmp)) (i + step) (1, arrtmp) in
              let* a := at_ arrtmp i in
              let* h := mat_at hm d 0 in
              let* arrtmp := put arrtmp i (mul a h) in
              Ok (i', arrtmp))
           gens p_alpha arrtmp t0 Hp); [| exact E0 |].
  - apply Nat2Z.inj. rewrite Hlen, Nat2Z.inj_pow. f_equal. lia.
  - intros jn g st q base tmp' v Eg Hq Hst Hb Ev.
    unfold gens in Eg. change (map ?f ?l) with (f <$> l) in Eg.
    apply list_lookup_fmap_Some in Eg as (cj & -> & Ecj).
    replace (Z.of_nat base + Z.of_nat q) with (Z.of_nat (base + q)) by lia.
    replace (Z.of_nat base + Z.of_nat st) with (Z.of_nat (base + st))
      by lia.
    apply (hermite_block hm (Z.of_nat jn) (hermite_fn cj) st
             (Z.to_nat p_alpha) q base tmp' v); try assumption; try lia.
    intros k Hk. apply (Hhm jn cj k Ecj Hk).
Qed.

Lemma hermite_table_snoc (p : nat) (cs : list double) (c t : double) :
  hermite_table p (cs ++ [c]) t
  = concat (map (fun v => map (fun k => mul v (hermite_fn c k)) (seq 0 p))
              (hermite_table p cs t)).
Proof. unfold hermite_table. rewrite fold_left_app. reflexivity. Qed.

(** At order one the table has the single entry that the loop over the
    axes computes. *)
Lemma hermite_order0_table (hm : mat double) (cs : vec double)
    (t0 : double) (k : nat) :
  (forall d c, cs !! d = Some c ->
     mat_at hm (Z.of_nat d) 0 = Ok (hermite_fn c 0)) ->
  (k <= length cs)%nat ->
  for_count k 0 (fun d arrtmp =>
    let* a := at_ arrtmp 0 in
    let* h := mat_at hm d 0 in
    put arrtmp 0 (mul a h)) [t0]
  = Ok (hermite_table 1 (take k cs) t0).
Proof.
  intros Hhm. induction k as [| k IH]; intros Hk; [reflexivity |].
  rewrite for_count_snoc, IH by lia. cbn [bind]. rewrite Z.add_0_l.
  destruct (lookup_lt_is_Some_2 cs k) as [c Ec]; [lia |].
  rewrite (take_S_r _ _ _ Ec), hermite_table_snoc.
  assert (exists a, hermite_table 1 (take k cs) t0 = [a]) as [a Ea].
  { clear. induction (take k cs) as [| c l IHl] using rev_ind;
      [exists t0; reflexivity |].
    destruct IHl as [a Ea]. rewrite hermite_table_snoc, Ea.
    eexists. reflexivity. }
  rewrite Ea. cbn [at_ Z.ltb Z.compare Z.to_nat lookup list_lookup bind].
  rewrite (Hhm k c Ec). cbn [bind]. reflexivity.
Qed.

End HermiteValues.

(** ** The value of the multipole expansion *)

Section MultipoleValue.
Context {double : Type} {AR : Arith double} {CO : Collaborators double}.

(** The loop of [EvaluateMultipoleExpansion_] that takes the offset of
    the query point from the centroid. *)
Lemma difference_loop (qset : mat double) (row_num : Z)
    (q c v0 : vec double) (k : nat) :
  col qset row_num = Ok q ->
  (k <= length q)%nat -> (k <= length c)%nat -> (k <= length v0)%nat ->
  for_count k 0 (fun d v =>
    let* qd := mat_at qset d row_num in
    let* cd := at_ c d in
    put v d (sub qd cd)) v0
  = Ok (zip_with sub (take k q) (take k c) ++ drop k v0).
Proof.
  intros Ec. induction k as [| k IH]; intros Lq Lc Lv.
  - rewrite drop_0. reflexivity.
  - rewrite for_count_snoc, IH by lia. cbn [bind]. rewrite Z.add_0_l.
    destruct (lookup_lt_is_Some_2 q k) as [a Ea]; [lia |].
    destruct (lookup_lt_is_Some_2 c k) as [b Eb]; [lia |].
    destruct (lookup_lt_is_Some_2 v0 k) as [w Ev]; [lia |].
    rewrite (mat_at_col _ _ _ _ Ec), (at_nat _ _ _ Ea). cbn [bind].
    rewrite (at_nat _ _ _ Eb). cbn [bind].
    assert (Lz : length (zip_with sub (take k q) (take k c)) = k)
      by (rewrite length_zip_with, !length_take; lia).
    rewrite put_nat by (rewrite length_app, length_drop; lia).
    f_equal. rewrite insert_app_r_alt by lia.
    rewrite Lz, Nat.sub_diag, (drop_S _ _ _ Ev). cbn [insert list_insert].
    rewrite (take_S_r _ _ _ Ea), (take_S_r _ _ _ Eb).
    rewrite zip_with_app by (rewrite !length_take; lia).
    rewrite <- app_assoc. reflexivity.
Qed.

Lemma set_densities_twice (this : FGTKde) (v w : vec double) :
  set_densities (set_densities this v) w = set_densities this w.
Proof. reflexivity. Qed.

(** A loop over query rows without repetition whose body replaces the
    density [d] of its row [q] by [F q d]. *)
Lemma for_each_densities {S : Type} (Inv : S -> Prop) (th : S -> FGTKde)
    (g : Z -> S -> outcome S) (F : Z -> double -> double) (n : Z) :
  (forall q s d, Inv s -> 0 <= q < n ->
     densities_ (th s) !! Z.to_nat q = Some d ->
     exists s', g q s = Ok s' /\ Inv s' /\
       th s' = set_densities (th s)
                 (<[Z.to_nat q := F q d]> (densities_ (th s)))) ->
  forall (rows : list Z) (s : S),
    List.NoDup rows ->
    Forall (fun q => 0 <= q < n /\ q < size (densities_ (th s))) rows ->
    Inv s ->
    exists s' dens',
      for_each g rows s = Ok s' /\ Inv s' /\
      th s' = set_densities (th s) dens' /\
      length dens' = length (densities_ (th s)) /\
      (forall q d, In q rows ->
         densities_ (th s) !! Z.to_nat q = Some d ->
         dens' !! Z.to_nat q = Some (F q d)) /\
      (forall i, (forall q, In q rows -> Z.to_nat q <> i) ->
         dens' !! i = densities_ (th s) !! i).
Proof.
  intros Hg. induction rows as [| q rows IH]; intros s N Hq Hs.
  - exists s, (densities_ (th s)). split; [reflexivity |].
    split; [exact Hs |]. split; [symmetry; apply set_densities_id |].
    split; [reflexivity |]. split; [intros q d [] | reflexivity].
  - inversion N as [| ? ? Nq N']; subst.
    inversion Hq as [| ? ? [Hq1 Hq2] Hq']; subst.
    unfold size in Hq2.
    destruct (lookup_lt_is_Some_2 (densities_ (th s)) (Z.to_nat q))
      as [d Ed]; [lia |].
    destruct (Hg q s d Hs Hq1 Ed) as (s1 & E1 & Hs1 & T1).
    assert (D1 : densities_ (th s1)
                 = <[Z.to_nat q := F q d]> (densities_ (th s)))
      by (rewrite T1; reflexivity).
    destruct (IH s1 N') as (s' & dens' & E2 & Hs' & T2 & L2 & V2 & U2);
      [| exact Hs1 |].
    { eapply Forall_impl; [exact Hq' |]. intros q' [H1 H2].
      rewrite D1, size_insert. auto. }
    exists s', dens'. cbn [for_each]. rewrite E1. cbn [bind].
    split; [exact E2 |]. split; [exact Hs' |].
    split; [rewrite T2, T1; apply set_densities_twice |].
    split; [rewrite L2, D1; apply length_insert |]. split.
    + intros q' d' [<- | Hin] Ed'.
      * rewrite U2.
        -- pose proof (eq_trans (eq_sym Ed) Ed') as Edd.
           injection Edd as <-.
           rewrite D1. apply list_lookup_insert_eq.
           eapply lookup_lt_Some; eauto.
        -- intros q'' Hin'' Heq. apply Nq.
           pose proof (proj1 (List.Forall_forall _ _) Hq' _ Hin'') as [H1 _].
           assert (q'' = q) by lia. subst. exact Hin''.
      * apply (V2 q' d' Hin). rewrite D1.
        rewrite list_lookup_insert_ne; [exact Ed' |].
        intros Heq. apply Nq.
        pose proof (proj1 (List.Forall_forall _ _) Hq' _ Hin) as [H1 _].
        assert (q' = q) by lia. subst. exact Hin.
    + intros i Hi. rewrite U2 by (intros q' Hin; apply Hi; right; exact Hin).
      rewrite D1. apply list_lookup_insert_ne. apply Hi. left. reflexivity.
Qed.

(** One query row of [EvaluateMultipoleExpansion_]: the density of the
    row grows by the value of the expansion at the query point; the
    vectors and the matrix of the function keep their sizes. *)
Lemma multipole_row (p_alpha totalnumcoeffs : Z) (dim : nat)
    (mcoeffs ref_hrcentroid : vec double) (bandwidth : double)
    (f : evaluation_frame) (q : nat) (query : vec double) (d : double) :
  1 <= p_alpha -> totalnumcoeffs = p_alpha ^ Z.of_nat dim ->
  length ref_hrcentroid = dim -> size mcoeffs = totalnumcoeffs ->
  length (ef_x_q_minus_x_R f) = dim ->
  mat_shape (ef_hermite_map f) dim (Z.to_nat p_alpha) ->
  size (ef_arrtmp f) = totalnumcoeffs ->
  col (qset_ (ef_this f)) (Z.of_nat q) = Ok query -> length query = dim ->
  densities_ (ef_this f) !! q = Some d ->
  exists f',
    (let* x_q_minus_x_R :=
       for_range 0 (Z.of_nat dim) (fun d v =>
         let* q := mat_at (qset_ (ef_this f)) d (Z.of_nat q) in
         let* c := at_ ref_hrcentroid d in
         put v d (sub q c)) (ef_x_q_minus_x_R f) in
     let* hermite_map :=
       for_range 0 (Z.of_nat dim) (fun d hermite_map =>
         let* x := at_ x_q_minus_x_R d in
         hermite_row p_alpha (p_alpha - 1) x bandwidth d hermite_map)
         (ef_hermite_map f) in
     let* arrtmp := put (ef_arrtmp f) 0 (of_index 1) in
     let* arrtmp :=
       (if p_alpha >? 1
        then hermite_sweep totalnumcoeffs p_alpha hermite_map arrtmp
        else hermite_order0 (Z.of_nat dim) hermite_map arrtmp) in
     let* multipolesum :=
       for_range 0 totalnumcoeffs (fun j multipolesum =>
         let* m := at_ mcoeffs j in
         let* t := at_ arrtmp j in
         Ok (add multipolesum (mul m t))) (of_index 0) in
     let* this := densities_add (ef_this f) (Z.of_nat q) multipolesum in
     Ok {| ef_this := this; ef_x_q_minus_x_R := x_q_minus_x_R;
           ef_hermite_map := hermite_map; ef_arrtmp := arrtmp |})
    = Ok f' /\
    length (ef_x_q_minus_x_R f') = dim /\
    mat_shape (ef_hermite_map f') dim (Z.to_nat p_alpha) /\
    size (ef_arrtmp f') = totalnumcoeffs /\
    ef_this f'
    = set_densities (ef_this f)
        (<[q := add d (multipole_value (Z.to_nat p_alpha) bandwidth mcoeffs
                         ref_hrcentroid query)]>
           (densities_ (ef_this f))).
Proof.
  intros Hp HT Lc Lm Lx Hs La Eq Lq Ed.
  unfold size in Lm, La.
  assert (HT1 : 1 <= totalnumcoeffs)
    by (pose proof (Z.pow_pos_nonneg p_alpha (Z.of_nat dim)); lia).
  (* the offsets *)
  rewrite for_range_nat.
  rewrite (difference_loop _ _ query ref_hrcentroid _ dim Eq) by lia.
  cbn [bind]. rewrite drop_ge, app_nil_r, !take_ge by lia.
  set (xs := zip_with sub query ref_hrcentroid).
  assert (Lxs : length xs = dim)
    by (unfold xs; rewrite length_zip_with; lia).
  (* the Hermite functions *)
  rewrite <- Lxs in Hs.
  pose proof (hermite_rows_fill p_alpha xs bandwidth (ef_hermite_map f)
                Hp Hs) as Hrows.
  unfold size in Hrows. rewrite Lxs in Hrows, Hs.
  apply returns_inv in Hrows as (hm & Ehm & Shm & Vhm).
  rewrite Ehm. cbn [bind].
  set (cs := map (fun x => div x bandwidth) xs).
  assert (Lcs : length cs = dim) by (unfold cs; rewrite length_map; exact Lxs).
  assert (Vcs : forall d c k, cs !! d = Some c ->
                  (k < Z.to_nat p_alpha)%nat ->
                  mat_at hm (Z.of_nat d) (Z.of_nat k) = Ok (hermite_fn c k)).
  { intros d0 c k Ec Hk. unfold cs in Ec.
    change (map ?g ?l) with (g <$> l) in Ec.
    apply list_lookup_fmap_Some in Ec as (x & -> & Ex).
    apply (Vhm d0 x k Ex Hk). }
  (* the seed *)
  rewrite put_in_range by (unfold size; lia).
  cbn [bind]. change (Z.to_nat 0) with 0%nat.
  set (arr1 := <[0%nat := of_index 1]> (ef_arrtmp f)).
  assert (L1 : length arr1 = Z.to_nat totalnumcoeffs)
    by (unfold arr1; rewrite length_insert; lia).
  assert (E1 : arr1 !! 0%nat = Some (of_index 1))
    by (unfold arr1; apply list_lookup_insert_eq; lia).
  (* the sweep *)
  set (table := hermite_table (Z.to_nat p_alpha) cs (of_index 1)).
  assert (Es : (if p_alpha >? 1
                then hermite_sweep totalnumcoeffs p_alpha hm arr1
                else hermite_order0 (Z.of_nat dim) hm arr1)
               = Ok table).
  { destruct (Z.gtb_spec p_alpha 1) as [Hp1 | Hp1].
    - assert (Hsz : size cs = Z.of_nat dim) by (unfold size; lia).
      rewrite HT, <- Hsz.
      apply hermite_sweep_table; [lia | exact Vcs | | exact E1].
      unfold size at 1. rewrite L1, Hsz, <- HT. lia.
    - assert (p_alpha = 1) by lia. subst p_alpha.
      rewrite Z.pow_1_l in HT by lia. subst totalnumcoeffs.
      destruct arr1 as [| a [| b arr]]; try discriminate.
      injection E1 as ->.
      unfold hermite_order0. rewrite for_range_nat.
      rewrite <- Lcs.
      rewrite (hermite_order0_table hm cs (of_index 1) (length cs)).
      + rewrite take_ge by lia. reflexivity.
      + intros d0 c Ec. apply (Vcs d0 c 0%nat Ec). lia.
      + lia. }
  match goal with
  | |- exists f', bind ?m _ = _ /\ _ =>
      replace m with (Ok table) by (symmetry; exact Es)
  end.
  cbn [bind].
  (* the sum *)
  assert (Lt : length table = Z.to_nat totalnumcoeffs).
  { unfold table. rewrite hermite_table_axis, axis_table_length.
    rewrite length_map, Lcs. apply Nat2Z.inj.
    rewrite Nat2Z.inj_pow, !Z2Nat.id by lia. symmetry. exact HT. }
  unfold for_range. rewrite Z.sub_0_r.
  rewrite dot_loop by lia. rewrite !take_ge by lia. cbn [bind].
  rewrite (densities_add_value _ _ _ _ Ed). cbn [bind].
  eexists. split; [reflexivity |].
  cbn [ef_this ef_x_q_minus_x_R ef_hermite_map ef_arrtmp].
  split; [exact Lxs |]. split; [exact Shm |].
  split; [unfold size; rewrite Lt; lia |]. reflexivity.
Qed.

Lemma EvaluateMultipoleExpansion_adds (this : FGTKde) (rows : list Z)
    (p_alpha totalnumcoeffs : Z) (mcoeffsb : mat double) (ref_box_num : Z)
    (bwsqd_times_2 : double) (ref_hrcentroid mcoeffs : vec double) :
  let dim := n_rows (qset_ this) in
  1 <= p_alpha -> 0 <= dim -> totalnumcoeffs = p_alpha ^ dim ->
  mat_wf (qset_ this) -> size ref_hrcentroid = dim ->
  col mcoeffsb ref_box_num = Ok mcoeffs -> size mcoeffs = totalnumcoeffs ->
  List.NoDup rows ->
  Forall (fun q => 0 <= q < n_cols (qset_ this) /\
                   q < size (densities_ this)) rows ->
  exists this',
    EvaluateMultipoleExpansion_ this rows p_alpha totalnumcoeffs mcoeffsb
      ref_box_num bwsqd_times_2 ref_hrcentroid = Ok this' /\
    same_but_densities this this' /\
    (forall q query d, In q rows ->
       col (qset_ this) q = Ok query ->
       at_ (densities_ this) q = Ok d ->
       at_ (densities_ this') q
       = Ok (add d (multipole_value (Z.to_nat p_alpha) (sqrt bwsqd_times_2)
                      mcoeffs ref_hrcentroid query))) /\
    (forall q, ~ In q rows ->
       at_ (densities_ this') q = at_ (densities_ this) q).
Proof.
  intros dim Hp Hd HT W Lc El Lm N Hq.
  unfold EvaluateMultipoleExpansion_. fold dim.
  rewrite El. cbn [bind]. cbv zeta.
  set (dimn := Z.to_nat dim).
  assert (Edim : dim = Z.of_nat dimn) by (unfold dimn; lia).
  rewrite Edim in *. clearbody dimn. clear Hd.
  erewrite for_range_each.
  set (Inv := fun f : evaluation_frame =>
    qset_ (ef_this f) = qset_ this /\
    length (ef_x_q_minus_x_R f) = dimn /\
    mat_shape (ef_hermite_map f) dimn (Z.to_nat p_alpha) /\
    size (ef_arrtmp f) = totalnumcoeffs).
  set (F := fun (q : Z) (d : double) =>
    match col (qset_ this) q with
    | Ok query =>
        add d (multipole_value (Z.to_nat p_alpha) (sqrt bwsqd_times_2)
                 mcoeffs ref_hrcentroid query)
    | _ => d
    end).
  match goal with
  | |- exists this', bind (for_each ?g rows ?f0) _ = _ /\ _ =>
      destruct (for_each_densities Inv ef_this g F (n_cols (qset_ this)))
        with (rows := rows) (s := f0)
        as (f' & dens' & E & If' & T & L & V & U)
  end.
  - intros q f d (Iq & Ix & Ih & Ia) Hq1 Ed.
    destruct (at_in_range (columns (qset_ this)) q) as [query Eq];
      [exact Hq1 |].
    assert (Lq : length query = dimn).
    { apply at_Ok in Eq as [_ Eq].
      pose proof (Forall_lookup_1 _ _ _ _ W Eq) as Lq. cbv beta in Lq.
      unfold size in Lq. fold dim in Lq. lia. }
    unfold size in Lc.
    destruct (multipole_row p_alpha totalnumcoeffs dimn mcoeffs
                ref_hrcentroid (sqrt bwsqd_times_2) f (Z.to_nat q) query d)
      as (f1 & E1 & Ix1 & Ih1 & Ia1 & T1); try assumption; try lia.
    { rewrite Iq, Z2Nat.id by lia. exact Eq. }
    rewrite Z2Nat.id in E1 by lia.
    exists f1. split; [exact E1 |]. split.
    + split; [rewrite T1; exact Iq |]. auto.
    + rewrite T1. unfold F. unfold col. rewrite Eq. reflexivity.
  - exact N.
  - exact Hq.
  - unfold Inv. cbn [ef_this ef_x_q_minus_x_R ef_hermite_map ef_arrtmp].
    split; [reflexivity |].
    split; [unfold vec_new; rewrite repeat_length; lia |].
    split; [| unfold size, vec_new; rewrite repeat_length; 
              pose proof (Z.pow_pos_nonneg p_alpha (Z.of_nat dimn)); lia].
    unfold mat_shape, mat_new. cbn [columns].
    split; [apply repeat_length |].
    apply List.Forall_forall. intros c Hc. apply repeat_spec in Hc.
    subst c. unfold vec_new. rewrite repeat_length. lia.
  - cbn [ef_this] in *. rewrite E. cbn [bind].
    exists (ef_this f'). split; [reflexivity |]. rewrite T.
    split; [apply set_densities_same; unfold size; rewrite L; reflexivity |].
    cbn [set_densities densities_]. split.
    + intros q query d Hin Ec Ed. apply at_Ok in Ed as [H0 Ed].
      apply at_Ok. split; [exact H0 |].
      pose proof (V q d Hin Ed) as Vq. unfold F in Vq.
      rewrite Ec in Vq. exact Vq.
    + intros q Hin. unfold at_. destruct (q <? 0) eqn:Hneg; [reflexivity |].
      rewrite U; [reflexivity |].
      intros q' Hin' Heq. apply Hin.
      pose proof (proj1 (List.Forall_forall _ _) Hq _ Hin') as [H1 _].
      apply Z.ltb_ge in Hneg.
      assert (q' = q) by lia. subst. exact Hin'.
Qed.

(** [EvaluateMultipoleExpansion_] adds to the density of every listed
    query the value of the Hermite expansion of the reference box at the
    query point.  For an order [p_alpha >= 1] and
    [totalnumcoeffs = p_alpha ^ dim], a centroid of [dim] coordinates, a
    column of [totalnumcoeffs] coefficients, and query rows without
    repetition that are columns of the query set with a density, it
    returns; the density of every listed query has grown by the sum,
    from index 0 upwards, of the coefficients times the products of the
    Hermite functions at [(x_q - x_R) / sqrt(bwsqd_times_2)], in
    lexicographic order of their orders with the first coordinate first;
    nothing else of the object has changed. *)
Theorem EvaluateMultipoleExpansion_value (this : FGTKde) (rows : list Z)
    (p_alpha totalnumcoeffs : Z) (mcoeffsb : mat double) (ref_box_num : Z)
    (bwsqd_times_2 : double) (ref_hrcentroid mcoeffs : vec double) :
  let dim := n_rows (qset_ this) in
  1 <= p_alpha -> 0 <= dim -> totalnumcoeffs = p_alpha ^ dim ->
  mat_wf (qset_ this) -> size ref_hrcentroid = dim ->
  col mcoeffsb ref_box_num = Ok mcoeffs -> size mcoeffs = totalnumcoeffs ->
  List.NoDup rows ->
  Forall (fun q => 0 <= q < n_cols (qset_ this) /\
                   q < size (densities_ this)) rows ->
  exists this',
    EvaluateMultipoleExpansion_ this rows p_alpha totalnumcoeffs mcoeffsb
      ref_box_num bwsqd_times_2 ref_hrcentroid = Ok this' /\
    same_but_densities this this' /\
    (forall q query d, In q rows ->
       col (qset_ this) q = Ok query ->
       at_ (densities_ this) q = Ok d ->
       at_ (densities_ this') q
       = Ok (add d (multipole_value (Z.to_nat p_alpha) (sqrt bwsqd_times_2)
                      mcoeffs ref_hrcentroid query))) /\
    (forall q, ~ In q rows ->
       at_ (densities_ this') q = at_ (densities_ this) q).
Proof.
  intros. eapply EvaluateMultipoleExpansion_adds; eassumption.
Qed.

End MultipoleValue.

Module RealHermite.
Import RealModel RealFacts.

Lemma EvaluateMultipoleExpansion_value_witness :
  exists this',
    EvaluateMultipoleExpansion_ four_queries [0; 1; 2; 3] 2 2
      {| n_rows := 2; columns := [[3%R; 5%R]] |} 0 (/ 8)%R [0%R]
    = Ok this' /\
    same_but_densities four_queries this' /\
    (forall q query d, In q [0; 1; 2; 3] ->
       col (qset_ four_queries) q = Ok query ->
       at_ (densities_ four_queries) q = Ok d ->
       at_ (densities_ this') q
       = Ok (add d (multipole_value (Z.to_nat 2) (sqrt (/ 8)%R)
                      [3%R; 5%R] [0%R] query))) /\
    (forall q, ~ In q [0; 1; 2; 3] ->
       at_ (densities_ this') q = at_ (densities_ four_queries) q).
Proof.
  apply (EvaluateMultipoleExpansion_value four_queries [0; 1; 2; 3] 2 2
           {| n_rows := 2; columns := [[3%R; 5%R]] |} 0 (/ 8)%R [0%R]
           [3%R; 5%R]);
    try reflexivity; try (cbn; lia).
  - repeat constructor.
  - repeat constructor; simpl; intuition discriminate.
  - repeat constructor; cbn; lia.
Defined.

End RealHermite.

(** ** The far-field moments *)

Section MomentValues.
Context {double : Type} {AR : Arith double} {CO : Collaborators double}.

Lemma mf_set_A_k_id (f : @multipole_frame double) :
  mf_set_A_k f (mf_A_k f) = f.
Proof. destruct f. reflexivity. Qed.

Lemma mf_set_x_r_id (f : @multipole_frame double) :
  mf_set_x_r f (mf_x_r f) = f.
Proof. destruct f. reflexivity. Qed.

(** A loop from index 1 whose body replaces entry [i] of [A_k] by
    [w i] of it. *)
Lemma A_k_loop (w : nat -> double -> double)
    (body : Z -> @multipole_frame double ->
            outcome (@multipole_frame double))
    (f0 : @multipole_frame double) (n : nat) :
  (forall i A a, (1 <= i < n)%nat -> length A = n -> A !! i = Some a ->
     body (Z.of_nat i) (mf_set_A_k f0 A)
     = Ok (mf_set_A_k f0 (<[i := w i a]> A))) ->
  forall A, length A = n ->
    exists A',
      for_range 1 (Z.of_nat n) body (mf_set_A_k f0 A)
      = Ok (mf_set_A_k f0 A') /\
      length A' = n /\ A' !! 0%nat = A !! 0%nat /\
      (forall i, (1 <= i)%nat -> A' !! i = w i <$> A !! i).
Proof.
  intros Hb A LA.
  destruct (Nat.eq_dec n 0%nat) as [-> | Hn].
  { exists A. split; [reflexivity |]. split; [exact LA |].
    split; [reflexivity |]. intros i Hi.
    destruct A; [reflexivity | discriminate]. }
  pose proof (returns_for_range
                (fun k f =>
                   exists A', f = mf_set_A_k f0 A' /\ length A' = n /\
                     A' !! 0%nat = A !! 0%nat /\
                     (forall i, (1 <= i)%nat ->
                        A' !! i = if Z.of_nat i <? k then w i <$> A !! i
                                  else A !! i))
                body 1 (Z.of_nat n) (mf_set_A_k f0 A)) as G.
  apply returns_inv in G as (f' & E & A' & -> & L' & Z' & V').
  - exists A'. split; [exact E |]. split; [exact L' |].
    split; [exact Z' |]. intros i Hi. rewrite (V' i Hi).
    destruct (Z.ltb_spec (Z.of_nat i) (Z.of_nat n)); [reflexivity |].
    rewrite lookup_ge_None_2 by lia. reflexivity.
  - lia.
  - intros j f Hj (A' & -> & L' & Z' & V').
    set (jn := Z.to_nat j).
    replace j with (Z.of_nat jn) by (unfold jn; lia).
    assert (Hjn : (1 <= jn < n)%nat) by (unfold jn; lia).
    destruct (lookup_lt_is_Some_2 A jn) as [a Ea]; [lia |].
    assert (Ea' : A' !! jn = Some a).
    { rewrite (V' jn) by lia.
      destruct (Z.ltb_spec (Z.of_nat jn) j); [unfold jn in *; lia |].
      exact Ea. }
    rewrite (Hb jn A' a Hjn L' Ea'). cbn [returns].
    exists (<[jn := w jn a]> A'). split; [reflexivity |].
    split; [rewrite length_insert; exact L' |]. split.
    + rewrite list_lookup_insert_ne by lia. exact Z'.
    + intros i Hi. destruct (Nat.eq_dec i jn) as [-> | Ne].
      * rewrite list_lookup_insert_eq by lia.
        destruct (Z.ltb_spec (Z.of_nat jn) (Z.of_nat jn + 1)); [| lia].
        rewrite Ea. reflexivity.
      * rewrite list_lookup_insert_ne by (apply not_eq_sym; exact Ne).
        etransitivity; [exact (V' i Hi) |].
        destruct (Z.ltb_spec (Z.of_nat i) j),
                 (Z.ltb_spec (Z.of_nat i) (Z.of_nat jn + 1));
          try reflexivity; unfold jn in *; lia.
  - exists A. split; [reflexivity |]. split; [exact LA |].
    split; [reflexivity |]. intros i Hi.
    destruct (Z.ltb_spec (Z.of_nat i) 1); [lia | reflexivity].
Qed.

(** The loop of [ComputeMultipoleCoeffs_] that scales the offset of a
    reference point from the center. *)
Lemma moment_offsets (this : FGTKde) (row_num : Z) (ref x_R : vec double)
    (bw : double) (f : @multipole_frame double) (k : nat) :
  col (rset_ this) row_num = Ok ref ->
  (k <= length ref)%nat -> (k <= length x_R)%nat ->
  (k <= length (mf_x_r f))%nat ->
  for_count k 0 (fun i f =>
    let* x := mat_at (rset_ this) i row_num in
    let* c := at_ x_R i in
    let* x_r := put (mf_x_r f) i (div (sub x c) bw) in
    Ok (mf_set_x_r f x_r)) f
  = Ok (mf_set_x_r f
          (zip_with (fun x c => div (sub x c) bw) (take k ref) (take k x_R)
           ++ drop k (mf_x_r f))).
Proof.
  intros Ec. induction k as [| k IH]; intros Lr Lx Lv.
  - rewrite drop_0. cbn [take zip_with app for_count].
    rewrite mf_set_x_r_id. reflexivity.
  - rewrite for_count_snoc, IH by lia. cbn [bind]. rewrite Z.add_0_l.
    destruct (lookup_lt_is_Some_2 ref k) as [a Ea]; [lia |].
    destruct (lookup_lt_is_Some_2 x_R k) as [b Eb]; [lia |].
    destruct (lookup_lt_is_Some_2 (mf_x_r f) k) as [w Ev]; [lia |].
    rewrite (mat_at_col _ _ _ _ Ec), (at_nat _ _ _ Ea). cbn [bind].
    rewrite (at_nat _ _ _ Eb). cbn [bind mf_x_r mf_set_x_r].
    assert (Lz : length (zip_with (fun x c => div (sub x c) bw)
                           (take k ref) (take k x_R)) = k)
      by (rewrite length_zip_with, !length_take; lia).
    rewrite put_nat by (rewrite length_app, length_drop; lia).
    cbn [bind]. f_equal. unfold mf_set_x_r.
    cbn [mf_mcoeffs mf_A_k mf_tmp mf_x_r]. f_equal.
    rewrite insert_app_r_alt by lia.
    rewrite Lz, Nat.sub_diag, (drop_S _ _ _ Ev). cbn [insert list_insert].
    rewrite (take_S_r _ _ _ Ea), (take_S_r _ _ _ Eb).
    rewrite zip_with_app by (rewrite !length_take; lia).
    rewrite <- app_assoc. reflexivity.
Qed.

Lemma zip_with_add_lookup (A tbl : list double) (i : nat) :
  (length A <= length tbl)%nat ->
  (fun a => match tbl !! i with
            | Some t => add a t
            | None => a
            end) <$> A !! i
  = zip_with add A tbl !! i.
Proof.
  revert tbl i.
  induction A as [| a A IH]; intros [| t tbl] [| i] H; simpl in *;
    try reflexivity; try lia.
  apply IH. lia.
Qed.

Lemma zip_with_lookup_congr (A B tbl : list double) (i : nat) :
  A !! i = B !! i -> zip_with add A tbl !! i = zip_with add B tbl !! i.
Proof. intros E. rewrite !lookup_zip_with, E. reflexivity. Qed.

(** One reference row of [ComputeMultipoleCoeffs_]: the monomials of
    the scaled offset of the reference are added to the entries of
    [A_k] from index 1 on. *)
Lemma moment_row (this : FGTKde) (p_alpha totalnumcoeffs : Z) (dim : nat)
    (x_R : vec double) (bw : double) (row_num : Z) (ref : vec double)
    (f : @multipole_frame double) :
  1 < p_alpha -> totalnumcoeffs = p_alpha ^ Z.of_nat dim ->
  col (rset_ this) row_num = Ok ref -> length ref = dim ->
  length x_R = dim -> length (mf_x_r f) = dim ->
  size (mf_tmp f) = totalnumcoeffs -> size (mf_A_k f) = totalnumcoeffs ->
  exists f',
    (let* f :=
       for_range 0 (Z.of_nat dim) (fun i f =>
         let* x := mat_at (rset_ this) i row_num in
         let* c := at_ x_R i in
         let* x_r := put (mf_x_r f) i (div (sub x c) bw) in
         Ok (mf_set_x_r f x_r)) f in
     let* tmp := put (mf_tmp f) 0 (of_index 1) in
     let f := mf_set_tmp f tmp in
     let* tmp :=
       power_sweep totalnumcoeffs p_alpha (mf_x_r f) (mf_tmp f) in
     let f := mf_set_tmp f tmp in
     for_range 1 totalnumcoeffs (fun i f =>
       let* a := at_ (mf_A_k f) i in
       let* t := at_ (mf_tmp f) i in
       let* A_k := put (mf_A_k f) i (add a t) in
       Ok (mf_set_A_k f A_k)) f)
    = Ok f' /\
    mf_mcoeffs f' = mf_mcoeffs f /\
    length (mf_x_r f') = dim /\
    size (mf_tmp f') = totalnumcoeffs /\
    size (mf_A_k f') = totalnumcoeffs /\
    mf_A_k f' !! 0%nat = mf_A_k f !! 0%nat /\
    (forall i, (1 <= i)%nat ->
       mf_A_k f' !! i
       = zip_with add (mf_A_k f)
           (monomial_table (Z.to_nat p_alpha)
              (zip_with (fun x c => div (sub x c) bw) ref x_R)
              (of_index 1)) !! i).
Proof.
  intros Hp HT Ec Lr Lx Lv Lt LA. unfold size in Lt, LA.
  assert (HT1 : 1 <= totalnumcoeffs)
    by (pose proof (Z.pow_pos_nonneg p_alpha (Z.of_nat dim)); lia).
  rewrite for_range_nat.
  rewrite (moment_offsets this row_num ref x_R bw f dim Ec) by lia.
  cbn [bind]. rewrite drop_ge, app_nil_r, !take_ge by lia.
  set (offs := zip_with (fun x c => div (sub x c) bw) ref x_R).
  assert (Lo : length offs = dim)
    by (unfold offs; rewrite length_zip_with; lia).
  cbn [mf_tmp mf_set_x_r].
  rewrite put_in_range by (unfold size; lia).
  cbn [bind]. change (Z.to_nat 0) with 0%nat. cbv zeta.
  cbn [mf_x_r mf_tmp mf_set_tmp mf_set_x_r].
  set (tmp1 := <[0%nat := of_index 1]> (mf_tmp f)).
  assert (E1 : tmp1 !! 0%nat = Some (of_index 1))
    by (unfold tmp1; apply list_lookup_insert_eq; lia).
  assert (Hsz : size offs = Z.of_nat dim) by (unfold size; lia).
  pose proof (power_sweep_table p_alpha offs tmp1 (of_index 1) Hp) as Es.
  rewrite Hsz, <- HT in Es.
  set (table := monomial_table (Z.to_nat p_alpha) offs (of_index 1)) in *.
  match goal with
  | |- exists f', bind ?m _ = _ /\ _ =>
      replace m with (Ok table)
        by (symmetry; apply Es;
            [unfold size, tmp1; rewrite length_insert; lia | exact E1])
  end.
  cbn [bind].
  assert (Ltab : length table = Z.to_nat totalnumcoeffs).
  { unfold table. rewrite monomial_table_length, Lo. apply Nat2Z.inj.
    rewrite Nat2Z.inj_pow, !Z2Nat.id by lia. symmetry. exact HT. }
  set (f0 := {| mf_mcoeffs := mf_mcoeffs f; mf_A_k := mf_A_k f;
                mf_tmp := table; mf_x_r := offs |}).
  destruct (A_k_loop
              (fun i a => match table !! i with
                          | Some t => add a t
                          | None => a
                          end)
              (fun i f =>
                 let* a := at_ (mf_A_k f) i in
                 let* t := at_ (mf_tmp f) i in
                 let* A_k := put (mf_A_k f) i (add a t) in
                 Ok (mf_set_A_k f A_k))
              f0 (Z.to_nat totalnumcoeffs))
    with (A := mf_A_k f) as (A' & E & L' & Z' & V'); [| lia |].
  { intros i A a Hi LA' Ea. cbn [mf_A_k mf_tmp mf_set_A_k f0].
    rewrite (at_nat _ _ _ Ea). cbn [bind].
    destruct (lookup_lt_is_Some_2 table i) as [t Et]; [lia |].
    rewrite (at_nat _ _ _ Et). cbn [bind].
    rewrite put_nat by lia. cbn [bind]. rewrite Et. reflexivity. }
  rewrite Z2Nat.id in E by lia.
  exists (mf_set_A_k f0 A'). split; [exact E |].
  cbn [mf_set_A_k mf_mcoeffs mf_x_r mf_tmp mf_A_k f0].
  split; [reflexivity |]. split; [exact Lo |].
  split; [unfold size; lia |]. split; [unfold size; lia |].
  split; [exact Z' |].
  intros i Hi.
  etransitivity; [exact (V' i Hi) | apply zip_with_add_lookup; lia].
Qed.

(** The loop over the reference rows. *)
Lemma for_each_moments
    (g : Z -> @multipole_frame double ->
         outcome (@multipole_frame double))
    (Inv : @multipole_frame double -> Prop) (R : Z -> vec double -> Prop)
    (tbl : vec double -> list double) :
  (forall row ref f, R row ref -> Inv f ->
     exists f', g row f = Ok f' /\ Inv f' /\
       mf_A_k f' !! 0%nat = mf_A_k f !! 0%nat /\
       (forall i, (1 <= i)%nat ->
          mf_A_k f' !! i = zip_with add (mf_A_k f) (tbl ref) !! i)) ->
  forall rows refs f acc,
    Forall2 R rows refs -> Inv f ->
    (forall i, (1 <= i)%nat -> mf_A_k f !! i = acc !! i) ->
    exists f',
      for_each g rows f = Ok f' /\ Inv f' /\
      mf_A_k f' !! 0%nat = mf_A_k f !! 0%nat /\
      (forall i, (1 <= i)%nat ->
         mf_A_k f' !! i
         = fold_left (fun acc ref => zip_with add acc (tbl ref)) refs acc
             !! i).
Proof.
  intros Hg rows refs f acc F. revert f acc.
  induction F as [| row ref rows refs HR F IH]; intros f acc Hf Hacc.
  - exists f. split; [reflexivity |]. split; [exact Hf |].
    split; [reflexivity | exact Hacc].
  - destruct (Hg row ref f HR Hf) as (f1 & E1 & Hf1 & Z1 & V1).
    destruct (IH f1 (zip_with add acc (tbl ref)) Hf1)
      as (f' & E' & Hf' & Z' & V').
    { intros i Hi.
      etransitivity;
        [exact (V1 i Hi) | apply zip_with_lookup_congr, Hacc, Hi]. }
    exists f'. cbn [for_each fold_left]. rewrite E1. cbn [bind].
    split; [exact E' |]. split; [exact Hf' |].
    split; [rewrite Z', Z1; reflexivity | exact V'].
Qed.

Lemma moment_sums_length (p : nat) (bw : double) (x_R : vec double)
    (refs : list (vec double)) (n : nat) :
  (length (moment_sums p bw x_R refs n) <= n)%nat.
Proof.
  unfold moment_sums.
  assert (G : forall acc,
            (length (fold_left
                       (fun acc reference =>
                          zip_with add acc
                            (monomial_table p
                               (zip_with (fun x c => div (sub x c) bw)
                                  reference x_R) (of_index 1)))
                       refs acc) <= length acc)%nat).
  { induction refs as [| r refs IH]; intros acc; cbn [fold_left]; [lia |].
    etransitivity; [apply IH |]. rewrite length_zip_with. lia. }
  etransitivity; [apply G |]. rewrite repeat_length. lia.
Qed.

(** [ComputeMultipoleCoeffs_] computes the far-field moments of a box
    in its vector [A_k].  For an order [p_alpha >= 1] and
    [totalnumcoeffs = p_alpha ^ dim], a column of the box of
    [totalnumcoeffs] entries that starts with zero, a center of [dim]
    coordinates, reference rows that are columns of [dim] entries of the
    reference set, and at least [totalnumcoeffs] inverse factorials, it
    returns; [A_k[0]] is the number of rows, and every later entry is
    the sum over the references of the monomial of that index of the
    offset [(x_r - x_R) / sqrt(bwsqd_two)], times the inverse factorial
    of the index; the matrix [mcoeffs] is as it was. *)
Theorem ComputeMultipoleCoeffs_moments (this : FGTKde) (mcoeffs : mat double)
    (dim p_alpha totalnumcoeffs ref_box_num : Z) (bwsqd_two : double)
    (rows : list Z) (x_R : vec double) (A0 : vec double) (a0 : double)
    (references : list (vec double)) :
  1 <= p_alpha -> 0 <= dim -> totalnumcoeffs = p_alpha ^ dim ->
  col mcoeffs ref_box_num = Ok A0 -> size A0 = totalnumcoeffs ->
  A0 !! 0%nat = Some a0 -> ne a0 (of_index 0) = false ->
  size x_R = dim ->
  Forall2 (fun r c => col (rset_ this) r = Ok c /\ size c = dim)
    rows references ->
  totalnumcoeffs <= size (inv_multiindex_factorials (msea_ this)) ->
  exists f,
    ComputeMultipoleCoeffs_ this mcoeffs dim p_alpha totalnumcoeffs
      ref_box_num bwsqd_two rows x_R = Ok f /\
    mf_mcoeffs f = mcoeffs /\
    size (mf_A_k f) = totalnumcoeffs /\
    mf_A_k f !! 0%nat = Some (of_index (size rows)) /\
    (forall i s c, (1 <= i)%nat ->
       moment_sums (Z.to_nat p_alpha) (sqrt bwsqd_two) x_R references
         (Z.to_nat totalnumcoeffs) !! i = Some s ->
       inv_multiindex_factorials (msea_ this) !! i = Some c ->
       mf_A_k f !! i = Some (mul s c)).
Proof.
  intros Hp Hd HT Ecol LA0 E0 Hne Lx F LC.
  unfold size in LA0, Lx, LC.
  assert (HT1 : 1 <= totalnumcoeffs)
    by (pose proof (Z.pow_pos_nonneg p_alpha dim); lia).
  unfold ComputeMultipoleCoeffs_. rewrite Ecol. cbn [bind].
  pose proof (at_nat _ _ _ E0) as E0'. change (Z.of_nat 0) with 0 in E0'.
  rewrite E0'. cbn [bind]. rewrite Hne. cbv zeta. cbn [mf_A_k].
  rewrite put_in_range by (unfold size; lia).
  cbn [bind]. change (Z.to_nat 0) with 0%nat.
  set (n := of_index (size rows)).
  set (C_k := inv_multiindex_factorials (msea_ this)) in *.
  set (f0 := {| mf_mcoeffs := mcoeffs; mf_A_k := A0;
                mf_tmp := vec_new totalnumcoeffs; mf_x_r := vec_new dim |}).
  set (Tn := Z.to_nat totalnumcoeffs).
  assert (ETn : Z.of_nat Tn = totalnumcoeffs) by (unfold Tn; lia).
  (* the entries from index 1 are cleared *)
  destruct (A_k_loop (fun _ _ => of_index 0)
              (fun i f =>
                 let* A_k := put (mf_A_k f) i (of_index 0) in
                 Ok (mf_set_A_k f A_k)) f0 Tn)
    with (A := <[0%nat := n]> A0) as (A1 & EA1 & L1 & Z1 & V1).
  { intros i A a Hi LA Ea. cbn [mf_A_k mf_set_A_k].
    rewrite put_nat by lia. reflexivity. }
  { rewrite length_insert. unfold Tn. lia. }
  rewrite ETn in EA1.
  match goal with
  | |- exists f, bind ?m _ = _ /\ _ =>
      replace m with (Ok (mf_set_A_k f0 A1)) by (symmetry; exact EA1)
  end.
  cbn [bind].
  assert (Z1' : A1 !! 0%nat = Some n).
  { rewrite Z1. apply list_lookup_insert_eq. lia. }
  assert (V1' : forall i, (1 <= i)%nat ->
                  A1 !! i = repeat (of_index 0) Tn !! i).
  { intros i Hi. rewrite (V1 i Hi).
    destruct (Nat.lt_ge_cases i Tn) as [Hlt | Hge].
    - rewrite lookup_repeat by exact Hlt.
      destruct (lookup_lt_is_Some_2 (<[0%nat := n]> A0) i) as [a ->];
        [rewrite length_insert; unfold Tn in *; lia | reflexivity].
    - rewrite !lookup_ge_None_2; [reflexivity | |].
      + rewrite repeat_length. lia.
      + rewrite length_insert. unfold Tn in *. lia. }
  (* the moments are summed *)
  set (dimn := Z.to_nat dim).
  set (tbl := fun ref : vec double =>
    monomial_table (Z.to_nat p_alpha)
      (zip_with (fun x c => div (sub x c) (sqrt bwsqd_two)) ref x_R)
      (of_index 1)).
  set (Inv := fun f : @multipole_frame double =>
    mf_mcoeffs f = mcoeffs /\ length (mf_x_r f) = dimn /\
    length (mf_tmp f) = Tn /\ length (mf_A_k f) = Tn).
  assert (Hsum : exists f2,
    (if p_alpha >? 1
     then for_range 0 (size rows) (fun r f =>
            let* row_num := at_ rows r in
            let* f :=
              for_range 0 dim (fun i f =>
                let* x := mat_at (rset_ this) i row_num in
                let* c := at_ x_R i in
                let* x_r :=
                  put (mf_x_r f) i (div (sub x c) (sqrt bwsqd_two)) in
                Ok (mf_set_x_r f x_r)) f in
            let* tmp := put (mf_tmp f) 0 (of_index 1) in
            let* tmp :=
              power_sweep totalnumcoeffs p_alpha
                (mf_x_r (mf_set_tmp f tmp)) (mf_tmp (mf_set_tmp f tmp)) in
            for_range 1 totalnumcoeffs (fun i f =>
              let* a := at_ (mf_A_k f) i in
              let* t := at_ (mf_tmp f) i in
              let* A_k := put (mf_A_k f) i (add a t) in
              Ok (mf_set_A_k f A_k))
              (mf_set_tmp (mf_set_tmp f tmp) tmp)) (mf_set_A_k f0 A1)
     else Ok (mf_set_A_k f0 A1)) = Ok f2 /\
    Inv f2 /\ mf_A_k f2 !! 0%nat = Some n /\
    (forall i s, (1 <= i)%nat ->
       moment_sums (Z.to_nat p_alpha) (sqrt bwsqd_two) x_R references Tn
         !! i = Some s ->
       mf_A_k f2 !! i = Some s)).
  { assert (Inv0 : Inv (mf_set_A_k f0 A1)).
    { unfold Inv. cbn [mf_set_A_k mf_mcoeffs mf_x_r mf_tmp mf_A_k f0].
      unfold vec_new. rewrite !repeat_length. auto. }
    destruct (Z.gtb_spec p_alpha 1) as [Hp1 | Hp1].
    - erewrite for_range_each.
      match goal with
      | |- exists f2, for_each ?g rows ?fr = _ /\ _ =>
          destruct (for_each_moments g Inv
                      (fun r c => col (rset_ this) r = Ok c /\
                                  size c = dim) tbl)
            with (rows := rows) (refs := references) (f := fr)
                 (acc := repeat (of_index 0) Tn)
            as (f2 & E2 & I2 & Z2 & V2)
      end.
      + intros row ref f [Er Lr] (I1 & I2 & I3 & I4).
        unfold size in Lr.
        destruct (moment_row this p_alpha totalnumcoeffs dimn x_R
                    (sqrt bwsqd_two) row ref f)
          as (f' & E' & M' & X' & T' & A' & Z' & V');
          [lia | unfold dimn; rewrite Z2Nat.id by lia; exact HT | exact Er
          | unfold dimn; lia | unfold dimn; lia | exact I2
          | unfold size, Tn in *; lia | unfold size, Tn in *; lia |].
        exists f'. split.
        * rewrite <- E'. unfold dimn, Tn.
          rewrite !Z2Nat.id by lia. reflexivity.
        * split; [| split; [exact Z' | exact V']].
          unfold Inv, size, Tn in *. rewrite M'. repeat split; try lia.
          exact I1.
      + exact F.
      + exact Inv0.
      + exact V1'.
      + exists f2. split; [exact E2 |]. split; [exact I2 |].
        split; [rewrite Z2; exact Z1' |].
        intros i s Hi Es. rewrite (V2 i Hi). exact Es.
    - exists (mf_set_A_k f0 A1). split; [reflexivity |].
      split; [exact Inv0 |]. split; [exact Z1' |].
      intros i s Hi Es. exfalso.
      assert (p_alpha = 1) by lia. subst p_alpha.
      rewrite Z.pow_1_l in HT by lia.
      apply lookup_lt_Some in Es.
      pose proof (moment_sums_length (Z.to_nat 1) (sqrt bwsqd_two) x_R
                    references Tn).
      unfold Tn in *. lia. }
  destruct Hsum as (f2 & E2 & (M2 & X2 & T2 & L2) & Z2 & V2).
  match goal with
  | |- exists f, bind ?m _ = _ /\ _ =>
      replace m with (Ok f2) by (symmetry; exact E2)
  end.
  cbn [bind].
  (* the scaling by the inverse factorials *)
  destruct (A_k_loop (fun i a => match C_k !! i with
                                 | Some c => mul a c
                                 | None => a
                                 end)
              (fun r f =>
                 let* a := at_ (mf_A_k f) r in
                 let* c := at_ C_k r in
                 let* A_k := put (mf_A_k f) r (mul a c) in
                 Ok (mf_set_A_k f A_k)) f2 Tn)
    with (A := mf_A_k f2) as (A3 & EA3 & L3 & Z3 & V3); [| exact L2 |].
  { intros i A a Hi LA Ea. cbn [mf_A_k mf_set_A_k].
    rewrite (at_nat _ _ _ Ea). cbn [bind].
    destruct (lookup_lt_is_Some_2 C_k i) as [c Ec];
      [unfold Tn in *; lia |].
    rewrite (at_nat _ _ _ Ec). cbn [bind].
    rewrite put_nat by lia. cbn [bind]. unfold vec. rewrite Ec.
    reflexivity. }
  rewrite ETn, mf_set_A_k_id in EA3.
  exists (mf_set_A_k f2 A3). split; [exact EA3 |].
  cbn [mf_set_A_k mf_mcoeffs mf_A_k].
  split; [exact M2 |]. split; [unfold size, Tn in *; lia |].
  split; [rewrite Z3; exact Z2 |].
  intros i s c Hi Es Ec. etransitivity; [exact (V3 i Hi) |].
  unfold vec in *. rewrite (V2 i s Hi Es). cbn. rewrite Ec. reflexivity.
Qed.

End MomentValues.

Module RealMoments.
Import RealModel RealFacts RealOrder2.

Lemma ComputeMultipoleCoeffs_moments_witness :
  exists f,
    ComputeMultipoleCoeffs_ four_references_order2 zero_2x1 1 2 2 0 (/ 8)%R
      [0; 1; 2; 3] [0%R] = Ok f /\
    mf_mcoeffs f = zero_2x1 /\
    size (mf_A_k f) = 2 /\
    mf_A_k f !! 0%nat = Some (of_index (size [0; 1; 2; 3])) /\
    (forall i s c, (1 <= i)%nat ->
       moment_sums (Z.to_nat 2) (sqrt (/ 8)%R) [0%R]
         [[0%R]; [(/ 64)%R]; [0%R]; [(/ 64)%R]] (Z.to_nat 2) !! i = Some s ->
       inv_multiindex_factorials (msea_ four_references_order2) !! i
       = Some c ->
       mf_A_k f !! i = Some (mul s c)).
Proof.
  apply (ComputeMultipoleCoeffs_moments four_references_order2 zero_2x1 1 2
           2 0 (/ 8)%R [0; 1; 2; 3] [0%R] [0%R; 0%R] 0%R
           [[0%R]; [(/ 64)%R]; [0%R]; [(/ 64)%R]]);
    try reflexivity; try lia.
  - apply R_ne_same.
  - repeat constructor.
Defined.

End RealMoments.

(** ** The local expansions of all query boxes *)

Section LocalPass.
Context {double : Type} {AR : Arith double} {CO : Collaborators double}.

Lemma lookup_In {A : Type} (l : list A) (j : nat) (x : A) :
  l !! j = Some x -> In x l.
Proof.
  revert j. induction l as [| a l IH]; intros [| j] E; cbn in E;
    try discriminate.
  - injection E as ->. left. reflexivity.
  - right. apply (IH j E).
Qed.

(** Lists of boxes without a repeated entry: no box repeats an entry
    and no entry is in two boxes. *)
Lemma concat_NoDup_boxes (l : list (list Z)) :
  List.NoDup (concat l) ->
  (forall i r, l !! i = Some r -> List.NoDup r) /\
  (forall i j ri rj q, l !! i = Some ri -> l !! j = Some rj ->
     In q ri -> In q rj -> i = j).
Proof.
  induction l as [| r l IH]; intros N; cbn [concat] in N.
  - split; intros; discriminate.
  - pose proof (List.NoDup_app_remove_l _ _ N) as Nl.
    pose proof (List.NoDup_app_remove_r _ _ N) as Nr.
    assert (D : forall q, In q r -> In q (concat l) -> False).
    { clear IH Nl Nr. induction r as [| a r IHr]; intros q [].
      - subst a. intros Hc. inversion N as [| ? ? Ha _]; subst.
        apply Ha. apply in_or_app. right. exact Hc.
      - apply IHr; [| assumption]. inversion N; assumption. }
    destruct (IH Nl) as [IH1 IH2]. split.
    + intros [| i] r0 E; cbn in E.
      * injection E as <-. exact Nr.
      * apply (IH1 i r0 E).
    + assert (C : forall j rj q, l !! j = Some rj -> In q rj ->
                    In q (concat l)).
      { intros j rj q E Hq. apply in_concat. exists rj.
        split; [| exact Hq]. apply (lookup_In l j rj E). }
      intros [| i] [| j] ri rj q Ei Ej Hi Hj; cbn in Ei, Ej.
      * reflexivity.
      * injection Ei as <-. exfalso. apply (D q Hi (C j rj q Ej Hj)).
      * injection Ej as <-. exfalso. apply (D q Hj (C i ri q Ei Hi)).
      * f_equal. apply (IH2 i j ri rj q Ei Ej Hi Hj).
Qed.

(** One query of one box: the density of the query grows by the value
    of the local expansion of the box. *)
Lemma local_query (this s : FGTKde) (delta : double) (nterms : Z)
    (locexp center : mat double) (totalnumcoeffs i q : Z)
    (x_Q lcoeffs query : vec double) (d : double) :
  let dim := n_rows (qset_ this) in
  1 <= nterms -> 0 <= dim -> totalnumcoeffs = nterms ^ dim ->
  qset_ s = qset_ this ->
  col center i = Ok x_Q -> size x_Q = dim ->
  col locexp i = Ok lcoeffs -> size lcoeffs = totalnumcoeffs ->
  col (qset_ this) q = Ok query -> size query = dim -> 0 <= q ->
  densities_ s !! Z.to_nat q = Some d ->
  (let* x_Q := col center i in
   let* result :=
     EvaluateLocalExpansion_ s q x_Q (sqrt delta) i locexp totalnumcoeffs
       nterms in
   densities_add s q result)
  = Ok (set_densities s
          (<[Z.to_nat q :=
               add d (local_value (Z.to_nat nterms) (sqrt delta) lcoeffs x_Q
                        query)]> (densities_ s))).
Proof.
  intros dim Hp Hd HT Iq Ex Lx El Ll Eq Lq Hq Ed.
  rewrite Ex. cbn [bind].
  rewrite (EvaluateLocalExpansion_sum s q x_Q (sqrt delta) i locexp
             totalnumcoeffs nterms query lcoeffs);
    rewrite ?Iq; try assumption.
  cbn [bind].
  pose proof (densities_add_value s (Z.to_nat q) d
                (local_value (Z.to_nat nterms) (sqrt delta) lcoeffs x_Q
                   query) Ed) as E.
  rewrite Z2Nat.id in E by exact Hq. exact E.
Qed.

Lemma EvaluateLocalExpansionForAllQueries_sum (this : FGTKde)
    (delta : double) (nterms nallbx : Z) (nsides : list Z)
    (locexp : mat double) (nlmax : Z) (queries_assigned : list (list Z))
    (center : mat double) (totalnumcoeffs : Z) :
  let dim := n_rows (qset_ this) in
  1 <= nterms -> 0 <= dim -> totalnumcoeffs = nterms ^ dim ->
  mat_wf (qset_ this) ->
  size queries_assigned = nallbx ->
  mat_wf center -> n_rows center = dim -> nallbx <= n_cols center ->
  mat_wf locexp -> n_rows locexp = totalnumcoeffs ->
  nallbx <= n_cols locexp ->
  List.NoDup (concat queries_assigned) ->
  Forall (Forall (fun q => 0 <= q < n_cols (qset_ this) /\
                           q < size (densities_ this))) queries_assigned ->
  exists this',
    EvaluateLocalExpansionForAllQueries_ this delta nterms nallbx nsides
      locexp nlmax queries_assigned center totalnumcoeffs = Ok this' /\
    same_but_densities this this' /\
    (forall i rows q query x_Q lcoeffs d,
       queries_assigned !! i = Some rows -> In q rows ->
       col (qset_ this) q = Ok query ->
       col center (Z.of_nat i) = Ok x_Q ->
       col locexp (Z.of_nat i) = Ok lcoeffs ->
       at_ (densities_ this) q = Ok d ->
       at_ (densities_ this') q
       = Ok (if size rows <=? nlmax then d
             else add d (local_value (Z.to_nat nterms) (sqrt delta) lcoeffs
                           x_Q query))) /\
    (forall q, ~ In q (concat queries_assigned) ->
       at_ (densities_ this') q = at_ (densities_ this) q).
Proof.
  intros dim Hp Hd HT W Lqa Wc Rc Nc Wl Rl Nl N V.
  destruct (concat_NoDup_boxes _ N) as [N1 N2].
  assert (Vq : forall i rows q, queries_assigned !! i = Some rows ->
                 In q rows ->
                 0 <= q < n_cols (qset_ this) /\
                 q < size (densities_ this)).
  { intros i rows q E Hin.
    pose proof (Forall_lookup_1 _ _ _ _ V E) as Vr. cbv beta in Vr.
    apply (proj1 (List.Forall_forall _ _) Vr q Hin). }
  set (dens := densities_ this).
  set (G := fun (i : nat) (rows : list Z) (q : Z) (d : double) =>
    if size rows <=? nlmax then d
    else match col (qset_ this) q, col center (Z.of_nat i),
               col locexp (Z.of_nat i) with
         | Ok query, Ok x_Q, Ok lcoeffs =>
             add d (local_value (Z.to_nat nterms) (sqrt delta) lcoeffs x_Q
                      query)
         | _, _, _ => d
         end).
  set (P := fun (k : Z) (s : FGTKde) =>
    exists dens', s = set_densities this dens' /\
      length dens' = length dens /\
      (forall i rows q d, Z.of_nat i < k ->
         queries_assigned !! i = Some rows -> In q rows ->
         dens !! Z.to_nat q = Some d ->
         dens' !! Z.to_nat q = Some (G i rows q d)) /\
      (forall idx,
         (forall i rows q, Z.of_nat i < k ->
            queries_assigned !! i = Some rows -> In q rows ->
            Z.to_nat q <> idx) ->
         dens' !! idx = dens !! idx)).
  assert (R : returns (P nallbx)
                (EvaluateLocalExpansionForAllQueries_ this delta nterms
                   nallbx nsides locexp nlmax queries_assigned center
                   totalnumcoeffs)).
  { unfold EvaluateLocalExpansionForAllQueries_.
    apply (returns_for_range P); [unfold size in Lqa; lia | |].
    - intros k s Hk (dens' & -> & L' & V' & U').
      set (kn := Z.to_nat k).
      assert (Ek : k = Z.of_nat kn) by (unfold kn; lia).
      unfold size in Lqa.
      destruct (lookup_lt_is_Some_2 queries_assigned kn) as [rows Er];
        [unfold kn; lia |].
      pose proof (at_nat _ _ _ Er) as Er'. rewrite <- Ek in Er'.
      rewrite Er'. cbn [bind]. cbv zeta.
      (* the queries of this box are in no earlier box *)
      assert (Fresh : forall q d, In q rows ->
                        dens !! Z.to_nat q = Some d ->
                        dens' !! Z.to_nat q = Some d).
      { intros q d Hin Ed. rewrite U'; [exact Ed |].
        intros i rows' q' Hi E' Hin' Heq.
        destruct (Vq i rows' q' E' Hin') as [[H0 _] _].
        destruct (Vq kn rows q Er Hin) as [[H1 _] _].
        assert (q' = q) by lia. subst q'.
        pose proof (N2 i kn rows' rows q E' Er Hin' Hin). lia. }
      destruct (Z.leb_spec (size rows) nlmax) as [Hskip | Hrun].
      + (* a box that is skipped *)
        cbn [returns]. exists dens'. split; [reflexivity |].
        split; [exact L' |]. split.
        * intros i rows' q d Hi E' Hin Ed.
          destruct (Nat.eq_dec i kn) as [-> | Ne].
          -- pose proof (eq_trans (eq_sym Er) E') as Err.
             injection Err as <-.
             rewrite (Fresh q d Hin Ed). unfold G.
             destruct (Z.leb_spec (size rows) nlmax); [reflexivity | lia].
          -- apply (V' i rows' q d); [lia | assumption ..].
        * intros idx Hidx. apply U'.
          intros i rows' q Hi. apply Hidx. lia.
      + (* a box that is evaluated *)
        destruct (at_in_range (columns center) k) as [x_Q Ex];
          [unfold n_cols in Nc; lia |].
        destruct (at_in_range (columns locexp) k) as [lcoeffs El];
          [unfold n_cols in Nl; lia |].
        assert (Lx : size x_Q = dim).
        { apply at_Ok in Ex as [_ Ex].
          pose proof (Forall_lookup_1 _ _ _ _ Wc Ex) as Lx.
          cbv beta in Lx. lia. }
        assert (Ll : size lcoeffs = totalnumcoeffs).
        { apply at_Ok in El as [_ El].
          pose proof (Forall_lookup_1 _ _ _ _ Wl El) as Ll.
          cbv beta in Ll. lia. }
        set (F := fun (q : Z) (d : double) =>
          match col (qset_ this) q with
          | Ok query =>
              add d (local_value (Z.to_nat nterms) (sqrt delta) lcoeffs x_Q
                       query)
          | _ => d
          end).
        erewrite for_range_each.
        match goal with
        | |- returns _ (for_each ?g rows ?s0) =>
            destruct (for_each_densities
                        (fun s => qset_ s = qset_ this) (fun s => s) g F
                        (n_cols (qset_ this)))
              with (rows := rows) (s := s0)
              as (s' & dens'' & E & Is' & T & L'' & V'' & U'')
        end.
        * intros q s d Iq Hq Ed.
          destruct (at_in_range (columns (qset_ this)) q) as [query Eq];
            [exact Hq |].
          assert (Lq : size query = dim).
          { apply at_Ok in Eq as [_ Eq].
            pose proof (Forall_lookup_1 _ _ _ _ W Eq) as Lq.
            cbv beta in Lq. exact Lq. }
          exists (set_densities s
                    (<[Z.to_nat q := F q d]> (densities_ s))).
          split; [| split; [exact Iq | reflexivity]].
          unfold F.
          replace (col (qset_ this) q) with (Ok query)
            by (symmetry; exact Eq).
          apply (local_query this s delta nterms locexp center
                   totalnumcoeffs k q x_Q lcoeffs query d);
            try assumption; lia.
        * apply (N1 kn rows Er).
        * apply List.Forall_forall. intros q Hin.
          destruct (Vq kn rows q Er Hin) as [H1 H2].
          split; [exact H1 |]. cbn [set_densities densities_].
          unfold size in *. fold dens in H2. lia.
        * reflexivity.
        * rewrite E. cbn [returns]. cbn [set_densities densities_] in *.
          exists dens''. split; [exact T |].
          split; [rewrite L''; exact L' |]. split.
          -- intros i rows' q d Hi E' Hin Ed.
             destruct (Nat.eq_dec i kn) as [-> | Ne].
             ++ pose proof (eq_trans (eq_sym Er) E') as Err.
                injection Err as <-.
                rewrite (V'' q d Hin (Fresh q d Hin Ed)). unfold G, F.
                destruct (Z.leb_spec (size rows) nlmax); [lia |].
                unfold col in *. rewrite <- Ek, Ex, El. reflexivity.
             ++ rewrite U''.
                ** apply (V' i rows' q d); [lia | assumption ..].
                ** intros q' Hin' Heq.
                   destruct (Vq i rows' q E' Hin) as [[H0 _] _].
                   destruct (Vq kn rows q' Er Hin') as [[H1 _] _].
                   assert (q' = q) by lia. subst q'.
                   apply Ne. apply (N2 i kn rows' rows q E' Er Hin Hin').
          -- intros idx Hidx. rewrite U''.
             ++ apply U'. intros i rows' q Hi. apply Hidx. lia.
             ++ intros q Hin. apply (Hidx kn rows q); [lia | exact Er |].
                exact Hin.
    - exists dens. split; [symmetry; apply set_densities_id |].
      split; [reflexivity |]. split; [intros i rows q d Hi; lia |].
      reflexivity. }
  apply returns_inv in R as (this' & E & dens' & -> & L' & V' & U').
  exists (set_densities this dens'). split; [exact E |].
  split; [apply set_densities_same; unfold size; rewrite L'; reflexivity |].
  cbn [set_densities densities_]. unfold size in Lqa. split.
  - intros i rows q query x_Q lcoeffs d Er Hin Eq Ex El Ed.
    apply at_Ok in Ed as [H0 Ed]. apply at_Ok. split; [exact H0 |].
    pose proof (V' i rows q d) as Vq'. unfold G in Vq'.
    rewrite Eq, Ex, El in Vq'. apply Vq'; try assumption.
    apply lookup_lt_Some in Er. lia.
  - intros q Hin. unfold at_. destruct (q <? 0) eqn:Hneg; [reflexivity |].
    rewrite U'; [reflexivity |].
    intros i rows q' Hi Er Hin' Heq. apply Hin.
    destruct (Vq i rows q' Er Hin') as [[H0 _] _].
    apply Z.ltb_ge in Hneg. assert (q' = q) by lia. subst q'.
    apply in_concat. exists rows. split; [| exact Hin'].
    apply (lookup_In queries_assigned i rows Er).
Qed.

(** [EvaluateLocalExpansionForAllQueries_] adds to the density of every
    query of a box with more than [nlmax] queries the value of the local
    expansion of the box at the query, and skips the other boxes.  For
    an order [nterms >= 1] and [totalnumcoeffs = nterms ^ dim], one list
    of queries, one center of [dim] coordinates and one column of
    [totalnumcoeffs] local moments per box, and lists without a repeated
    query whose entries are columns of the query set with a density, it
    returns; nothing else of the object has changed. *)
Theorem EvaluateLocalExpansionForAllQueries_adds (this : FGTKde)
    (delta : double) (nterms nallbx : Z) (nsides : list Z)
    (locexp : mat double) (nlmax : Z) (queries_assigned : list (list Z))
    (center : mat double) (totalnumcoeffs : Z) :
  let dim := n_rows (qset_ this) in
  1 <= nterms -> 0 <= dim -> totalnumcoeffs = nterms ^ dim ->
  mat_wf (qset_ this) ->
  size queries_assigned = nallbx ->
  mat_wf center -> n_rows center = dim -> nallbx <= n_cols center ->
  mat_wf locexp -> n_rows locexp = totalnumcoeffs ->
  nallbx <= n_cols locexp ->
  List.NoDup (concat queries_assigned) ->
  Forall (Forall (fun q => 0 <= q < n_cols (qset_ this) /\
                           q < size (densities_ this))) queries_assigned ->
  exists this',
    EvaluateLocalExpansionForAllQueries_ this delta nterms nallbx nsides
      locexp nlmax queries_assigned center totalnumcoeffs = Ok this' /\
    same_but_densities this this' /\
    (forall i rows q query x_Q lcoeffs d,
       queries_assigned !! i = Some rows -> In q rows ->
       col (qset_ this) q = Ok query ->
       col center (Z.of_nat i) = Ok x_Q ->
       col locexp (Z.of_nat i) = Ok lcoeffs ->
       at_ (densities_ this) q = Ok d ->
       at_ (densities_ this') q
       = Ok (if size rows <=? nlmax then d
             else add d (local_value (Z.to_nat nterms) (sqrt delta) lcoeffs
                           x_Q query))) /\
    (forall q, ~ In q (concat queries_assigned) ->
       at_ (densities_ this') q = at_ (densities_ this) q).
Proof.
  intros. eapply EvaluateLocalExpansionForAllQueries_sum; eassumption.
Qed.

End LocalPass.

Module RealLocals.
Import RealModel RealFacts.

Lemma EvaluateLocalExpansionForAllQueries_adds_witness :
  exists this',
    EvaluateLocalExpansionForAllQueries_ four_queries (/ 8)%R 2 2 [2]
      {| n_rows := 2; columns := [[3%R; 5%R]; [7%R; 11%R]] |} 1
      [[0; 1; 2]; [3]] {| n_rows := 1; columns := [[0%R]; [1%R]] |} 2
    = Ok this' /\
    same_but_densities four_queries this' /\
    (forall i rows q query x_Q lcoeffs d,
       [[0; 1; 2]; [3]] !! i = Some rows -> In q rows ->
       col (qset_ four_queries) q = Ok query ->
       col {| n_rows := 1; columns := [[0%R]; [1%R]] |} (Z.of_nat i)
       = Ok x_Q ->
       col {| n_rows := 2; columns := [[3%R; 5%R]; [7%R; 11%R]] |}
         (Z.of_nat i) = Ok lcoeffs ->
       at_ (densities_ four_queries) q = Ok d ->
       at_ (densities_ this') q
       = Ok (if size rows <=? 1 then d
             else add d (local_value (Z.to_nat 2) (sqrt (/ 8)%R) lcoeffs
                           x_Q query))) /\
    (forall q, ~ In q (concat [[0; 1; 2]; [3]]) ->
       at_ (densities_ this') q = at_ (densities_ four_queries) q).
Proof.
  apply (EvaluateLocalExpansionForAllQueries_adds four_queries (/ 8)%R 2 2
           [2] {| n_rows := 2; columns := [[3%R; 5%R]; [7%R; 11%R]] |} 1
           [[0; 1; 2]; [3]] {| n_rows := 1; columns := [[0%R]; [1%R]] |} 2);
    try reflexivity; try (cbn; lia).
  - repeat constructor.
  - repeat constructor.
  - repeat constructor.
  - repeat constructor; simpl; intuition discriminate.
  - repeat constructor; cbn; lia.
Defined.

End RealLocals.

(** ** The direct accumulation into local moments *)

(** A loop over a record that rewrites one field is the loop over that
    field. *)
Lemma for_count_lift {F V : Type} (get : F -> V) (set : F -> V -> F)
    (f0 : F) (body : Z -> V -> outcome V) (fbody : Z -> F -> outcome F) :
  set f0 (get f0) = f0 ->
  (forall i v, fbody i (set f0 v) = let* v' := body i v in Ok (set f0 v')) ->
  forall n i,
    for_count n i fbody f0
    = let* v' := for_count n i body (get f0) in Ok (set f0 v').
Proof.
  intros Hid Hb n i. rewrite <- Hid at 1. generalize (get f0). revert i.
  induction n as [| n IH]; intros i v; cbn [for_count]; [reflexivity |].
  rewrite Hb. destruct (body i v) as [v' | |]; cbn [bind]; try reflexivity.
  apply IH.
Qed.

Lemma zip_with_take_short {A B C : Type} (f : A -> B -> C) (l : list A)
    (k : list B) (n : nat) :
  (length k <= n)%nat -> zip_with f (take n l) k = zip_with f l k.
Proof.
  revert k n. induction l as [| x l IH]; intros k n H.
  - rewrite take_nil. reflexivity.
  - destruct n as [| n], k as [| y k]; cbn in *; try reflexivity; try lia.
    f_equal. apply IH. lia.
Qed.

(** A loop over rows whose body takes the accumulator [arr] of the
    record one step further. *)
Lemma for_each_accumulate {F V A : Type} (arr : F -> V)
    (g : Z -> F -> outcome F) (Inv : F -> Prop) (R : Z -> A -> Prop)
    (step : V -> A -> V) :
  (forall row ref f, R row ref -> Inv f ->
     exists f', g row f = Ok f' /\ Inv f' /\ arr f' = step (arr f) ref) ->
  forall rows refs f,
    Forall2 R rows refs -> Inv f ->
    exists f',
      for_each g rows f = Ok f' /\ Inv f' /\
      arr f' = fold_left step refs (arr f).
Proof.
  intros Hg rows refs f H. revert f.
  induction H as [| row ref rows refs HR H IH]; intros f Hf.
  - exists f. auto.
  - destruct (Hg row ref f HR Hf) as (f1 & E1 & Hf1 & A1).
    destruct (IH f1 Hf1) as (f' & E' & Hf' & A').
    exists f'. cbn [for_each fold_left]. rewrite E1. cbn [bind].
    split; [exact E' |]. split; [exact Hf' |]. rewrite A', A1. reflexivity.
Qed.

(** Both sides run the same steps, bound in a different order. *)
Ltac bind_cases :=
  repeat (match goal with
          | |- bind ?m _ = _ => destruct m; cbn [bind]
          end);
  reflexivity.

Section DirectValues.
Context {double : Type} {AR : Arith double} {CO : Collaborators double}.

(** The loop of [DirectLocalAccumulation_] that takes the offset of the
    center of the query box from a reference point. *)
Lemma centroid_offsets (rset : mat double) (row_num : Z)
    (ref c v0 : vec double) (k : nat) :
  col rset row_num = Ok ref ->
  (k <= length ref)%nat -> (k <= length c)%nat -> (k <= length v0)%nat ->
  for_count k 0 (fun d v =>
    let* cd := at_ c d in
    let* x := mat_at rset d row_num in
    put v d (sub cd x)) v0
  = Ok (zip_with sub (take k c) (take k ref) ++ drop k v0).
Proof.
  intros Ec. induction k as [| k IH]; intros Lr Lc Lv.
  - rewrite drop_0. reflexivity.
  - rewrite for_count_snoc, IH by lia. cbn [bind]. rewrite Z.add_0_l.
    destruct (lookup_lt_is_Some_2 ref k) as [a Ea]; [lia |].
    destruct (lookup_lt_is_Some_2 c k) as [b Eb]; [lia |].
    destruct (lookup_lt_is_Some_2 v0 k) as [w Ev]; [lia |].
    rewrite (at_nat _ _ _ Eb). cbn [bind].
    rewrite (mat_at_col _ _ _ _ Ec), (at_nat _ _ _ Ea). cbn [bind].
    assert (Lz : length (zip_with sub (take k c) (take k ref)) = k)
      by (rewrite length_zip_with, !length_take; lia).
    rewrite put_nat by (rewrite length_app, length_drop; lia).
    f_equal. rewrite insert_app_r_alt by lia.
    rewrite Lz, Nat.sub_diag, (drop_S _ _ _ Ev). cbn [insert list_insert].
    rewrite (take_S_r _ _ _ Ea), (take_S_r _ _ _ Eb).
    rewrite zip_with_app by (rewrite !length_take; lia).
    rewrite <- app_assoc. reflexivity.
Qed.

(** The loop that adds the products of two vectors to a third, entry by
    entry. *)
Lemma accumulate_loop (c t arr : vec double) (k : nat) :
  (k <= length arr)%nat -> (k <= length c)%nat -> (k <= length t)%nat ->
  for_count k 0 (fun j arr =>
    let* a := at_ arr j in
    let* cj := at_ c j in
    let* tj := at_ t j in
    put arr j (add a (mul cj tj))) arr
  = Ok (zip_with add (take k arr) (zip_with mul (take k c) (take k t))
        ++ drop k arr).
Proof.
  induction k as [| k IH]; intros La Lc Lt.
  - rewrite drop_0. reflexivity.
  - rewrite for_count_snoc, IH by lia. cbn [bind]. rewrite Z.add_0_l.
    destruct (lookup_lt_is_Some_2 arr k) as [a Ea]; [lia |].
    destruct (lookup_lt_is_Some_2 c k) as [cj Ec]; [lia |].
    destruct (lookup_lt_is_Some_2 t k) as [tj Et]; [lia |].
    assert (Lz : length (zip_with add (take k arr)
                           (zip_with mul (take k c) (take k t))) = k)
      by (rewrite !length_zip_with, !length_take; lia).
    rewrite (at_nat _ k a).
    2:{ rewrite lookup_app_r by lia. rewrite Lz, Nat.sub_diag.
        rewrite lookup_drop, Nat.add_0_r. exact Ea. }
    cbn [bind]. rewrite (at_nat _ _ _ Ec). cbn [bind].
    rewrite (at_nat _ _ _ Et). cbn [bind].
    rewrite put_nat by (rewrite length_app, length_drop; lia).
    f_equal. rewrite insert_app_r_alt by lia.
    rewrite Lz, Nat.sub_diag, (drop_S _ _ _ Ea). cbn [insert list_insert].
    rewrite (take_S_r _ _ _ Ea), (take_S_r _ _ _ Ec), (take_S_r _ _ _ Et).
    rewrite !zip_with_app
      by (rewrite ?length_zip_with, !length_take; lia).
    rewrite <- app_assoc. reflexivity.
Qed.

Lemma df_set_x_r_minus_x_Q_id (f : @direct_frame double) :
  df_set_x_r_minus_x_Q f (df_x_r_minus_x_Q f) = f.
Proof. destruct f. reflexivity. Qed.

Lemma df_set_hermite_map_id (f : @direct_frame double) :
  df_set_hermite_map f (df_hermite_map f) = f.
Proof. destruct f. reflexivity. Qed.

Lemma df_set_arr_id (f : @direct_frame double) :
  df_set_arr f (df_arr f) = f.
Proof. destruct f. reflexivity. Qed.

(** One reference row of [DirectLocalAccumulation_]: the products of
    the Hermite functions at the scaled offset of the center from the
    reference, times the factors, are added to [arr]. *)
Lemma direct_row (this : FGTKde) (p_alpha totalnumcoeffs : Z) (dim : nat)
    (dest_hrcentroid factors : vec double) (bandwidth : double)
    (row_num : Z) (ref : vec double) (f : @direct_frame double) :
  1 <= p_alpha -> totalnumcoeffs = p_alpha ^ Z.of_nat dim ->
  col (rset_ this) row_num = Ok ref -> length ref = dim ->
  length dest_hrcentroid = dim -> totalnumcoeffs <= size factors ->
  length (df_x_r_minus_x_Q f) = dim ->
  mat_shape (df_hermite_map f) dim (Z.to_nat p_alpha) ->
  size (df_arrtmp f) = totalnumcoeffs -> size (df_arr f) = totalnumcoeffs ->
  exists f',
    (let* f :=
       for_range 0 (Z.of_nat dim) (fun d f =>
         let* c := at_ dest_hrcentroid d in
         let* x := mat_at (rset_ this) d row_num in
         let* v := put (df_x_r_minus_x_Q f) d (sub c x) in
         Ok (df_set_x_r_minus_x_Q f v)) f in
     let* f :=
       for_range 0 (Z.of_nat dim) (fun d f =>
         let* x := at_ (df_x_r_minus_x_Q f) d in
         let* hermite_map :=
           hermite_row p_alpha (p_alpha - 1) x bandwidth d
             (df_hermite_map f) in
         Ok (df_set_hermite_map f hermite_map)) f in
     let* arrtmp := put (df_arrtmp f) 0 (of_index 1) in
     let f := df_set_arrtmp f arrtmp in
     let* arrtmp :=
       (if p_alpha >? 1
        then hermite_sweep totalnumcoeffs p_alpha (df_hermite_map f)
               (df_arrtmp f)
        else hermite_order0 (Z.of_nat dim) (df_hermite_map f)
               (df_arrtmp f)) in
     let f := df_set_arrtmp f arrtmp in
     for_range 0 totalnumcoeffs (fun j f =>
       let* a := at_ (df_arr f) j in
       let* c := at_ factors j in
       let* t := at_ (df_arrtmp f) j in
       let* arr := put (df_arr f) j (add a (mul c t)) in
       Ok (df_set_arr f arr)) f)
    = Ok f' /\
    df_locexps f' = df_locexps f /\
    length (df_x_r_minus_x_Q f') = dim /\
    mat_shape (df_hermite_map f') dim (Z.to_nat p_alpha) /\
    size (df_arrtmp f') = totalnumcoeffs /\
    df_arr f'
    = zip_with add (df_arr f)
        (zip_with mul factors
           (hermite_table (Z.to_nat p_alpha)
              (map (fun x => div x bandwidth)
                 (zip_with sub dest_hrcentroid ref))
              (of_index 1))).
Proof.
  intros Hp HT Ec Lr Lc Lf Lx Hs Lt La. unfold size in Lf, Lt, La.
  assert (HT1 : 1 <= totalnumcoeffs)
    by (pose proof (Z.pow_pos_nonneg p_alpha (Z.of_nat dim)); lia).
  (* the offsets *)
  rewrite for_range_nat.
  rewrite (for_count_lift df_x_r_minus_x_Q df_set_x_r_minus_x_Q f
             (fun d v =>
                let* c := at_ dest_hrcentroid d in
                let* x := mat_at (rset_ this) d row_num in
                put v d (sub c x))
             _ (df_set_x_r_minus_x_Q_id f)).
  2:{ intros i v. cbn [df_x_r_minus_x_Q df_set_x_r_minus_x_Q].
      bind_cases. }
  rewrite (centroid_offsets _ _ ref dest_hrcentroid _ dim Ec) by lia.
  cbn [bind]. rewrite drop_ge, app_nil_r, !take_ge by lia.
  set (xs := zip_with sub dest_hrcentroid ref).
  assert (Lxs : length xs = dim)
    by (unfold xs; rewrite length_zip_with; lia).
  set (f1 := df_set_x_r_minus_x_Q f xs).
  (* the Hermite functions *)
  rewrite for_range_nat.
  rewrite (for_count_lift df_hermite_map df_set_hermite_map f1
             (fun d hm =>
                let* x := at_ xs d in
                hermite_row p_alpha (p_alpha - 1) x bandwidth d hm)
             _ (df_set_hermite_map_id f1)).
  2:{ intros i hm.
      cbn [df_x_r_minus_x_Q df_hermite_map df_set_hermite_map
           df_set_x_r_minus_x_Q f1].
      bind_cases. }
  rewrite <- Lxs in Hs.
  pose proof (hermite_rows_fill p_alpha xs bandwidth (df_hermite_map f)
                Hp Hs) as Hrows.
  unfold size in Hrows. rewrite for_range_nat in Hrows.
  rewrite Lxs in Hrows, Hs.
  apply returns_inv in Hrows as (hm & Ehm & Shm & Vhm).
  cbn [df_hermite_map df_set_x_r_minus_x_Q f1].
  rewrite Ehm. cbn [bind].
  set (cs := map (fun x => div x bandwidth) xs).
  assert (Lcs : length cs = dim) by (unfold cs; rewrite length_map; exact Lxs).
  assert (Vcs : forall d c k, cs !! d = Some c ->
                  (k < Z.to_nat p_alpha)%nat ->
                  mat_at hm (Z.of_nat d) (Z.of_nat k) = Ok (hermite_fn c k)).
  { intros d0 c k Ec' Hk. unfold cs in Ec'.
    change (map ?g ?l) with (g <$> l) in Ec'.
    apply list_lookup_fmap_Some in Ec' as (x & -> & Ex).
    apply (Vhm d0 x k Ex Hk). }
  (* the seed *)
  cbn [df_arrtmp df_set_hermite_map df_set_x_r_minus_x_Q f1].
  rewrite put_in_range by (unfold size; lia).
  cbn [bind]. change (Z.to_nat 0) with 0%nat. cbv zeta.
  cbn [df_arrtmp df_hermite_map df_set_arrtmp df_set_hermite_map
       df_set_x_r_minus_x_Q df_locexps df_arr df_x_r_minus_x_Q].
  set (arr1 := <[0%nat := of_index 1]> (df_arrtmp f)).
  assert (L1 : length arr1 = Z.to_nat totalnumcoeffs)
    by (unfold arr1; rewrite length_insert; lia).
  assert (E1 : arr1 !! 0%nat = Some (of_index 1))
    by (unfold arr1; apply list_lookup_insert_eq; lia).
  (* the sweep *)
  set (table := hermite_table (Z.to_nat p_alpha) cs (of_index 1)).
  assert (Es : (if p_alpha >? 1
                then hermite_sweep totalnumcoeffs p_alpha hm arr1
                else hermite_order0 (Z.of_nat dim) hm arr1)
               = Ok table).
  { destruct (Z.gtb_spec p_alpha 1) as [Hp1 | Hp1].
    - assert (Hsz : size cs = Z.of_nat dim) by (unfold size; lia).
      rewrite HT, <- Hsz.
      apply hermite_sweep_table; [lia | exact Vcs | | exact E1].
      unfold size at 1. rewrite L1, Hsz, <- HT. lia.
    - assert (p_alpha = 1) by lia. subst p_alpha.
      rewrite Z.pow_1_l in HT by lia. subst totalnumcoeffs.
      destruct arr1 as [| a [| b arr]]; try discriminate.
      injection E1 as ->.
      unfold hermite_order0. rewrite for_range_nat.
      rewrite <- Lcs.
      rewrite (hermite_order0_table hm cs (of_index 1) (length cs)).
      + rewrite take_ge by lia. reflexivity.
      + intros d0 c Ec'. apply (Vcs d0 c 0%nat Ec'). lia.
      + lia. }
  match goal with
  | |- exists f', bind ?m _ = _ /\ _ =>
      replace m with (Ok table) by (symmetry; exact Es)
  end.
  cbn [bind].
  assert (Ltab : length table = Z.to_nat totalnumcoeffs).
  { unfold table. rewrite hermite_table_axis, axis_table_length.
    rewrite length_map, Lcs. apply Nat2Z.inj.
    rewrite Nat2Z.inj_pow, !Z2Nat.id by lia. symmetry. exact HT. }
  (* the accumulation *)
  set (f3 := {| df_locexps := df_locexps f; df_arr := df_arr f;
                df_arrtmp := table; df_hermite_map := hm;
                df_x_r_minus_x_Q := xs |}).
  unfold for_range. rewrite Z.sub_0_r.
  rewrite (for_count_lift df_arr df_set_arr f3
             (fun j arr =>
                let* a := at_ arr j in
                let* c := at_ factors j in
                let* t := at_ table j in
                put arr j (add a (mul c t)))
             _ (df_set_arr_id f3)).
  2:{ intros i v. cbn [df_arr df_arrtmp df_set_arr f3]. bind_cases. }
  cbn [df_arr f3].
  rewrite accumulate_loop by lia. cbn [bind].
  rewrite drop_ge, app_nil_r by lia.
  rewrite (take_ge (df_arr f)), (take_ge table) by lia.
  rewrite zip_with_take_short by lia.
  eexists. split; [reflexivity |].
  cbn [df_set_arr df_locexps df_x_r_minus_x_Q df_hermite_map df_arrtmp
       df_arr f3].
  split; [reflexivity |]. split; [exact Lxs |]. split; [exact Shm |].
  split; [unfold size; lia | reflexivity].
Qed.

(** [DirectLocalAccumulation_] accumulates the local moments of a query
    box in its vector [arr] and leaves the matrix [locexps] as it was.
    For an order [p_alpha >= 1] and [totalnumcoeffs = p_alpha ^ dim], a
    column of the box of [totalnumcoeffs] entries, a center of [dim]
    coordinates, reference rows that are columns of [dim] entries of the
    reference set, and at least [totalnumcoeffs] signed inverse
    factorials, it returns; [arr] is the column plus, for every
    reference in turn and entry by entry, the signed inverse factorial
    times the product of the Hermite functions at
    [(x_Q - x_r) / sqrt(delta)]. *)
Theorem DirectLocalAccumulation_sums (this : FGTKde) (rows : list Z)
    (query_box_num : Z) (locexps : mat double) (delta : double)
    (dest_hrcentroid : vec double) (p_alpha totalnumcoeffs : Z)
    (arr0 : vec double) (references : list (vec double)) :
  let dim := n_rows (rset_ this) in
  1 <= p_alpha -> 0 <= dim -> totalnumcoeffs = p_alpha ^ dim ->
  col locexps query_box_num = Ok arr0 -> size arr0 = totalnumcoeffs ->
  size dest_hrcentroid = dim ->
  Forall2 (fun r c => col (rset_ this) r = Ok c /\ size c = dim)
    rows references ->
  totalnumcoeffs <= size (neg_inv_multiindex_factorials (msea_ this)) ->
  exists f,
    DirectLocalAccumulation_ this rows query_box_num locexps delta
      dest_hrcentroid p_alpha totalnumcoeffs = Ok f /\
    df_locexps f = locexps /\
    df_arr f
    = local_sums (Z.to_nat p_alpha) (sqrt delta)
        (neg_inv_multiindex_factorials (msea_ this)) dest_hrcentroid
        references arr0.
Proof.
  intros dim Hp Hd HT Ecol La0 Lc F Lf.
  unfold DirectLocalAccumulation_. fold dim. cbv zeta.
  rewrite Ecol. cbn [bind].
  set (dimn := Z.to_nat dim).
  assert (Edim : dim = Z.of_nat dimn) by (unfold dimn; lia).
  rewrite Edim in *. clearbody dimn. clear Hd.
  set (factors := neg_inv_multiindex_factorials (msea_ this)) in *.
  assert (HT1 : 1 <= totalnumcoeffs)
    by (pose proof (Z.pow_pos_nonneg p_alpha (Z.of_nat dimn)); lia).
  unfold size in La0, Lc.
  set (Inv := fun f : @direct_frame double =>
    df_locexps f = locexps /\
    length (df_x_r_minus_x_Q f) = dimn /\
    mat_shape (df_hermite_map f) dimn (Z.to_nat p_alpha) /\
    size (df_arrtmp f) = totalnumcoeffs /\
    size (df_arr f) = totalnumcoeffs).
  set (step := fun (acc ref : vec double) =>
    zip_with add acc
      (zip_with mul factors
         (hermite_table (Z.to_nat p_alpha)
            (map (fun x => div x (sqrt delta))
               (zip_with sub dest_hrcentroid ref))
            (of_index 1)))).
  erewrite for_range_each.
  match goal with
  | |- exists f, for_each ?g rows ?f0 = _ /\ _ =>
      destruct (for_each_accumulate df_arr g Inv
                  (fun r c => col (rset_ this) r = Ok c /\
                              size c = Z.of_nat dimn) step)
        with (rows := rows) (refs := references) (f := f0)
        as (f' & E & (I1 & _) & A)
  end.
  - intros row ref f [Er Lr] (I1 & I2 & I3 & I4 & I5).
    unfold size in Lr.
    destruct (direct_row this p_alpha totalnumcoeffs dimn dest_hrcentroid
                factors (sqrt delta) row ref f)
      as (f' & E' & M' & X' & H' & T' & A');
      [exact Hp | exact HT | exact Er | lia | lia | exact Lf | exact I2
      | exact I3 | exact I4 | exact I5 |].
    exists f'. split; [exact E' |]. split; [| exact A'].
    unfold Inv. rewrite M'. split; [exact I1 |]. split; [exact X' |].
    split; [exact H' |]. split; [exact T' |].
    rewrite A'. unfold size in *.
    rewrite !length_zip_with.
    assert (Ltab : length (hermite_table (Z.to_nat p_alpha)
                             (map (fun x => div x (sqrt delta))
                                (zip_with sub dest_hrcentroid ref))
                             (of_index 1))
                   = Z.to_nat totalnumcoeffs).
    { rewrite hermite_table_axis, axis_table_length.
      rewrite !length_map, length_zip_with.
      apply Nat2Z.inj. rewrite Nat2Z.inj_pow, !Z2Nat.id by lia.
      rewrite HT. f_equal. lia. }
    rewrite Ltab. lia.
  - exact F.
  - unfold Inv.
    cbn [df_locexps df_x_r_minus_x_Q df_hermite_map df_arrtmp df_arr].
    split; [reflexivity |].
    split; [unfold vec_new; rewrite repeat_length; lia |].
    split; [| split; [unfold size, vec_new; rewrite repeat_length; lia
                     | unfold size; lia]].
    unfold mat_shape, mat_new. cbn [columns].
    split; [apply repeat_length |].
    apply List.Forall_forall. intros c Hc. apply repeat_spec in Hc.
    subst c. unfold vec_new. rewrite repeat_length. lia.
  - exists f'. split; [exact E |]. split; [exact I1 |]. exact A.
Qed.

End DirectValues.

Module RealDirect.
Import RealModel RealFacts RealOrder2.

Lemma DirectLocalAccumulation_sums_witness :
  exists f,
    DirectLocalAccumulation_ four_references_order2 [0; 1; 2; 3] 0 zero_2x1
      (/ 8)%R [0%R] 2 2 = Ok f /\
    df_locexps f = zero_2x1 /\
    df_arr f
    = local_sums (Z.to_nat 2) (sqrt (/ 8)%R)
        (neg_inv_multiindex_factorials (msea_ four_references_order2))
        [0%R] [[0%R]; [(/ 64)%R]; [0%R]; [(/ 64)%R]] [0%R; 0%R].
Proof.
  apply (DirectLocalAccumulation_sums four_references_order2 [0; 1; 2; 3] 0
           zero_2x1 (/ 8)%R [0%R] 2 2 [0%R; 0%R]
           [[0%R]; [(/ 64)%R]; [0%R]; [(/ 64)%R]]);
    try reflexivity; try (cbn; lia).
  repeat constructor.
Defined.

End RealDirect.

(** ** The main pass when every box is handled directly *)

Section DirectRegime.
Context {double : Type} {AR : Arith double} {CO : Collaborators double}.

Lemma kernel_sum_app (delta : double) (query : vec double)
    (l1 l2 : list (vec double)) (d : double) :
  kernel_sum delta query (l1 ++ l2) d
  = kernel_sum delta query l2 (kernel_sum delta query l1 d).
Proof. unfold kernel_sum. apply fold_left_app. Qed.

Lemma col_in_range (m : mat double) (j : Z) :
  0 <= j < n_cols m -> exists c, col m j = Ok c.
Proof.
  intros Hj. unfold col.
  destruct (returns_inv _ _ (returns_at (columns m) j Hj)) as (c & E & _).
  eauto.
Qed.

(** [FinalizeSum_] when no box has more than [nfmax] references and box
    0 has at most [nlmax] queries. *)
Lemma FinalizeSum_direct (this : FGTKde) (delta : double)
    (nterms nallbx : Z) (nsides : list Z)
    (sidelengths mincoords : vec double) (locexp : mat double)
    (nfmax nlmax kdis : Z) (center : mat double)
    (queries_assigned references_assigned : list (list Z))
    (mcoeffs : mat double) (a : assignment) (rows0 : list Z)
    (references : list (list (vec double))) :
  let dim := n_rows (qset_ this) in
  Assign_ this nallbx nsides sidelengths mincoords center queries_assigned
    references_assigned = Ok a ->
  size (as_references a) = nallbx -> size (as_queries a) = nallbx ->
  Forall (fun rows => size rows <= nfmax) (as_references a) ->
  Forall2 (Forall2 (fun r c => col (rset_ this) r = Ok c))
    (as_references a) references ->
  as_queries a !! 0%nat = Some rows0 -> size rows0 <= nlmax ->
  1 <= nterms -> 0 <= dim -> mat_wf (qset_ this) ->
  mat_wf center -> n_rows center = dim -> nallbx <= n_cols center ->
  mat_wf locexp -> n_rows locexp = nterms ^ dim ->
  nallbx <= n_cols locexp ->
  List.NoDup (concat (as_queries a)) ->
  Forall (Forall (fun q => 0 <= q < n_cols (qset_ this) /\
                           q < size (densities_ this))) (as_queries a) ->
  exists s,
    FinalizeSum_ this delta nterms nallbx nsides sidelengths mincoords
      locexp nfmax nlmax kdis center queries_assigned references_assigned
      mcoeffs = Ok s /\
    same_but_densities this (ss_this s) /\
    (forall q query d, In q rows0 ->
       col (qset_ this) q = Ok query ->
       at_ (densities_ this) q = Ok d ->
       at_ (densities_ (ss_this s)) q
       = Ok (kernel_sum delta query (concat references) d)) /\
    (forall i rows q query x_Q lcoeffs d, (1 <= i)%nat ->
       as_queries a !! i = Some rows -> In q rows ->
       col (qset_ this) q = Ok query ->
       col center (Z.of_nat i) = Ok x_Q ->
       col locexp (Z.of_nat i) = Ok lcoeffs ->
       at_ (densities_ this) q = Ok d ->
       at_ (densities_ (ss_this s)) q
       = Ok (if size rows <=? nlmax then d
             else add d (local_value (Z.to_nat nterms) (sqrt delta) lcoeffs
                           x_Q query))) /\
    (forall q, ~ In q (concat (as_queries a)) ->
       at_ (densities_ (ss_this s)) q = at_ (densities_ this) q).
Proof.
  intros dim Ea Lr Lq Hnf F2 E0 Hnl Hp Hd Wq Wc Rc Nc Wl Rl Nl N V.
  pose proof (Assign_center_frame this nallbx nsides sidelengths mincoords
                center queries_assigned references_assigned) as Hc.
  rewrite Ea in Hc. cbn [ensures] in Hc.
  destruct (concat_NoDup_boxes _ N) as [Nbox Ndisj].
  assert (N0 : List.NoDup rows0) by (apply (Nbox 0%nat); exact E0).
  assert (V0 : Forall (fun q => 0 <= q < n_cols (qset_ this) /\
                                q < size (densities_ this)) rows0)
    by (apply (Forall_lookup_1 _ _ _ _ V E0)).
  assert (Hn0 : 0 <= nallbx) by (rewrite <- Lr; apply size_nonneg).
  unfold FinalizeSum_. rewrite Ea. cbn [bind].
  set (P := fun (i : Z) (s : sum_state) =>
              ss_locexp s = locexp /\ ss_center s = center /\
              ss_queries_assigned s = as_queries a /\
              ss_references_assigned s = as_references a /\
              same_but_densities this (ss_this s) /\
              (forall q query d, In q rows0 ->
                 col (qset_ this) q = Ok query ->
                 at_ (densities_ this) q = Ok d ->
                 at_ (densities_ (ss_this s)) q
                 = Ok (kernel_sum delta query
                         (concat (take (Z.to_nat i) references)) d)) /\
              (forall q, ~ In q rows0 ->
                 at_ (densities_ (ss_this s)) q = at_ (densities_ this) q)).
  match goal with
  | |- context [bind (for_range 0 nallbx ?f ?s0) _] =>
      destruct (returns_inv (P nallbx) (for_range 0 nallbx f s0))
        as (s & E & Hs)
  end.
  { apply (returns_for_range P); [exact Hn0 | |].
    2:{ unfold P. cbn. repeat split; auto. }
    intros i s Hi (I1 & I2 & I3 & I4 & I5 & I6 & I7). cbv beta.
    rewrite I4.
    destruct (returns_inv _ _ (returns_at (as_references a) i
                                 ltac:(lia))) as (refs & Er & Lk).
    rewrite Er. cbn [bind].
    destruct (Forall2_lookup_l _ _ _ _ _ F2 Lk) as (cols & Lc & Fc).
    assert (T : take (Z.to_nat (i + 1)) references
                = take (Z.to_nat i) references ++ [cols]).
    { replace (Z.to_nat (i + 1)) with (Datatypes.S (Z.to_nat i)) by lia.
      apply take_S_r. exact Lc. }
    destruct (size refs <=? 0) eqn:Hz.
    - (* an empty box *)
      apply Z.leb_le in Hz.
      assert (Hcols : cols = []).
      { destruct Fc as [| r c refs' cols' _ _]; [reflexivity |].
        unfold size in Hz. cbn in Hz. lia. }
      rewrite Hcols in T.
      cbn [returns].
      refine (conj I1 (conj I2 (conj I3 (conj I4 (conj I5 (conj _ I7)))))).
      intros q query d Hq Eq Ed. rewrite T, concat_app. cbn [concat].
      rewrite !app_nil_r. apply (I6 q query d Hq Eq Ed).
    - pose proof (Forall_lookup_1 _ _ _ _ Hnf Lk) as Hle.
      cbv beta in Hle. apply Z.leb_le in Hle. rewrite Hle.
      rewrite GridFacts.MakeNeighbors_always_box0. cbn [bind app].
      change (size [0]) with 1. unfold for_range.
      change (Z.to_nat (1 - 0)) with 1%nat. cbn [for_count].
      change (at_ [0] 0) with (@Ok Z 0). cbn [bind].
      rewrite I3.
      rewrite (proj2 (at_Ok (as_queries a) 0 rows0))
        by (split; [lia | exact E0]).
      cbn [bind].
      apply Z.leb_le in Hnl. rewrite Hnl.
      destruct I5 as (S1 & S2 & S3 & S4 & S5 & S6).
      destruct (direct_interaction_adds (ss_this s) delta rows0 refs cols)
        as (this' & E' & S' & V' & U').
      { exact N0. }
      { rewrite S1, S6. exact V0. }
      { rewrite S2. exact Fc. }
      rewrite E'. cbn [bind returns].
      unfold P, ss_set_this. cbn [ss_locexp ss_center ss_queries_assigned
        ss_references_assigned ss_this].
      refine (conj I1 (conj I2 (conj I3 (conj I4 (conj _ (conj _ _)))))).
      + apply (same_but_densities_trans this (ss_this s) this');
          [repeat split; assumption | exact S'].
      + intros q query d Hq Eq Ed.
        rewrite T, concat_app. cbn [concat]. rewrite app_nil_r.
        rewrite kernel_sum_app.
        apply (V' q query _ Hq); [rewrite S1; exact Eq |].
        apply (I6 q query d Hq Eq Ed).
      + intros q Hq. rewrite (U' q Hq). apply (I7 q Hq). }
  rewrite E. cbn [bind].
  destruct Hs as (I1 & I2 & I3 & I4 & I5 & I6 & I7).
  rewrite I1, I2, I3.
  destruct I5 as (S1 & S2 & S3 & S4 & S5 & S6).
  assert (Hpow : ipow nterms dim = nterms ^ dim).
  { unfold ipow. destruct (Z.ltb_spec dim 0); [lia | reflexivity]. }
  pose proof (EvaluateLocalExpansionForAllQueries_sum (ss_this s) delta nterms
                nallbx nsides locexp nlmax (as_queries a) center
                (ipow nterms dim)) as G.
  cbv zeta in G. rewrite S1, S6 in G. fold dim in G.
  destruct (G Hp Hd Hpow Wq Lq Wc Rc Nc Wl (eq_trans Rl (eq_sym Hpow)) Nl
              N V) as (this' & E' & S' & V' & U').
  fold dim. rewrite E'. cbn [bind].
  exists (ss_set_this s this'). split; [reflexivity |].
  cbn [ss_set_this ss_this].
  split.
  { apply (same_but_densities_trans this (ss_this s) this');
      [repeat split; assumption | exact S']. }
  rewrite take_ge in I6
    by (apply Forall2_length in F2; unfold size in Lr; lia).
  split; [| split].
  - intros q query d Hq Eq Ed.
    destruct (col_in_range center 0) as [x_Q Ex]; [| ].
    { assert (0 < nallbx); [| lia].
      apply lookup_lt_Some in E0. unfold size in Lq. lia. }
    destruct (col_in_range locexp 0) as [lc El].
    { assert (0 < nallbx); [| lia].
      apply lookup_lt_Some in E0. unfold size in Lq. lia. }
    rewrite (V' 0%nat rows0 q query x_Q lc _ E0 Hq Eq Ex El
               (I6 q query d Hq Eq Ed)).
    apply Z.leb_le in Hnl. rewrite Hnl. reflexivity.
  - intros i rows q query x_Q lcoeffs d Hi Ei Hq Eq Ex El Ed.
    apply (V' i rows q query x_Q lcoeffs d Ei Hq); auto.
    rewrite I7; [exact Ed |].
      intros Hq0.
      pose proof (Ndisj 0%nat i rows0 rows q E0 Ei Hq0 Hq). lia.
  - intros q Hq. rewrite (U' q Hq). apply I7.
    intros Hq0. apply Hq. apply in_concat. exists rows0.
    split; [apply (lookup_In _ 0%nat); exact E0 | exact Hq0].
Qed.

(** [FinalizeSum_], when [Assign_] has returned the box lists, no box
    has more than [nfmax] references and box 0 has at most [nlmax]
    queries, handles every box directly.  It returns; the density of
    every query of box 0 has grown by the Gaussian terms
    [exp(-|q - r|^2 / delta)] of all the references, added box after box
    and, within a box, one after the other; the density of a query of
    another box has grown by the value of the local expansion of its box
    when the box has more than [nlmax] queries, and is what it was
    otherwise; nothing else of the object has changed.  (Every box has
    box 0 for its only neighbor, as [MakeNeighbors_] computes the
    neighbors.) *)
Theorem FinalizeSum_direct_regime (this : FGTKde) (delta : double)
    (nterms nallbx : Z) (nsides : list Z)
    (sidelengths mincoords : vec double) (locexp : mat double)
    (nfmax nlmax kdis : Z) (center : mat double)
    (queries_assigned references_assigned : list (list Z))
    (mcoeffs : mat double) (a : assignment) (rows0 : list Z)
    (references : list (list (vec double))) :
  let dim := n_rows (qset_ this) in
  Assign_ this nallbx nsides sidelengths mincoords center queries_assigned
    references_assigned = Ok a ->
  size (as_references a) = nallbx -> size (as_queries a) = nallbx ->
  Forall (fun rows => size rows <= nfmax) (as_references a) ->
  Forall2 (Forall2 (fun r c => col (rset_ this) r = Ok c))
    (as_references a) references ->
  as_queries a !! 0%nat = Some rows0 -> size rows0 <= nlmax ->
  1 <= nterms -> 0 <= dim -> mat_wf (qset_ this) ->
  mat_wf center -> n_rows center = dim -> nallbx <= n_cols center ->
  mat_wf locexp -> n_rows locexp = nterms ^ dim ->
  nallbx <= n_cols locexp ->
  List.NoDup (concat (as_queries a)) ->
  Forall (Forall (fun q => 0 <= q < n_cols (qset_ this) /\
                           q < size (densities_ this))) (as_queries a) ->
  exists s,
    FinalizeSum_ this delta nterms nallbx nsides sidelengths mincoords
      locexp nfmax nlmax kdis center queries_assigned references_assigned
      mcoeffs = Ok s /\
    same_but_densities this (ss_this s) /\
    (forall q query d, In q rows0 ->
       col (qset_ this) q = Ok query ->
       at_ (densities_ this) q = Ok d ->
       at_ (densities_ (ss_this s)) q
       = Ok (kernel_sum delta query (concat references) d)) /\
    (forall i rows q query x_Q lcoeffs d, (1 <= i)%nat ->
       as_queries a !! i = Some rows -> In q rows ->
       col (qset_ this) q = Ok query ->
       col center (Z.of_nat i) = Ok x_Q ->
       col locexp (Z.of_nat i) = Ok lcoeffs ->
       at_ (densities_ this) q = Ok d ->
       at_ (densities_ (ss_this s)) q
       = Ok (if size rows <=? nlmax then d
             else add d (local_value (Z.to_nat nterms) (sqrt delta) lcoeffs
                           x_Q query))) /\
    (forall q, ~ In q (concat (as_queries a)) ->
       at_ (densities_ (ss_this s)) q = at_ (densities_ this) q).
Proof.
  intros. eapply FinalizeSum_direct; eassumption.
Qed.

End DirectRegime.

Module RealFinal.
Import RealModel RealFacts.

(** Both references and the query go to the one box. *)
Lemma Assign_one_query :
  Assign_ one_query 1 [1] [(/ 64)%R] [0%R] (center_1x1 0) [[]] [[]]
  = Ok {| as_center := center_1x1 0; as_queries := [[0]];
          as_references := [[0; 1]] |}.
Proof.
  unfold Assign_.
  cbv -[boxnum_of Rplus Rmult Rminus Rdiv Ropp Rinv IZR R_ne R_lt R_to_index
        R_sqrt.sqrt Rtrigo_def.exp Rpower.ln powerRZ Int_part PI Rabs].
  repeat (erewrite boxnum_of_one_box by reflexivity).
  real_eval. reflexivity.
Qed.

Lemma FinalizeSum_direct_regime_witness :
  exists s,
    FinalizeSum_ one_query (/ 8)%R 1 1 [1] [(/ 64)%R] [0%R] zero_1x1 3 3 1
      (center_1x1 0) [[]] [[]] zero_1x1 = Ok s /\
    same_but_densities one_query (ss_this s) /\
    (forall q query d, In q [0] ->
       col (qset_ one_query) q = Ok query ->
       at_ (densities_ one_query) q = Ok d ->
       at_ (densities_ (ss_this s)) q
       = Ok (kernel_sum (/ 8)%R query (concat [[[0%R]; [(/ 64)%R]]]) d)) /\
    (forall i rows q query x_Q lcoeffs d, (1 <= i)%nat ->
       [[0]] !! i = Some rows -> In q rows ->
       col (qset_ one_query) q = Ok query ->
       col (center_1x1 0) (Z.of_nat i) = Ok x_Q ->
       col zero_1x1 (Z.of_nat i) = Ok lcoeffs ->
       at_ (densities_ one_query) q = Ok d ->
       at_ (densities_ (ss_this s)) q
       = Ok (if size rows <=? 3 then d
             else add d (local_value (Z.to_nat 1) (sqrt (/ 8)%R) lcoeffs
                           x_Q query))) /\
    (forall q, ~ In q (concat [[0]]) ->
       at_ (densities_ (ss_this s)) q = at_ (densities_ one_query) q).
Proof.
  apply (FinalizeSum_direct_regime one_query (/ 8)%R 1 1 [1] [(/ 64)%R]
           [0%R] zero_1x1 3 3 1 (center_1x1 0) [[]] [[]] zero_1x1
           {| as_center := center_1x1 0; as_queries := [[0]];
              as_references := [[0; 1]] |} [0] [[[0%R]; [(/ 64)%R]]]);
    try reflexivity; try (cbn; lia); cbn [as_references as_queries].
  - exact Assign_one_query.
  - constructor; [unfold size; simpl; lia | constructor].
  - repeat constructor.
  - unfold size. simpl. lia.
  - repeat constructor.
  - repeat constructor.
  - repeat constructor.
  - repeat constructor; simpl; intuition discriminate.
  - repeat constructor; cbn; lia.
Defined.

End RealFinal.

(** * Where the scale of the estimates comes from *)

(** C10. With one density per query column, [NormalizeDensities_]
    returns the object with every density divided by
    [CalcNormConstant(D) * Nr], the kernel's normalisation constant for
    the dimension [D] of the query set times the number of reference
    columns, and nothing else changed.  Nothing before it in [Compute]
    refers to that constant: what [Compute] hands to
    [NormalizeDensities_] is one and the same for every choice of
    [CalcNormConstant].  The three steps of [FinalizeSum_] that write a
    density add sums that are not scaled: the direct interaction adds to
    the density of a query the terms [exp(-|q - r|^2 / delta)] of the
    references, one after the other; [EvaluateMultipoleExpansion_] adds
    the value of the Hermite expansion of the reference box whose
    coefficients are the column of [mcoeffsb];
    [EvaluateLocalExpansionForAllQueries_] adds, for the queries of a
    box with more than [nlmax] queries, the value of the polynomial
    whose coefficients are the column of [locexp], and nothing for the
    others.  Each of them returns, leaves the other densities as they
    were and changes nothing else of the object.  Put together, as at
    the end of [Compute]: when no box has more than [nfmax] references
    and box 0 has at most [nlmax] queries, [GaussTransform_] returns
    with the density of every query of box 0 grown by the terms
    [exp(-|q - r|^2 / delta)] of all the references, and the density of
    a query of another box grown by the value of the local expansion of
    its box, or left as it was; [NormalizeDensities_] then returns, and
    the estimate of a query of box 0 is that sum of terms divided by
    [CalcNormConstant(D) * Nr]. *)
Theorem normalization_is_the_only_scaling {double : Type} {AR : Arith double}
    {CO : Collaborators double} (this : FGTKde) :
  (forall NC : NormConstant double,
     size (densities_ this) = n_cols (qset_ this) ->
     NormalizeDensities_ this =
     Ok (set_densities this
           (map (fun x =>
                   div x (mul (CalcNormConstant (kernel_ this)
                                 (n_rows (qset_ this)))
                              (of_index (n_cols (rset_ this)))))
                (densities_ this)))) /\
  (forall fuel : nat,
   exists unnormalized : outcome FGTKde,
     forall NC : NormConstant double,
       Compute this fuel = bind unnormalized NormalizeDensities_) /\
  (forall (delta : double) (query_rows reference_rows : list Z)
          (references : list (vec double)),
     List.NoDup query_rows ->
     Forall (fun q => 0 <= q < n_cols (qset_ this) /\
                      q < size (densities_ this)) query_rows ->
     Forall2 (fun r c => col (rset_ this) r = Ok c)
       reference_rows references ->
     exists this',
       direct_interaction this delta query_rows reference_rows = Ok this' /\
       same_but_densities this this' /\
       (forall q query d, In q query_rows ->
          col (qset_ this) q = Ok query ->
          at_ (densities_ this) q = Ok d ->
          at_ (densities_ this') q
          = Ok (kernel_sum delta query references d)) /\
       (forall q, ~ In q query_rows ->
          at_ (densities_ this') q = at_ (densities_ this) q)) /\
  (forall (rows : list Z) (p_alpha totalnumcoeffs : Z)
          (mcoeffsb : mat double) (ref_box_num : Z)
          (bwsqd_times_2 : double) (ref_hrcentroid mcoeffs : vec double),
     let dim := n_rows (qset_ this) in
     1 <= p_alpha -> 0 <= dim -> totalnumcoeffs = p_alpha ^ dim ->
     mat_wf (qset_ this) -> size ref_hrcentroid = dim ->
     col mcoeffsb ref_box_num = Ok mcoeffs ->
     size mcoeffs = totalnumcoeffs ->
     List.NoDup rows ->
     Forall (fun q => 0 <= q < n_cols (qset_ this) /\
                      q < size (densities_ this)) rows ->
     exists this',
       EvaluateMultipoleExpansion_ this rows p_alpha totalnumcoeffs
         mcoeffsb ref_box_num bwsqd_times_2 ref_hrcentroid = Ok this' /\
       same_but_densities this this' /\
       (forall q query d, In q rows ->
          col (qset_ this) q = Ok query ->
          at_ (densities_ this) q = Ok d ->
          at_ (densities_ this') q
          = Ok (add d (multipole_value (Z.to_nat p_alpha)
                         (sqrt bwsqd_times_2) mcoeffs ref_hrcentroid
                         query))) /\
       (forall q, ~ In q rows ->
          at_ (densities_ this') q = at_ (densities_ this) q)) /\
  (forall (delta : double) (nterms nallbx : Z) (nsides : list Z)
          (locexp : mat double) (nlmax : Z)
          (queries_assigned : list (list Z)) (center : mat double)
          (totalnumcoeffs : Z),
     let dim := n_rows (qset_ this) in
     1 <= nterms -> 0 <= dim -> totalnumcoeffs = nterms ^ dim ->
     mat_wf (qset_ this) ->
     size queries_assigned = nallbx ->
     mat_wf center -> n_rows center = dim -> nallbx <= n_cols center ->
     mat_wf locexp -> n_rows locexp = totalnumcoeffs ->
     nallbx <= n_cols locexp ->
     List.NoDup (concat queries_assigned) ->
     Forall (Forall (fun q => 0 <= q < n_cols (qset_ this) /\
                              q < size (densities_ this)))
       queries_assigned ->
     exists this',
       EvaluateLocalExpansionForAllQueries_ this delta nterms nallbx nsides
         locexp nlmax queries_assigned center totalnumcoeffs = Ok this' /\
       same_but_densities this this' /\
       (forall i rows q query x_Q lcoeffs d,
          queries_assigned !! i = Some rows -> In q rows ->
          col (qset_ this) q = Ok query ->
          col center (Z.of_nat i) = Ok x_Q ->
          col locexp (Z.of_nat i) = Ok lcoeffs ->
          at_ (densities_ this) q = Ok d ->
          at_ (densities_ this') q
          = Ok (if size rows <=? nlmax then d
                else add d (local_value (Z.to_nat nterms) (sqrt delta)
                              lcoeffs x_Q query))) /\
       (forall q, ~ In q (concat queries_assigned) ->
          at_ (densities_ this') q = at_ (densities_ this) q)) /\
  (forall (NC : NormConstant double) (delta : double) (nterms nallbx : Z)
          (nsides : list Z) (sidelengths mincoords : vec double)
          (locexp center : mat double)
          (queries_assigned references_assigned : list (list Z))
          (mcoeffs : mat double) (a : assignment) (rows0 : list Z)
          (references : list (list (vec double))),
     let dim := n_rows (qset_ this) in
     let nfmax := ipow nterms (dim - 1) + 2 in
     let nlmax := nfmax in
     Assign_ this nallbx nsides sidelengths mincoords center
       queries_assigned references_assigned = Ok a ->
     size (as_references a) = nallbx -> size (as_queries a) = nallbx ->
     Forall (fun rows => size rows <= nfmax) (as_references a) ->
     Forall2 (Forall2 (fun r c => col (rset_ this) r = Ok c))
       (as_references a) references ->
     as_queries a !! 0%nat = Some rows0 -> size rows0 <= nlmax ->
     1 <= nterms -> 0 <= dim -> mat_wf (qset_ this) ->
     mat_wf center -> n_rows center = dim -> nallbx <= n_cols center ->
     mat_wf locexp -> n_rows locexp = nterms ^ dim ->
     nallbx <= n_cols locexp ->
     List.NoDup (concat (as_queries a)) ->
     Forall (Forall (fun q => 0 <= q < n_cols (qset_ this) /\
                              q < size (densities_ this)))
       (as_queries a) ->
     size (densities_ this) = n_cols (qset_ this) ->
     exists s this',
       GaussTransform_ this delta nterms nallbx nsides sidelengths mincoords
         locexp center queries_assigned references_assigned mcoeffs
       = Ok s /\
       same_but_densities this (ss_this s) /\
       (forall q query d, In q rows0 ->
          col (qset_ this) q = Ok query ->
          at_ (densities_ this) q = Ok d ->
          at_ (densities_ (ss_this s)) q
          = Ok (kernel_sum delta query (concat references) d)) /\
       (forall i rows q query x_Q lcoeffs d, (1 <= i)%nat ->
          as_queries a !! i = Some rows -> In q rows ->
          col (qset_ this) q = Ok query ->
          col center (Z.of_nat i) = Ok x_Q ->
          col locexp (Z.of_nat i) = Ok lcoeffs ->
          at_ (densities_ this) q = Ok d ->
          at_ (densities_ (ss_this s)) q
          = Ok (if size rows <=? nlmax then d
                else add d (local_value (Z.to_nat nterms) (sqrt delta)
                              lcoeffs x_Q query))) /\
       (forall q, ~ In q (concat (as_queries a)) ->
          at_ (densities_ (ss_this s)) q = at_ (densities_ this) q) /\
       NormalizeDensities_ (ss_this s) = Ok this' /\
       (forall q query d, In q rows0 ->
          col (qset_ this) q = Ok query ->
          at_ (densities_ this) q = Ok d ->
          at_ (densities_ this') q
          = Ok (div (kernel_sum delta query (concat references) d)
                  (mul (CalcNormConstant (kernel_ this) dim)
                       (of_index (n_cols (rset_ this))))))).
Proof.
  split; [| split; [| split; [| split; [| split]]]].
  - intros NC. apply NormalizeDensities_value.
  - intros fuel. eexists. intros NC. unfold Compute.
    match goal with
    | |- bind ?p (fun plan => bind (@?g plan) (fun s => _)) = _ =>
        instantiate (1 := bind p (fun plan =>
                               bind (g plan) (fun s => Ok (ss_this s))))
    end.
    destruct (FastGaussTransformPreprocess_ _ _ _ _ _) as [plan | |];
      cbn [bind]; try reflexivity.
    destruct (GaussTransform_ _ _ _ _ _ _ _ _ _ _ _ _) as [s | |];
      reflexivity.
  - intros delta query_rows reference_rows references.
    apply direct_interaction_adds.
  - intros rows p_alpha totalnumcoeffs mcoeffsb ref_box_num bwsqd_times_2
      ref_hrcentroid mcoeffs.
    apply EvaluateMultipoleExpansion_adds.
  - intros delta nterms nallbx nsides locexp nlmax queries_assigned center
      totalnumcoeffs.
    apply EvaluateLocalExpansionForAllQueries_sum.
  - intros NC delta nterms nallbx nsides sidelengths mincoords locexp center
      queries_assigned references_assigned mcoeffs a rows0 references dim
      nfmax nlmax Ea Lr Lq Hnf F2 E0 Hnl Hp Hd Wq Wc Rc Nc Wl Rl Nl N V Ls.
    unfold GaussTransform_.
    destruct (FinalizeSum_direct this delta nterms nallbx nsides sidelengths
                mincoords locexp nfmax nlmax
                (to_index (add (sqrt (mul (log (tau_ this))
                                        (neg (of_index 2))))
                             (of_index 1)))
                center queries_assigned references_assigned mcoeffs a rows0
                references Ea Lr Lq Hnf F2 E0 Hnl Hp Hd Wq Wc Rc Nc Wl Rl Nl
                N V) as (s & E & S & V0 & V1 & U).
    exists s.
    exists (set_densities (ss_this s)
              (map (fun x =>
                      div x (mul (CalcNormConstant (kernel_ (ss_this s))
                                    (n_rows (qset_ (ss_this s))))
                                 (of_index (n_cols (rset_ (ss_this s))))))
                 (densities_ (ss_this s)))).
    destruct S as (S1 & S2 & S3 & S4 & S5 & S6).
    split; [exact E |]. split; [repeat split; assumption |].
    split; [exact V0 |]. split; [exact V1 |]. split; [exact U |].
    split.
    + apply NormalizeDensities_value. rewrite S6, S1. exact Ls.
    + intros q query d Hq Eq Ed. cbn [set_densities densities_].
      rewrite S1, S2, S3.
      pose proof (V0 q query d Hq Eq Ed) as Ev.
      apply at_Ok in Ev as [H0 Ev]. apply at_Ok. split; [exact H0 |].
      clear - Ev. revert Ev. generalize (Z.to_nat q) as k.
      induction (densities_ (ss_this s)) as [| x l IH]; intros [| k] Ev;
        cbn in Ev |- *; try discriminate.
      * injection Ev as ->. reflexivity.
      * apply (IH k Ev).
Qed.

Module RealScaling.
Import RealModel RealFacts.

Lemma normalization_is_the_only_scaling_witness :
  NormalizeDensities_ four_queries =
  Ok (set_densities four_queries
        (map (fun x =>
                div x (mul (CalcNormConstant (kernel_ four_queries)
                              (n_rows (qset_ four_queries)))
                           (of_index (n_cols (rset_ four_queries)))))
             (densities_ four_queries))) /\
  (exists this',
     direct_interaction four_queries (/ 8)%R [0; 1; 2; 3] [0; 1] = Ok this' /\
     same_but_densities four_queries this' /\
     (forall q query d, In q [0; 1; 2; 3] ->
        col (qset_ four_queries) q = Ok query ->
        at_ (densities_ four_queries) q = Ok d ->
        at_ (densities_ this') q
        = Ok (kernel_sum (/ 8)%R query [[0%R]; [(/ 64)%R]] d)) /\
     (forall q, ~ In q [0; 1; 2; 3] ->
        at_ (densities_ this') q = at_ (densities_ four_queries) q)) /\
  (exists this',
     EvaluateMultipoleExpansion_ four_queries [0; 1; 2; 3] 2 2
       {| n_rows := 2; columns := [[3%R; 5%R]] |} 0 (/ 8)%R [0%R]
     = Ok this' /\
     same_but_densities four_queries this' /\
     (forall q query d, In q [0; 1; 2; 3] ->
        col (qset_ four_queries) q = Ok query ->
        at_ (densities_ four_queries) q = Ok d ->
        at_ (densities_ this') q
        = Ok (add d (multipole_value (Z.to_nat 2) (sqrt (/ 8)%R)
                       [3%R; 5%R] [0%R] query))) /\
     (forall q, ~ In q [0; 1; 2; 3] ->
        at_ (densities_ this') q = at_ (densities_ four_queries) q)) /\
  (exists this',
     EvaluateLocalExpansionForAllQueries_ four_queries (/ 8)%R 2 2 [2]
       {| n_rows := 2; columns := [[3%R; 5%R]; [7%R; 11%R]] |} 1
       [[0; 1; 2]; [3]] {| n_rows := 1; columns := [[0%R]; [1%R]] |} 2
     = Ok this' /\
     same_but_densities four_queries this' /\
     (forall i rows q query x_Q lcoeffs d,
        [[0; 1; 2]; [3]] !! i = Some rows -> In q rows ->
        col (qset_ four_queries) q = Ok query ->
        col {| n_rows := 1; columns := [[0%R]; [1%R]] |} (Z.of_nat i)
        = Ok x_Q ->
        col {| n_rows := 2; columns := [[3%R; 5%R]; [7%R; 11%R]] |}
          (Z.of_nat i) = Ok lcoeffs ->
        at_ (densities_ four_queries) q = Ok d ->
        at_ (densities_ this') q
        = Ok (if size rows <=? 1 then d
              else add d (local_value (Z.to_nat 2) (sqrt (/ 8)%R) lcoeffs
                            x_Q query))) /\
     (forall q, ~ In q (concat [[0; 1; 2]; [3]]) ->
        at_ (densities_ this') q = at_ (densities_ four_queries) q)) /\
  (exists s this',
     GaussTransform_ one_query (/ 8)%R 1 1 [1] [(/ 64)%R] [0%R] zero_1x1
       (center_1x1 0) [[]] [[]] zero_1x1 = Ok s /\
     same_but_densities one_query (ss_this s) /\
     (forall q query d, In q [0] ->
        col (qset_ one_query) q = Ok query ->
        at_ (densities_ one_query) q = Ok d ->
        at_ (densities_ (ss_this s)) q
        = Ok (kernel_sum (/ 8)%R query (concat [[[0%R]; [(/ 64)%R]]]) d)) /\
     (forall i rows q query x_Q lcoeffs d, (1 <= i)%nat ->
        [[0]] !! i = Some rows -> In q rows ->
        col (qset_ one_query) q = Ok query ->
        col (center_1x1 0) (Z.of_nat i) = Ok x_Q ->
        col zero_1x1 (Z.of_nat i) = Ok lcoeffs ->
        at_ (densities_ one_query) q = Ok d ->
        at_ (densities_ (ss_this s)) q
        = Ok (if size rows <=? 3 then d
              else add d (local_value (Z.to_nat 1) (sqrt (/ 8)%R) lcoeffs
                            x_Q query))) /\
     (forall q, ~ In q (concat [[0]]) ->
        at_ (densities_ (ss_this s)) q = at_ (densities_ one_query) q) /\
     NormalizeDensities_ (ss_this s) = Ok this' /\
     (forall q query d, In q [0] ->
        col (qset_ one_query) q = Ok query ->
        at_ (densities_ one_query) q = Ok d ->
        at_ (densities_ this') q
        = Ok (div (kernel_sum (/ 8)%R query (concat [[[0%R]; [(/ 64)%R]]]) d)
                (mul (CalcNormConstant (kernel_ one_query)
                        (n_rows (qset_ one_query)))
                     (of_index (n_cols (rset_ one_query))))))).
Proof.
  pose proof (normalization_is_the_only_scaling four_queries)
    as (Hnorm & _ & Hdirect & Hfar & Hlocal & _).
  pose proof (normalization_is_the_only_scaling one_query)
    as (_ & _ & _ & _ & _ & Hpass).
  split; [| split; [| split; [| split]]].
  - apply (Hnorm real_norm_constant). reflexivity.
  - apply (Hdirect (/ 8)%R [0; 1; 2; 3] [0; 1] [[0%R]; [(/ 64)%R]]).
    + repeat constructor; simpl; intuition discriminate.
    + repeat constructor; cbn; lia.
    + repeat constructor.
  - apply (Hfar [0; 1; 2; 3] 2 2
             {| n_rows := 2; columns := [[3%R; 5%R]] |} 0 (/ 8)%R [0%R]
             [3%R; 5%R]);
      try reflexivity; try (cbn; lia).
    + repeat constructor.
    + repeat constructor; simpl; intuition discriminate.
    + repeat constructor; cbn; lia.
  - apply (Hlocal (/ 8)%R 2 2
             [2] {| n_rows := 2; columns := [[3%R; 5%R]; [7%R; 11%R]] |} 1
             [[0; 1; 2]; [3]] {| n_rows := 1; columns := [[0%R]; [1%R]] |}
             2);
      try reflexivity; try (cbn; lia).
    + repeat constructor.
    + repeat constructor.
    + repeat constructor.
    + repeat constructor; simpl; intuition discriminate.
    + repeat constructor; cbn; lia.
  - apply (Hpass real_norm_constant (/ 8)%R 1 1 [1] [(/ 64)%R] [0%R]
             zero_1x1 (center_1x1 0)
             [[]] [[]] zero_1x1
             {| as_center := center_1x1 0; as_queries := [[0]];
                as_references := [[0; 1]] |} [0] [[[0%R]; [(/ 64)%R]]]);
      try reflexivity; try (cbn; lia); cbn [as_references as_queries].
    + exact RealFinal.Assign_one_query.
    + constructor; [vm_compute; discriminate | constructor].
    + repeat constructor.
    + vm_compute. discriminate.
    + repeat constructor.
    + repeat constructor.
    + repeat constructor.
    + repeat constructor; simpl; intuition discriminate.
    + repeat constructor; cbn; lia.
Defined.

End RealScaling.
